(** * torchrl/envs/utils.py: transition engine, episode-boundary aggregation
      and reset merge over nested, dictionary-like batches.

    The development is a shallow embedding of the functions
    [_StepMDP], [step_mdp], [_set], [_set_single_key],
    [_terminated_or_truncated], [_aggregate_end_of_traj] and
    [_update_during_reset], and of [terminated_or_truncated],
    [_per_level_env_check], [make_composite_from_td], [_selective_unsqueeze],
    [clear_mpi_env_vars], [MarlGroupMapType] and [check_marl_grouping].
    Python values that flow through these functions
    are embedded in one universal type [value]; failures are explicit
    ([result]); the only mutable attribute of the stateful engine, its
    [validated] flag, is threaded explicitly. *)

From Stdlib Require Import String Ascii.
From Stdlib Require Import List Bool Arith Lia Permutation.
From Stdlib Require Import Floats.PrimFloat.
From Stdlib Require Import ZArith.
From Stdlib Require DecimalString.
Import ListNotations.

Set Warnings "-register-all".

Local Open Scope string_scope.
Local Open Scope list_scope.

(* ====================================================================== *)
(** ** Exceptions and the error monad *)
(* ====================================================================== *)

Inductive exn_class :=
| KeyError | RuntimeError | ValueError | AttributeError | TypeError
| IndexError | RecursionError | NotImplementedError.

Record exn := mkExn { exn_type : exn_class; exn_msg : string }.

Inductive result (A : Type) : Type :=
| Ok (a : A)
| Raise (e : exn).
Arguments Ok {A} a.
Arguments Raise {A} e.

Definition bind {A B} (m : result A) (k : A -> result B) : result B :=
  match m with
  | Ok a => k a
  | Raise e => Raise e
  end.

Declare Scope result_scope.
Delimit Scope result_scope with result.
Notation "x <- c ;; k" := (bind c (fun x => k))
  (at level 100, c at next level, right associativity) : result_scope.
Notation "' p <- c ;; k" := (bind c (fun x => let 'p := x in k))
  (at level 100, p pattern, c at next level, right associativity) : result_scope.
Local Open Scope result_scope.

Definition raise {A} (c : exn_class) (msg : string) : result A :=
  Raise (mkExn c msg).

(** [try: body except RuntimeError as err: handler(err)]: only failures of
    class [RuntimeError] reach the handler. *)
Definition try_except_RuntimeError {A} (body : result A)
    (handler : exn -> result A) : result A :=
  match body with
  | Ok a => Ok a
  | Raise e =>
      match exn_type e with
      | RuntimeError => handler e
      | _ => Raise e
      end
  end.

(** [re.match(pattern, s)] for a pattern without metacharacters: the pattern
    must occur at the start of [s]. *)
Definition re_match (pattern s : string) : bool := String.prefix pattern s.

Fixpoint mapM {A B} (f : A -> result B) (l : list A) : result (list B) :=
  match l with
  | [] => Ok []
  | a :: l' => b <- f a ;; bs <- mapM f l' ;; Ok (b :: bs)
  end.

Fixpoint foldM {A B} (f : A -> B -> result A) (l : list B) (a : A) : result A :=
  match l with
  | [] => Ok a
  | b :: l' => a' <- f a b ;; foldM f l' a'
  end.

(* ====================================================================== *)
(** ** Tensors *)
(* ====================================================================== *)

(** A tensor is a shape and its elements in row-major order.  Only boolean
    tensors are computed with; other payloads are relocated, never
    inspected. *)
Inductive storage :=
| Bools (l : list bool)
| Floats (l : list float).

Record tensor := mkTensor { shape : list nat; data : storage }.

Definition prod (s : list nat) : nat := fold_right Nat.mul 1 s.
Definition ndim (t : tensor) : nat := length (shape t).
Definition slice {A} (start len : nat) (l : list A) : list A :=
  firstn len (skipn start l).
Definition insert_at {A} (i : nat) (x : A) (l : list A) : list A :=
  firstn i l ++ x :: skipn i l.
Definition remove_at {A} (i : nat) (l : list A) : list A :=
  firstn i l ++ skipn (S i) l.

Definition shape_eqb (s1 s2 : list nat) : bool :=
  if list_eq_dec Nat.eq_dec s1 s2 then true else false.

Definition storage_len (d : storage) : nat :=
  match d with Bools l => length l | Floats l => length l end.

Definition bool_tensor (s : list nat) (l : list bool) : tensor :=
  mkTensor s (Bools l).

(** [torch.zeros(shape, dtype=torch.bool)] and [torch.ones(...)]. *)
Definition zeros_bool (s : list nat) : tensor := bool_tensor s (repeat false (prod s)).
Definition ones_bool (s : list nat) : tensor := bool_tensor s (repeat true (prod s)).

(** [t.any()] and [t.all()]: truth of some / every element. *)
Definition float_truth (f : float) : bool := negb (PrimFloat.eqb f 0%float).
Definition truths (d : storage) : list bool :=
  match d with Bools l => l | Floats l => map float_truth l end.
Definition tensor_any (t : tensor) : bool := existsb (fun b => b) (truths (data t)).
Definition tensor_all (t : tensor) : bool := forallb (fun b => b) (truths (data t)).

(** [a | b] on boolean tensors of one shape, or with a zero-dimensional
    operand.  Any other broadcasting between unequal shapes lies outside the
    model and is reported as a failure, as is a non-boolean operand (torch
    has no bitwise or on floats). *)
Definition BITWISE_OR_FLOAT : string := "bitwise_or not implemented for 'Float'".
Definition BROADCAST_MSG : string := "The size of tensor a must match the size of tensor b".

Fixpoint zip_with {A B C} (f : A -> B -> C) (l1 : list A) (l2 : list B) : list C :=
  match l1, l2 with
  | a :: l1', b :: l2' => f a b :: zip_with f l1' l2'
  | _, _ => []
  end.

Definition tensor_or (a b : tensor) : result tensor :=
  match data a, data b with
  | Bools la, Bools lb =>
      if shape_eqb (shape a) (shape b)
      then Ok (bool_tensor (shape a) (zip_with orb la lb))
      else
        match shape a, la, shape b, lb with
        | [], [x], _, _ => Ok (bool_tensor (shape b) (map (orb x) lb))
        | _, _, [], [y] => Ok (bool_tensor (shape a) (map (fun x => orb x y) la))
        | _, _, _, _ => raise RuntimeError BROADCAST_MSG
        end
  | _, _ => raise RuntimeError BITWISE_OR_FLOAT
  end.

(** [False | t] with the Python scalar [False] on the left. *)
Definition or_False (t : tensor) : result tensor :=
  match data t with
  | Bools _ => Ok t
  | Floats _ => raise RuntimeError BITWISE_OR_FLOAT
  end.

(** [~t]. *)
Definition tensor_not (t : tensor) : result tensor :=
  match data t with
  | Bools l => Ok (bool_tensor (shape t) (map negb l))
  | Floats _ => raise TypeError "~ (operator.invert) is only implemented on integer and Boolean-type tensors"
  end.

(** [t.squeeze(-1)]: drops the last dimension when it has size one. *)
Definition squeeze_last (t : tensor) : tensor :=
  match rev (shape t) with
  | 1 :: r => mkTensor (rev r) (data t)
  | _ => t
  end.

(** [t.flatten(n, t.ndim - 1).any(-1)]: the dimensions from [n] on are
    collapsed by logical or. *)
Definition flatten_any (n : nat) (t : tensor) : tensor :=
  let lead := firstn n (shape t) in
  let w := prod (skipn n (shape t)) in
  bool_tensor lead
    (map (fun i => existsb (fun b => b) (slice (i * w) w (truths (data t))))
         (seq 0 (prod lead))).

(** [t.reshape(s)]. *)
Definition reshape (s : list nat) (t : tensor) : result tensor :=
  if Nat.eqb (prod s) (storage_len (data t)) then Ok (mkTensor s (data t))
  else raise RuntimeError "shape is invalid for input size".

(** [torch.where(expand_as_right(cond, a), a, b)] with [cond] of the batch
    shape and [a], [b] of one shape that extends it: element [i] of the
    result is taken from [a] where the mask is true at [i]'s batch index and
    from [b] elsewhere. *)
Fixpoint where_list {A} (mask : list bool) (inner : nat) (i : nat) (la lb : list A) : list A :=
  match la, lb with
  | a :: la', b :: lb' =>
      (if nth (i / inner) mask false then a else b)
        :: where_list mask inner (S i) la' lb'
  | _, _ => []
  end.

Definition is_prefix (p l : list nat) : bool := shape_eqb (firstn (length p) l) p.

Definition torch_where (cond a b : tensor) : result tensor :=
  match data cond with
  | Floats _ => raise RuntimeError "where expected condition to be a boolean tensor"
  | Bools mask =>
      if negb (shape_eqb (shape a) (shape b) && is_prefix (shape cond) (shape a))
      then raise RuntimeError BROADCAST_MSG
      else
        let inner := prod (skipn (length (shape cond)) (shape a)) in
        match data a, data b with
        | Bools la, Bools lb => Ok (mkTensor (shape a) (Bools (where_list mask inner 0 la lb)))
        | Floats la, Floats lb => Ok (mkTensor (shape a) (Floats (where_list mask inner 0 la lb)))
        | _, _ => raise RuntimeError "expected scalar type"
        end
  end.

(** The padding value [pad=0] as a tensor shaped and typed like [t]. *)
Definition pad_like (t : tensor) : tensor :=
  match data t with
  | Bools l => mkTensor (shape t) (Bools (map (fun _ => false) l))
  | Floats l => mkTensor (shape t) (Floats (map (fun _ => 0%float) l))
  end.

(** Stacking and unbinding along a dimension. *)
Definition stack_lists {A} (outer inner : nat) (parts : list (list A)) : list A :=
  flat_map (fun o => flat_map (slice (o * inner) inner) parts) (seq 0 outer).

Definition select_list {A} (outer n inner i : nat) (d : list A) : list A :=
  flat_map (fun o => slice ((o * n + i) * inner) inner d) (seq 0 outer).

Definition to_floats (d : storage) : list float :=
  match d with
  | Bools l => map (fun b : bool => if b then 1%float else 0%float) l
  | Floats l => l
  end.
Definition is_bools (d : storage) : bool :=
  match d with Bools _ => true | Floats _ => false end.

Definition HET_SHAPE_MSG : string :=
  "Found more than one unique shape in the tensors to be stacked.".

(** [torch.stack(ts, dim)] as the lazy stack's lookup performs it: tensors of
    distinct shapes are refused with the heterogeneous-shape message. *)
Definition stack_tensors (dim : nat) (ts : list tensor) : result tensor :=
  match ts with
  | [] => raise RuntimeError "stack expects a non-empty TensorList"
  | t0 :: _ =>
      if forallb (fun t => shape_eqb (shape t) (shape t0)) ts then
        let s := shape t0 in
        let outer := prod (firstn dim s) in
        let inner := prod (skipn dim s) in
        let s' := insert_at dim (length ts) s in
        if forallb (fun t => is_bools (data t)) ts
        then Ok (mkTensor s' (Bools (stack_lists outer inner (map (fun t => truths (data t)) ts))))
        else Ok (mkTensor s' (Floats (stack_lists outer inner (map (fun t => to_floats (data t)) ts))))
      else raise RuntimeError HET_SHAPE_MSG
  end.

(** [t.select(dim, i)]: element [i] of [t.unbind(dim)]. *)
Definition select_tensor (dim i : nat) (t : tensor) : tensor :=
  let s := shape t in
  let outer := prod (firstn dim s) in
  let n := nth dim s 0 in
  let inner := prod (skipn (S dim) s) in
  mkTensor (remove_at dim s)
    match data t with
    | Bools l => Bools (select_list outer n inner i l)
    | Floats l => Floats (select_list outer n inner i l)
    end.

(* ====================================================================== *)
(** ** Values and the structured-batch adapter *)
(* ====================================================================== *)

(** Every Python value these functions handle: [None], a tensor, a
    [TensorDict] (batch size and insertion-ordered entries) or a
    [LazyStackedTensorDict] (stack dimension and the stacked batches). *)
Inductive value :=
| PyNone
| Tensor (t : tensor)
| TensorDict (batch_size : list nat) (items : list (string * value))
| LazyStackedTensorDict (stack_dim : nat) (tensordicts : list value).

(** A canonical (unravelled) nested key is the sequence of its segments; a
    plain string key is the one-segment sequence. *)
Definition NestedKey := list string.

Definition key_eq_dec : forall a b : NestedKey, {a = b} + {a <> b} :=
  list_eq_dec string_dec.
Definition key_eqb (a b : NestedKey) : bool := if key_eq_dec a b then true else false.
Definition key_in (k : NestedKey) (l : list NestedKey) : bool := existsb (key_eqb k) l.

Definition is_tensor_collection (v : value) : bool :=
  match v with
  | TensorDict _ _ | LazyStackedTensorDict _ _ => true
  | _ => false
  end.

Definition is_None (v : value) : bool :=
  match v with PyNone => true | _ => false end.

(** Dictionary primitives on the entry list. *)
Fixpoint assoc (k : string) (l : list (string * value)) : option value :=
  match l with
  | [] => None
  | (k', v) :: l' => if String.eqb k k' then Some v else assoc k l'
  end.

Fixpoint assoc_set (k : string) (v : value) (l : list (string * value))
    : list (string * value) :=
  match l with
  | [] => [(k, v)]
  | (k', v') :: l' =>
      if String.eqb k k' then (k, v) :: l' else (k', v') :: assoc_set k v l'
  end.

Fixpoint assoc_del (k : string) (l : list (string * value)) : list (string * value) :=
  match l with
  | [] => []
  | (k', v') :: l' =>
      if String.eqb k k' then assoc_del k l' else (k', v') :: assoc_del k l'
  end.

Inductive default := NO_DEFAULT | DefaultNone.

Definition default_get (key : string) (d : default) : result value :=
  match d with
  | NO_DEFAULT => raise KeyError key
  | DefaultNone => Ok PyNone
  end.

Fixpoint tensors_of (vs : list value) : option (list tensor) :=
  match vs with
  | [] => Some []
  | Tensor t :: vs' => option_map (cons t) (tensors_of vs')
  | _ :: _ => None
  end.

(** What a lazy stack returns for the values found in its elements: tensors
    are stacked (and refused when their shapes differ), batches are stacked
    lazily. *)
Definition stack_values (dim : nat) (vs : list value) : result value :=
  match tensors_of vs with
  | Some ts => t <- stack_tensors dim ts ;; Ok (Tensor t)
  | None =>
      if forallb is_tensor_collection vs then Ok (LazyStackedTensorDict dim vs)
      else raise RuntimeError "cannot stack tensors with batches"
  end.

(** [td._get_str(key, default)]; an entry that holds [None] reads as
    absent. *)
Fixpoint _get_str (v : value) (key : string) (d : default) : result value :=
  match v with
  | TensorDict _ items =>
      match assoc key items with
      | None | Some PyNone => default_get key d
      | Some x => Ok x
      end
  | LazyStackedTensorDict dim tds =>
      found <- (fix collect (l : list value) : result (option (list value)) :=
                  match l with
                  | [] => Ok (Some [])
                  | td :: l' =>
                      x <- _get_str td key d ;;
                      if is_None x then Ok None
                      else r <- collect l' ;; Ok (option_map (cons x) r)
                  end) tds ;;
      match found with
      | None => default_get key d
      | Some vs => stack_values dim vs
      end
  | _ => raise AttributeError "_get_str"
  end.

Definition EXPECTED_TD : string := "Expected a TensorDictBase instance".

(** [td.get(key)] and [td.get(key, None)] for a nested key. *)
Fixpoint get_from (v : value) (key : NestedKey) (d : default) : result value :=
  match key with
  | [] => raise IndexError "tuple index out of range"
  | [k] => _get_str v k d
  | k :: rest =>
      first <- _get_str v k d ;;
      match first with
      | PyNone => Ok PyNone
      | Tensor _ => raise ValueError EXPECTED_TD
      | _ => get_from first rest d
      end
  end.

Definition get (v : value) (key : NestedKey) : result value := get_from v key NO_DEFAULT.
Definition get_or_None (v : value) (key : NestedKey) : result value :=
  get_from v key DefaultNone.

(** [td.keys()]: the entry names; a lazy stack shows the names its elements
    share. *)
Fixpoint keys (v : value) : result (list string) :=
  match v with
  | TensorDict _ items => Ok (map fst items)
  | LazyStackedTensorDict _ tds =>
      match tds with
      | [] => Ok []
      | td0 :: rest =>
          k0 <- keys td0 ;;
          (fix inter (l : list value) (acc : list string) : result (list string) :=
             match l with
             | [] => Ok acc
             | td :: l' =>
                 ks <- keys td ;;
                 inter l' (filter (fun k => existsb (String.eqb k) ks) acc)
             end) rest k0
      end
  | _ => raise AttributeError "keys"
  end.

(** [td.empty()]: same batch size, no entry. *)
Fixpoint empty (v : value) : result value :=
  match v with
  | TensorDict bs _ => Ok (TensorDict bs [])
  | LazyStackedTensorDict dim tds =>
      es <- (fix go (l : list value) : result (list value) :=
               match l with
               | [] => Ok []
               | td :: l' => e <- empty td ;; es <- go l' ;; Ok (e :: es)
               end) tds ;;
      Ok (LazyStackedTensorDict dim es)
  | _ => raise AttributeError "empty"
  end.

(** [td.batch_size] and [td.ndim]. *)
Fixpoint batch_size_of (v : value) : result (list nat) :=
  match v with
  | TensorDict bs _ => Ok bs
  | LazyStackedTensorDict dim tds =>
      match tds with
      | [] => raise RuntimeError "empty stack"
      | td0 :: _ => bs <- batch_size_of td0 ;; Ok (insert_at dim (length tds) bs)
      end
  | _ => raise AttributeError "batch_size"
  end.

(** Element [i] along dimension [dim] of a value ([v.unbind(dim)[i]]). *)
Fixpoint select_dim (dim i : nat) (v : value) : value :=
  match v with
  | PyNone => PyNone
  | Tensor t => Tensor (select_tensor dim i t)
  | TensorDict bs items =>
      TensorDict (remove_at dim bs)
        ((fix go (l : list (string * value)) : list (string * value) :=
            match l with
            | [] => []
            | (k, x) :: l' => (k, select_dim dim i x) :: go l'
            end) items)
  | LazyStackedTensorDict sd tds =>
      if Nat.eqb dim sd then nth i tds PyNone
      else if Nat.ltb dim sd
           then LazyStackedTensorDict (sd - 1) (map (select_dim dim i) tds)
           else LazyStackedTensorDict sd (map (select_dim (dim - 1) i) tds)
  end.

Definition value_shape (v : value) : result (list nat) :=
  match v with
  | Tensor t => Ok (shape t)
  | _ => batch_size_of v
  end.

Definition unbind (v : value) (dim : nat) : result (list value) :=
  match v with
  | LazyStackedTensorDict sd tds =>
      if Nat.eqb dim sd then Ok tds
      else s <- batch_size_of v ;;
           if Nat.ltb dim (length s)
           then Ok (map (fun i => select_dim dim i v) (seq 0 (nth dim s 0)))
           else raise IndexError "Dimension out of range"
  | PyNone => raise AttributeError "unbind"
  | _ =>
      s <- value_shape v ;;
      if Nat.ltb dim (length s)
      then Ok (map (fun i => select_dim dim i v) (seq 0 (nth dim s 0)))
      else raise IndexError "Dimension out of range"
  end.

Fixpoint zip {A B} (l1 : list A) (l2 : list B) : list (A * B) :=
  match l1, l2 with
  | a :: l1', b :: l2' => (a, b) :: zip l1' l2'
  | _, _ => []
  end.

(** [td._set_str(key, val, inplace=False, validated=True)]: the entry is
    stored as given; a lazy stack unbinds the value along its stack
    dimension and stores one piece in each element. *)
Fixpoint _set_str (dest : value) (key : string) (val : value) : result value :=
  match dest with
  | TensorDict bs items => Ok (TensorDict bs (assoc_set key val items))
  | LazyStackedTensorDict dim tds =>
      pieces <- unbind val dim ;;
      if negb (Nat.eqb (length pieces) (length tds))
      then raise RuntimeError "the stacked value and the stack differ in length"
      else
        tds' <- (fix go (l : list value) (ps : list value) : result (list value) :=
                   match l, ps with
                   | td :: l', p :: ps' =>
                       td' <- _set_str td key p ;; r <- go l' ps' ;; Ok (td' :: r)
                   | _, _ => Ok []
                   end) tds pieces ;;
        Ok (LazyStackedTensorDict dim tds')
  | _ => raise AttributeError "_set_str"
  end.

(** [source.tensordicts]. *)
Definition tensordicts_of (v : value) : result (list value) :=
  match v with
  | LazyStackedTensorDict _ tds => Ok tds
  | _ => raise AttributeError "tensordicts"
  end.

(** Nesting depth of a value; it bounds the recursion of the key-copying
    routines, which descend one level of the source at every call. *)
Fixpoint depth (v : value) : nat :=
  match v with
  | TensorDict _ items =>
      S ((fix go (l : list (string * value)) : nat :=
            match l with
            | [] => 0
            | (_, x) :: l' => Nat.max (depth x) (go l')
            end) items)
  | LazyStackedTensorDict _ tds =>
      S ((fix go (l : list value) : nat :=
            match l with
            | [] => 0
            | x :: l' => Nat.max (depth x) (go l')
            end) tds)
  | _ => 0
  end.

(** [LazyStackedTensorDict.lazy_stack(l, dim)]. *)
Definition lazy_stack (l : list value) (dim : nat) : result value :=
  match l with
  | [] => raise RuntimeError "cannot stack an empty list"
  | _ => Ok (LazyStackedTensorDict dim l)
  end.

(** The elements of a lazy stack after an element-wise loop over
    [zip(source.tensordicts, dest.tensordicts)] updated the first ones. *)
Definition restack (dest : value) (updated : list value) : value :=
  match dest with
  | LazyStackedTensorDict dim tds =>
      LazyStackedTensorDict dim (updated ++ skipn (length updated) tds)
  | _ => dest
  end.

(* ====================================================================== *)
(** ** Key copying: [_set] and [_set_single_key] *)
(* ====================================================================== *)

Definition HET_PATTERN : string := "Found more than one unique shape in the tensors".
Definition RECURSION_MSG : string := "maximum recursion depth exceeded".

(** The element-wise loop of the [except] clause of [_set]: each pair of
    [zip(source.tensordicts, dest.tensordicts)] is processed in turn. *)
Fixpoint het_loop (f : value -> value -> result (bool * value))
    (pairs : list (value * value)) (non_empty_local : bool)
    : result (bool * list value) :=
  match pairs with
  | [] => Ok (non_empty_local, [])
  | (s_td, d_td) :: rest =>
      '(b, d_td') <- f s_td d_td ;;
      '(ne, ds) <- het_loop f rest (b || non_empty_local) ;;
      Ok (ne, d_td' :: ds)
  end.

(** [_set(source, dest, key, total_key, excluded)].  The destination is
    mutated in place by the source; here the updated destination is returned
    next to the boolean result. *)
Fixpoint _set_rec (fuel : nat) (source dest : value) (key : string)
    (total_key : NestedKey) (excluded : list NestedKey) : result (bool * value) :=
  match fuel with
  | 0 => raise RecursionError RECURSION_MSG
  | S fuel' =>
      let total_key := total_key ++ [key] in
      if negb (key_in total_key excluded) then
        try_except_RuntimeError
          (val <- _get_str source key NO_DEFAULT ;;
           if is_tensor_collection val then
             new_val <- _get_str dest key DefaultNone ;;
             new_val <- (if is_None new_val then empty val else Ok new_val) ;;
             subkeys <- keys val ;;
             '(non_empty_local, new_val) <-
               foldM (fun (st : bool * value) subkey =>
                        let '(non_empty_local, new_val) := st in
                        '(b, new_val') <- _set_rec fuel' val new_val subkey total_key excluded ;;
                        Ok (b || non_empty_local, new_val'))
                     subkeys (false, new_val) ;;
             if non_empty_local
             then dest' <- _set_str dest key new_val ;; Ok (true, dest')
             else Ok (false, dest)
           else
             dest' <- _set_str dest key val ;; Ok (true, dest'))
          (fun err =>
             if re_match HET_PATTERN (exn_msg err) then
               s_tds <- tensordicts_of source ;;
               d_tds <- tensordicts_of dest ;;
               '(non_empty_local, d_tds') <-
                 het_loop (fun s_td d_td => _set_rec fuel' s_td d_td key total_key excluded)
                          (zip s_tds d_tds) false ;;
               Ok (non_empty_local, restack dest d_tds')
             else Raise err)
      else Ok (false, dest)
  end.

Definition _set (source dest : value) (key : string) (total_key : NestedKey)
    (excluded : list NestedKey) : result (bool * value) :=
  _set_rec (S (depth source)) source dest key total_key excluded.

(** What one iteration of the loop of [_set_single_key] leaves behind: the
    loop goes on below ([Descend]: [source = val], [dest = new_val]) or at
    the same level ([Stay]). *)
Inductive ssk_step :=
| Descend (val new_val dest : value)
| Stay (dest : value).

Definition _set_single_key_body (source dest : value) (k : string) : result ssk_step :=
  val <- _get_str source k DefaultNone ;;
  if is_tensor_collection val then
    new_val <- _get_str dest k DefaultNone ;;
    if is_None new_val then
      new_val <- empty val ;;
      dest' <- _set_str dest k new_val ;;
      Ok (Descend val new_val dest')
    else Ok (Descend val new_val dest)
  else
    dest' <- _set_str dest k val ;; Ok (Stay dest').

Fixpoint ssk_het_loop (f : value -> value -> result value)
    (pairs : list (value * value)) : result (list value) :=
  match pairs with
  | [] => Ok []
  | (s_td, d_td) :: rest =>
      d_td' <- f s_td d_td ;; ds <- ssk_het_loop f rest ;; Ok (d_td' :: ds)
  end.

(** [_set_single_key(source, dest, key)] at [clone=False], [device=None]
    (the values of every call in this file), for an unravelled [key].  The
    batch reached by the loop is the object stored in its parent, so what is
    written below is written back into the parent here. *)
Fixpoint _set_single_key_rec (fuel : nat) (source dest : value) (key : NestedKey)
    : result value :=
  match key with
  | [] => Ok dest
  | k :: rest =>
      match fuel with
      | 0 => raise RecursionError RECURSION_MSG
      | S fuel' =>
          match _set_single_key_body source dest k with
          | Ok (Descend val new_val dest') =>
              new_val' <- _set_single_key_rec fuel' val new_val rest ;;
              _set_str dest' k new_val'
          | Ok (Stay dest') => _set_single_key_rec fuel' source dest' rest
          | Raise err =>
              match exn_type err with
              | RuntimeError =>
                  if re_match HET_PATTERN (exn_msg err) then
                    s_tds <- tensordicts_of source ;;
                    d_tds <- tensordicts_of dest ;;
                    d_tds' <- ssk_het_loop
                                (fun s_td d_td => _set_single_key_rec fuel' s_td d_td [k])
                                (zip s_tds d_tds) ;;
                    Ok (restack dest d_tds')
                  else Raise err
              | _ => Raise err
              end
          end
      end
  end.

Definition _set_single_key (source dest : value) (key : NestedKey) : result value :=
  _set_single_key_rec (S (depth source + length key)) source dest key.

(* ====================================================================== *)
(** ** The stateless transition: [step_mdp] *)
(* ====================================================================== *)

Definition NEXT : string := "next".

(** The exclusion set of a configuration. *)
Definition excluded_of (exclude_reward exclude_done exclude_action : bool)
    (reward_keys done_keys action_keys : list NestedKey) : list NestedKey :=
  (if exclude_reward then reward_keys else [])
    ++ (if exclude_done then done_keys else [])
    ++ (if exclude_action then action_keys else []).

(** [step_mdp(tensordict, keep_other=..., exclude_reward=..., exclude_done=...,
    exclude_action=..., reward_keys=..., done_keys=..., action_keys=...)] at
    [next_tensordict=None]; the key arguments are lists of unravelled keys. *)
Fixpoint step_mdp (tensordict : value)
    (keep_other exclude_reward exclude_done exclude_action : bool)
    (reward_keys done_keys action_keys : list NestedKey) : result value :=
  match tensordict with
  | LazyStackedTensorDict sd tds =>
      outs <- (fix go (l : list value) : result (list value) :=
                 match l with
                 | [] => Ok []
                 | td :: l' =>
                     o <- step_mdp td keep_other exclude_reward exclude_done
                            exclude_action reward_keys done_keys action_keys ;;
                     os <- go l' ;; Ok (o :: os)
                 end) tds ;;
      lazy_stack outs sd
  | _ =>
      let excluded := excluded_of exclude_reward exclude_done exclude_action
                        reward_keys done_keys action_keys in
      next_td <- get tensordict [NEXT] ;;
      out <- empty next_td ;;
      let total_key : NestedKey := [] in
      out <- (if keep_other then
                ks <- keys tensordict ;;
                foldM (fun out key =>
                         if negb (String.eqb key NEXT)
                         then '(_, out') <- _set tensordict out key total_key excluded ;;
                              Ok out'
                         else Ok out) ks out
              else if negb exclude_action then
                foldM (fun out action_key => _set_single_key tensordict out action_key)
                      action_keys out
              else Ok out) ;;
      ks <- keys next_td ;;
      foldM (fun out key =>
               '(_, out') <- _set next_td out key total_key excluded ;; Ok out')
            ks out
  end.

(* ====================================================================== *)
(** ** The stateful transition: [_StepMDP] *)
(* ====================================================================== *)

(** The nested dictionary [_repr_key_list_as_tree] returns: a segment maps to
    [None] (copy the entry) or to a sub-dictionary (descend). *)
Inductive key_tree := KeyTree (children : list (string * option key_tree)).

Fixpoint tree_assoc (k : string) (l : list (string * option key_tree))
    : option (option key_tree) :=
  match l with
  | [] => None
  | (k', v) :: l' => if String.eqb k k' then Some v else tree_assoc k l'
  end.

Fixpoint tree_assoc_set (k : string) (v : option key_tree)
    (l : list (string * option key_tree)) : list (string * option key_tree) :=
  match l with
  | [] => [(k, v)]
  | (k', v') :: l' =>
      if String.eqb k k' then (k, v) :: l' else (k', v') :: tree_assoc_set k v l'
  end.

(** One [TensorDict.set(key, zeros)] of the construction
    [TensorDict({key: zeros for key in key_list})], read on the tree. *)
Fixpoint tree_insert (key : NestedKey) (t : key_tree) : result key_tree :=
  let 'KeyTree children := t in
  match key with
  | [] => raise IndexError "tuple index out of range"
  | [k] => Ok (KeyTree (tree_assoc_set k None children))
  | k :: rest =>
      match tree_assoc k children with
      | None =>
          sub <- tree_insert rest (KeyTree []) ;;
          Ok (KeyTree (tree_assoc_set k (Some sub) children))
      | Some (Some sub) =>
          sub' <- tree_insert rest sub ;;
          Ok (KeyTree (tree_assoc_set k (Some sub') children))
      | Some None => raise AttributeError "_set_tuple"
      end
  end.

Definition _repr_key_list_as_tree (key_list : list NestedKey) : result key_tree :=
  foldM (fun t key => tree_insert key t) key_list (KeyTree []).

Definition stack_dim_of (v : value) : result nat :=
  match v with
  | LazyStackedTensorDict sd _ => Ok sd
  | _ => raise AttributeError "stack_dim"
  end.

(** [_StepMDP._grab_and_place(nested_key_dict, data_in, data_out)]; returns
    the updated [data_out]. *)
Fixpoint _grab_and_place (nested_key_dict : key_tree) (data_in data_out : value)
    : result value :=
  let 'KeyTree children := nested_key_dict in
  (fix loop (l : list (string * option key_tree)) (data_out : value) : result value :=
     match l with
     | [] => Ok data_out
     | (key, subdict) :: l' =>
         val <- _get_str data_in key NO_DEFAULT ;;
         val <- match subdict with
                | None => Ok val
                | Some sub =>
                    val_out <- _get_str data_out key DefaultNone ;;
                    val_out <- (if is_None val_out then empty val else Ok val_out) ;;
                    match val with
                    | LazyStackedTensorDict sd _ =>
                        vals <- unbind val sd ;;
                        sd_out <- stack_dim_of val_out ;;
                        val_outs <- unbind val_out sd_out ;;
                        rs <- mapM (fun p : value * value =>
                                      _grab_and_place sub (fst p) (snd p))
                                   (zip vals val_outs) ;;
                        Ok (LazyStackedTensorDict sd rs)
                    | _ => _grab_and_place sub val val_out
                    end
                end ;;
         data_out <- _set_str data_out key val ;;
         loop l' data_out
     end) children data_out.

(** What [_StepMDP.__init__] reads from the environment. *)
Record env := mkEnv {
  env_action_keys : list NestedKey;
  env_done_keys : list NestedKey;
  env_reward_keys : list NestedKey;
  env_observation_keys : list NestedKey;   (* full_observation_spec.keys(True, True) *)
  env_state_keys : list NestedKey          (* full_state_spec.keys(True, True) *)
}.

Record _StepMDP := mk_StepMDP {
  action_keys : list NestedKey;
  done_keys : list NestedKey;
  reward_keys : list NestedKey;
  observation_keys : list NestedKey;
  state_keys : list NestedKey;
  excluded : list NestedKey;
  keep_other : bool;
  exclude_action : bool;
  keys_from_root : key_tree;
  keys_from_next : key_tree;
  validated : option bool                   (* None, True or False *)
}.

Definition set_validated (self : _StepMDP) (b : option bool) : _StepMDP :=
  mk_StepMDP (action_keys self) (done_keys self) (reward_keys self)
    (observation_keys self) (state_keys self) (excluded self) (keep_other self)
    (exclude_action self) (keys_from_root self) (keys_from_next self) b.

(** [_StepMDP.__init__(env, keep_other=..., exclude_reward=..., exclude_done=...,
    exclude_action=...)]. *)
Definition _StepMDP_init (e : env)
    (keep_other exclude_reward exclude_done exclude_action : bool) : result _StepMDP :=
  let excluded := excluded_of exclude_reward exclude_done exclude_action
                    (env_reward_keys e) (env_done_keys e) (env_action_keys e) in
  let keys_from_next :=
    env_observation_keys e
      ++ (if negb exclude_reward then env_reward_keys e else [])
      ++ (if negb exclude_done then env_done_keys e else []) in
  let keys_from_root :=
    (if negb exclude_action then env_action_keys e else [])
      ++ (if keep_other then env_state_keys e else []) in
  keys_from_root <- _repr_key_list_as_tree keys_from_root ;;
  keys_from_next <- _repr_key_list_as_tree keys_from_next ;;
  Ok (mk_StepMDP (env_action_keys e) (env_done_keys e) (env_reward_keys e)
        (env_observation_keys e) (env_state_keys e)
        (nodup key_eq_dec excluded) keep_other exclude_action
        keys_from_root keys_from_next None).

(** [tensordict.keys(True, True)]: the paths of the leaves. *)
Fixpoint leaf_keys (v : value) : list NestedKey :=
  match v with
  | TensorDict _ items =>
      (fix go (l : list (string * value)) : list NestedKey :=
         match l with
         | [] => []
         | (k, x) :: l' =>
             (if is_tensor_collection x then map (cons k) (leaf_keys x) else [[k]])
               ++ go l'
         end) items
  | LazyStackedTensorDict _ tds =>
      match (fix inter (l : list value) : option (list NestedKey) :=
               match l with
               | [] => None
               | td :: l' =>
                   match inter l' with
                   | None => Some (leaf_keys td)
                   | Some ks => Some (filter (fun k => key_in k ks) (leaf_keys td))
                   end
               end) tds with
      | Some ks => ks
      | None => []
      end
  | _ => []
  end.

(** [set(a) == set(b)]. *)
Definition set_eqb (a b : list NestedKey) : bool :=
  forallb (fun k => key_in k b) a && forallb (fun k => key_in k a) b.

Definition expected_keys (self : _StepMDP) : list NestedKey :=
  state_keys self ++ action_keys self ++ done_keys self ++ observation_keys self
    ++ map (cons NEXT) (observation_keys self)
    ++ map (cons NEXT) (done_keys self)
    ++ map (cons NEXT) (reward_keys self).

Definition KEY_SET_WARNING : string :=
  "The expected key set and actual key set differ. This will work but with a slower throughput than when the specs match exactly the actual key set in the data.".

(** The effects of a method of the engine: the instance after the call and
    the warnings issued, next to what the call returns. *)
Record effect (A : Type) := mkEffect {
  returned : A;
  self_after : _StepMDP;
  warnings : list string
}.
Arguments mkEffect {A}.
Arguments returned {A}.
Arguments self_after {A}.
Arguments warnings {A}.

(** [_StepMDP.validate(tensordict)]. *)
Definition validate (self : _StepMDP) (tensordict : value) : effect bool :=
  match validated self with
  | Some true => mkEffect true self []
  | None =>
      let expected := expected_keys self in
      let actual := leaf_keys tensordict in
      let v := set_eqb expected actual in
      mkEffect v (set_validated self (Some v)) (if v then [] else [KEY_SET_WARNING])
  | Some false => mkEffect false self []
  end.

(** [_StepMDP.__call__(tensordict)]. *)
Fixpoint __call__ (self : _StepMDP) (tensordict : value) : effect (result value) :=
  match tensordict with
  | LazyStackedTensorDict sd tds =>
      let r :=
        (fix go (l : list value) (self : _StepMDP) : effect (result (list value)) :=
           match l with
           | [] => mkEffect (Ok []) self []
           | td :: l' =>
               let r1 := __call__ self td in
               match returned r1 with
               | Raise e => mkEffect (Raise e) (self_after r1) (warnings r1)
               | Ok o =>
                   let r2 := go l' (self_after r1) in
                   mkEffect (os <- returned r2 ;; Ok (o :: os)) (self_after r2)
                            (warnings r1 ++ warnings r2)
               end
           end) tds self in
      mkEffect (outs <- returned r ;; lazy_stack outs sd) (self_after r) (warnings r)
  | _ =>
      match (next_td <- _get_str tensordict NEXT DefaultNone ;;
             out <- empty next_td ;; Ok (next_td, out)) with
      | Raise e => mkEffect (Raise e) self []
      | Ok (next_td, out) =>
          let v := validate self tensordict in
          let self := self_after v in
          mkEffect
            (if returned v then
               out <- _grab_and_place (keys_from_root self) tensordict out ;;
               _grab_and_place (keys_from_next self) next_td out
             else
               let total_key : NestedKey := [] in
               out <- (if keep_other self then
                         ks <- keys tensordict ;;
                         foldM (fun out key =>
                                  if negb (String.eqb key NEXT)
                                  then '(_, out') <- _set tensordict out key total_key
                                                       (excluded self) ;;
                                       Ok out'
                                  else Ok out) ks out
                       else if negb (exclude_action self) then
                         foldM (fun out action_key =>
                                  _set_single_key tensordict out action_key)
                               (action_keys self) out
                       else Ok out) ;;
               ks <- keys next_td ;;
               foldM (fun out key =>
                        '(_, out') <- _set next_td out key total_key (excluded self) ;;
                        Ok out')
                     ks out)
            self (warnings v)
      end
  end.


(* ====================================================================== *)
(** ** Episode-boundary aggregation: [_terminated_or_truncated] *)
(* ====================================================================== *)

(** A done spec: a leaf spec or a [CompositeSpec] of named specs. *)
Inductive spec :=
| LeafSpec
| CompositeSpec (entries : list (string * spec)).

(** [data.items()]. *)
Definition items_of (data : value) : result (list (string * value)) :=
  match data with
  | TensorDict _ items => Ok items
  | LazyStackedTensorDict _ _ =>
      ks <- keys data ;;
      mapM (fun k => x <- _get_str data k NO_DEFAULT ;; Ok (k, x)) ks
  | _ => raise AttributeError "items"
  end.

(** [full_done_spec.items()]. *)
Definition spec_items (s : spec) : result (list (string * spec)) :=
  match s with
  | CompositeSpec entries => Ok entries
  | LeafSpec => raise AttributeError "items"
  end.

(** [data.set(key, t)] for a string key: the value must carry the batch
    size of [data] in its leading dimensions. *)
Definition BATCH_MISMATCH : string := "batch dimension mismatch".

Definition set_tensor (data : value) (key : string) (t : tensor) : result value :=
  bs <- batch_size_of data ;;
  if is_prefix bs (shape t) then _set_str data key (Tensor t)
  else raise RuntimeError BATCH_MISMATCH.

(** [aggregate = aggregate | done] after [if aggregate is None: aggregate =
    False]. *)
Definition aggregate_or (aggregate : option tensor) (done : value) : result (option tensor) :=
  match done with
  | Tensor t =>
      match aggregate with
      | None => a <- or_False t ;; Ok (Some a)
      | Some a => a' <- tensor_or a t ;; Ok (Some a')
      end
  | _ => raise TypeError "unsupported operand type(s) for |"
  end.

Definition is_done_name (k : string) : bool :=
  String.eqb k "terminated" || String.eqb k "truncated" || String.eqb k "done".

Definition is_composite (s : spec) : bool :=
  match s with CompositeSpec _ => true | LeafSpec => false end.

(** [data.exclude] of the listed keys with [inplace=True]: every listed
    entry that is present is removed. *)
Fixpoint exclude_key (key : NestedKey) : value -> value :=
  match key with
  | [] => fun v => v
  | k :: rest =>
      fix on_value (v : value) : value :=
        match v with
        | TensorDict bs items =>
            match rest with
            | [] => TensorDict bs (assoc_del k items)
            | _ =>
                match assoc k items with
                | Some child => TensorDict bs (assoc_set k (exclude_key rest child) items)
                | None => v
                end
            end
        | LazyStackedTensorDict sd tds => LazyStackedTensorDict sd (map on_value tds)
        | _ => v
        end
  end.

Definition exclude (data : value) (ks : list NestedKey) : value :=
  fold_left (fun d k => exclude_key k d) ks data.

(** The walk's state: the batch (mutated in place by the source) and the
    closure variable [list_of_keys]. *)
Record walk := mkWalk {
  eot : bool;
  walked : value;
  written : list NestedKey
}.

(** The last block of [inner_terminated_or_truncated]. *)
Definition write_aggregate (aggregate : option tensor) (any_eot : bool) (data : value)
    (key : option string) (curr_done_key : NestedKey) (list_of_keys : list NestedKey)
    : result walk :=
  match aggregate with
  | Some aggregate =>
      match key with
      | Some key =>
          bs <- batch_size_of data ;;
          let aggregate :=
            if Nat.ltb (length bs) (ndim aggregate) then squeeze_last aggregate
            else aggregate in
          data <- set_tensor data key aggregate ;;
          Ok (mkWalk (any_eot || tensor_any aggregate) data
                (list_of_keys ++ [curr_done_key ++ [key]]))
      | None => Ok (mkWalk (any_eot || tensor_any aggregate) data list_of_keys)
      end
  | None => Ok (mkWalk any_eot data list_of_keys)
  end.

(** [inner_terminated_or_truncated(data, full_done_spec, key, curr_done_key)]
    of [_terminated_or_truncated]. *)
Fixpoint inner_terminated_or_truncated (fuel : nat) (data : value)
    (full_done_spec : option spec) (key : option string) (curr_done_key : NestedKey)
    (list_of_keys : list NestedKey) : result walk :=
  match fuel with
  | 0 => raise RecursionError RECURSION_MSG
  | S fuel' =>
      match full_done_spec with
      | None =>
          its <- items_of data ;;
          (* first loop: aggregate the direct leaves, collect the sub-batches *)
          '(aggregate, found_leaf, tds) <-
            foldM (fun (st : option tensor * nat * list (string * value)) it =>
                     let '(aggregate, found_leaf, tds) := st in
                     let '(eot_key, item) := it in
                     if is_done_name eot_key then
                       aggregate <- aggregate_or aggregate item ;;
                       Ok (aggregate, found_leaf + 1, tds)
                     else if is_tensor_collection item then
                       Ok (aggregate, found_leaf, tds ++ [(eot_key, item)])
                     else Ok st)
                  its (None, 0, []) ;;
          (* second loop: the sub-batches *)
          '(any_eot, data, list_of_keys) <-
            foldM (fun (st : bool * value * list NestedKey) it =>
                     let '(any_eot, data, list_of_keys) := st in
                     let '(eot_key, item) := it in
                     w <- inner_terminated_or_truncated fuel' item None key
                            (curr_done_key ++ [eot_key]) list_of_keys ;;
                     data <- _set_str data eot_key (walked w) ;;
                     Ok (if Nat.eqb found_leaf 0 then any_eot || eot w else any_eot,
                         data, written w))
                  tds (false, data, list_of_keys) ;;
          write_aggregate aggregate any_eot data key curr_done_key list_of_keys
      | Some full_done_spec =>
          sits <- spec_items full_done_spec ;;
          '(aggregate, found_leaf, composite_spec) <-
            foldM (fun (st : option tensor * nat * list (string * spec)) it =>
                     let '(aggregate, found_leaf, composite_spec) := st in
                     let '(eot_key, item) := it in
                     if is_composite item then
                       Ok (aggregate, found_leaf, composite_spec ++ [(eot_key, item)])
                     else
                       stop <- _get_str data eot_key DefaultNone ;;
                       stop <- (if is_None stop then
                                  bs <- batch_size_of data ;;
                                  Ok (Tensor (zeros_bool (bs ++ [1])))
                                else Ok stop) ;;
                       aggregate <- aggregate_or aggregate stop ;;
                       Ok (aggregate, found_leaf + 1, composite_spec))
                  sits (None, 0, []) ;;
          '(any_eot, data, list_of_keys) <-
            foldM (fun (st : bool * value * list NestedKey) it =>
                     let '(any_eot, data, list_of_keys) := st in
                     let '(eot_key, item) := it in
                     sub <- _get_str data eot_key NO_DEFAULT ;;
                     w <- inner_terminated_or_truncated fuel' sub (Some item) key
                            (curr_done_key ++ [eot_key]) list_of_keys ;;
                     data <- _set_str data eot_key (walked w) ;;
                     Ok (if Nat.eqb found_leaf 0 then eot w || any_eot else any_eot,
                         data, written w))
                  composite_spec (false, data, list_of_keys) ;;
          write_aggregate aggregate any_eot data key curr_done_key list_of_keys
      end
  end.

(** [_terminated_or_truncated(data, full_done_spec, key, write_full_false)];
    returns the boolean and the batch as the call leaves it. *)
Definition _terminated_or_truncated (data : value) (full_done_spec : option spec)
    (key : option string) (write_full_false : bool) : result (bool * value) :=
  w <- inner_terminated_or_truncated (S (depth data)) data full_done_spec key [] [] ;;
  if negb (eot w) && negb write_full_false
  then Ok (eot w, exclude (walked w) (written w))
  else Ok (eot w, walked w).

(* ====================================================================== *)
(** ** Reset signals: [_aggregate_end_of_traj] *)
(* ====================================================================== *)

Definition PARTIAL_MISSING_ERR : string :=
  "Some reset keys were present but not all. Either all the `'_reset'` entries must be present, or none.".

(** Modelled from the spec: [_replace_last] of [torchrl._utils], which is
    not part of this file ("derivable from done-key paths by name
    substitution"): the last segment of the key is replaced. *)
Definition _replace_last (key : NestedKey) (new_ending : string) : NestedKey :=
  removelast key ++ [new_ending].

(** The Python value bound to [reset]: the scalar [False] or a tensor. *)
Inductive reset_value :=
| PyFalse
| ResetTensor (t : tensor).

(** [reset | local_reset]. *)
Definition reset_or (reset : reset_value) (local_reset : tensor) : result reset_value :=
  match reset with
  | PyFalse => t <- or_False local_reset ;; Ok (ResetTensor t)
  | ResetTensor r => t <- tensor_or r local_reset ;; Ok (ResetTensor t)
  end.

(** [if local_reset.ndim > n: local_reset = local_reset.flatten(n,
    local_reset.ndim - 1).any(-1)]. *)
Definition reduce_to (n : nat) (local_reset : value) : result tensor :=
  match local_reset with
  | Tensor t => Ok (if Nat.ltb n (ndim t) then flatten_any n t else t)
  | _ => raise AttributeError "flatten"
  end.

(** The loop over [reset_keys]; [has_missing] is [None], [True] or
    [False]. *)
Fixpoint reset_keys_loop (data : value) (n : nat) (reset_keys : list NestedKey)
    (reset : reset_value) (has_missing : option bool)
    : result (reset_value * option bool) :=
  match reset_keys with
  | [] => Ok (reset, has_missing)
  | key :: rest =>
      local_reset <- get_or_None data key ;;
      if is_None local_reset then
        match has_missing with
        | Some false => raise ValueError PARTIAL_MISSING_ERR
        | _ => reset_keys_loop data n rest reset (Some true)
        end
      else
        match has_missing with
        | Some true => raise ValueError PARTIAL_MISSING_ERR
        | _ =>
            local_reset <- reduce_to n local_reset ;;
            reset <- reset_or reset local_reset ;;
            reset_keys_loop data n rest reset (Some false)
        end
  end.

(** [skim_through(td, reset)]. *)
Fixpoint skim_through (fuel : nat) (n : nat) (td : value) (reset : tensor) : result tensor :=
  match fuel with
  | 0 => raise RecursionError RECURSION_MSG
  | S fuel' =>
      ks <- keys td ;;
      foldM (fun reset key =>
               if String.eqb key "_reset" then
                 local_reset <- _get_str td key NO_DEFAULT ;;
                 local_reset <- reduce_to n local_reset ;;
                 tensor_or reset local_reset
               else
                 x <- _get_str td key DefaultNone ;;
                 if is_tensor_collection x then skim_through fuel' n x reset
                 else Ok reset)
            ks reset
  end.

(** [if done_keys is not None and reset_keys is None: reset_keys = {...}]; the
    set is enumerated without repetition. *)
Definition reset_keys_of (reset_keys done_keys : option (list NestedKey))
    : option (list NestedKey) :=
  match done_keys, reset_keys with
  | Some done_keys, None =>
      Some (nodup key_eq_dec (map (fun key => _replace_last key "done") done_keys))
  | _, _ => reset_keys
  end.

(** [_aggregate_end_of_traj(data, reset_keys, done_keys)]. *)
Definition _aggregate_end_of_traj (data : value) (reset_keys done_keys : option (list NestedKey))
    : result reset_value :=
  batch_size <- batch_size_of data ;;
  let n := length batch_size in
  let reset_keys := reset_keys_of reset_keys done_keys in
  match reset_keys with
  | Some reset_keys =>
      '(reset, has_missing) <- reset_keys_loop data n reset_keys PyFalse None ;;
      match has_missing with
      | Some true => Ok (ResetTensor (ones_bool batch_size))
      | _ => Ok reset
      end
  | None =>
      t <- skim_through (S (depth data)) n data (bool_tensor [] [false]) ;;
      Ok (ResetTensor t)
  end.

(* ====================================================================== *)
(** ** Reset merge: [_update_during_reset] *)
(* ====================================================================== *)

Definition LAZY_OUTSIDE : string := "lazy stacks are outside the model of this method".

(** [node.update(other)]: every entry of [other] is written into [node];
    where both hold a batch under one name the update descends. *)
Fixpoint update (node other : value) : result value :=
  match node, other with
  | TensorDict bs items, TensorDict _ oitems =>
      its <- (fix go (l : list (string * value)) (items : list (string * value))
                : result (list (string * value)) :=
                match l with
                | [] => Ok items
                | (key, val) :: l' =>
                    match assoc key items, val with
                    | Some (TensorDict tbs titems), TensorDict _ _ =>
                        target <- update (TensorDict tbs titems) val ;;
                        go l' (assoc_set key target items)
                    | Some (LazyStackedTensorDict _ _), _
                    | _, LazyStackedTensorDict _ _ => raise NotImplementedError LAZY_OUTSIDE
                    | _, _ => go l' (assoc_set key val items)
                    end
                end) oitems items ;;
      Ok (TensorDict bs its)
  | LazyStackedTensorDict _ _, _ | _, LazyStackedTensorDict _ _ =>
      raise NotImplementedError LAZY_OUTSIDE
  | _, _ => raise AttributeError "update"
  end.

Definition WHERE_NONE : string := "where(): argument 'other' must be Tensor, not NoneType".

(** [torch.where] against the padding value: [where(cond, t, pad)]. *)
Definition where_pad (cond t : tensor) : result tensor := torch_where cond t (pad_like t).

(** [node.where(cond, other=other, out=node, pad=0)]: entry by entry,
    [torch.where(cond, node[key], other[key])], an entry missing on one side
    being read as the padding value; the result is written into [node]. *)
Fixpoint td_where (cond : tensor) (node other : value) : result value :=
  match node, other with
  | TensorDict bs items, TensorDict _ oitems =>
      (* the keys of [node], in place *)
      its <- (fix go (l : list (string * value)) : result (list (string * value)) :=
                match l with
                | [] => Ok []
                | (key, tensor) :: l' =>
                    val <- match tensor, assoc key oitems with
                           | TensorDict _ _, Some (TensorDict obs ois) =>
                               td_where cond tensor (TensorDict obs ois)
                           | Tensor t, Some (Tensor o) =>
                               r <- torch_where cond t o ;; Ok (Tensor r)
                           | Tensor t, (None | Some PyNone) =>
                               r <- where_pad cond t ;; Ok (Tensor r)
                           | LazyStackedTensorDict _ _, _
                           | _, Some (LazyStackedTensorDict _ _) =>
                               raise NotImplementedError LAZY_OUTSIDE
                           | _, _ => raise TypeError WHERE_NONE
                           end ;;
                    r <- go l' ;; Ok ((key, val) :: r)
                end) items ;;
      (* the keys that only [other] has *)
      ncond <- tensor_not cond ;;
      its <- foldM (fun its (it : string * value) =>
                      let '(key, _other) := it in
                      match assoc key items with
                      | Some _ => Ok its
                      | None =>
                          match _other with
                          | Tensor o =>
                              r <- where_pad ncond o ;; Ok (assoc_set key (Tensor r) its)
                          | TensorDict obs ois =>
                              sub <- mapM (fun (e : string * value) =>
                                             match snd e with
                                             | Tensor o =>
                                                 r <- where_pad ncond o ;;
                                                 Ok (fst e, Tensor r)
                                             | _ => raise TypeError WHERE_NONE
                                             end) ois ;;
                              Ok (assoc_set key (TensorDict obs sub) its)
                          | LazyStackedTensorDict _ _ =>
                              raise NotImplementedError LAZY_OUTSIDE
                          | PyNone => Ok its
                          end
                      end) oitems its ;;
      Ok (TensorDict bs its)
  | LazyStackedTensorDict _ _, _ | _, LazyStackedTensorDict _ _ =>
      raise NotImplementedError LAZY_OUTSIDE
  | _, _ => raise AttributeError "where"
  end.

(** Writing [x] at the node [path] of [v]: the node is an object stored in
    its parents, so mutating it is writing it back along its path. *)
Fixpoint set_at (v : value) (path : NestedKey) (x : value) : result value :=
  match path with
  | [] => Ok x
  | k :: rest =>
      child <- _get_str v k NO_DEFAULT ;;
      child' <- set_at child rest x ;;
      _set_str v k child'
  end.

(** [tensordict.pop(key, None)]: the entry (or [None]) and the batch
    without it. *)
Definition pop (tensordict : value) (key : NestedKey) : result (value * value) :=
  out <- get_or_None tensordict key ;;
  if is_None out then Ok (PyNone, tensordict)
  else Ok (out, exclude_key key tensordict).

(** [isinstance(reset_key, tuple)] for an unravelled key. *)
Definition is_tuple (key : NestedKey) : bool := Nat.ltb 1 (length key).

(** [any(reset_key_tuple[: len(x)] == x for x in roots)]. *)
Definition processed_by (roots : list NestedKey) (reset_key_tuple : NestedKey) : bool :=
  existsb (fun x => key_eqb (firstn (length x) reset_key_tuple) x) roots.

(** The node update of one unprocessed reset key. *)
Definition merge_node (reset node node_reset : value) : result value :=
  match reset with
  | PyNone => update node node_reset
  | Tensor reset =>
      if tensor_all reset then update node node_reset
      else
        node_shape <- batch_size_of node ;;
        let reset := if Nat.ltb (length node_shape) (ndim reset)
                     then flatten_any (length node_shape) reset else reset in
        reset <- reshape node_shape reset ;;
        cond <- tensor_not reset ;;
        td_where cond node node_reset
  | _ => raise AttributeError "all"
  end.

(** One iteration of the loop of [_update_during_reset]; the state is the
    batch and the set [roots]. *)
Definition reset_iteration (tensordict_reset : value) (st : value * list NestedKey)
    (reset_key : NestedKey) : result (value * list NestedKey) :=
  let '(tensordict, roots) := st in
  let node_key := removelast reset_key in
  node_reset <- (if is_tuple reset_key then get tensordict_reset node_key
                 else Ok tensordict_reset) ;;
  _ <- (if is_tuple reset_key then get tensordict node_key else Ok tensordict) ;;
  '(reset, tensordict) <- pop tensordict reset_key ;;
  let root := if is_tuple reset_key then node_key else [] in
  let processed := processed_by roots reset_key in
  let roots := root :: roots in
  if processed then Ok (tensordict, roots)
  else
    node <- (if is_tuple reset_key then get tensordict node_key else Ok tensordict) ;;
    node <- merge_node reset node node_reset ;;
    tensordict <- (if is_tuple reset_key then set_at tensordict node_key node
                   else Ok node) ;;
    Ok (tensordict, roots).

(** [_update_during_reset(tensordict_reset, tensordict, reset_keys)]. *)
Definition _update_during_reset_from (tensordict_reset : value)
    (st : value * list NestedKey) (reset_keys : list NestedKey)
    : result (value * list NestedKey) :=
  foldM (reset_iteration tensordict_reset) reset_keys st.

Definition _update_during_reset (tensordict_reset tensordict : value)
    (reset_keys : list NestedKey) : result value :=
  '(tensordict, _) <- _update_during_reset_from tensordict_reset (tensordict, []) reset_keys ;;
  Ok tensordict.

(* ====================================================================== *)
(** ** Agent grouping: [MarlGroupMapType] and [check_marl_grouping] *)
(* ====================================================================== *)

Inductive MarlGroupMapType := ALL_IN_ONE_GROUP | ONE_GROUP_PER_AGENT.

(** A Python dict with string keys, in insertion order. *)
Fixpoint dict_get {V} (k : string) (d : list (string * V)) : option V :=
  match d with
  | [] => None
  | (k', v) :: d' => if String.eqb k k' then Some v else dict_get k d'
  end.

Fixpoint dict_set {V} (k : string) (v : V) (d : list (string * V)) : list (string * V) :=
  match d with
  | [] => [(k, v)]
  | (k', v') :: d' =>
      if String.eqb k k' then (k, v) :: d' else (k', v') :: dict_set k v d'
  end.

(** [{key(x): val(x) for x in l}]. *)
Definition dict_of {A V} (key : A -> string) (val : A -> V) (l : list A)
    : list (string * V) :=
  fold_left (fun d x => dict_set (key x) (val x) d) l [].

(** [MarlGroupMapType.get_group_map(agent_names)]. *)
Definition get_group_map (self : MarlGroupMapType) (agent_names : list string)
    : list (string * list string) :=
  match self with
  | ALL_IN_ONE_GROUP => [("agents", agent_names)]
  | ONE_GROUP_PER_AGENT =>
      dict_of (fun agent_name => agent_name) (fun agent_name => [agent_name]) agent_names
  end.

(** [str(n)] of a length. *)
Definition nat_str (n : nat) : string :=
  DecimalString.NilEmpty.string_of_uint (Nat.to_uint n).

(** The inner loop of [check_marl_grouping] over the agents of one group. *)
Fixpoint mark_group (group : list string) (found_agents : list (string * bool))
    : result (list (string * bool)) :=
  match group with
  | [] => Ok found_agents
  | agent_name :: rest =>
      match dict_get agent_name found_agents with
      | None =>
          raise ValueError
            (String.append "Agent "
               (String.append agent_name " not present in environment"))
      | Some false => mark_group rest (dict_set agent_name true found_agents)
      | Some true =>
          raise ValueError
            (String.append "Agent " (String.append agent_name " present more than once"))
      end
  end.

(** [check_marl_grouping(group_map, agent_names)]; the group map is the list
    of the items of the dict. *)
Definition check_marl_grouping (group_map : list (string * list string))
    (agent_names : list string) : result unit :=
  let n_agents := length agent_names in
  if Nat.eqb n_agents 0 then raise ValueError "No agents passed"
  else if negb (Nat.eqb (length (nodup string_dec agent_names)) n_agents)
  then raise ValueError "There are agents with the same name"
  else if Nat.ltb n_agents (length group_map)
  then raise ValueError
         (String.append "Number of groups "
            (String.append (nat_str (length group_map))
               (String.append " greater than number of agents " (nat_str n_agents))))
  else
    let found_agents :=
      dict_of (fun agent_name => agent_name) (fun _ => false) agent_names in
    found_agents <-
      foldM (fun found_agents (g : string * list string) =>
               let '(group_name, group) := g in
               if Nat.eqb (length group) 0
               then raise ValueError
                      (String.append "Group " (String.append group_name " is empty"))
               else mark_group group found_agents)
            group_map found_agents ;;
    foldM (fun (_ : unit) (af : string * bool) =>
             let '(agent_name, found) := af in
             if negb found
             then raise ValueError
                    (String.append "Agent "
                       (String.append agent_name " not found in any group"))
             else Ok tt)
          found_agents tt.

(* ====================================================================== *)
(** ** MPI environment variables: [clear_mpi_env_vars] *)
(* ====================================================================== *)

(** [os.environ]: a dict from names to values. *)
Definition environment := list (string * string).

(** The entries of a dict without the key [k]. *)
Fixpoint dict_remove {V} (k : string) (d : list (string * V)) : list (string * V) :=
  match d with
  | [] => []
  | (k', v) :: d' =>
      if String.eqb k k' then dict_remove k d' else (k', v) :: dict_remove k d'
  end.

(** [del d[k]]. *)
Definition dict_del {V} (k : string) (d : list (string * V)) : result (list (string * V)) :=
  match dict_get k d with
  | Some _ => Ok (dict_remove k d)
  | None => raise KeyError k
  end.

(** [d.update(other)]. *)
Definition dict_update {V} (d other : list (string * V)) : list (string * V) :=
  fold_left (fun d (kv : string * V) => dict_set (fst kv) (snd kv) d) other d.

Definition MPI_PREFIXES : list string := ["OMPI_"; "PMI_"].

(** The loop over the prefixes for one variable of the snapshot
    [list(os.environ.items())]. *)
Definition clear_variable (st : environment * environment) (kv : string * string)
    : result (environment * environment) :=
  let '(k, v) := kv in
  foldM (fun (st : environment * environment) prefix =>
           let '(environ, removed_environment) := st in
           if String.prefix prefix k then
             let removed_environment := dict_set k v removed_environment in
             environ <- dict_del k environ ;;
             Ok (environ, removed_environment)
           else Ok st)
        MPI_PREFIXES st.

(** The statements of [clear_mpi_env_vars] before its [yield]: the
    environment the body runs in and [removed_environment]. *)
Definition clear_mpi (environ : environment) : result (environment * environment) :=
  foldM clear_variable environ (environ, []).

(** [with clear_mpi_env_vars(): body]: the body runs on the cleared
    environment and returns or raises; the [finally] clause then puts the
    removed variables back.  A failure before the [yield] is a failure of
    the whole statement. *)
Definition clear_mpi_env_vars {A} (body : environment -> environment * result A)
    (environ : environment) : result (environment * result A) :=
  '(environ, removed_environment) <- clear_mpi environ ;;
  let '(environ, r) := body environ in
  Ok (dict_update environ removed_environment, r).

(* ====================================================================== *)
(** ** Trailing dimension: [_selective_unsqueeze] *)
(* ====================================================================== *)

(** [repr] of a [torch.Size]. *)
Definition size_str (s : list nat) : string :=
  String.append "torch.Size(["
    (String.append (String.concat ", " (map nat_str s)) "])").

(** [tensor.unsqueeze(dim)]: a dimension of size one is inserted at [dim],
    counted from the end when negative. *)
Definition unsqueeze (t : tensor) (dim : Z) : result tensor :=
  let n := Z.of_nat (ndim t) in
  if ((- (n + 1) <=? dim) && (dim <=? n))%Z
  then
    let pos := if (dim <? 0)%Z then (dim + n + 1)%Z else dim in
    Ok (mkTensor (insert_at (Z.to_nat pos) 1 (shape t)) (data t))
  else raise IndexError "Dimension out of range".

(** [_selective_unsqueeze(tensor, batch_size, dim=-1)]. *)
Definition _selective_unsqueeze (t : tensor) (batch_size : list nat) (dim : Z)
    : result tensor :=
  let shape_len := length (shape t) in
  if Nat.ltb shape_len (length batch_size)
  then raise RuntimeError
         (String.append "Tensor has less dims than batch_size. shape:"
            (String.append (size_str (shape t))
               (String.append ", batch_size: " (size_str batch_size))))
  else if negb (shape_eqb (firstn (length batch_size) (shape t)) batch_size)
  then raise RuntimeError
         (String.append "Tensor does not have given batch_size. shape:"
            (String.append (size_str (shape t))
               (String.append ", batch_size: " (size_str batch_size))))
  else if Nat.eqb shape_len (length batch_size) then unsqueeze t dim
  else Ok t.

(* ====================================================================== *)
(** ** The public episode-boundary aggregation: [terminated_or_truncated] *)
(* ====================================================================== *)

(** [torch.tensor(False)]. *)
Definition tensor_False : tensor := bool_tensor [] [false].

(** [aggregate = aggregate | done] after [if aggregate is None: aggregate =
    torch.tensor(False, device=done.device)]. *)
Definition aggregate_or_tensor (aggregate : option tensor) (done : value)
    : result (option tensor) :=
  match done with
  | Tensor t =>
      a <- tensor_or (match aggregate with Some a => a | None => tensor_False end) t ;;
      Ok (Some a)
  | _ => raise TypeError "unsupported operand type(s) for |"
  end.

(** [done = data.get(eot_key, None)] followed by [if done is None: done =
    torch.zeros(...)], boolean zeros of the batch shape with one trailing
    dimension of size one. *)
Definition get_or_zeros (data : value) (eot_key : string) : result value :=
  done <- get_or_None data [eot_key] ;;
  if is_None done then
    bs <- batch_size_of data ;;
    Ok (Tensor (zeros_bool (bs ++ [1])))
  else Ok done.

(** The last block of the inner function: the aggregate is stored as it is. *)
Definition store_aggregate (aggregate : option tensor) (any_eot : bool) (data : value)
    (key : option string) (curr_done_key : NestedKey) (list_of_keys : list NestedKey)
    : result walk :=
  match aggregate with
  | Some aggregate =>
      match key with
      | Some key =>
          data <- set_tensor data key aggregate ;;
          Ok (mkWalk (any_eot || tensor_any aggregate) data
                (list_of_keys ++ [curr_done_key ++ [key]]))
      | None => Ok (mkWalk (any_eot || tensor_any aggregate) data list_of_keys)
      end
  | None => Ok (mkWalk any_eot data list_of_keys)
  end.

(** [inner_terminated_or_truncated(data, full_done_spec, key, curr_done_key)]
    of the public [terminated_or_truncated]: one loop, in which every nested
    result is or-ed into [any_eot]. *)
Fixpoint terminated_or_truncated_inner (fuel : nat) (data : value)
    (full_done_spec : option spec) (key : option string) (curr_done_key : NestedKey)
    (list_of_keys : list NestedKey) : result walk :=
  match fuel with
  | 0 => raise RecursionError RECURSION_MSG
  | S fuel' =>
      match full_done_spec with
      | None =>
          its <- items_of data ;;
          '(aggregate, any_eot, data, list_of_keys) <-
            foldM (fun (st : option tensor * bool * value * list NestedKey) it =>
                     let '(aggregate, any_eot, data, list_of_keys) := st in
                     let '(eot_key, item) := it in
                     if String.eqb eot_key "done" then
                       done <- get_or_zeros data eot_key ;;
                       aggregate <- aggregate_or_tensor aggregate done ;;
                       Ok (aggregate, any_eot, data, list_of_keys)
                     else if String.eqb eot_key "terminated"
                             || String.eqb eot_key "truncated" then
                       done <- get_or_zeros data eot_key ;;
                       aggregate <- aggregate_or_tensor aggregate done ;;
                       Ok (aggregate, any_eot, data, list_of_keys)
                     else if is_tensor_collection item then
                       w <- terminated_or_truncated_inner fuel' item None key
                              (curr_done_key ++ [eot_key]) list_of_keys ;;
                       data <- _set_str data eot_key (walked w) ;;
                       Ok (aggregate, any_eot || eot w, data, written w)
                     else Ok st)
                  its (None, false, data, list_of_keys) ;;
          store_aggregate aggregate any_eot data key curr_done_key list_of_keys
      | Some full_done_spec =>
          sits <- spec_items full_done_spec ;;
          '(aggregate, any_eot, data, list_of_keys) <-
            foldM (fun (st : option tensor * bool * value * list NestedKey) it =>
                     let '(aggregate, any_eot, data, list_of_keys) := st in
                     let '(eot_key, item) := it in
                     if is_composite item then
                       sub <- get data [eot_key] ;;
                       w <- terminated_or_truncated_inner fuel' sub (Some item) key
                              (curr_done_key ++ [eot_key]) list_of_keys ;;
                       data <- _set_str data eot_key (walked w) ;;
                       Ok (aggregate, any_eot || eot w, data, written w)
                     else
                       sop <- get_or_zeros data eot_key ;;
                       aggregate <- aggregate_or_tensor aggregate sop ;;
                       Ok (aggregate, any_eot, data, list_of_keys))
                  sits (None, false, data, list_of_keys) ;;
          store_aggregate aggregate any_eot data key curr_done_key list_of_keys
      end
  end.

(** [terminated_or_truncated(data, full_done_spec, key, write_full_false)];
    returns the boolean and the batch as the call leaves it. *)
Definition terminated_or_truncated (data : value) (full_done_spec : option spec)
    (key : option string) (write_full_false : bool) : result (bool * value) :=
  w <- terminated_or_truncated_inner (S (depth data)) data full_done_spec key [] [] ;;
  if negb (eot w) && negb write_full_false
  then Ok (eot w, exclude (walked w) (written w))
  else Ok (eot w, walked w).

(* ====================================================================== *)
(** ** Comparing two batches level by level: [_per_level_env_check] *)
(* ====================================================================== *)

(** [tensor.dtype], as far as the tensors of this development go. *)
Inductive dtype := torch_bool | torch_float.

Definition same_dtype (a b : dtype) : bool :=
  match a, b with
  | torch_bool, torch_bool | torch_float, torch_float => true
  | _, _ => false
  end.

Definition dtype_of (t : tensor) : dtype :=
  match data t with Bools _ => torch_bool | Floats _ => torch_float end.

Definition value_dtype (v : value) : result dtype :=
  match v with
  | Tensor t => Ok (dtype_of t)
  | _ => raise AttributeError "dtype"
  end.

(** The [AssertionError]s of [_per_level_env_check].  Their messages print
    the batches and key sets at hand; here a failure is told by its kind and
    the key it was raised for. *)
Inductive assertion :=
| Stack_dimension_mismatch
| Keys_mismatch
| Shapes_dont_match (key : string)
| Dtypes_dont_match (key : string).

(** What a call of the check comes to: it returns, an assertion fails, or
    another exception escapes. *)
Inductive outcome (A : Type) : Type :=
| Returns (a : A)
| AssertionError (a : assertion)
| Escapes (e : exn).
Arguments Returns {A}.
Arguments AssertionError {A}.
Arguments Escapes {A}.

Definition obind {A B} (m : outcome A) (k : A -> outcome B) : outcome B :=
  match m with
  | Returns a => k a
  | AssertionError a => AssertionError a
  | Escapes e => Escapes e
  end.

Definition lift {A} (r : result A) : outcome A :=
  match r with Ok a => Returns a | Raise e => Escapes e end.

Notation "x <~ c ;; k" := (obind c (fun x => k))
  (at level 61, c at next level, right associativity).

(** [set(a) == set(b)] on names. *)
Definition names_eqb (a b : list string) : bool :=
  forallb (fun k => existsb (String.eqb k) b) a
  && forallb (fun k => existsb (String.eqb k) a) b.

(** [for x in l: f(x)]: the first call that does not return ends the loop. *)
Fixpoint for_each {A} (f : A -> outcome unit) (l : list A) : outcome unit :=
  match l with
  | [] => Returns tt
  | x :: l' => _ <~ f x ;; for_each f l'
  end.

Section PerLevelCheck.

(** The order in which Python enumerates [set(data0.keys())] is not fixed by
    the source: it is a parameter. *)
Variable enum : list string -> list string.

(** The body of [_per_level_env_check]; [fuel] bounds the depth of the
    recursion. *)
Fixpoint _per_level_env_check_rec (fuel : nat) (data0 data1 : value) (check_dtype : bool)
    : outcome unit :=
  match fuel with
  | 0 => Escapes (mkExn RecursionError RECURSION_MSG)
  | S fuel' =>
      match data0, data1 with
      | LazyStackedTensorDict stack_dim0 tensordicts0,
        LazyStackedTensorDict stack_dim1 tensordicts1 =>
          if negb (Nat.eqb stack_dim0 stack_dim1)
          then AssertionError Stack_dimension_mismatch
          else
            for_each (fun p : value * value =>
                        _per_level_env_check_rec fuel' (fst p) (snd p) check_dtype)
                     (zip tensordicts0 tensordicts1)
      | _, _ =>
          keys0 <~ lift (keys data0) ;;
          keys1 <~ lift (keys data1) ;;
          if negb (names_eqb keys0 keys1) then AssertionError Keys_mismatch
          else
            for_each (fun key =>
                        _data0 <~ lift (get data0 [key]) ;;
                        _data1 <~ lift (get data1 [key]) ;;
                        shape0 <~ lift (value_shape _data0) ;;
                        shape1 <~ lift (value_shape _data1) ;;
                        if negb (shape_eqb shape0 shape1)
                        then AssertionError (Shapes_dont_match key)
                        else if is_tensor_collection _data0
                        then _per_level_env_check_rec fuel' _data0 _data1 check_dtype
                        else if check_dtype then
                          dtype0 <~ lift (value_dtype _data0) ;;
                          dtype1 <~ lift (value_dtype _data1) ;;
                          if negb (same_dtype dtype0 dtype1)
                          then AssertionError (Dtypes_dont_match key)
                          else Returns tt
                        else Returns tt)
                     (enum keys0)
      end
  end.

(** [_per_level_env_check(data0, data1, check_dtype)]: every call descends
    into [data0]. *)
Definition _per_level_env_check (data0 data1 : value) (check_dtype : bool)
    : outcome unit :=
  _per_level_env_check_rec (S (depth data0)) data0 data1 check_dtype.

End PerLevelCheck.

(* ====================================================================== *)
(** ** From a batch to a spec: [make_composite_from_td] *)
(* ====================================================================== *)

(** The specs [make_composite_from_td] builds: an unbounded leaf spec with
    its dtype and shape (the device is not modelled), or a composite of
    named specs with its shape. *)
Inductive tensor_spec :=
| UnboundedContinuousTensorSpec (dt : dtype) (spec_shape : list nat)
| CompositeSpecOf (entries : list (string * tensor_spec)) (spec_shape : list nat).

(** [tensor.shape if tensor.shape else [1]]: an empty [torch.Size] is falsy. *)
Definition shape_or_one (s : list nat) : list nat :=
  match s with [] => [1] | _ :: _ => s end.

(** [make_composite_from_td(data)]; the dict comprehension is a loop that
    sets one entry per item. *)
Fixpoint make_composite_from_td_rec (fuel : nat) (data : value) : result tensor_spec :=
  match fuel with
  | 0 => raise RecursionError RECURSION_MSG
  | S fuel' =>
      its <- items_of data ;;
      entries <-
        foldM (fun (d : list (string * tensor_spec)) (it : string * value) =>
                 let '(key, tensor) := it in
                 s <- (if is_tensor_collection tensor
                       then make_composite_from_td_rec fuel' tensor
                       else
                         dt <- value_dtype tensor ;;
                         sh <- value_shape tensor ;;
                         Ok (UnboundedContinuousTensorSpec dt (shape_or_one sh))) ;;
                 Ok (dict_set key s d))
              its [] ;;
      sh <- batch_size_of data ;;
      Ok (CompositeSpecOf entries sh)
  end.

Definition make_composite_from_td (data : value) : result tensor_spec :=
  make_composite_from_td_rec (S (depth data)) data.

(* ====================================================================== *)
(** * Properties *)
(* ====================================================================== *)

(** ** Plain batches and their leaves *)

(** The tensor stored at a path of nested [TensorDict]s. *)
Fixpoint leaf_at (v : value) (p : NestedKey) : option tensor :=
  match p, v with
  | [], Tensor t => Some t
  | k :: rest, TensorDict _ items =>
      match assoc k items with
      | Some x => leaf_at x rest
      | None => None
      end
  | _, _ => None
  end.

Fixpoint nodupb (l : list string) : bool :=
  match l with
  | [] => true
  | k :: l' => negb (existsb (String.eqb k) l') && nodupb l'
  end.

(** A plain value: tensors and [TensorDict]s only, no name bound twice. *)
Fixpoint plain (v : value) : bool :=
  match v with
  | Tensor _ => true
  | TensorDict _ items =>
      nodupb (map fst items) && forallb (fun kv => plain (snd kv)) items
  | _ => false
  end.

(** A tight value is plain and has no empty sub-batch. *)
Fixpoint tight (v : value) : bool :=
  match v with
  | Tensor _ => true
  | TensorDict _ items =>
      negb (Nat.eqb (length items) 0)
        && nodupb (map fst items) && forallb (fun kv => tight (snd kv)) items
  | _ => false
  end.

Definition is_TensorDict (v : value) : bool :=
  match v with TensorDict _ _ => true | _ => false end.

Lemma assoc_set_same k v l : assoc k (assoc_set k v l) = Some v.
Proof.
  induction l as [ | [k' v'] l IH ]; cbn.
  - rewrite String.eqb_refl. reflexivity.
  - destruct (String.eqb k k') eqn:E; cbn.
    + rewrite String.eqb_refl. reflexivity.
    + rewrite E. exact IH.
Qed.

Lemma assoc_set_other k k' v l : k' <> k -> assoc k' (assoc_set k v l) = assoc k' l.
Proof.
  intros Hne. induction l as [ | [k0 v0] l IH ]; cbn.
  - destruct (String.eqb_spec k' k); [contradiction | reflexivity].
  - destruct (String.eqb_spec k k0) as [-> | Hk]; cbn.
    + destruct (String.eqb_spec k' k0); [contradiction | reflexivity].
    + destruct (String.eqb k' k0); [reflexivity | exact IH].
Qed.

Lemma assoc_del_same k l : assoc k (assoc_del k l) = None.
Proof.
  induction l as [ | [k' v'] l IH ]; cbn; [reflexivity|].
  destruct (String.eqb k k') eqn:E; cbn; [exact IH|]. rewrite E. exact IH.
Qed.

Lemma assoc_del_other k k' l : k' <> k -> assoc k' (assoc_del k l) = assoc k' l.
Proof.
  intros Hne. induction l as [ | [k0 v0] l IH ]; cbn; [reflexivity|].
  destruct (String.eqb_spec k k0) as [-> | Hk]; cbn.
  - destruct (String.eqb_spec k' k0); [contradiction | exact IH].
  - destruct (String.eqb k' k0); [reflexivity | exact IH].
Qed.

Lemma assoc_In k l v : assoc k l = Some v -> In (k, v) l.
Proof.
  induction l as [ | [k' v'] l IH ]; cbn; [discriminate|].
  destruct (String.eqb_spec k k') as [-> | Hk]; intros H.
  - inversion H. left. reflexivity.
  - right. apply IH. exact H.
Qed.

Lemma assoc_None_keys k l : assoc k l = None <-> ~ In k (map fst l).
Proof.
  induction l as [ | [k' v'] l IH ]; cbn.
  - split; [intros _ [] | reflexivity].
  - destruct (String.eqb_spec k k') as [-> | Hk].
    + split; [discriminate | intros H; exfalso; apply H; left; reflexivity].
    + rewrite IH. split.
      * intros H [E | Hin]; [congruence | contradiction].
      * intros H Hin. apply H. right. exact Hin.
Qed.

Lemma existsb_eqb_In k l : existsb (String.eqb k) l = true <-> In k l.
Proof.
  rewrite existsb_exists. split.
  - intros [x [Hin E]]. apply String.eqb_eq in E. subst. exact Hin.
  - intros Hin. exists k. split; [exact Hin | apply String.eqb_refl].
Qed.

Lemma nodupb_NoDup l : nodupb l = true <-> NoDup l.
Proof.
  induction l as [ | k l IH ]; cbn.
  - split; [constructor | reflexivity].
  - rewrite andb_true_iff, negb_true_iff, IH. split.
    + intros [H1 H2]. constructor; [| exact H2].
      intros Hin. apply existsb_eqb_In in Hin. congruence.
    + intros H. inversion H; subst. split; [| assumption].
      destruct (existsb (String.eqb k) l) eqn:E; [| reflexivity].
      apply existsb_eqb_In in E. contradiction.
Qed.

Lemma In_assoc_nodup k v l : NoDup (map fst l) -> In (k, v) l -> assoc k l = Some v.
Proof.
  induction l as [ | [k' v'] l IH ]; cbn; intros Hnd Hin; [destruct Hin|].
  inversion Hnd; subst.
  destruct Hin as [E | Hin].
  - inversion E; subst. rewrite String.eqb_refl. reflexivity.
  - destruct (String.eqb_spec k k') as [-> | Hk].
    + exfalso. apply H1. apply (in_map fst) in Hin. exact Hin.
    + apply IH; assumption.
Qed.

Lemma keys_assoc_set k v l :
  map fst (assoc_set k v l)
    = if existsb (String.eqb k) (map fst l) then map fst l else map fst l ++ [k].
Proof.
  induction l as [ | [k' v'] l IH ]; cbn; [reflexivity|].
  destruct (String.eqb_spec k k') as [-> | Hk]; cbn; [reflexivity|].
  rewrite IH. destruct (existsb (String.eqb k) (map fst l)); reflexivity.
Qed.

Lemma nodupb_assoc_set k v l :
  nodupb (map fst l) = true -> nodupb (map fst (assoc_set k v l)) = true.
Proof.
  rewrite !nodupb_NoDup, keys_assoc_set. intros H.
  destruct (existsb (String.eqb k) (map fst l)) eqn:E; [exact H|].
  apply NoDup_app; [ exact H | repeat constructor; intros [] | ].
  intros x Hin [<- | []].
  apply existsb_eqb_In in Hin. congruence.
Qed.

Lemma forallb_assoc_set (P : string * value -> bool) k v l :
  P (k, v) = true -> forallb P l = true -> forallb P (assoc_set k v l) = true.
Proof.
  intros Hv. induction l as [ | [k' v'] l IH ]; cbn.
  - rewrite Hv. reflexivity.
  - destruct (String.eqb k k'); cbn; rewrite !andb_true_iff.
    + intros [_ H]. split; assumption.
    + intros [H1 H2]. split; [assumption | apply IH; assumption].
Qed.

Lemma forallb_assoc (P : string * value -> bool) k v l :
  forallb P l = true -> assoc k l = Some v -> P (k, v) = true.
Proof.
  intros H Ha. apply assoc_In in Ha. rewrite forallb_forall in H. apply H. exact Ha.
Qed.

Lemma plain_assoc bs items k x :
  plain (TensorDict bs items) = true -> assoc k items = Some x -> plain x = true.
Proof.
  cbn. rewrite andb_true_iff. intros [_ H] Ha.
  exact (forallb_assoc (fun kv => plain (snd kv)) k x items H Ha).
Qed.

Lemma plain_assoc_set bs items k x :
  plain (TensorDict bs items) = true -> plain x = true ->
  plain (TensorDict bs (assoc_set k x items)) = true.
Proof.
  cbn. rewrite !andb_true_iff. intros [H1 H2] Hx. split.
  - apply nodupb_assoc_set. exact H1.
  - apply (forallb_assoc_set (fun kv => plain (snd kv))); assumption.
Qed.

Lemma tight_plain : forall v, tight v = true -> plain v = true.
Proof.
  fix IH 1. intros [ | t | bs items | sd tds ]; cbn; try congruence.
  rewrite !andb_true_iff. intros [[_ Hnd] Hall]. split; [exact Hnd|].
  clear Hnd. induction items as [ | [k x] items IHl ]; cbn in *; [reflexivity|].
  rewrite andb_true_iff in *. destruct Hall as [Hx Hall].
  split; [apply IH; exact Hx | apply IHl; exact Hall].
Qed.

Lemma plain_not_None v : plain v = true -> is_None v = false.
Proof. destruct v; cbn; congruence. Qed.

Lemma plain_get_str bs items k d :
  plain (TensorDict bs items) = true ->
  _get_str (TensorDict bs items) k d
    = match assoc k items with Some x => Ok x | None => default_get k d end.
Proof.
  intros Hp. cbn. destruct (assoc k items) as [x|] eqn:E; [| reflexivity].
  pose proof (plain_assoc _ _ _ _ Hp E) as Hx. destruct x; cbn in Hx; congruence.
Qed.

(** Induction on the nesting of a value. *)
Lemma value_rect' (P : value -> Prop) :
  P PyNone -> (forall t, P (Tensor t)) ->
  (forall bs items, Forall (fun kv => P (snd kv)) items -> P (TensorDict bs items)) ->
  (forall sd tds, Forall P tds -> P (LazyStackedTensorDict sd tds)) ->
  forall v, P v.
Proof.
  intros HN HT HD HL. fix IH 1. intros [ | t | bs items | sd tds ].
  - exact HN.
  - apply HT.
  - apply HD. induction items as [ | [k x] items IHl ]; constructor; [apply IH | exact IHl].
  - apply HL. induction tds as [ | x tds IHl ]; constructor; [apply IH | exact IHl].
Qed.

Lemma depth_entry bs items k x :
  In (k, x) items -> depth x < depth (TensorDict bs items).
Proof.
  cbn. induction items as [ | [k' x'] items IH ]; intros Hin; [destruct Hin|].
  destruct Hin as [E | Hin].
  - inversion E; subst. lia.
  - specialize (IH Hin). lia.
Qed.

(** ** Scenario A of the transition *)

Definition f0 : tensor := mkTensor [] (Floats [0%float]).
Definition f1 : tensor := mkTensor [] (Floats [1%float]).
Definition bFalse : tensor := mkTensor [] (Bools [false]).

Definition scenario_A_batch (done reward extra action next_done next_reward next_obs obs : tensor)
    : value :=
  TensorDict []
    [("done", Tensor done); ("reward", Tensor reward); ("extra", Tensor extra);
     ("action", Tensor action);
     ("next", TensorDict [] [("done", Tensor next_done); ("reward", Tensor next_reward);
                             ("obs", Tensor next_obs)]);
     ("obs", Tensor obs)].

(** [step_mdp(td)] with the defaults of the signature. *)
Definition step_mdp_default (tensordict : value) : result value :=
  step_mdp tensordict true true false true [["reward"]] [["done"]] [["action"]].

(** C4: on the batch [{done: false, reward: 0.0, extra: 0.0, action: 0.0,
    next: {done: false, reward: 0.0, obs: 1.0}, obs: 0.0}] the default
    [step_mdp] returns exactly [{done: false, extra: 0.0, obs: 1.0}]; and
    whatever the leaves hold, [done] and [obs] of the result are those of the
    ["next"] sub-batch and [extra] is the root's. *)
Theorem step_mdp_scenario_A :
  step_mdp_default (scenario_A_batch bFalse f0 f0 f0 bFalse f0 f1 f0)
    = Ok (TensorDict [] [("done", Tensor bFalse); ("extra", Tensor f0); ("obs", Tensor f1)])
  /\ forall done reward extra action next_done next_reward next_obs obs,
       step_mdp_default
         (scenario_A_batch done reward extra action next_done next_reward next_obs obs)
       = Ok (TensorDict [] [("done", Tensor next_done); ("extra", Tensor extra);
                            ("obs", Tensor next_obs)]).
Proof.
  split; [ vm_compute; reflexivity | intros; vm_compute; reflexivity ].
Qed.

(** ** The cached validation flag of [_StepMDP] *)

(** The instances a sequence of calls goes through, and the warnings it
    issues. *)
Fixpoint calls (self : _StepMDP) (batches : list value) : _StepMDP * list string :=
  match batches with
  | [] => (self, [])
  | td :: rest =>
      let r := __call__ self td in
      let '(self', ws) := calls (self_after r) rest in
      (self', warnings r ++ ws)
  end.

Lemma validate_decided (self : _StepMDP) (td : value) (b : bool) :
  validated self = Some b -> validate self td = mkEffect b self [].
Proof.
  intros H. unfold validate. rewrite H. destruct b; reflexivity.
Qed.

Lemma validate_unchecked (self : _StepMDP) (td : value) :
  validated self = None ->
  validate self td =
    let v := set_eqb (expected_keys self) (leaf_keys td) in
    mkEffect v (set_validated self (Some v)) (if v then [] else [KEY_SET_WARNING]).
Proof.
  intros H. unfold validate. rewrite H. reflexivity.
Qed.

(** What a call may do to the instance: nothing, or decide the flag, with
    one warning exactly when it is decided to [False]. *)
Inductive flag_move (self : _StepMDP) : _StepMDP -> list string -> Prop :=
| flag_kept : flag_move self self []
| flag_decided (td : value) :
    validated self = None ->
    let v := set_eqb (expected_keys self) (leaf_keys td) in
    flag_move self (set_validated self (Some v)) (if v then [] else [KEY_SET_WARNING]).

Lemma flag_move_decided self self' ws b :
  validated self = Some b -> flag_move self self' ws -> self' = self /\ ws = [].
Proof.
  intros H M. destruct M; [auto | congruence].
Qed.

Lemma validate_flag_move self td :
  flag_move self (self_after (validate self td)) (warnings (validate self td)).
Proof.
  destruct (validated self) as [b|] eqn:E.
  - rewrite (validate_decided _ _ _ E). constructor.
  - rewrite (validate_unchecked _ _ E). cbn. apply flag_decided. exact E.
Qed.

Lemma flag_move_trans self s1 s2 w1 w2 :
  flag_move self s1 w1 -> flag_move s1 s2 w2 -> flag_move self s2 (w1 ++ w2).
Proof.
  intros M1 M2. destruct M1.
  - exact M2.
  - assert (Hv : validated (set_validated self (Some v)) = Some v) by reflexivity.
    destruct (flag_move_decided _ _ _ _ Hv M2) as [-> ->].
    rewrite app_nil_r. apply flag_decided. assumption.
Qed.

Lemma call_flag_move : forall td self,
  flag_move self (self_after (__call__ self td)) (warnings (__call__ self td)).
Proof.
  fix IH 1. intros td self. destruct td as [ | t | bs items | sd tds ].
  - cbn. constructor.
  - cbn. constructor.
  - cbn -[validate].
    destruct (assoc NEXT items) as [ [ | t | bs' its' | sd' tds' ] | ]; cbn -[validate];
      try constructor; try apply validate_flag_move.
    destruct ((fix go (l : list value) : result (list value) :=
                 match l with
                 | [] => Ok []
                 | td :: l' => e <- empty td;; es <- go l';; Ok (e :: es)
                 end) tds'); cbn -[validate];
      try constructor; apply validate_flag_move.
  - cbn. revert self. induction tds as [ | td tds IHl ]; intros self; cbn.
    + constructor.
    + pose proof (IH td self) as M1.
      destruct (returned (__call__ self td)); cbn.
      * eapply flag_move_trans; [ exact M1 | apply IHl ].
      * exact M1.
Qed.

Lemma calls_decided : forall batches self b,
  validated self = Some b -> calls self batches = (self, []).
Proof.
  induction batches as [ | td rest IH ]; intros self b H; cbn; [reflexivity|].
  destruct (flag_move_decided _ _ _ _ H (call_flag_move td self)) as [E1 E2].
  rewrite E1, E2, (IH self b H). reflexivity.
Qed.

Lemma calls_flag_move : forall batches self,
  flag_move self (fst (calls self batches)) (snd (calls self batches)).
Proof.
  induction batches as [ | td rest IH ]; intros self; cbn; [constructor|].
  pose proof (call_flag_move td self) as M1.
  pose proof (IH (self_after (__call__ self td))) as M2.
  destruct (calls (self_after (__call__ self td)) rest) as [s ws]. cbn in *.
  eapply flag_move_trans; eassumption.
Qed.

(** C3: the key-set validation of an instance is performed at most once.
    [validate] on an unchecked instance compares the expected keys (declared
    root keys and their ["next"]-prefixed counterparts) with the leaf keys of
    the batch, caches the outcome and issues a warning (no failure) when they
    differ; on a decided instance it returns the cached flag and changes
    nothing.  A call, and any sequence of calls, either leaves the instance as
    it is or decides an unchecked flag; once decided, valid or fallback, the
    instance never changes again and no further warning is issued. *)
Theorem validated_flag_is_decided_once : forall (self : _StepMDP) (td : value) (batches : list value),
  (validated self = None ->
     validate self td
       = mkEffect (set_eqb (expected_keys self) (leaf_keys td))
           (set_validated self (Some (set_eqb (expected_keys self) (leaf_keys td))))
           (if set_eqb (expected_keys self) (leaf_keys td) then [] else [KEY_SET_WARNING]))
  /\ (forall b, validated self = Some b ->
        validate self td = mkEffect b self []
        /\ self_after (__call__ self td) = self /\ warnings (__call__ self td) = []
        /\ calls self batches = (self, []))
  /\ flag_move self (self_after (__call__ self td)) (warnings (__call__ self td))
  /\ flag_move self (fst (calls self batches)) (snd (calls self batches))
  /\ length (snd (calls self batches)) <= 1.
Proof.
  intros self td batches. repeat split.
  - intros H. rewrite (validate_unchecked _ _ H). reflexivity.
  - apply validate_decided; assumption.
  - eapply flag_move_decided; [ eassumption | apply call_flag_move ].
  - eapply flag_move_decided; [ eassumption | apply call_flag_move ].
  - eapply calls_decided; eassumption.
  - apply call_flag_move.
  - apply calls_flag_move.
  - destruct (calls_flag_move batches self) as [ | td' H v ]; cbn; [lia|].
    destruct v; cbn; lia.
Qed.

(** ** The narrow catch of the key-copying routines *)

(** The condition of the [except] clauses: a [RuntimeError] whose message
    starts with the heterogeneous-shape text. *)
Definition is_het_failure (e : exn) : bool :=
  match exn_type e with
  | RuntimeError => re_match HET_PATTERN (exn_msg e)
  | _ => false
  end.

(** The element-wise re-execution of [_set] over the stack. *)
Definition _set_elementwise (fuel : nat) (source dest : value) (key : string)
    (total_key : NestedKey) (excluded : list NestedKey) : result (bool * value) :=
  s_tds <- tensordicts_of source ;;
  d_tds <- tensordicts_of dest ;;
  '(non_empty_local, d_tds') <-
    het_loop (fun s_td d_td => _set_rec fuel s_td d_td key total_key excluded)
             (zip s_tds d_tds) false ;;
  Ok (non_empty_local, restack dest d_tds').

(** The element-wise re-execution of [_set_single_key] over the stack. *)
Definition _set_single_key_elementwise (fuel : nat) (source dest : value) (k : string)
    : result value :=
  s_tds <- tensordicts_of source ;;
  d_tds <- tensordicts_of dest ;;
  d_tds' <- ssk_het_loop (fun s_td d_td => _set_single_key_rec fuel s_td d_td [k])
              (zip s_tds d_tds) ;;
  Ok (restack dest d_tds').

Definition het_source : value :=
  LazyStackedTensorDict 0
    [TensorDict [] [("x", Tensor (mkTensor [2] (Floats [0%float; 1%float])))];
     TensorDict [] [("x", Tensor (mkTensor [3] (Floats [0%float; 1%float; 0%float])))]].

Definition het_dest : value :=
  LazyStackedTensorDict 0 [TensorDict [] []; TensorDict [] []].

(** C8: when the leaf lookup of [_set] or of [_set_single_key] fails, the
    routine re-executes element-wise over the elements of the stacked source
    and destination and restacks the destination exactly when the failure is
    a [RuntimeError] whose message matches the heterogeneous-shape text;
    every other failure, whatever its class or message, is the failure of the
    routine itself. *)
Theorem het_failure_is_the_only_one_caught :
  forall (fuel : nat) (source dest : value) (key : string) (total_key : NestedKey)
         (excluded : list NestedKey) (rest : NestedKey) (e : exn),
    (key_in (total_key ++ [key]) excluded = false ->
     _get_str source key NO_DEFAULT = Raise e ->
     _set_rec (S fuel) source dest key total_key excluded
       = if is_het_failure e
         then _set_elementwise fuel source dest key (total_key ++ [key]) excluded
         else Raise e)
    /\ (_get_str source key DefaultNone = Raise e ->
        _set_single_key_rec (S fuel) source dest (key :: rest)
          = if is_het_failure e
            then _set_single_key_elementwise fuel source dest key
            else Raise e).
Proof.
  intros fuel source dest key total_key excluded rest [c msg]. split.
  - intros Hex Hget. cbn [_set_rec]. rewrite Hex. cbn [negb].
    rewrite Hget. unfold is_het_failure, _set_elementwise. cbn.
    destruct c; reflexivity.
  - intros Hget. cbn [_set_single_key_rec]. unfold _set_single_key_body.
    rewrite Hget. unfold is_het_failure, _set_single_key_elementwise. cbn.
    destruct c; reflexivity.
Qed.

(** On a stack of two batches whose entry ["x"] has shapes [[2]] and [[3]]
    the lookup fails with the heterogeneous-shape message and both routines
    copy ["x"] element by element. *)
Lemma het_failure_witness :
  _set_rec 2 het_source het_dest "x" [] [] = Ok (true, het_source)
  /\ _set_single_key_rec 2 het_source het_dest ["x"] = Ok het_source.
Proof.
  destruct (het_failure_is_the_only_one_caught 1 het_source het_dest "x" [] [] []
              (mkExn RuntimeError HET_SHAPE_MSG)) as [H1 H2].
  split.
  - rewrite H1; reflexivity.
  - rewrite H2; reflexivity.
Defined.

(** ** Presence of the reset keys in [_aggregate_end_of_traj] *)

(** A reset key is absent when [data.get(key, None)] is [None]; it is
    present when the lookup returns a boolean tensor whose leading dimensions
    are the batch size (as every entry of a batch has). *)
Definition absent (batch : value) (key : NestedKey) : Prop :=
  get_or_None batch key = Ok PyNone.

Definition present (batch : value) (batch_size : list nat) (key : NestedKey) : Prop :=
  exists t l, get_or_None batch key = Ok (Tensor t)
              /\ data t = Bools l
              /\ firstn (length batch_size) (shape t) = batch_size.

Definition PARTIAL_MISSING : exn := mkExn ValueError PARTIAL_MISSING_ERR.

Definition reset_of_shape (bs : list nat) (r : reset_value) : Prop :=
  match r with
  | PyFalse => True
  | ResetTensor t => shape t = bs /\ exists l, data t = Bools l
  end.

Lemma shape_eqb_refl s : shape_eqb s s = true.
Proof. unfold shape_eqb. destruct (list_eq_dec Nat.eq_dec s s); congruence. Qed.

Lemma shape_eqb_true s1 s2 : shape_eqb s1 s2 = true -> s1 = s2.
Proof. unfold shape_eqb. destruct (list_eq_dec Nat.eq_dec s1 s2); congruence. Qed.

Lemma reduce_to_present (bs : list nat) (t : tensor) (l : list bool) :
  data t = Bools l -> firstn (length bs) (shape t) = bs ->
  exists t', reduce_to (length bs) (Tensor t) = Ok t'
             /\ shape t' = bs /\ exists l', data t' = Bools l'.
Proof.
  intros Hd Hs. unfold reduce_to. destruct (Nat.ltb (length bs) (ndim t)) eqn:E.
  - eexists. split; [reflexivity|]. cbn. split; [exact Hs | eauto].
  - eexists. split; [reflexivity|]. split; [| eauto].
    apply Nat.ltb_ge in E. unfold ndim in E.
    rewrite firstn_all2 in Hs by exact E. exact Hs.
Qed.

Lemma reset_or_shaped (bs : list nat) (r : reset_value) (t : tensor) :
  reset_of_shape bs r -> shape t = bs -> (exists l, data t = Bools l) ->
  exists r', reset_or r t = Ok r' /\ reset_of_shape bs r'.
Proof.
  intros Hr Hs [l Hl]. destruct r as [ | a ]; cbn.
  - unfold or_False. rewrite Hl. cbn. eexists. split; [reflexivity|].
    cbn. eauto.
  - cbn in Hr. destruct Hr as [Ha [la Hla]]. unfold tensor_or.
    rewrite Hla, Hl, Ha, Hs, shape_eqb_refl. cbn.
    eexists. split; [reflexivity|]. cbn. eauto.
Qed.

Section ResetKeysLoop.
Variable batch : value.
Variable bs : list nat.

Let wf_keys (ks : list NestedKey) : Prop :=
  forall k, In k ks -> absent batch k \/ present batch bs k.

Lemma loop_after_missing : forall ks r,
  wf_keys ks -> (exists k, In k ks /\ present batch bs k) ->
  reset_keys_loop batch (length bs) ks r (Some true) = Raise PARTIAL_MISSING.
Proof.
  induction ks as [ | k ks IH ]; intros r Hwf [k0 [Hin Hp]]; [destruct Hin|].
  cbn [reset_keys_loop].
  destruct (Hwf k (or_introl eq_refl)) as [Ha | (t & l & Hg & _)].
  - unfold absent in Ha. rewrite Ha. cbn. apply IH.
    + intros k' Hk'. apply Hwf. right; exact Hk'.
    + destruct Hin as [-> | Hin]; [| eauto].
      destruct Hp as (t & l & Hg & _). congruence.
  - rewrite Hg. reflexivity.
Qed.

Lemma loop_after_present : forall ks r,
  wf_keys ks -> reset_of_shape bs r -> (exists k, In k ks /\ absent batch k) ->
  reset_keys_loop batch (length bs) ks r (Some false) = Raise PARTIAL_MISSING.
Proof.
  induction ks as [ | k ks IH ]; intros r Hwf Hr [k0 [Hin Ha0]]; [destruct Hin|].
  cbn [reset_keys_loop].
  destruct (Hwf k (or_introl eq_refl)) as [Ha | (t & l & Hg & Hd & Hs)].
  - unfold absent in Ha. rewrite Ha. reflexivity.
  - rewrite Hg. cbn [bind is_None].
    destruct (reduce_to_present bs t l Hd Hs) as (t' & Hred & Hs' & Hb').
    rewrite Hred. cbn [bind].
    destruct (reset_or_shaped bs r t' Hr Hs' Hb') as (r' & Hor & Hr').
    rewrite Hor. cbn [bind]. apply IH; [ | exact Hr' | ].
    + intros k' Hk'. apply Hwf. right; exact Hk'.
    + destruct Hin as [-> | Hin]; [| eauto].
      unfold absent in Ha0. congruence.
Qed.

Lemma loop_partial : forall ks,
  wf_keys ks ->
  (exists k, In k ks /\ absent batch k) -> (exists k, In k ks /\ present batch bs k) ->
  reset_keys_loop batch (length bs) ks PyFalse None = Raise PARTIAL_MISSING.
Proof.
  intros [ | k ks ] Hwf [ka [Hina Ha]] [kp [Hinp Hp]]; [destruct Hina|].
  cbn [reset_keys_loop].
  destruct (Hwf k (or_introl eq_refl)) as [Hk | (t & l & Hg & Hd & Hs)].
  - unfold absent in Hk. rewrite Hk. cbn. apply loop_after_missing.
    + intros k' Hk'. apply Hwf. right; exact Hk'.
    + destruct Hinp as [-> | Hinp]; [| eauto].
      destruct Hp as (t & l & Hg & _). congruence.
  - rewrite Hg. cbn [bind is_None].
    destruct (reduce_to_present bs t l Hd Hs) as (t' & Hred & Hs' & Hb').
    rewrite Hred. cbn [bind].
    destruct (reset_or_shaped bs PyFalse t' I Hs' Hb') as (r' & Hor & Hr').
    rewrite Hor. cbn [bind]. apply loop_after_present; [ | exact Hr' | ].
    + intros k' Hk'. apply Hwf. right; exact Hk'.
    + destruct Hina as [-> | Hina]; [| eauto].
      unfold absent in Ha. congruence.
Qed.

Lemma loop_all_missing : forall ks r hm,
  hm <> Some false -> (forall k, In k ks -> absent batch k) ->
  reset_keys_loop batch (length bs) ks r hm
    = Ok (r, match ks with [] => hm | _ => Some true end).
Proof.
  induction ks as [ | k ks IH ]; intros r hm Hhm Hall; [reflexivity|].
  cbn [reset_keys_loop]. rewrite (Hall k (or_introl eq_refl)). cbn [bind is_None].
  assert (E : reset_keys_loop batch (length bs) ks r (Some true) = Ok (r, Some true)).
  { rewrite IH; [ destruct ks; reflexivity | discriminate | ].
    intros k' Hk'. apply Hall. right; exact Hk'. }
  destruct hm as [ [ | ] | ]; [ exact E | congruence | exact E ].
Qed.
End ResetKeysLoop.

Definition partial_batch : value :=
  TensorDict [2]
    [("_reset", Tensor (mkTensor [2; 1] (Bools [true; false])));
     ("a", TensorDict [2] [("obs", Tensor (mkTensor [2] (Floats [1%float; 2%float])))])].

(** C9: when the expected reset keys (given, or derived from the done keys)
    are such that some are present in the batch and some are absent,
    [_aggregate_end_of_traj] raises the [ValueError] that carries
    [PARTIAL_MISSING_ERR], in whatever order the keys are enumerated. *)
Theorem partial_reset_keys_raise :
  forall (data : value) (batch_size : list nat)
         (reset_keys done_keys : option (list NestedKey)) (keys keys' : list NestedKey),
    batch_size_of data = Ok batch_size ->
    reset_keys_of reset_keys done_keys = Some keys ->
    Permutation keys keys' ->
    (forall k, In k keys -> absent data k \/ present data batch_size k) ->
    (exists k, In k keys /\ absent data k) ->
    (exists k, In k keys /\ present data batch_size k) ->
    _aggregate_end_of_traj data reset_keys done_keys = Raise PARTIAL_MISSING
    /\ _aggregate_end_of_traj data (Some keys') None = Raise PARTIAL_MISSING.
Proof.
  intros data bs rk dk keys keys' Hbs Hkeys Hperm Hwf Ha Hp.
  unfold _aggregate_end_of_traj. rewrite Hbs. cbn [bind]. rewrite Hkeys.
  split.
  - rewrite (loop_partial data bs keys Hwf Ha Hp). reflexivity.
  - cbn [reset_keys_of].
    rewrite (loop_partial data bs keys'); [reflexivity | | | ].
    + intros k Hk. apply Hwf. eapply Permutation_in; [ apply Permutation_sym |]; eassumption.
    + destruct Ha as [k [Hin Hk]]. exists k. split; [| exact Hk].
      eapply Permutation_in; eassumption.
    + destruct Hp as [k [Hin Hk]]. exists k. split; [| exact Hk].
      eapply Permutation_in; eassumption.
Qed.

Lemma partial_reset_keys_witness :
  _aggregate_end_of_traj partial_batch (Some [["_reset"]; ["a"; "_reset"]]) None
    = Raise PARTIAL_MISSING
  /\ _aggregate_end_of_traj partial_batch (Some [["a"; "_reset"]; ["_reset"]]) None
    = Raise PARTIAL_MISSING.
Proof.
  apply (partial_reset_keys_raise partial_batch [2]
           (Some [["_reset"]; ["a"; "_reset"]]) None
           [["_reset"]; ["a"; "_reset"]] [["a"; "_reset"]; ["_reset"]]).
  - reflexivity.
  - reflexivity.
  - apply perm_swap.
  - intros k [<- | [<- | []]].
    + right. exists (mkTensor [2; 1] (Bools [true; false])), [true; false].
      repeat split; reflexivity.
    + left. reflexivity.
  - exists ["a"; "_reset"]. split; [right; left; reflexivity | reflexivity].
  - exists ["_reset"]. split; [left; reflexivity |].
    exists (mkTensor [2; 1] (Bools [true; false])), [true; false].
    repeat split; reflexivity.
Defined.

(** C10: when the expected reset keys are not empty and none of them is
    present in the batch, [_aggregate_end_of_traj] returns the all-true
    boolean tensor of the batch size. *)
Theorem absent_reset_keys_reset_everything :
  forall (data : value) (batch_size : list nat)
         (reset_keys done_keys : option (list NestedKey)) (keys : list NestedKey),
    batch_size_of data = Ok batch_size ->
    reset_keys_of reset_keys done_keys = Some keys ->
    keys <> [] ->
    (forall k, In k keys -> absent data k) ->
    _aggregate_end_of_traj data reset_keys done_keys
      = Ok (ResetTensor (ones_bool batch_size)).
Proof.
  intros data bs rk dk keys Hbs Hkeys Hne Hall.
  unfold _aggregate_end_of_traj. rewrite Hbs. cbn [bind]. rewrite Hkeys.
  rewrite (loop_all_missing data bs keys PyFalse None); [ | discriminate | exact Hall ].
  destruct keys; [congruence | reflexivity].
Qed.

Lemma absent_reset_keys_witness :
  _aggregate_end_of_traj partial_batch (Some [["a"; "_reset"]]) None
    = Ok (ResetTensor (mkTensor [2] (Bools [true; true])))
  /\ _aggregate_end_of_traj partial_batch None (Some [["a"; "done"]; ["a"; "terminated"]])
    = Ok (ResetTensor (mkTensor [2] (Bools [true; true]))).
Proof.
  split.
  - apply (absent_reset_keys_reset_everything partial_batch [2]
             (Some [["a"; "_reset"]]) None [["a"; "_reset"]]).
    + reflexivity.
    + reflexivity.
    + discriminate.
    + intros k [<- | []]. reflexivity.
  - apply (absent_reset_keys_reset_everything partial_batch [2]
             None (Some [["a"; "done"]; ["a"; "terminated"]]) [["a"; "done"]]).
    + reflexivity.
    + reflexivity.
    + discriminate.
    + intros k [<- | []]. reflexivity.
Defined.

(** ** The single update per branch of [_update_during_reset] *)

(** The node that owns a reset key: the root for a string key, the path
    without its last segment for a tuple. *)
Definition node_of (reset_key : NestedKey) : NestedKey :=
  if is_tuple reset_key then removelast reset_key else [].

(** [a] is the node [b] or one of its ancestors. *)
Definition ancestor_or_self (a b : NestedKey) : Prop :=
  firstn (length a) b = a.

(** The lookups of the owning node that precede the [pop] succeed. *)
Definition nodes_found (tensordict_reset tensordict : value) (reset_key : NestedKey) : Prop :=
  is_tuple reset_key = true ->
  (exists x, get tensordict_reset (removelast reset_key) = Ok x)
  /\ (exists y, get tensordict (removelast reset_key) = Ok y).

Lemma foldM_app {A B} (f : A -> B -> result A) (l1 l2 : list B) (a : A) :
  foldM f (l1 ++ l2) a = (a' <- foldM f l1 a ;; foldM f l2 a').
Proof.
  revert a. induction l1 as [ | b l1 IH ]; intros a; cbn; [reflexivity|].
  destruct (f a b); cbn; [apply IH | reflexivity].
Qed.

Lemma bind_Ok {A B} (m : result A) (k : A -> result B) (b : B) :
  bind m k = Ok b -> exists a, m = Ok a /\ k a = Ok b.
Proof. destruct m; cbn; [eauto | discriminate]. Qed.

Lemma reset_iteration_roots treset td roots k td' roots' :
  reset_iteration treset (td, roots) k = Ok (td', roots') ->
  roots' = node_of k :: roots.
Proof.
  unfold reset_iteration, node_of. intros H.
  apply bind_Ok in H. destruct H as (node_reset & _ & H).
  apply bind_Ok in H. destruct H as (x & _ & H).
  apply bind_Ok in H. destruct H as ([reset td1] & _ & H).
  destruct (processed_by roots k).
  - inversion H. reflexivity.
  - apply bind_Ok in H. destruct H as (node & _ & H).
    apply bind_Ok in H. destruct H as (node' & _ & H).
    apply bind_Ok in H. destruct H as (td2 & _ & H).
    inversion H. reflexivity.
Qed.

Lemma update_roots treset : forall ks td roots td' roots',
  _update_during_reset_from treset (td, roots) ks = Ok (td', roots') ->
  forall r, (In r roots \/ In r (map node_of ks)) -> In r roots'.
Proof.
  unfold _update_during_reset_from.
  induction ks as [ | k ks IH ]; intros td roots td' roots' H r Hr; cbn in H.
  - inversion H; subst. destruct Hr as [Hr | []]. exact Hr.
  - apply bind_Ok in H. destruct H as ([td1 roots1] & H1 & H2).
    apply reset_iteration_roots in H1. subst roots1.
    eapply IH; [exact H2|].
    destruct Hr as [Hr | [Hr | Hr]].
    + left. right. exact Hr.
    + left. left. exact Hr.
    + right. exact Hr.
Qed.

Lemma firstn_removelast {A} (l : list A) (n : nat) :
  n <= length (removelast l) -> firstn n (removelast l) = firstn n l.
Proof.
  revert n. induction l as [ | a l IH ]; intros n Hn; [reflexivity|].
  destruct l as [ | b l ].
  - cbn in Hn. assert (n = 0) by lia. subst. reflexivity.
  - destruct n as [ | n ]; [reflexivity|].
    change (removelast (a :: b :: l)) with (a :: removelast (b :: l)) in *.
    cbn [firstn]. f_equal. apply IH. cbn [length] in Hn. lia.
Qed.

Lemma ancestor_of_node_processes (roots : list NestedKey) (a k : NestedKey) :
  In a roots -> ancestor_or_self a (node_of k) -> processed_by roots k = true.
Proof.
  intros Hin Hanc. unfold processed_by. apply existsb_exists.
  exists a. split; [exact Hin|].
  unfold key_eqb. destruct (key_eq_dec (firstn (length a) k) a) as [ | Hne ]; [reflexivity|].
  exfalso. apply Hne. unfold ancestor_or_self, node_of in Hanc.
  destruct (is_tuple k).
  - rewrite <- Hanc at 2. symmetry. apply firstn_removelast.
    rewrite <- Hanc at 1. rewrite length_firstn. lia.
  - rewrite firstn_nil in Hanc. subst a. reflexivity.
Qed.

(** The batches of the example: the root carries a mixed reset mask and the
    nested batch ["a"] a reset signal of its own. *)
Definition reset_example_current : value :=
  TensorDict [2]
    [("_reset", Tensor (mkTensor [2; 1] (Bools [true; false])));
     ("a", TensorDict [2]
             [("_reset", Tensor (mkTensor [2; 1] (Bools [true; true])));
              ("obs", Tensor (mkTensor [2] (Floats [1%float; 2%float])))])].

Definition reset_example_fresh : value :=
  TensorDict [2]
    [("a", TensorDict [2] [("obs", Tensor (mkTensor [2] (Floats [7%float; 8%float])))])].

Definition reset_example_after_root : value :=
  TensorDict [2]
    [("a", TensorDict [2]
             [("_reset", Tensor (mkTensor [2; 1] (Bools [false; true])));
              ("obs", Tensor (mkTensor [2] (Floats [7%float; 2%float])))])].

Definition reset_example_final : value :=
  TensorDict [2]
    [("a", TensorDict [2] [("obs", Tensor (mkTensor [2] (Floats [7%float; 2%float])))])].

(** C7: once the node of some reset key has been handled, a later reset key
    whose owning node is that node or lies below it is skipped: its
    iteration pops (consumes) the reset signal and changes nothing else in
    the batch, whatever the signal says. *)
Theorem descendant_reset_key_is_skipped :
  forall (tensordict_reset tensordict : value) (before between : list NestedKey)
         (ancestor reset_key : NestedKey) (tensordict1 : value) (roots1 : list NestedKey)
         (reset tensordict2 : value),
    _update_during_reset_from tensordict_reset (tensordict, [])
      (before ++ ancestor :: between) = Ok (tensordict1, roots1) ->
    ancestor_or_self (node_of ancestor) (node_of reset_key) ->
    nodes_found tensordict_reset tensordict1 reset_key ->
    pop tensordict1 reset_key = Ok (reset, tensordict2) ->
    reset_iteration tensordict_reset (tensordict1, roots1) reset_key
      = Ok (tensordict2, node_of reset_key :: roots1)
    /\ tensordict2 = (if is_None reset then tensordict1
                      else exclude_key reset_key tensordict1)
    /\ _update_during_reset_from tensordict_reset (tensordict, [])
         ((before ++ ancestor :: between) ++ [reset_key])
       = Ok (tensordict2, node_of reset_key :: roots1).
Proof.
  intros treset td before between anc k td1 roots1 reset td2 Hrun Hanc Hnodes Hpop.
  assert (Hproc : processed_by roots1 k = true).
  { eapply ancestor_of_node_processes; [| exact Hanc].
    eapply update_roots; [exact Hrun|]. right.
    rewrite map_app. apply in_or_app. right. left. reflexivity. }
  assert (Hit : reset_iteration treset (td1, roots1) k = Ok (td2, node_of k :: roots1)).
  { unfold reset_iteration, node_of. unfold nodes_found in Hnodes.
    destruct (is_tuple k).
    - destruct (Hnodes eq_refl) as [[x Hx] [y Hy]].
      rewrite Hx, Hy. cbn [bind]. rewrite Hpop. cbn [bind]. rewrite Hproc. reflexivity.
    - cbn [bind]. rewrite Hpop. cbn [bind]. rewrite Hproc. reflexivity. }
  split; [exact Hit|]. split.
  - unfold pop in Hpop. apply bind_Ok in Hpop. destruct Hpop as (out & _ & H).
    destruct (is_None out) eqn:E; inversion H; subst; cbn; [reflexivity|].
    rewrite E. reflexivity.
  - unfold _update_during_reset_from in *. rewrite foldM_app, Hrun.
    cbn [bind foldM]. rewrite Hit. reflexivity.
Qed.

Lemma descendant_reset_key_witness :
  reset_iteration reset_example_fresh (reset_example_after_root, [[]]) ["a"; "_reset"]
    = Ok (reset_example_final, [["a"]; []])
  /\ reset_example_final = exclude_key ["a"; "_reset"] reset_example_after_root
  /\ _update_during_reset_from reset_example_fresh (reset_example_current, [])
       [["_reset"]; ["a"; "_reset"]]
     = Ok (reset_example_final, [["a"]; []]).
Proof.
  apply (descendant_reset_key_is_skipped reset_example_fresh reset_example_current
           [] [] ["_reset"] ["a"; "_reset"] reset_example_after_root [[]]
           (Tensor (mkTensor [2; 1] (Bools [false; true]))) reset_example_final).
  - reflexivity.
  - reflexivity.
  - intros _. split; eexists; reflexivity.
  - reflexivity.
Defined.

(** ** What the episode-boundary walk reports *)

Definition leaf_true (v : value) : bool :=
  match v with Tensor t => tensor_any t | _ => false end.

Definition done_named (kv : string * value) : bool := is_done_name (fst kv).

(** The entries the schema-less walk descends into. *)
Definition sub_batches (items : list (string * value)) : list (string * value) :=
  filter (fun kv => negb (done_named kv) && is_tensor_collection (snd kv)) items.

(** The boolean the schema-less walk computes: the leaves of a node that has
    direct done / terminated / truncated entries decide for the whole node;
    a node without any reports what its sub-batches report. *)
Fixpoint eot_of (v : value) : bool :=
  match v with
  | TensorDict _ items =>
      if existsb done_named items
      then existsb (fun kv => done_named kv && leaf_true (snd kv)) items
      else existsb (fun kv => eot_of (snd kv)) items
  | _ => false
  end.

(** A done leaf as the walk expects it: a boolean tensor with as many
    elements as its shape says, of the shape [s0] shared by the done leaves of
    its node, which extends the batch size of the node. *)
Definition done_leaf_ok (bs s0 : list nat) (v : value) : bool :=
  match v with
  | Tensor t =>
      match data t with
      | Bools l =>
          Nat.eqb (length l) (prod (shape t))
            && shape_eqb (shape t) s0 && is_prefix bs (shape t)
      | Floats _ => false
      end
  | _ => false
  end.

Definition done_shape (items : list (string * value)) : list nat :=
  match filter done_named items with
  | (_, Tensor t) :: _ => shape t
  | _ => []
  end.

(** Batches the schema-less walk runs on: nested [TensorDict]s whose done
    entries are such leaves. *)
Fixpoint done_ready (v : value) : bool :=
  match v with
  | Tensor _ => true
  | TensorDict bs items =>
      forallb (fun kv => if done_named kv
                         then done_leaf_ok bs (done_shape items) (snd kv)
                         else done_ready (snd kv)) items
  | _ => false
  end.

Definition agg_any (o : option tensor) : bool :=
  match o with Some a => tensor_any a | None => false end.

Definition agg_ok (bs s0 : list nat) (o : option tensor) : Prop :=
  match o with
  | Some a => exists l, data a = Bools l /\ length l = prod s0 /\ shape a = s0
                        /\ is_prefix bs s0 = true
  | None => True
  end.

Definition is_Some {A} (o : option A) : bool :=
  match o with Some _ => true | None => false end.

Lemma existsb_zip_with_orb : forall la lb,
  length la = length lb ->
  existsb (fun b => b) (zip_with orb la lb)
    = existsb (fun b => b) la || existsb (fun b => b) lb.
Proof.
  induction la as [ | a la IH ]; intros [ | b lb ] H; cbn in *; try discriminate.
  - reflexivity.
  - rewrite IH by lia.
    destruct a, b, (existsb (fun b => b) la), (existsb (fun b => b) lb); reflexivity.
Qed.

Lemma length_zip_with {A B C} (f : A -> B -> C) : forall la lb,
  length la = length lb -> length (zip_with f la lb) = length la.
Proof.
  induction la as [ | a la IH ]; intros [ | b lb ] H; cbn in *; try discriminate.
  - reflexivity.
  - f_equal. apply IH. lia.
Qed.

Lemma aggregate_or_ok bs s0 agg v :
  agg_ok bs s0 agg -> done_leaf_ok bs s0 v = true ->
  exists a, aggregate_or agg v = Ok (Some a)
            /\ agg_ok bs s0 (Some a)
            /\ tensor_any a = agg_any agg || leaf_true v.
Proof.
  intros Hagg Hv. destruct v as [ | t | | ]; cbn in Hv; try discriminate.
  destruct (data t) as [l|] eqn:Hd; [| discriminate].
  rewrite !andb_true_iff in Hv. destruct Hv as [[Hlen Hs] Hpre].
  apply Nat.eqb_eq in Hlen. apply shape_eqb_true in Hs.
  destruct agg as [a|]; cbn.
  - destruct Hagg as (la & Hda & Hla & Hsa & Hpa).
    unfold tensor_or. rewrite Hda, Hd, Hsa, Hs, shape_eqb_refl. cbn.
    eexists. split; [reflexivity|]. split.
    + exists (zip_with orb la l). cbn. repeat split; try assumption.
      rewrite length_zip_with; congruence.
    + unfold tensor_any. cbn. rewrite Hda, Hd. cbn.
      apply existsb_zip_with_orb. congruence.
  - unfold or_False. rewrite Hd. cbn. eexists. split; [reflexivity|]. split.
    + exists l. repeat split; congruence.
    + reflexivity.
Qed.

(** The first loop of the schema-less branch. *)
Definition first_loop_step (st : option tensor * nat * list (string * value))
    (it : string * value) : result (option tensor * nat * list (string * value)) :=
  let '(aggregate, found_leaf, tds) := st in
  let '(eot_key, item) := it in
  if is_done_name eot_key then
    aggregate <- aggregate_or aggregate item ;;
    Ok (aggregate, found_leaf + 1, tds)
  else if is_tensor_collection item then
    Ok (aggregate, found_leaf, tds ++ [(eot_key, item)])
  else Ok st.

Lemma first_loop_spec bs s0 : forall l agg n tds,
  agg_ok bs s0 agg ->
  forallb (fun kv => if done_named kv then done_leaf_ok bs s0 (snd kv) else true) l = true ->
  exists agg',
    foldM first_loop_step l (agg, n, tds)
      = Ok (agg', n + length (filter done_named l), tds ++ sub_batches l)
    /\ agg_ok bs s0 agg'
    /\ agg_any agg' = agg_any agg || existsb (fun kv => done_named kv && leaf_true (snd kv)) l
    /\ is_Some agg' = is_Some agg || existsb done_named l.
Proof.
  induction l as [ | [k v] l IH ]; intros agg n tds Hagg Hall.
  - exists agg. cbn. rewrite Nat.add_0_r, app_nil_r, !orb_false_r. auto.
  - cbn in Hall. rewrite andb_true_iff in Hall. destruct Hall as [Hv Hall].
    cbn [foldM first_loop_step]. unfold sub_batches, done_named in *.
    cbn [filter existsb fst snd] in *.
    destruct (is_done_name k) eqn:Ek; cbn [negb andb orb length].
    + destruct (aggregate_or_ok bs s0 agg v Hagg Hv) as (a & Ha & Hok & Hany).
      rewrite Ha. cbn [bind].
      destruct (IH (Some a) (n + 1) tds Hok Hall) as (agg' & Hf & Hok' & Hany' & Hsome').
      exists agg'. rewrite Hf. repeat split.
      * f_equal. f_equal. f_equal. lia.
      * exact Hok'.
      * rewrite Hany'. cbn [agg_any]. rewrite Hany, orb_assoc. reflexivity.
      * rewrite Hsome'. cbn. rewrite orb_true_r. reflexivity.
    + destruct (is_tensor_collection v) eqn:Ev; cbn [bind].
      * destruct (IH agg n (tds ++ [(k, v)]) Hagg Hall) as (agg' & Hf & Hok' & Hany' & Hsome').
        exists agg'. rewrite Hf. repeat split; try assumption.
        rewrite <- app_assoc. reflexivity.
      * destruct (IH agg n tds Hagg Hall) as (agg' & Hf & Hok' & Hany' & Hsome').
        exists agg'. rewrite Hf. repeat split; assumption.
Qed.

Lemma squeeze_last_any a : tensor_any (squeeze_last a) = tensor_any a.
Proof.
  unfold squeeze_last. destruct (rev (shape a)) as [ | [ | [ | n ] ] r ]; reflexivity.
Qed.

Lemma is_prefix_true p l : is_prefix p l = true <-> firstn (length p) l = p.
Proof.
  unfold is_prefix, shape_eqb.
  destruct (list_eq_dec Nat.eq_dec (firstn (length p) l) p); split; congruence.
Qed.

Lemma squeeze_last_prefix bs a :
  is_prefix bs (shape a) = true -> length bs < ndim a ->
  is_prefix bs (shape (squeeze_last a)) = true.
Proof.
  unfold ndim, squeeze_last. rewrite !is_prefix_true. intros Hp Hlt.
  destruct (rev (shape a)) as [ | [ | [ | n ] ] r ] eqn:E; try exact Hp.
  cbn [shape].
  assert (Hs : shape a = rev r ++ [1]).
  { rewrite <- (rev_involutive (shape a)), E. reflexivity. }
  rewrite Hs in Hp, Hlt. rewrite length_app, length_rev in Hlt. cbn in Hlt.
  rewrite firstn_app in Hp.
  replace (length bs - length (rev r)) with 0 in Hp by (rewrite length_rev; lia).
  cbn in Hp. rewrite app_nil_r in Hp. exact Hp.
Qed.

(** The value the last block of the walk stores under [key]. *)
Definition stored_aggregate (bs : list nat) (a : tensor) : tensor :=
  if Nat.ltb (length bs) (ndim a) then squeeze_last a else a.

Lemma write_aggregate_spec bs s0 items agg any key curr ks :
  agg_ok bs s0 agg ->
  write_aggregate agg any (TensorDict bs items) key curr ks
    = Ok match agg, key with
         | Some a, Some k =>
             mkWalk (any || tensor_any a)
               (TensorDict bs (assoc_set k (Tensor (stored_aggregate bs a)) items))
               (ks ++ [curr ++ [k]])
         | Some a, None => mkWalk (any || tensor_any a) (TensorDict bs items) ks
         | None, _ => mkWalk any (TensorDict bs items) ks
         end.
Proof.
  intros Hagg. unfold write_aggregate. destruct agg as [a|]; [| reflexivity].
  destruct key as [k|]; [| reflexivity].
  cbn [batch_size_of bind]. fold (stored_aggregate bs a).
  destruct Hagg as (l & Hd & Hl & Hs & Hp). unfold set_tensor. cbn [batch_size_of bind].
  assert (Hpre : is_prefix bs (shape (stored_aggregate bs a)) = true).
  { unfold stored_aggregate. destruct (Nat.ltb (length bs) (ndim a)) eqn:E.
    - apply squeeze_last_prefix; [ rewrite Hs; exact Hp | apply Nat.ltb_lt; exact E ].
    - rewrite Hs. exact Hp. }
  rewrite Hpre. cbn. f_equal. f_equal.
  unfold stored_aggregate. destruct (Nat.ltb (length bs) (ndim a)); [| reflexivity].
  rewrite squeeze_last_any. reflexivity.
Qed.

(** The second loop of the schema-less branch. *)
Definition children_step (fuel : nat) (key : option string) (curr_done_key : NestedKey)
    (found_leaf : nat) (st : bool * value * list NestedKey) (it : string * value)
    : result (bool * value * list NestedKey) :=
  let '(any_eot, data, list_of_keys) := st in
  let '(eot_key, item) := it in
  w <- inner_terminated_or_truncated fuel item None key
         (curr_done_key ++ [eot_key]) list_of_keys ;;
  data <- _set_str data eot_key (walked w) ;;
  Ok (if Nat.eqb found_leaf 0 then any_eot || eot w else any_eot, data, written w).

Lemma inner_no_schema_unfold fuel data key curr ks :
  inner_terminated_or_truncated (S fuel) data None key curr ks
    = (its <- items_of data ;;
       '(aggregate, found_leaf, tds) <- foldM first_loop_step its (None, 0, []) ;;
       '(any_eot, data, list_of_keys) <-
         foldM (children_step fuel key curr found_leaf) tds (false, data, ks) ;;
       write_aggregate aggregate any_eot data key curr list_of_keys).
Proof. reflexivity. Qed.

Section SchemaLessWalk.
Variable fuel : nat.
Variable key : option string.
Hypothesis IH : forall data curr ks,
  done_ready data = true -> is_TensorDict data = true -> depth data < fuel ->
  exists data' ks',
    inner_terminated_or_truncated fuel data None key curr ks
      = Ok (mkWalk (eot_of data) data' ks').

Lemma children_loop_spec curr found_leaf bs : forall tds any items ks,
  (forall k x, In (k, x) tds ->
     done_ready x = true /\ is_TensorDict x = true /\ depth x < fuel) ->
  exists items' ks',
    foldM (children_step fuel key curr found_leaf) tds (any, TensorDict bs items, ks)
      = Ok (if Nat.eqb found_leaf 0
            then any || existsb (fun kv => eot_of (snd kv)) tds else any,
            TensorDict bs items', ks').
Proof.
  induction tds as [ | [k x] tds IHl ]; intros any items ks Hall.
  - exists items, ks. cbn. rewrite orb_false_r.
    destruct (Nat.eqb found_leaf 0); reflexivity.
  - destruct (Hall k x (or_introl eq_refl)) as (Hr & Htd & Hd).
    destruct (IH x (curr ++ [k]) ks Hr Htd Hd) as (x' & ks1 & Hx).
    cbn [foldM children_step]. rewrite Hx. cbn [bind walked eot written _set_str].
    destruct (IHl (if Nat.eqb found_leaf 0 then any || eot_of x else any)
                (assoc_set k x' items) ks1) as (items' & ks' & Hf).
    { intros k0 x0 Hin. apply (Hall k0 x0). right. exact Hin. }
    exists items', ks'. rewrite Hf. f_equal. f_equal. f_equal.
    cbn [existsb snd]. destruct (Nat.eqb found_leaf 0); [| reflexivity].
    rewrite orb_assoc. reflexivity.
Qed.
End SchemaLessWalk.

Lemma done_ready_entries bs items :
  done_ready (TensorDict bs items) = true ->
  forallb (fun kv => if done_named kv
                     then done_leaf_ok bs (done_shape items) (snd kv) else true) items = true
  /\ forall k x, In (k, x) (sub_batches items) ->
       done_ready x = true /\ is_TensorDict x = true /\ In (k, x) items.
Proof.
  cbn [done_ready]. generalize (done_shape items) as s0. intros s0 H. split.
  - rewrite forallb_forall in *. intros kv Hin. specialize (H kv Hin).
    destruct (done_named kv); [exact H | reflexivity].
  - intros k x Hin. unfold sub_batches in Hin. apply filter_In in Hin.
    destruct Hin as [Hin Hc]. rewrite forallb_forall in H. specialize (H _ Hin).
    rewrite andb_true_iff, negb_true_iff in Hc. destruct Hc as [Hn Hc].
    rewrite Hn in H. cbn in H, Hc. repeat split; try assumption.
    destruct x; cbn in *; congruence.
Qed.

Lemma filter_length_existsb {A} (f : A -> bool) (l : list A) :
  Nat.eqb (length (filter f l)) 0 = negb (existsb f l).
Proof.
  induction l as [ | a l IH ]; cbn; [reflexivity|].
  destruct (f a); cbn; [reflexivity | exact IH].
Qed.

Lemma existsb_eot_sub_batches items :
  existsb done_named items = false ->
  existsb (fun kv => eot_of (snd kv)) (sub_batches items)
    = existsb (fun kv => eot_of (snd kv)) items.
Proof.
  unfold sub_batches. induction items as [ | [k x] items IH ]; cbn; [reflexivity|].
  rewrite orb_false_iff. intros [Hk Hrest]. unfold done_named in *. cbn in Hk |- *.
  rewrite Hk. cbn. destruct (is_tensor_collection x) eqn:E; cbn.
  - rewrite IH by exact Hrest. reflexivity.
  - rewrite IH by exact Hrest. destruct x; cbn in *; try reflexivity; discriminate.
Qed.

(** On a batch whose done entries are well-shaped boolean leaves the
    schema-less walk returns, and it returns [eot_of]. *)
Lemma walk_no_schema (key : option string) : forall fuel data curr ks,
  done_ready data = true -> is_TensorDict data = true -> depth data < fuel ->
  exists data' ks',
    inner_terminated_or_truncated fuel data None key curr ks
      = Ok (mkWalk (eot_of data) data' ks').
Proof.
  induction fuel as [ | fuel IH ]; intros data curr ks Hr Htd Hd; [lia|].
  destruct data as [ | t | bs items | sd tds ]; try discriminate.
  rewrite inner_no_schema_unfold. cbn [items_of bind].
  destruct (done_ready_entries bs items Hr) as [Hleaves Hsubs].
  destruct (first_loop_spec bs (done_shape items) items None 0 [] I Hleaves)
    as (agg & Hf & Hok & Hany & Hsome).
  rewrite Hf. cbn [bind app].
  destruct (children_loop_spec fuel key IH curr
              (0 + length (filter done_named items)) bs (sub_batches items)
              false items ks) as (items' & ks' & Hc).
  { intros k x Hin. destruct (Hsubs k x Hin) as (H1 & H2 & H3).
    repeat split; try assumption.
    pose proof (depth_entry bs items k x H3). lia. }
  rewrite Hc. cbn [bind].
  rewrite (write_aggregate_spec bs (done_shape items) items' agg _ key curr ks' Hok).
  cbn [Nat.add]. rewrite filter_length_existsb.
  cbn [eot_of agg_any is_Some orb] in *.
  destruct (existsb done_named items) eqn:Ed; cbn [negb].
  - destruct agg as [a|]; [| discriminate].
    cbn [agg_any] in Hany. rewrite Hany.
    destruct key; eexists; eexists; reflexivity.
  - destruct agg as [a|]; [discriminate|].
    rewrite (existsb_eot_sub_batches items Ed).
    destruct key; eexists; eexists; reflexivity.
Qed.

(** ** The leaves that decide the report *)

(** The node reached at a path of nested [TensorDict]s. *)
Fixpoint node_at (v : value) (p : NestedKey) : option value :=
  match p with
  | [] => Some v
  | k :: rest =>
      match v with
      | TensorDict _ items =>
          match assoc k items with
          | Some x => node_at x rest
          | None => None
          end
      | _ => None
      end
  end.

Definition has_done_entry (v : value) : bool :=
  match v with
  | TensorDict _ items => existsb done_named items
  | _ => false
  end.

(** No node strictly above [p] has a direct done entry: nothing prevails
    over the leaves of the node at [p]. *)
Definition unshadowed (batch : value) (p : NestedKey) : Prop :=
  forall n x, n < length p -> node_at batch (firstn n p) = Some x ->
              has_done_entry x = false.

(** A done leaf that is true and that no ancestor's leaves prevail over. *)
Definition deciding_leaf (batch : value) : Prop :=
  exists p name t,
    unshadowed batch p /\ is_done_name name = true
    /\ leaf_at batch (p ++ [name]) = Some t /\ tensor_any t = true.

Lemma unshadowed_cons bs items k x p :
  assoc k items = Some x ->
  unshadowed (TensorDict bs items) (k :: p)
  <-> existsb done_named items = false /\ unshadowed x p.
Proof.
  intros Ha. unfold unshadowed. split.
  - intros H. split.
    + apply (H 0 (TensorDict bs items)); [cbn; lia | reflexivity].
    + intros n y Hn Hy. apply (H (S n) y); [cbn; lia |].
      cbn. rewrite Ha. exact Hy.
  - intros [H0 H] [ | n ] y Hn Hy.
    + cbn in Hy. inversion Hy; subst. exact H0.
    + cbn in Hy. rewrite Ha in Hy. apply (H n y); [cbn in Hn; lia | exact Hy].
Qed.

Lemma eot_of_deciding_leaf : forall batch,
  plain batch = true -> (eot_of batch = true <-> deciding_leaf batch).
Proof.
  induction batch as [ | t | bs items IH | sd tds _ ] using value_rect';
    intros Hp; try discriminate.
  - split; [discriminate|]. intros (p & name & t' & _ & _ & Hl & _).
    destruct p; cbn in Hl; discriminate.
  - pose proof Hp as Hp'. cbn in Hp'. rewrite andb_true_iff in Hp'.
    destruct Hp' as [Hnd Hall]. apply nodupb_NoDup in Hnd.
    cbn [eot_of]. destruct (existsb done_named items) eqn:Ed; split.
    + intros H. apply existsb_exists in H. destruct H as ([k x] & Hin & H).
      rewrite andb_true_iff in H. destruct H as [Hk Hx]. unfold done_named in Hk.
      cbn in Hk, Hx. destruct x as [ | t | | ]; try discriminate.
      exists [], k, t. repeat split; try assumption.
      * intros n y Hn. cbn in Hn. lia.
      * cbn. rewrite (In_assoc_nodup k (Tensor t) items Hnd Hin). reflexivity.
    + intros (p & name & t & Hu & Hname & Hl & Ht).
      destruct p as [ | k p ].
      * cbn in Hl. destruct (assoc name items) as [x|] eqn:Ha; [| discriminate].
        destruct x; try discriminate. inversion Hl; subst.
        apply existsb_exists. exists (name, Tensor t). split.
        -- apply assoc_In. exact Ha.
        -- unfold done_named. cbn. rewrite Hname, Ht. reflexivity.
      * exfalso. cbn in Hl. destruct (assoc k items) as [x|] eqn:Ha; [| discriminate].
        apply (unshadowed_cons bs items k x p Ha) in Hu. destruct Hu as [H0 _]. congruence.
    + intros H. apply existsb_exists in H. destruct H as ([k x] & Hin & H). cbn in H.
      rewrite Forall_forall in IH. specialize (IH (k, x) Hin). cbn in IH.
      rewrite forallb_forall in Hall. specialize (Hall (k, x) Hin). cbn in Hall.
      apply (IH Hall) in H. destruct H as (p & name & t & Hu & Hname & Hl & Ht).
      pose proof (In_assoc_nodup k x items Hnd Hin) as Ha.
      exists (k :: p), name, t. repeat split; try assumption.
      * apply (unshadowed_cons bs items k x p Ha). split; assumption.
      * cbn. rewrite Ha. exact Hl.
    + intros (p & name & t & Hu & Hname & Hl & Ht).
      destruct p as [ | k p ].
      * exfalso. cbn in Hl. destruct (assoc name items) as [x|] eqn:Ha; [| discriminate].
        apply assoc_In in Ha.
        assert (existsb done_named items = true).
        { apply existsb_exists. exists (name, x). split; [exact Ha | exact Hname]. }
        congruence.
      * cbn in Hl. destruct (assoc k items) as [x|] eqn:Ha; [| discriminate].
        apply (unshadowed_cons bs items k x p Ha) in Hu. destruct Hu as [_ Hu].
        pose proof (assoc_In _ _ _ Ha) as Hin.
        rewrite Forall_forall in IH. specialize (IH (k, x) Hin). cbn in IH.
        rewrite forallb_forall in Hall. specialize (Hall (k, x) Hin). cbn in Hall.
        apply existsb_exists. exists (k, x). split; [exact Hin|]. cbn.
        apply (IH Hall). exists p, name, t. repeat split; assumption.
Qed.

(** ** The schema-driven walk *)

Definition leaf_spec (e : string * spec) : bool := negb (is_composite (snd e)).
Definition composite_spec (e : string * spec) : bool := is_composite (snd e).

Fixpoint spec_assoc (k : string) (l : list (string * spec)) : option spec :=
  match l with
  | [] => None
  | (k', s) :: l' => if String.eqb k k' then Some s else spec_assoc k l'
  end.

(** The value [stop] of the first loop: the entry, or zeros of shape
    [( *data.shape, 1)] when it is missing. *)
Definition stop_of (bs : list nat) (items : list (string * value)) (k : string) : value :=
  match assoc k items with
  | None | Some PyNone => Tensor (zeros_bool (bs ++ [1]))
  | Some x => x
  end.

Definition entry_true (items : list (string * value)) (k : string) : bool :=
  match assoc k items with Some x => leaf_true x | None => false end.

(** The boolean the schema-driven walk computes. *)
Fixpoint eot_of_spec (s : spec) (v : value) : bool :=
  match s, v with
  | CompositeSpec entries, TensorDict _ items =>
      if existsb leaf_spec entries
      then existsb (fun e => leaf_spec e && entry_true items (fst e)) entries
      else existsb (fun e => match assoc (fst e) items with
                             | Some x => eot_of_spec (snd e) x
                             | None => false
                             end) entries
  | _, _ => false
  end.

Definition stop_shape (bs : list nat) (entries : list (string * spec))
    (items : list (string * value)) : list nat :=
  match filter leaf_spec entries with
  | e :: _ => match stop_of bs items (fst e) with Tensor t => shape t | _ => [] end
  | [] => []
  end.

(** Batches the schema-driven walk runs on: every composite entry of the
    spec names a [TensorDict] of the batch, and the leaves the spec names at
    one node are boolean tensors of one shape (zeros standing for the missing
    ones). *)
Fixpoint spec_ready (s : spec) (v : value) : bool :=
  match s, v with
  | CompositeSpec entries, TensorDict bs items =>
      nodupb (map fst entries)
      && forallb (fun e =>
                    match snd e with
                    | LeafSpec =>
                        done_leaf_ok bs (stop_shape bs entries items)
                          (stop_of bs items (fst e))
                    | CompositeSpec _ =>
                        match assoc (fst e) items with
                        | Some x => is_TensorDict x && spec_ready (snd e) x
                        | None => false
                        end
                    end) entries
  | _, _ => false
  end.

Definition schema_first_step (data : value)
    (st : option tensor * nat * list (string * spec)) (it : string * spec)
    : result (option tensor * nat * list (string * spec)) :=
  let '(aggregate, found_leaf, composite_spec) := st in
  let '(eot_key, item) := it in
  if is_composite item then
    Ok (aggregate, found_leaf, composite_spec ++ [(eot_key, item)])
  else
    stop <- _get_str data eot_key DefaultNone ;;
    stop <- (if is_None stop then
               bs <- batch_size_of data ;;
               Ok (Tensor (zeros_bool (bs ++ [1])))
             else Ok stop) ;;
    aggregate <- aggregate_or aggregate stop ;;
    Ok (aggregate, found_leaf + 1, composite_spec).

Definition schema_children_step (fuel : nat) (key : option string)
    (curr_done_key : NestedKey) (found_leaf : nat)
    (st : bool * value * list NestedKey) (it : string * spec)
    : result (bool * value * list NestedKey) :=
  let '(any_eot, data, list_of_keys) := st in
  let '(eot_key, item) := it in
  sub <- _get_str data eot_key NO_DEFAULT ;;
  w <- inner_terminated_or_truncated fuel sub (Some item) key
         (curr_done_key ++ [eot_key]) list_of_keys ;;
  data <- _set_str data eot_key (walked w) ;;
  Ok (if Nat.eqb found_leaf 0 then eot w || any_eot else any_eot, data, written w).

Lemma inner_schema_unfold fuel data s key curr ks :
  inner_terminated_or_truncated (S fuel) data (Some s) key curr ks
    = (sits <- spec_items s ;;
       '(aggregate, found_leaf, composite_spec) <-
         foldM (schema_first_step data) sits (None, 0, []) ;;
       '(any_eot, data, list_of_keys) <-
         foldM (schema_children_step fuel key curr found_leaf) composite_spec
               (false, data, ks) ;;
       write_aggregate aggregate any_eot data key curr list_of_keys).
Proof. reflexivity. Qed.

Lemma existsb_repeat_false n : existsb (fun b : bool => b) (repeat false n) = false.
Proof. induction n; cbn; [reflexivity | exact IHn]. Qed.

Lemma leaf_true_stop_of bs items k :
  leaf_true (stop_of bs items k) = entry_true items k.
Proof.
  unfold stop_of, entry_true.
  destruct (assoc k items) as [ [ | t | | ] | ]; cbn; try reflexivity;
    apply existsb_repeat_false.
Qed.

Lemma stop_lookup bs items k :
  (stop <- _get_str (TensorDict bs items) k DefaultNone ;;
   (if is_None stop then
      bs' <- batch_size_of (TensorDict bs items) ;;
      Ok (Tensor (zeros_bool (bs' ++ [1])))
    else Ok stop)) = Ok (stop_of bs items k).
Proof.
  unfold stop_of. cbn. destruct (assoc k items) as [ [ | t | | ] | ]; reflexivity.
Qed.

Lemma schema_first_loop_spec bs items s0 : forall l agg n comp,
  agg_ok bs s0 agg ->
  forallb (fun e => if leaf_spec e then done_leaf_ok bs s0 (stop_of bs items (fst e))
                    else true) l = true ->
  exists agg',
    foldM (schema_first_step (TensorDict bs items)) l (agg, n, comp)
      = Ok (agg', n + length (filter leaf_spec l), comp ++ filter composite_spec l)
    /\ agg_ok bs s0 agg'
    /\ agg_any agg' = agg_any agg
                      || existsb (fun e => leaf_spec e && entry_true items (fst e)) l
    /\ is_Some agg' = is_Some agg || existsb leaf_spec l.
Proof.
  induction l as [ | [k s] l IH ]; intros agg n comp Hagg Hall.
  - exists agg. cbn. rewrite Nat.add_0_r, app_nil_r, !orb_false_r. auto.
  - cbn in Hall. rewrite andb_true_iff in Hall. destruct Hall as [Hv Hall].
    cbn [foldM schema_first_step]. unfold leaf_spec, composite_spec in *.
    cbn [filter existsb fst snd] in *.
    destruct (is_composite s) eqn:Es; cbn [negb andb orb length bind] in *.
    + destruct (IH agg n (comp ++ [(k, s)]) Hagg Hall) as (agg' & Hf & Hok' & Hany' & Hsome').
      exists agg'. rewrite Hf. repeat split; try assumption.
      rewrite <- app_assoc. reflexivity.
    + pose proof (stop_lookup bs items k) as Hstop.
      destruct (_get_str (TensorDict bs items) k DefaultNone) as [stop|e]; [| discriminate].
      cbn [bind] in Hstop |- *. rewrite Hstop. cbn [bind].
      destruct (aggregate_or_ok bs s0 agg _ Hagg Hv) as (a & Ha & Hok & Hany).
      rewrite Ha. cbn [bind].
      destruct (IH (Some a) (n + 1) comp Hok Hall) as (agg' & Hf & Hok' & Hany' & Hsome').
      exists agg'. rewrite Hf. repeat split.
      * f_equal. f_equal. f_equal. lia.
      * exact Hok'.
      * rewrite Hany'. cbn [agg_any]. rewrite Hany, leaf_true_stop_of, orb_assoc.
        reflexivity.
      * rewrite Hsome'. cbn. rewrite orb_true_r. reflexivity.
Qed.

Definition child_eot (items : list (string * value)) (e : string * spec) : bool :=
  match assoc (fst e) items with
  | Some x => eot_of_spec (snd e) x
  | None => false
  end.

Section SchemaWalk.
Variable fuel : nat.
Variable key : option string.
Hypothesis IH : forall s data curr ks,
  spec_ready s data = true -> depth data < fuel ->
  exists data' ks',
    inner_terminated_or_truncated fuel data (Some s) key curr ks
      = Ok (mkWalk (eot_of_spec s data) data' ks').

Lemma schema_children_loop_spec curr found_leaf bs items0 : forall comp any items ks,
  NoDup (map fst comp) ->
  (forall k, In k (map fst comp) -> assoc k items = assoc k items0) ->
  (forall k s, In (k, s) comp ->
     exists x, assoc k items0 = Some x /\ is_TensorDict x = true
               /\ spec_ready s x = true /\ depth x < fuel) ->
  exists items' ks',
    foldM (schema_children_step fuel key curr found_leaf) comp
          (any, TensorDict bs items, ks)
      = Ok (if Nat.eqb found_leaf 0
            then existsb (child_eot items0) comp || any else any,
            TensorDict bs items', ks').
Proof.
  induction comp as [ | [k s] comp IHl ]; intros any items ks Hnd Hsame Hall.
  - exists items, ks. cbn. destruct (Nat.eqb found_leaf 0); reflexivity.
  - destruct (Hall k s (or_introl eq_refl)) as (x & Hx & Htd & Hr & Hd).
    cbn [foldM schema_children_step].
    assert (Hget : _get_str (TensorDict bs items) k NO_DEFAULT = Ok x).
    { cbn. rewrite (Hsame k (or_introl eq_refl)), Hx.
      destruct x; try discriminate. reflexivity. }
    rewrite Hget. cbn [bind].
    destruct (IH s x (curr ++ [k]) ks Hr Hd) as (x' & ks1 & Hw).
    rewrite Hw. cbn [bind walked eot written _set_str].
    inversion Hnd as [ | ? ? Hnotin Hnd' ]; subst.
    destruct (IHl (if Nat.eqb found_leaf 0 then eot_of_spec s x || any else any)
                (assoc_set k x' items) ks1 Hnd') as (items' & ks' & Hf).
    { intros k0 Hin. rewrite assoc_set_other.
      - apply Hsame. right. exact Hin.
      - intros ->. contradiction. }
    { intros k0 s0 Hin. apply (Hall k0 s0). right. exact Hin. }
    exists items', ks'. rewrite Hf. f_equal. f_equal. f_equal.
    cbn [existsb]. unfold child_eot at 2. cbn [fst snd]. rewrite Hx.
    destruct (Nat.eqb found_leaf 0); [| reflexivity].
    destruct (eot_of_spec s x), (existsb (child_eot items0) comp), any; reflexivity.
Qed.
End SchemaWalk.

Lemma spec_rect' (P : spec -> Prop) :
  P LeafSpec ->
  (forall entries, Forall (fun e => P (snd e)) entries -> P (CompositeSpec entries)) ->
  forall s, P s.
Proof.
  intros HL HC. fix IH 1. intros [ | entries ]; [exact HL|].
  apply HC. induction entries as [ | [k s] entries IHl ]; constructor; [apply IH | exact IHl].
Qed.

Lemma NoDup_map_filter {A B} (f : A -> B) (g : A -> bool) (l : list A) :
  NoDup (map f l) -> NoDup (map f (filter g l)).
Proof.
  induction l as [ | a l IH ]; cbn; intros H; [constructor|].
  inversion H; subst. destruct (g a); cbn; [| apply IH; assumption].
  constructor; [| apply IH; assumption].
  intros Hin. apply in_map_iff in Hin. destruct Hin as (x & Hx & Hin).
  apply filter_In in Hin. destruct Hin as [Hin _].
  apply H2. rewrite <- Hx. apply in_map. exact Hin.
Qed.

Lemma spec_ready_entries entries bs items :
  spec_ready (CompositeSpec entries) (TensorDict bs items) = true ->
  NoDup (map fst entries)
  /\ forallb (fun e => if leaf_spec e
                       then done_leaf_ok bs (stop_shape bs entries items)
                              (stop_of bs items (fst e))
                       else true) entries = true
  /\ forall k s, In (k, s) entries -> is_composite s = true ->
       exists x, assoc k items = Some x /\ is_TensorDict x = true
                 /\ spec_ready s x = true.
Proof.
  cbn [spec_ready]. rewrite andb_true_iff. generalize (stop_shape bs entries items) as s0.
  intros s0 [Hnd H]. apply nodupb_NoDup in Hnd. split; [exact Hnd|]. split.
  - rewrite forallb_forall in *. intros [k s] Hin. specialize (H _ Hin).
    unfold leaf_spec. cbn in *. destruct s; cbn; [exact H | reflexivity].
  - intros k s Hin Hc. rewrite forallb_forall in H. specialize (H _ Hin). cbn in H.
    destruct s; [discriminate|].
    destruct (assoc k items) as [x|]; [| discriminate].
    rewrite andb_true_iff in H. destruct H. exists x. auto.
Qed.

Lemma existsb_child_eot_filter items entries :
  existsb (child_eot items) (filter composite_spec entries)
    = existsb (child_eot items) entries.
Proof.
  induction entries as [ | [k s] entries IH ]; cbn; [reflexivity|].
  unfold composite_spec at 1. cbn. destruct s as [ | es ]; cbn.
  - rewrite IH. unfold child_eot at 2. cbn. destruct (assoc k items); reflexivity.
  - rewrite IH. reflexivity.
Qed.

(** On a batch that conforms to the spec the schema-driven walk returns, and
    it returns [eot_of_spec]. *)
Lemma walk_schema (key : option string) : forall fuel s data curr ks,
  spec_ready s data = true -> depth data < fuel ->
  exists data' ks',
    inner_terminated_or_truncated fuel data (Some s) key curr ks
      = Ok (mkWalk (eot_of_spec s data) data' ks').
Proof.
  induction fuel as [ | fuel IH ]; intros s data curr ks Hr Hd; [lia|].
  destruct s as [ | entries ]; [discriminate|].
  destruct data as [ | t | bs items | sd tds ]; try discriminate.
  rewrite inner_schema_unfold. cbn [spec_items bind].
  destruct (spec_ready_entries entries bs items Hr) as (Hnd & Hleaves & Hsubs).
  destruct (schema_first_loop_spec bs items (stop_shape bs entries items) entries
              None 0 [] I Hleaves) as (agg & Hf & Hok & Hany & Hsome).
  rewrite Hf. cbn [bind app].
  destruct (schema_children_loop_spec fuel key IH curr
              (0 + length (filter leaf_spec entries)) bs items
              (filter composite_spec entries) false items ks)
    as (items' & ks' & Hc).
  { apply NoDup_map_filter. exact Hnd. }
  { reflexivity. }
  { intros k s Hin. apply filter_In in Hin. destruct Hin as [Hin Hcs].
    destruct (Hsubs k s Hin Hcs) as (x & Hx & Htd & Hrx).
    exists x. repeat split; try assumption.
    pose proof (depth_entry bs items k x (assoc_In _ _ _ Hx)). lia. }
  rewrite Hc. cbn [bind].
  rewrite (write_aggregate_spec bs _ items' agg _ key curr ks' Hok).
  cbn [Nat.add]. rewrite filter_length_existsb.
  cbn [eot_of_spec agg_any is_Some orb] in *.
  destruct (existsb leaf_spec entries) eqn:Ed; cbn [negb].
  - destruct agg as [a|]; [| discriminate].
    cbn [agg_any] in Hany. rewrite Hany.
    destruct key; eexists; eexists; reflexivity.
  - destruct agg as [a|]; [discriminate|].
    rewrite orb_false_r, existsb_child_eot_filter.
    destruct key; eexists; eexists; reflexivity.
Qed.

(** The spec reached at a path. *)
Fixpoint spec_at (s : spec) (p : NestedKey) : option spec :=
  match p with
  | [] => Some s
  | k :: rest =>
      match s with
      | CompositeSpec entries =>
          match spec_assoc k entries with
          | Some s' => spec_at s' rest
          | None => None
          end
      | LeafSpec => None
      end
  end.

Definition has_leaf_spec (s : spec) : bool :=
  match s with
  | CompositeSpec entries => existsb leaf_spec entries
  | LeafSpec => false
  end.

Definition unshadowed_spec (s : spec) (p : NestedKey) : Prop :=
  forall n x, n < length p -> spec_at s (firstn n p) = Some x -> has_leaf_spec x = false.

(** A leaf the spec names, true in the batch, that no ancestor's leaves
    prevail over. *)
Definition deciding_leaf_spec (s : spec) (batch : value) : Prop :=
  exists p name t,
    unshadowed_spec s p /\ spec_at s (p ++ [name]) = Some LeafSpec
    /\ leaf_at batch (p ++ [name]) = Some t /\ tensor_any t = true.

Lemma spec_assoc_In k l s : spec_assoc k l = Some s -> In (k, s) l.
Proof.
  induction l as [ | [k' s'] l IH ]; cbn; [discriminate|].
  destruct (String.eqb_spec k k') as [-> | Hk]; intros H.
  - inversion H. left. reflexivity.
  - right. apply IH. exact H.
Qed.

Lemma In_spec_assoc k s l : NoDup (map fst l) -> In (k, s) l -> spec_assoc k l = Some s.
Proof.
  induction l as [ | [k' s'] l IH ]; cbn; intros Hnd Hin; [destruct Hin|].
  inversion Hnd; subst. destruct Hin as [E | Hin].
  - inversion E; subst. rewrite String.eqb_refl. reflexivity.
  - destruct (String.eqb_spec k k') as [-> | Hk].
    + exfalso. apply H1. apply (in_map fst) in Hin. exact Hin.
    + apply IH; assumption.
Qed.

Lemma unshadowed_spec_cons entries k s p :
  spec_assoc k entries = Some s ->
  unshadowed_spec (CompositeSpec entries) (k :: p)
  <-> existsb leaf_spec entries = false /\ unshadowed_spec s p.
Proof.
  intros Ha. unfold unshadowed_spec. split.
  - intros H. split.
    + apply (H 0 (CompositeSpec entries)); [cbn; lia | reflexivity].
    + intros n y Hn Hy. apply (H (S n) y); [cbn; lia |].
      cbn. rewrite Ha. exact Hy.
  - intros [H0 H] [ | n ] y Hn Hy.
    + cbn in Hy. inversion Hy; subst. exact H0.
    + cbn in Hy. rewrite Ha in Hy. apply (H n y); [cbn in Hn; lia | exact Hy].
Qed.

Lemma eot_of_spec_deciding_leaf : forall s batch,
  spec_ready s batch = true -> (eot_of_spec s batch = true <-> deciding_leaf_spec s batch).
Proof.
  induction s as [ | entries IH ] using spec_rect'; intros batch Hr; [discriminate|].
  destruct batch as [ | t | bs items | sd tds ]; try discriminate.
  destruct (spec_ready_entries entries bs items Hr) as (Hnd & _ & Hsubs).
  rewrite Forall_forall in IH.
  cbn [eot_of_spec]. destruct (existsb leaf_spec entries) eqn:Ed; split.
  - intros H. apply existsb_exists in H. destruct H as ([k s] & Hin & H).
    rewrite andb_true_iff in H. destruct H as [Hk Hx]. unfold leaf_spec in Hk.
    cbn in Hk, Hx. destruct s; [| discriminate]. unfold entry_true in Hx.
    destruct (assoc k items) as [x|] eqn:Ha; [| discriminate].
    destruct x as [ | t | | ]; try discriminate.
    exists [], k, t. repeat split; try assumption.
    + intros n y Hn. cbn in Hn. lia.
    + cbn. rewrite (In_spec_assoc k LeafSpec entries Hnd Hin). reflexivity.
    + cbn. rewrite Ha. reflexivity.
  - intros (p & name & t & Hu & Hs & Hl & Ht).
    destruct p as [ | k p ].
    + cbn in Hs, Hl. destruct (spec_assoc name entries) as [s|] eqn:Hsa; [| discriminate].
      inversion Hs; subst.
      destruct (assoc name items) as [x|] eqn:Ha; [| discriminate].
      destruct x; try discriminate. inversion Hl; subst.
      apply existsb_exists. exists (name, LeafSpec). split.
      * apply spec_assoc_In. exact Hsa.
      * unfold leaf_spec, entry_true. cbn. rewrite Ha. exact Ht.
    + exfalso. cbn in Hs. destruct (spec_assoc k entries) as [s|] eqn:Hsa; [| discriminate].
      apply (unshadowed_spec_cons entries k s p Hsa) in Hu. destruct Hu as [H0 _]. congruence.
  - intros H. apply existsb_exists in H. destruct H as ([k s] & Hin & H). cbn in H.
    destruct (assoc k items) as [x|] eqn:Ha; [| discriminate].
    destruct s as [ | es ]; [discriminate|].
    destruct (Hsubs k (CompositeSpec es) Hin eq_refl) as (x' & Hx' & Htd & Hrx).
    rewrite Ha in Hx'. inversion Hx'; subst x'.
    apply (IH (k, CompositeSpec es) Hin x Hrx) in H.
    destruct H as (p & name & t & Hu & Hs & Hl & Ht).
    pose proof (In_spec_assoc k _ entries Hnd Hin) as Hsa.
    exists (k :: p), name, t. repeat split; try assumption.
    + apply (unshadowed_spec_cons entries k _ p Hsa). split; assumption.
    + cbn. rewrite Hsa. exact Hs.
    + cbn. rewrite Ha. exact Hl.
  - intros (p & name & t & Hu & Hs & Hl & Ht).
    destruct p as [ | k p ].
    + exfalso. cbn in Hs. destruct (spec_assoc name entries) as [s|] eqn:Hsa; [| discriminate].
      inversion Hs; subst. apply spec_assoc_In in Hsa.
      assert (existsb leaf_spec entries = true).
      { apply existsb_exists. exists (name, LeafSpec). split; [exact Hsa | reflexivity]. }
      congruence.
    + cbn in Hs, Hl. destruct (spec_assoc k entries) as [s|] eqn:Hsa; [| discriminate].
      destruct (assoc k items) as [x|] eqn:Ha; [| discriminate].
      apply (unshadowed_spec_cons entries k s p Hsa) in Hu. destruct Hu as [_ Hu].
      pose proof (spec_assoc_In _ _ _ Hsa) as Hin.
      destruct s as [ | es ].
      { destruct p; cbn in Hs; discriminate. }
      destruct (Hsubs k (CompositeSpec es) Hin eq_refl) as (x' & Hx' & Htd & Hrx).
      rewrite Ha in Hx'. inversion Hx'; subst x'.
      apply existsb_exists. exists (k, CompositeSpec es). split; [exact Hin|].
      cbn [fst snd]. rewrite Ha.
      apply (IH (k, CompositeSpec es) Hin x Hrx). exists p, name, t. repeat split; assumption.
Qed.

(** A batch whose root has a false [done] and whose nested batch has a true
    [done], and the spec that names both. *)
Definition shadowed_batch : value :=
  TensorDict []
    [("done", Tensor (mkTensor [1] (Bools [false])));
     ("nested", TensorDict [] [("done", Tensor (mkTensor [1] (Bools [true])))])].

Definition shadowed_spec : spec :=
  CompositeSpec [("done", LeafSpec); ("nested", CompositeSpec [("done", LeafSpec)])].

(** The batch and the spec of the docstring of [_terminated_or_truncated]. *)
Definition docstring_batch : value :=
  TensorDict []
    [("done", Tensor (mkTensor [1] (Bools [true])));
     ("truncated", Tensor (mkTensor [1] (Bools [false])));
     ("nested", TensorDict []
                  [("done", Tensor (mkTensor [1] (Bools [false])));
                   ("truncated", Tensor (mkTensor [1] (Bools [true])))])].

Definition docstring_spec : spec :=
  CompositeSpec
    [("done", LeafSpec); ("truncated", LeafSpec);
     ("nested", CompositeSpec [("done", LeafSpec); ("truncated", LeafSpec)])].

(** C2, as the code has it: the done leaf [("nested", "done")] is true, yet
    the walk, with or without the spec, returns false, because the root has a
    done leaf of its own. *)
Lemma nested_done_is_not_reported :
  leaf_at shadowed_batch ["nested"; "done"] = Some (mkTensor [1] (Bools [true]))
  /\ tensor_any (mkTensor [1] (Bools [true])) = true
  /\ _terminated_or_truncated shadowed_batch None (Some "_reset") false
     = Ok (false, shadowed_batch)
  /\ _terminated_or_truncated shadowed_batch (Some shadowed_spec) (Some "_reset") false
     = Ok (false, shadowed_batch).
Proof. repeat split; vm_compute; reflexivity. Qed.

(** C2, amended: [_terminated_or_truncated] returns, and it returns true if
    and only if some done / terminated / truncated leaf (without a spec), or
    some leaf the spec names (with a spec), is true at a node none of whose
    proper ancestors has direct leaves of that kind: the leaves of a node
    prevail over everything nested beneath it. *)
Theorem walk_reports_unshadowed_leaves :
  forall (batch : value) (key : option string) (write_full_false : bool),
    (plain batch = true -> done_ready batch = true -> is_TensorDict batch = true ->
     exists b batch',
       _terminated_or_truncated batch None key write_full_false = Ok (b, batch')
       /\ (b = true <-> deciding_leaf batch))
    /\ (forall s, spec_ready s batch = true ->
        exists b batch',
          _terminated_or_truncated batch (Some s) key write_full_false = Ok (b, batch')
          /\ (b = true <-> deciding_leaf_spec s batch)).
Proof.
  intros batch key wff. split.
  - intros Hp Hr Htd.
    destruct (walk_no_schema key (S (depth batch)) batch [] [] Hr Htd (Nat.lt_succ_diag_r _))
      as (batch' & ks' & Hw).
    unfold _terminated_or_truncated. rewrite Hw. cbn [bind eot walked written].
    exists (eot_of batch).
    destruct (negb (eot_of batch) && negb wff); eexists;
      (split; [reflexivity | apply eot_of_deciding_leaf; exact Hp]).
  - intros s Hr.
    destruct (walk_schema key (S (depth batch)) s batch [] [] Hr (Nat.lt_succ_diag_r _))
      as (batch' & ks' & Hw).
    unfold _terminated_or_truncated. rewrite Hw. cbn [bind eot walked written].
    exists (eot_of_spec s batch).
    destruct (negb (eot_of_spec s batch) && negb wff); eexists;
      (split; [reflexivity | apply eot_of_spec_deciding_leaf; exact Hr]).
Qed.

Lemma walk_reports_witness :
  (exists b batch',
     _terminated_or_truncated docstring_batch None (Some "_reset") false = Ok (b, batch')
     /\ (b = true <-> deciding_leaf docstring_batch))
  /\ (exists b batch',
        _terminated_or_truncated docstring_batch (Some docstring_spec) (Some "_reset") false
          = Ok (b, batch')
        /\ (b = true <-> deciding_leaf_spec docstring_spec docstring_batch)).
Proof.
  destruct (walk_reports_unshadowed_leaves docstring_batch (Some "_reset") false) as [H1 H2].
  split.
  - apply H1; reflexivity.
  - apply H2; reflexivity.
Defined.

(** ** What the walk leaves in the batch *)

(** What a successful walk guarantees about the batch it leaves and the keys
    it recorded: every recorded key is a destination key below the current
    node, and every entry of the batch was there before or is recorded. *)
Definition walk_post (key : option string) (batch : value) (curr : NestedKey)
    (ks : list NestedKey) (w : walk) : Prop :=
  plain (walked w) = true
  /\ (forall k', In k' (written w) ->
        In k' ks \/ exists p kk, key = Some kk /\ k' = curr ++ p ++ [kk])
  /\ (forall q x, node_at (walked w) q = Some x ->
        (exists y, node_at batch q = Some y) \/ In (curr ++ q) (written w))
  /\ incl ks (written w).

Lemma walk_post_refl key batch curr ks any :
  plain batch = true -> walk_post key batch curr ks (mkWalk any batch ks).
Proof.
  intros Hp. unfold walk_post. cbn. repeat split; eauto using incl_refl.
Qed.

Lemma walk_post_trans key batch curr ks w1 w2 :
  walk_post key batch curr ks w1 ->
  walk_post key (walked w1) curr (written w1) w2 ->
  walk_post key batch curr ks w2.
Proof.
  intros (P1 & W1 & N1 & I1) (P2 & W2 & N2 & I2). unfold walk_post. repeat split.
  - exact P2.
  - intros k' Hk. destruct (W2 k' Hk) as [H | H]; [apply W1; exact H | right; exact H].
  - intros q x Hq. destruct (N2 q x Hq) as [[y Hy] | H]; [| right; exact H].
    destruct (N1 q y Hy) as [H | H]; [left; exact H | right; apply I2; exact H].
  - eapply incl_tran; eassumption.
Qed.

Lemma node_at_assoc_set bs items k v k' q :
  node_at (TensorDict bs (assoc_set k v items)) (k' :: q)
    = if String.eqb k' k then node_at v q else node_at (TensorDict bs items) (k' :: q).
Proof.
  cbn. destruct (String.eqb_spec k' k) as [-> | Hne].
  - rewrite assoc_set_same. reflexivity.
  - rewrite assoc_set_other by exact Hne. reflexivity.
Qed.

Lemma walk_post_child key bs items curr ks k x wc any :
  plain (TensorDict bs items) = true -> assoc k items = Some x ->
  walk_post key x (curr ++ [k]) ks wc ->
  walk_post key (TensorDict bs items) curr ks
    (mkWalk any (TensorDict bs (assoc_set k (walked wc) items)) (written wc)).
Proof.
  intros Hp Ha (P & W & N & I). unfold walk_post. cbn [walked written]. repeat split.
  - apply plain_assoc_set; assumption.
  - intros k' Hk. destruct (W k' Hk) as [H | (p & kk & Hkey & ->)]; [left; exact H|].
    right. exists (k :: p), kk. split; [exact Hkey|].
    rewrite <- app_assoc. reflexivity.
  - intros q y Hq. destruct q as [ | k' q ]; [left; eexists; reflexivity|].
    rewrite node_at_assoc_set in Hq. destruct (String.eqb_spec k' k) as [-> | Hne].
    + destruct (N q y Hq) as [[z Hz] | H].
      * left. exists z. cbn. rewrite Ha. exact Hz.
      * right. rewrite <- app_assoc in H. exact H.
    + left. exists y. exact Hq.
  - exact I.
Qed.

Lemma write_aggregate_post key bs items agg any curr ks w :
  plain (TensorDict bs items) = true ->
  write_aggregate agg any (TensorDict bs items) key curr ks = Ok w ->
  walk_post key (TensorDict bs items) curr ks w.
Proof.
  intros Hp H. unfold write_aggregate in H.
  destruct agg as [a|]; [| inversion H; apply walk_post_refl; exact Hp].
  destruct key as [kk|]; [| inversion H; apply walk_post_refl; exact Hp].
  cbn [batch_size_of bind] in H. unfold set_tensor in H. cbn [batch_size_of bind] in H.
  destruct (is_prefix bs _); [| discriminate]. cbn in H. inversion H; subst w; clear H.
  unfold walk_post. cbn [walked written]. repeat split.
  - apply plain_assoc_set; [exact Hp | reflexivity].
  - intros k' Hk. apply in_app_or in Hk. destruct Hk as [Hk | [<- | []]]; [left; exact Hk|].
    right. exists [], kk. split; reflexivity.
  - intros q y Hq. destruct q as [ | k' q ]; [left; eexists; reflexivity|].
    rewrite node_at_assoc_set in Hq. destruct (String.eqb_spec k' kk) as [-> | Hne].
    + destruct q; [| discriminate]. right. apply in_or_app. right. left. reflexivity.
    + left. exists y. exact Hq.
  - apply incl_appl. apply incl_refl.
Qed.

Lemma first_loop_tds : forall l agg n tds st,
  foldM first_loop_step l (agg, n, tds) = Ok st -> snd st = tds ++ sub_batches l.
Proof.
  induction l as [ | [k v] l IH ]; intros agg n tds st H.
  - inversion H. cbn. rewrite app_nil_r. reflexivity.
  - cbn [foldM first_loop_step] in H. unfold sub_batches, done_named in *.
    cbn [filter fst snd].
    destruct (is_done_name k); cbn [negb andb].
    + destruct (aggregate_or agg v); [| discriminate]. cbn [bind] in H.
      apply IH in H. exact H.
    + destruct (is_tensor_collection v); cbn [bind] in H.
      * apply IH in H. rewrite H, <- app_assoc. reflexivity.
      * apply IH in H. exact H.
Qed.

(** On a tensor the walk can only return without touching anything. *)
Lemma schema_first_loop_tensor t : forall l st st',
  foldM (schema_first_step (Tensor t)) l st = Ok st' ->
  fst (fst st') = fst (fst st).
Proof.
  induction l as [ | [k s] l IH ]; intros [[agg n] comp] st' H.
  - inversion H. reflexivity.
  - cbn [foldM schema_first_step] in H. destruct (is_composite s); cbn in H.
    + apply IH in H. exact H.
    + discriminate.
Qed.

Lemma walk_tensor key : forall fuel t s curr ks w,
  inner_terminated_or_truncated fuel (Tensor t) s key curr ks = Ok w ->
  walked w = Tensor t /\ written w = ks.
Proof.
  intros [ | fuel ] t s curr ks w H; [discriminate|].
  destruct s as [s|]; [| discriminate].
  rewrite inner_schema_unfold in H.
  apply bind_Ok in H. destruct H as (sits & _ & H).
  apply bind_Ok in H. destruct H as ([[agg found] comp] & Hf & H).
  apply schema_first_loop_tensor in Hf. cbn in Hf. subst agg.
  apply bind_Ok in H. destruct H as ([[any d] ks'] & Hc & H).
  destruct comp as [ | [k s'] comp ]; [| discriminate].
  inversion Hc; subst. inversion H. split; reflexivity.
Qed.

Section WalkInvariant.
Variable fuel : nat.
Variable key : option string.
Hypothesis IH : forall batch s curr ks w,
  plain batch = true ->
  inner_terminated_or_truncated fuel batch s key curr ks = Ok w ->
  walk_post key batch curr ks w.

Lemma children_loop_post curr found_leaf bs : forall tds any items ks st,
  plain (TensorDict bs items) = true ->
  NoDup (map fst tds) ->
  (forall k x, In (k, x) tds -> assoc k items = Some x) ->
  foldM (children_step fuel key curr found_leaf) tds (any, TensorDict bs items, ks) = Ok st ->
  exists any' items',
    st = (any', TensorDict bs items', snd st)
    /\ walk_post key (TensorDict bs items) curr ks
         (mkWalk any' (TensorDict bs items') (snd st)).
Proof.
  induction tds as [ | [k x] tds IHl ]; intros any items ks st Hp Hnd Hin H.
  - inversion H; subst. exists any, items. split; [reflexivity|].
    apply walk_post_refl. exact Hp.
  - cbn [foldM children_step] in H.
    apply bind_Ok in H. destruct H as ([[any1 d1] ks1] & H1 & H).
    apply bind_Ok in H1. destruct H1 as (wc & Hw & H1).
    cbn [_set_str bind] in H1. inversion H1; subst any1 d1 ks1; clear H1.
    pose proof (Hin k x (or_introl eq_refl)) as Ha.
    pose proof (IH x None (curr ++ [k]) ks wc (plain_assoc _ _ _ _ Hp Ha) Hw) as Hpost.
    pose proof (walk_post_child key bs items curr ks k x wc false Hp Ha Hpost) as Hstep.
    inversion Hnd as [ | ? ? Hnotin Hnd' ]; subst.
    assert (P : plain (TensorDict bs (assoc_set k (walked wc) items)) = true).
    { destruct Hstep as (P & _). exact P. }
    assert (Hin' : forall k0 x0, In (k0, x0) tds ->
                     assoc k0 (assoc_set k (walked wc) items) = Some x0).
    { intros k0 x0 Hin0. rewrite assoc_set_other.
      - apply Hin. right. exact Hin0.
      - intros ->. apply Hnotin. apply (in_map fst) in Hin0. exact Hin0. }
    destruct (IHl _ _ _ st P Hnd' Hin' H) as (any' & items' & E & Hrest).
    exists any', items'. split; [exact E|].
    eapply walk_post_trans; [exact Hstep | exact Hrest].
Qed.

Lemma schema_children_loop_post curr found_leaf bs : forall comp any items ks st,
  plain (TensorDict bs items) = true ->
  foldM (schema_children_step fuel key curr found_leaf) comp
        (any, TensorDict bs items, ks) = Ok st ->
  exists any' items',
    st = (any', TensorDict bs items', snd st)
    /\ walk_post key (TensorDict bs items) curr ks
         (mkWalk any' (TensorDict bs items') (snd st)).
Proof.
  induction comp as [ | [k s] comp IHl ]; intros any items ks st Hp H.
  - inversion H; subst. exists any, items. split; [reflexivity|].
    apply walk_post_refl. exact Hp.
  - cbn [foldM schema_children_step] in H.
    apply bind_Ok in H. destruct H as ([[any1 d1] ks1] & H1 & H).
    apply bind_Ok in H1. destruct H1 as (sub & Hsub & H1).
    apply bind_Ok in H1. destruct H1 as (wc & Hw & H1).
    cbn [_set_str bind] in H1. inversion H1; subst any1 d1 ks1; clear H1.
    rewrite (plain_get_str bs items k NO_DEFAULT Hp) in Hsub.
    destruct (assoc k items) as [x|] eqn:Ha; [| discriminate].
    inversion Hsub; subst sub.
    pose proof (IH x (Some s) (curr ++ [k]) ks wc (plain_assoc _ _ _ _ Hp Ha) Hw) as Hpost.
    pose proof (walk_post_child key bs items curr ks k x wc false Hp Ha Hpost) as Hstep.
    assert (P : plain (TensorDict bs (assoc_set k (walked wc) items)) = true).
    { destruct Hstep as (P & _). exact P. }
    destruct (IHl _ _ _ st P H) as (any' & items' & E & Hrest).
    exists any', items'. split; [exact E|].
    eapply walk_post_trans; [exact Hstep | exact Hrest].
Qed.
End WalkInvariant.

Lemma NoDup_sub_batches items :
  NoDup (map fst items) -> NoDup (map fst (sub_batches items)).
Proof. apply NoDup_map_filter. Qed.

Lemma walk_invariant key : forall fuel batch s curr ks w,
  plain batch = true ->
  inner_terminated_or_truncated fuel batch s key curr ks = Ok w ->
  walk_post key batch curr ks w.
Proof.
  induction fuel as [ | fuel IH ]; intros batch s curr ks w Hp H; [discriminate|].
  destruct batch as [ | t | bs items | sd tds ]; try discriminate.
  - destruct (walk_tensor key (S fuel) t s curr ks w H) as [E1 E2].
    destruct w as [e wd wk]. cbn in E1, E2. subst. apply walk_post_refl. reflexivity.
  - pose proof Hp as Hp'. cbn in Hp'. rewrite andb_true_iff in Hp'.
    destruct Hp' as [Hnd _]. apply nodupb_NoDup in Hnd.
    destruct s as [s|].
    + rewrite inner_schema_unfold in H.
      apply bind_Ok in H. destruct H as (sits & _ & H).
      apply bind_Ok in H. destruct H as ([[agg found] comp] & _ & H).
      apply bind_Ok in H. destruct H as ([[any d] ks'] & Hc & H).
      destruct (schema_children_loop_post fuel key IH curr found bs comp false items ks _ Hp Hc)
        as (any' & items' & E & Hpost).
      inversion E; subst any d. cbn [snd] in Hpost.
      eapply walk_post_trans; [exact Hpost|]. cbn [walked written].
      eapply write_aggregate_post; [| exact H]. destruct Hpost as (P & _). exact P.
    + rewrite inner_no_schema_unfold in H. cbn [items_of bind] in H.
      apply bind_Ok in H. destruct H as ([[agg found] tds] & Hf & H).
      apply first_loop_tds in Hf. cbn in Hf. subst tds.
      apply bind_Ok in H. destruct H as ([[any d] ks'] & Hc & H).
      destruct (children_loop_post fuel key IH curr found bs (sub_batches items)
                  false items ks (any, d, ks') Hp (NoDup_sub_batches items Hnd))
        as (any' & items' & E & Hpost); [ | exact Hc | ].
      { intros k x Hin. unfold sub_batches in Hin. apply filter_In in Hin.
        apply In_assoc_nodup; [exact Hnd | apply Hin]. }
      inversion E; subst any d. cbn [snd] in Hpost.
      eapply walk_post_trans; [exact Hpost|]. cbn [walked written].
      eapply write_aggregate_post; [| exact H]. destruct Hpost as (P & _). exact P.
Qed.

(** ** Exclusion of the recorded keys *)

Lemma exclude_key_only_removes : forall k v q x,
  node_at (exclude_key k v) q = Some x -> exists y, node_at v q = Some y.
Proof.
  induction k as [ | a rest IH ]; intros v q x H; [eauto|].
  destruct q as [ | b q ]; [eexists; reflexivity|].
  destruct v as [ | t | bs items | sd tds ]; try (cbn in H; discriminate).
  - destruct rest as [ | r rest ].
    + cbn in H |- *. destruct (String.eqb_spec b a) as [-> | Hne].
      * rewrite assoc_del_same in H. discriminate.
      * rewrite assoc_del_other in H by exact Hne. eauto.
    + change (exclude_key (a :: r :: rest) (TensorDict bs items))
        with (match assoc a items with
              | Some child => TensorDict bs (assoc_set a (exclude_key (r :: rest) child) items)
              | None => TensorDict bs items
              end) in H.
      destruct (assoc a items) as [child|] eqn:Ha; [| eauto].
      rewrite node_at_assoc_set in H. destruct (String.eqb_spec b a) as [-> | Hne].
      * apply IH in H. destruct H as [y Hy]. exists y. cbn. rewrite Ha. exact Hy.
      * eauto.
Qed.

Lemma exclude_key_removes : forall k v, k <> [] -> node_at (exclude_key k v) k = None.
Proof.
  induction k as [ | a rest IH ]; intros v Hne; [congruence|].
  destruct v as [ | t | bs items | sd tds ]; try reflexivity.
  destruct rest as [ | r rest ].
  - cbn. rewrite assoc_del_same. reflexivity.
  - change (exclude_key (a :: r :: rest) (TensorDict bs items))
      with (match assoc a items with
            | Some child => TensorDict bs (assoc_set a (exclude_key (r :: rest) child) items)
            | None => TensorDict bs items
            end).
    destruct (assoc a items) as [child|] eqn:Ha.
    + rewrite node_at_assoc_set, String.eqb_refl. apply IH. discriminate.
    + cbn. rewrite Ha. reflexivity.
Qed.

Lemma exclude_only_removes : forall ks v q x,
  node_at (exclude v ks) q = Some x -> exists y, node_at v q = Some y.
Proof.
  unfold exclude. induction ks as [ | k ks IH ]; intros v q x H; cbn in H; [eauto|].
  apply IH in H. destruct H as [y Hy]. eapply exclude_key_only_removes. exact Hy.
Qed.

Lemma exclude_removes : forall ks v k,
  In k ks -> k <> [] -> node_at (exclude v ks) k = None.
Proof.
  unfold exclude. induction ks as [ | k0 ks IH ]; intros v k Hin Hne; [destruct Hin|].
  cbn. destruct Hin as [-> | Hin]; [| apply IH; assumption].
  destruct (node_at (fold_left (fun d k0 => exclude_key k0 d) ks (exclude_key k v)) k)
    as [x|] eqn:E; [| reflexivity].
  apply (exclude_only_removes ks) in E. destruct E as [y Hy].
  rewrite exclude_key_removes in Hy by exact Hne. discriminate.
Qed.

(** C5: when [_terminated_or_truncated] returns false and
    [write_full_false] is false, the batch it leaves is the walked batch
    without the keys recorded during the walk: none of them is left, and a
    batch that held no destination key at any level before the call holds
    none after it. *)
Theorem written_reset_keys_are_removed :
  forall (batch : value) (full_done_spec : option spec) (key : option string)
         (batch' : value),
    plain batch = true ->
    _terminated_or_truncated batch full_done_spec key false = Ok (false, batch') ->
    exists w,
      inner_terminated_or_truncated (S (depth batch)) batch full_done_spec key [] [] = Ok w
      /\ eot w = false
      /\ batch' = exclude (walked w) (written w)
      /\ (forall k, In k (written w) -> node_at batch' k = None)
      /\ (forall kk, key = Some kk ->
            (forall p, node_at batch (p ++ [kk]) = None) ->
            forall p, node_at batch' (p ++ [kk]) = None).
Proof.
  intros batch s key batch' Hp H. unfold _terminated_or_truncated in H.
  apply bind_Ok in H. destruct H as (w & Hw & H). exists w.
  destruct (eot w) eqn:Ee; cbn in H; [inversion H|]. inversion H; subst batch'; clear H.
  destruct (walk_invariant key _ _ _ _ _ _ Hp Hw) as (P & W & N & I).
  assert (Hne : forall k, In k (written w) -> k <> []).
  { intros k Hk. destruct (W k Hk) as [[] | (p & kk & _ & ->)].
    cbn. destruct p; discriminate. }
  repeat split; try assumption.
  - intros k Hk. apply exclude_removes; [exact Hk | apply Hne; exact Hk].
  - intros kk Hkey Hfree p.
    destruct (node_at (exclude (walked w) (written w)) (p ++ [kk])) as [x|] eqn:E;
      [| reflexivity].
    pose proof E as E'. apply exclude_only_removes in E'. destruct E' as [y Hy].
    destruct (N _ _ Hy) as [[z Hz] | Hin].
    + rewrite Hfree in Hz. discriminate.
    + cbn in Hin. rewrite exclude_removes in E; [discriminate | exact Hin |].
      destruct p; discriminate.
Qed.

Lemma written_reset_keys_witness :
  exists w,
    inner_terminated_or_truncated (S (depth shadowed_batch)) shadowed_batch None
      (Some "_reset") [] [] = Ok w
    /\ eot w = false
    /\ shadowed_batch = exclude (walked w) (written w)
    /\ (forall k, In k (written w) -> node_at shadowed_batch k = None)
    /\ (forall kk, Some "_reset" = Some kk ->
          (forall p, node_at shadowed_batch (p ++ [kk]) = None) ->
          forall p, node_at shadowed_batch (p ++ [kk]) = None).
Proof.
  apply (written_reset_keys_are_removed shadowed_batch None (Some "_reset") shadowed_batch).
  - reflexivity.
  - reflexivity.
Defined.

(** ** The two node updates of the reset merge *)

Lemma leaf_at_assoc_set bs items k v k' q :
  leaf_at (TensorDict bs (assoc_set k v items)) (k' :: q)
    = if String.eqb k' k then leaf_at v q else leaf_at (TensorDict bs items) (k' :: q).
Proof.
  cbn. destruct (String.eqb_spec k' k) as [-> | Hne].
  - rewrite assoc_set_same. reflexivity.
  - rewrite assoc_set_other by exact Hne. reflexivity.
Qed.





(** One element of a tensor. *)
Inductive scalar :=
| SBool (b : bool)
| SFloat (f : float).

Definition item (t : tensor) (i : nat) : option scalar :=
  match data t with
  | Bools l => option_map SBool (nth_error l i)
  | Floats l => option_map SFloat (nth_error l i)
  end.























(** ** The fallback of [_StepMDP.__call__] is [step_mdp] *)

Lemma foldM_ext {A B} (f g : A -> B -> result A) (l : list B) (a : A) :
  (forall a b, In b l -> f a b = g a b) -> foldM f l a = foldM g l a.
Proof.
  revert a. induction l as [ | b l IH ]; intros a H; [reflexivity|].
  cbn. rewrite (H a b (or_introl eq_refl)). destruct (g a b); cbn; [| reflexivity].
  apply IH. intros a' b' Hin. apply H. right. exact Hin.
Qed.

Lemma het_loop_ext (f g : value -> value -> result (bool * value)) :
  (forall s d, f s d = g s d) ->
  forall pairs ne, het_loop f pairs ne = het_loop g pairs ne.
Proof.
  intros H. induction pairs as [ | [s d] pairs IH ]; intros ne; [reflexivity|].
  cbn. rewrite H. destruct (g s d) as [[b d']|]; cbn; [| reflexivity].
  rewrite IH. reflexivity.
Qed.

Lemma try_except_ext {A} (b1 b2 : result A) (h1 h2 : exn -> result A) :
  b1 = b2 -> (forall e, h1 e = h2 e) ->
  try_except_RuntimeError b1 h1 = try_except_RuntimeError b2 h2.
Proof.
  intros -> H. unfold try_except_RuntimeError. destruct b2 as [a|e]; [reflexivity|].
  destruct (exn_type e); try reflexivity. apply H.
Qed.

(** [_set] reads [excluded] through membership only, so the set of
    [step_mdp] and the list [self.excluded] made from the same set are
    interchangeable. *)
Lemma _set_rec_excluded_ext (E1 E2 : list NestedKey) :
  (forall k, key_in k E1 = key_in k E2) ->
  forall fuel source dest key total_key,
    _set_rec fuel source dest key total_key E1
      = _set_rec fuel source dest key total_key E2.
Proof.
  intros HE. induction fuel as [ | fuel IH ]; intros source dest key total; [reflexivity|].
  cbn [_set_rec]. rewrite HE. destruct (negb (key_in (total ++ [key]) E2)); [| reflexivity].
  apply try_except_ext.
  - destruct (_get_str source key NO_DEFAULT) as [val|]; [| reflexivity]. cbn [bind].
    destruct (is_tensor_collection val); [| reflexivity].
    destruct (_get_str dest key DefaultNone) as [nv|]; [| reflexivity]. cbn [bind].
    destruct (if is_None nv then empty val else Ok nv) as [nv'|]; [| reflexivity]. cbn [bind].
    destruct (keys val) as [ks|]; [| reflexivity]. cbn [bind].
    erewrite foldM_ext; [reflexivity|].
    intros [ne v] subkey _. rewrite IH. reflexivity.
  - intros err. destruct (re_match HET_PATTERN (exn_msg err)); [| reflexivity].
    destruct (tensordicts_of source); [| reflexivity]. cbn [bind].
    destruct (tensordicts_of dest); [| reflexivity]. cbn [bind].
    rewrite (het_loop_ext _ (fun s_td d_td => _set_rec fuel s_td d_td key (total ++ [key]) E2));
      [reflexivity|].
    intros s d. apply IH.
Qed.

Lemma key_in_In k l : key_in k l = true <-> In k l.
Proof.
  unfold key_in. rewrite existsb_exists. split.
  - intros (x & Hin & E). unfold key_eqb in E.
    destruct (key_eq_dec k x); [subst; exact Hin | discriminate].
  - intros Hin. exists k. split; [exact Hin|]. unfold key_eqb.
    destruct (key_eq_dec k k); congruence.
Qed.

Lemma key_in_ext l1 l2 :
  (forall k, In k l1 <-> In k l2) -> forall k, key_in k l1 = key_in k l2.
Proof.
  intros H k. destruct (key_in k l1) eqn:E1, (key_in k l2) eqn:E2; try reflexivity.
  - apply key_in_In, H, key_in_In in E1. congruence.
  - apply key_in_In, H, key_in_In in E2. congruence.
Qed.

Lemma key_in_nodup l k : key_in k (nodup key_eq_dec l) = key_in k l.
Proof. apply key_in_ext. intros k'. apply nodup_In. Qed.

(** The body of [step_mdp] and of the fallback of [__call__] after [out] is
    created. *)
Definition generic_copy (tensordict next_td out : value) (keep_other exclude_action : bool)
    (action_keys excluded : list NestedKey) : result value :=
  out <- (if keep_other then
            ks <- keys tensordict ;;
            foldM (fun out key =>
                     if negb (String.eqb key NEXT)
                     then '(_, out') <- _set tensordict out key [] excluded ;; Ok out'
                     else Ok out) ks out
          else if negb exclude_action then
            foldM (fun out action_key => _set_single_key tensordict out action_key)
                  action_keys out
          else Ok out) ;;
  ks <- keys next_td ;;
  foldM (fun out key => '(_, out') <- _set next_td out key [] excluded ;; Ok out') ks out.

Lemma generic_copy_excluded_ext td next_td out ko exa A E1 E2 :
  (forall k, key_in k E1 = key_in k E2) ->
  generic_copy td next_td out ko exa A E1 = generic_copy td next_td out ko exa A E2.
Proof.
  intros HE. unfold generic_copy.
  assert (H1 : (if ko then
                  ks <- keys td ;;
                  foldM (fun out key =>
                           if negb (String.eqb key NEXT)
                           then '(_, out') <- _set td out key [] E1 ;; Ok out'
                           else Ok out) ks out
                else if negb exa then
                  foldM (fun out action_key => _set_single_key td out action_key) A out
                else Ok out)
               = (if ko then
                    ks <- keys td ;;
                    foldM (fun out key =>
                             if negb (String.eqb key NEXT)
                             then '(_, out') <- _set td out key [] E2 ;; Ok out'
                             else Ok out) ks out
                  else if negb exa then
                    foldM (fun out action_key => _set_single_key td out action_key) A out
                  else Ok out)).
  { destruct ko; [| reflexivity]. destruct (keys td); [| reflexivity]. cbn [bind].
    apply foldM_ext. intros o k _. unfold _set.
    rewrite (_set_rec_excluded_ext E1 E2 HE). reflexivity. }
  rewrite H1. clear H1. destruct (if ko then _ else _) as [out1|]; [| reflexivity].
  cbn [bind].
  destruct (keys next_td); [| reflexivity]. cbn [bind].
  apply foldM_ext. intros o k _. unfold _set.
  rewrite (_set_rec_excluded_ext E1 E2 HE). reflexivity.
Qed.

Lemma step_mdp_TensorDict bs items ko exr exd exa R D A :
  step_mdp (TensorDict bs items) ko exr exd exa R D A
    = (next_td <- get (TensorDict bs items) [NEXT] ;;
       out <- empty next_td ;;
       generic_copy (TensorDict bs items) next_td out ko exa A
         (excluded_of exr exd exa R D A)).
Proof. reflexivity. Qed.

Lemma call_TensorDict self bs items :
  __call__ self (TensorDict bs items)
    = match (next_td <- _get_str (TensorDict bs items) NEXT DefaultNone ;;
             out <- empty next_td ;; Ok (next_td, out)) with
      | Raise e => mkEffect (Raise e) self []
      | Ok (next_td, out) =>
          let v := validate self (TensorDict bs items) in
          mkEffect
            (if returned v then
               out <- _grab_and_place (keys_from_root (self_after v)) (TensorDict bs items) out ;;
               _grab_and_place (keys_from_next (self_after v)) next_td out
             else
               generic_copy (TensorDict bs items) next_td out (keep_other (self_after v))
                 (exclude_action (self_after v)) (action_keys (self_after v))
                 (excluded (self_after v)))
            (self_after v) (warnings v)
      end.
Proof. reflexivity. Qed.

Lemma init_fields e ko exr exd exa self0 :
  _StepMDP_init e ko exr exd exa = Ok self0 ->
  exists root next,
    _repr_key_list_as_tree
      ((if negb exa then env_action_keys e else [])
         ++ (if ko then env_state_keys e else [])) = Ok root
    /\ _repr_key_list_as_tree
         (env_observation_keys e
            ++ (if negb exr then env_reward_keys e else [])
            ++ (if negb exd then env_done_keys e else [])) = Ok next
    /\ self0 = mk_StepMDP (env_action_keys e) (env_done_keys e) (env_reward_keys e)
                 (env_observation_keys e) (env_state_keys e)
                 (nodup key_eq_dec
                    (excluded_of exr exd exa (env_reward_keys e) (env_done_keys e)
                       (env_action_keys e)))
                 ko exa root next None.
Proof.
  unfold _StepMDP_init. intros H.
  apply bind_Ok in H. destruct H as (root & Hr & H).
  apply bind_Ok in H. destruct H as (next & Hn & H).
  inversion H. exists root, next. auto.
Qed.





(** ** The fast path of [_StepMDP.__call__] copies what [step_mdp] copies *)

(** *** Leaves, prefixes and exclusions *)

Fixpoint prefixb (p q : NestedKey) : bool :=
  match p, q with
  | [], _ => true
  | k :: p', k' :: q' => String.eqb k k' && prefixb p' q'
  | _ :: _, [] => false
  end.

Lemma prefixb_app p q : prefixb p q = true <-> exists r, q = p ++ r.
Proof.
  revert q. induction p as [ | k p IH ]; intros q; cbn.
  - split; [intros _; exists q; reflexivity | reflexivity].
  - destruct q as [ | k' q ].
    + split; [discriminate | intros [r Hr]; discriminate].
    + rewrite andb_true_iff, IH. split.
      * intros [E [r ->]]. apply String.eqb_eq in E. subst. exists r. reflexivity.
      * intros [r Hr]. inversion Hr; subst. split; [apply String.eqb_refl | exists r; reflexivity].
Qed.

Definition orelse {A} (a b : option A) : option A :=
  match a with Some x => Some x | None => b end.

(** Whether [_set], called with the total key [total_key] already extended by
    its own key, stops on an excluded key on its way down the segments [q]. *)
Fixpoint excl (E : list NestedKey) (total_key q : NestedKey) : bool :=
  key_in total_key E
  || match q with
     | [] => false
     | k :: q' => excl E (total_key ++ [k]) q'
     end.

(** The leaves [_set] copies from the entry [val]. *)
Definition copied (E : list NestedKey) (total_key : NestedKey) (val : value)
    (q : NestedKey) : option tensor :=
  if excl E total_key q then None else leaf_at val q.

(** The leaves a loop of [_set] over the keys of [src] copies. *)
Definition kept_from (E : list NestedKey) (total_key : NestedKey) (src : value)
    (p : NestedKey) : option tensor :=
  match p with
  | [] => None
  | k :: q => if excl E (total_key ++ [k]) q then None else leaf_at src p
  end.

(** No leaf of one side lies strictly above a leaf of the other. *)
Definition compat (f g : NestedKey -> option tensor) : Prop :=
  forall p q,
    (f p <> None -> g (p ++ q) <> None -> q = [])
    /\ (g p <> None -> f (p ++ q) <> None -> q = []).

Lemma excl_spec E tk q :
  excl E tk q = true <-> exists q1 q2, q = q1 ++ q2 /\ In (tk ++ q1) E.
Proof.
  revert tk. induction q as [ | k q IH ]; intros tk; cbn.
  - rewrite orb_false_r, key_in_In. split.
    + intros H. exists [], []. rewrite (app_nil_r tk). split; [reflexivity | exact H].
    + intros (q1 & q2 & Hq & Hin). destruct q1; [| discriminate Hq].
      rewrite app_nil_r in Hin. exact Hin.
  - rewrite orb_true_iff, key_in_In, IH. split.
    + intros [H | (q1 & q2 & -> & Hin)].
      * exists [], (k :: q). rewrite (app_nil_r tk). split; [reflexivity | exact H].
      * exists (k :: q1), q2. rewrite <- app_assoc in Hin. split; [reflexivity | exact Hin].
    + intros (q1 & q2 & Hq & Hin). destruct q1 as [ | k1 q1 ].
      * left. rewrite app_nil_r in Hin. exact Hin.
      * right. inversion Hq; subst. exists q1, q2. rewrite <- app_assoc.
        split; [reflexivity | exact Hin].
Qed.

Lemma leaf_prefix_free : forall p v q,
  leaf_at v p <> None -> leaf_at v (p ++ q) <> None -> q = [].
Proof.
  induction p as [ | k p IH ]; intros v q H1 H2.
  - destruct v; cbn in H1; try congruence.
    destruct q; [reflexivity | cbn in H2; congruence].
  - destruct v as [ | t | bs items | sd tds ]; cbn in H1, H2; try congruence.
    destruct (assoc k items) as [x|]; [| congruence].
    exact (IH x q H1 H2).
Qed.

Lemma tight_has_leaf : forall v, tight v = true -> exists p t, leaf_at v p = Some t.
Proof.
  fix IH 1. intros [ | t | bs items | sd tds ]; cbn; try congruence.
  - intros _. exists [], t. reflexivity.
  - destruct items as [ | [k x] items ]; [cbn; congruence|].
    cbn. rewrite !andb_true_iff. intros [_ [Hx _]].
    destruct (IH x Hx) as (p & t & Hp). exists (k :: p), t.
    cbn. rewrite String.eqb_refl. exact Hp.
Qed.

Lemma tight_assoc bs items k x :
  tight (TensorDict bs items) = true -> assoc k items = Some x -> tight x = true.
Proof.
  cbn. rewrite !andb_true_iff. intros [_ H] Ha.
  exact (forallb_assoc (fun kv => tight (snd kv)) k x items H Ha).
Qed.

Lemma leaf_at_nil_TensorDict bs items : leaf_at (TensorDict bs items) [] = None.
Proof. reflexivity. Qed.

Lemma compat_ext (f f' g g' : NestedKey -> option tensor) :
  (forall q, f q = f' q) -> (forall q, g q = g' q) -> compat f g -> compat f' g'.
Proof.
  intros Hf Hg H p q. rewrite <- !Hf, <- !Hg. apply H.
Qed.

Lemma compat_shift (f g : NestedKey -> option tensor) k :
  compat f g -> compat (fun q => f (k :: q)) (fun q => g (k :: q)).
Proof. intros H p q. exact (H (k :: p) q). Qed.

Lemma compat_sym (f g : NestedKey -> option tensor) : compat f g -> compat g f.
Proof. intros H p q. destruct (H p q). split; assumption. Qed.

Lemma orelse_None_r {A} (a : option A) : orelse a None = a.
Proof. destruct a; reflexivity. Qed.

Lemma In_keys_assoc k (l : list (string * value)) :
  In k (map fst l) -> exists x, assoc k l = Some x.
Proof.
  intros Hin. destruct (assoc k l) as [x|] eqn:E; [exists x; reflexivity|].
  apply assoc_None_keys in E. contradiction.
Qed.

Lemma existsb_eqb_false k l : ~ In k l -> existsb (String.eqb k) l = false.
Proof.
  intros H. destruct (existsb (String.eqb k) l) eqn:E; [| reflexivity].
  apply existsb_eqb_In in E. contradiction.
Qed.

Lemma keys_TensorDict bs items : keys (TensorDict bs items) = Ok (map fst items).
Proof. reflexivity. Qed.

(** *** What [_set] copies *)

(** The specification of [_set] on a [TensorDict] source whose entry [key]
    is tight, with a plain [TensorDict] as destination. *)
Definition set_rec_spec (fuel : nat) (E : list NestedKey) : Prop :=
  forall sbs sitems dbs ditems key total val,
    assoc key sitems = Some val -> tight val = true -> depth val < fuel ->
    plain (TensorDict dbs ditems) = true ->
    compat (leaf_at val) (fun q => leaf_at (TensorDict dbs ditems) (key :: q)) ->
    exists b ditems',
      _set_rec fuel (TensorDict sbs sitems) (TensorDict dbs ditems) key total E
        = Ok (b, TensorDict dbs ditems')
      /\ plain (TensorDict dbs ditems') = true
      /\ (forall k q,
            leaf_at (TensorDict dbs ditems') (k :: q)
              = if String.eqb k key
                then orelse (copied E (total ++ [key]) val q)
                            (leaf_at (TensorDict dbs ditems) (k :: q))
                else leaf_at (TensorDict dbs ditems) (k :: q))
      /\ (b = false -> forall q, copied E (total ++ [key]) val q = None).

Section SetLoop.
Variables (fuel : nat) (E : list NestedKey).
Hypothesis IH : set_rec_spec fuel E.
Variables (vbs : list nat) (vitems : list (string * value)) (tk : NestedKey).

(** The loop of [_set] over the keys of the entry [val]. *)
Lemma set_loop : forall ks ne nbs nitems,
  NoDup ks ->
  (forall sk, In sk ks ->
     exists x, assoc sk vitems = Some x /\ tight x = true /\ depth x < fuel
               /\ compat (leaf_at x) (fun q => leaf_at (TensorDict nbs nitems) (sk :: q))) ->
  plain (TensorDict nbs nitems) = true ->
  exists ne' nitems',
    foldM (fun (st : bool * value) subkey =>
             let '(non_empty_local, new_val) := st in
             '(b, new_val') <- _set_rec fuel (TensorDict vbs vitems) new_val subkey tk E ;;
             Ok (b || non_empty_local, new_val'))
          ks (ne, TensorDict nbs nitems)
      = Ok (ne', TensorDict nbs nitems')
    /\ plain (TensorDict nbs nitems') = true
    /\ (forall k q,
          leaf_at (TensorDict nbs nitems') (k :: q)
            = if existsb (String.eqb k) ks
              then orelse (kept_from E tk (TensorDict vbs vitems) (k :: q))
                          (leaf_at (TensorDict nbs nitems) (k :: q))
              else leaf_at (TensorDict nbs nitems) (k :: q))
    /\ (ne' = false ->
        ne = false
        /\ forall k q, In k ks -> kept_from E tk (TensorDict vbs vitems) (k :: q) = None).
Proof.
  induction ks as [ | sk ks IHks ]; intros ne nbs nitems Hnd Hks Hp.
  - exists ne, nitems. cbn. repeat split; try assumption; try reflexivity.
    intros k q [].
  - inversion Hnd as [ | ? ? Hnotin Hnd' ]; subst.
    destruct (Hks sk (or_introl eq_refl)) as (x & Hx & Htx & Hdx & Hcx).
    destruct (IH vbs vitems nbs nitems sk tk x Hx Htx Hdx Hp Hcx)
      as (b & nitems1 & Hrun & Hp1 & Hleaf1 & Hb).
    assert (Hks1 : forall sk', In sk' ks ->
              exists x', assoc sk' vitems = Some x' /\ tight x' = true /\ depth x' < fuel
                /\ compat (leaf_at x')
                          (fun q => leaf_at (TensorDict nbs nitems1) (sk' :: q))).
    { intros sk' Hin. destruct (Hks sk' (or_intror Hin)) as (x' & Hx' & Ht' & Hd' & Hc').
      exists x'. split; [exact Hx' | split; [exact Ht' | split; [exact Hd' |]]].
      apply (compat_ext (leaf_at x') (leaf_at x')
               (fun q => leaf_at (TensorDict nbs nitems) (sk' :: q))).
      - reflexivity.
      - intros q. rewrite Hleaf1.
        destruct (String.eqb_spec sk' sk) as [-> | _]; [contradiction | reflexivity].
      - apply Hc'. }
    destruct (IHks (b || ne) nbs nitems1 Hnd' Hks1 Hp1)
      as (ne' & nitems' & Hloop & Hp' & Hleaf' & Hne').
    exists ne', nitems'. split; [| split; [exact Hp' | split]].
    + cbn [foldM]. rewrite Hrun. cbn [bind]. exact Hloop.
    + intros k q. rewrite Hleaf'. cbn [existsb].
      destruct (String.eqb_spec k sk) as [-> | Hne].
      * rewrite (existsb_eqb_false sk ks Hnotin). cbn [orb].
        rewrite Hleaf1, String.eqb_refl.
        unfold kept_from, copied. cbn [leaf_at]. rewrite Hx. reflexivity.
      * cbn [orb]. rewrite !Hleaf1.
        destruct (String.eqb_spec k sk) as [ | _]; [contradiction | reflexivity].
    + intros Hf. destruct (Hne' Hf) as [Hbne Hrest].
      apply orb_false_iff in Hbne. destruct Hbne as [Hbf Hnef].
      split; [exact Hnef|]. intros k q [<- | Hin].
      * specialize (Hb Hbf q). unfold kept_from, copied in *. cbn [leaf_at].
        rewrite Hx. exact Hb.
      * apply Hrest. exact Hin.
Qed.

(** What [_set] does once it has found a nested batch under its key and
    [new_val], the batch of the destination it fills. *)
Lemma set_collection dbs ditems key nbs nitems :
  tight (TensorDict vbs vitems) = true ->
  depth (TensorDict vbs vitems) < S fuel ->
  plain (TensorDict dbs ditems) = true ->
  plain (TensorDict nbs nitems) = true ->
  (forall q, leaf_at (TensorDict nbs nitems) q = leaf_at (TensorDict dbs ditems) (key :: q)) ->
  compat (leaf_at (TensorDict vbs vitems))
         (fun q => leaf_at (TensorDict dbs ditems) (key :: q)) ->
  key_in tk E = false ->
  exists b ditems',
    (subkeys <- keys (TensorDict vbs vitems) ;;
     '(non_empty_local, new_val) <-
       foldM (fun (st : bool * value) subkey =>
                let '(non_empty_local, new_val) := st in
                '(b, new_val') <- _set_rec fuel (TensorDict vbs vitems) new_val subkey tk E ;;
                Ok (b || non_empty_local, new_val'))
             subkeys (false, TensorDict nbs nitems) ;;
     if non_empty_local
     then dest' <- _set_str (TensorDict dbs ditems) key new_val ;; Ok (true, dest')
     else Ok (false, TensorDict dbs ditems))
      = Ok (b, TensorDict dbs ditems')
    /\ plain (TensorDict dbs ditems') = true
    /\ (forall k q,
          leaf_at (TensorDict dbs ditems') (k :: q)
            = if String.eqb k key
              then orelse (copied E tk (TensorDict vbs vitems) q)
                          (leaf_at (TensorDict dbs ditems) (k :: q))
              else leaf_at (TensorDict dbs ditems) (k :: q))
    /\ (b = false -> forall q, copied E tk (TensorDict vbs vitems) q = None).
Proof.
  intros Htight Hdepth Hplain Hpn Hnv Hcompat Hex.
  assert (Hnd : NoDup (map fst vitems)).
  { apply nodupb_NoDup. cbn in Htight. rewrite !andb_true_iff in Htight. tauto. }
  assert (Hks : forall sk, In sk (map fst vitems) ->
            exists x, assoc sk vitems = Some x /\ tight x = true /\ depth x < fuel
              /\ compat (leaf_at x) (fun q => leaf_at (TensorDict nbs nitems) (sk :: q))).
  { intros sk Hin. destruct (In_keys_assoc sk vitems Hin) as [x Hx].
    exists x. split; [exact Hx|]. split; [exact (tight_assoc _ _ _ _ Htight Hx)|].
    split.
    - pose proof (depth_entry vbs vitems sk x (assoc_In _ _ _ Hx)). lia.
    - apply (compat_ext (fun q => leaf_at (TensorDict vbs vitems) (sk :: q))
               (leaf_at x)
               (fun q => leaf_at (TensorDict dbs ditems) (key :: sk :: q))).
      + intros q. cbn [leaf_at]. rewrite Hx. reflexivity.
      + intros q. symmetry. apply Hnv.
      + exact (compat_shift _ _ sk Hcompat). }
  destruct (set_loop (map fst vitems) false nbs nitems Hnd Hks Hpn)
    as (ne' & nitems' & Hloop & Hp' & Hleaf' & Hne').
  assert (Hcopied : forall q,
            copied E tk (TensorDict vbs vitems) q
              = kept_from E tk (TensorDict vbs vitems) q).
  { intros [ | k q ]; unfold copied, kept_from.
    - destruct (excl E tk []); reflexivity.
    - cbn [excl]. rewrite Hex. reflexivity. }
  assert (Hnew : forall q,
            leaf_at (TensorDict nbs nitems') q
              = orelse (copied E tk (TensorDict vbs vitems) q)
                       (leaf_at (TensorDict dbs ditems) (key :: q))).
  { intros [ | k q ].
    - rewrite Hcopied, <- Hnv. reflexivity.
    - rewrite Hleaf', Hcopied, <- Hnv.
      destruct (existsb (String.eqb k) (map fst vitems)) eqn:Ein; [reflexivity|].
      unfold kept_from. cbn [leaf_at].
      assert (Ha : assoc k vitems = None).
      { apply assoc_None_keys. intros Hin. apply existsb_eqb_In in Hin. congruence. }
      rewrite Ha. destruct (excl E (tk ++ [k]) q); reflexivity. }
  rewrite keys_TensorDict. cbn [bind]. rewrite Hloop. cbn [bind].
  destruct ne'.
  - exists true, (assoc_set key (TensorDict nbs nitems') ditems).
    split; [reflexivity|]. split; [apply plain_assoc_set; assumption|].
    split; [| discriminate].
    intros k q. rewrite leaf_at_assoc_set.
    destruct (String.eqb_spec k key) as [-> | _]; [apply Hnew | reflexivity].
  - exists false, ditems. split; [reflexivity|]. split; [exact Hplain|].
    destruct (Hne' eq_refl) as [_ Hnone].
    assert (Hall : forall q, copied E tk (TensorDict vbs vitems) q = None).
    { intros q. rewrite Hcopied. destruct q as [ | k q ]; [reflexivity|].
      destruct (existsb (String.eqb k) (map fst vitems)) eqn:Ein.
      - apply Hnone. apply existsb_eqb_In. exact Ein.
      - unfold kept_from. cbn [leaf_at].
        assert (Ha : assoc k vitems = None).
        { apply assoc_None_keys. intros Hin. apply existsb_eqb_In in Hin. congruence. }
        rewrite Ha. destruct (excl E (tk ++ [k]) q); reflexivity. }
    split; [| intros _; exact Hall].
    intros k q. rewrite Hall. destruct (String.eqb k key); reflexivity.
Qed.

End SetLoop.

Lemma try_except_Ok {A} (body : result A) (handler : exn -> result A) (a : A) :
  body = Ok a -> try_except_RuntimeError body handler = Ok a.
Proof. intros ->. reflexivity. Qed.

Lemma set_rec_ok E : forall fuel, set_rec_spec fuel E.
Proof.
  induction fuel as [ | fuel IHf ];
    intros sbs sitems dbs ditems key total val Hval Htight Hdepth Hplain Hcompat.
  - lia.
  - cbn [_set_rec].
    destruct (key_in (total ++ [key]) E) eqn:Hex; cbn [negb].
    + exists false, ditems. split; [reflexivity|]. split; [exact Hplain|].
      assert (Hnone : forall q, copied E (total ++ [key]) val q = None).
      { intros q. unfold copied. destruct q; cbn [excl]; rewrite Hex; reflexivity. }
      split.
      * intros k q. rewrite Hnone. cbn [orelse]. destruct (String.eqb k key); reflexivity.
      * intros _. exact Hnone.
    + assert (Hget : _get_str (TensorDict sbs sitems) key NO_DEFAULT = Ok val).
      { cbn. rewrite Hval. destruct val; cbn in Htight; try congruence; reflexivity. }
      rewrite Hget. cbn [bind].
      destruct val as [ | t | vbs vitems | sd tds ]; try (cbn in Htight; congruence).
      * exists true, (assoc_set key (Tensor t) ditems).
        split; [reflexivity|].
        split; [apply plain_assoc_set; [exact Hplain | reflexivity]|].
        split; [| discriminate].
        intros k q. rewrite leaf_at_assoc_set.
        destruct (String.eqb_spec k key) as [-> | Hne]; [| reflexivity].
        unfold copied. destruct q as [ | k' q' ].
        -- cbn [excl]. rewrite Hex. reflexivity.
        -- assert (Hd : leaf_at (TensorDict dbs ditems) (key :: k' :: q') = None).
           { destruct (leaf_at (TensorDict dbs ditems) (key :: k' :: q')) eqn:El;
               [| reflexivity].
             exfalso. destruct (Hcompat [] (k' :: q')) as [H1 _].
             assert (H0 : k' :: q' = []).
             { apply H1; [cbn; congruence | cbn [app]; rewrite El; congruence]. }
             discriminate H0. }
           rewrite Hd. destruct (excl E (total ++ [key]) (k' :: q')); reflexivity.
      * cbn [is_tensor_collection].
        rewrite (plain_get_str _ _ _ _ Hplain).
        destruct (assoc key ditems) as [y|] eqn:Hy.
        -- pose proof (plain_assoc _ _ _ _ Hplain Hy) as Hpy.
           destruct y as [ | ty | ybs yitems | ysd ytds ]; try (cbn in Hpy; congruence).
           ++ exfalso. destruct (tight_has_leaf _ Htight) as (p & t & Hp).
              destruct (Hcompat [] p) as [_ H2].
              assert (H0 : p = []).
              { apply H2; [cbn; rewrite Hy; cbn; congruence | cbn [app]; congruence]. }
              subst p. cbn in Hp. discriminate Hp.
           ++ destruct (set_collection fuel E IHf vbs vitems (total ++ [key])
                          dbs ditems key ybs yitems Htight Hdepth Hplain Hpy)
                as (b & ditems' & Hbody & Hrest); [ | exact Hcompat | exact Hex | ].
              { intros q. cbn [leaf_at]. rewrite Hy. reflexivity. }
              exists b, ditems'. split; [| exact Hrest].
              apply try_except_Ok. cbn [bind is_None]. exact Hbody.
        -- destruct (set_collection fuel E IHf vbs vitems (total ++ [key])
                       dbs ditems key vbs [] Htight Hdepth Hplain eq_refl)
             as (b & ditems' & Hbody & Hrest); [ | exact Hcompat | exact Hex | ].
           { intros q. cbn [leaf_at]. rewrite Hy. destruct q; reflexivity. }
           exists b, ditems'. split; [| exact Hrest].
           apply try_except_Ok. cbn [bind is_None default_get empty]. exact Hbody.
Qed.

Lemma foldM_project (g : value -> string -> result (bool * value)) :
  forall ks ne out,
    foldM (fun out key => '(_, out') <- g out key ;; Ok out') ks out
      = ('(_, o) <- foldM (fun (st : bool * value) key =>
                             let '(ne, nv) := st in
                             '(b, nv') <- g nv key ;; Ok (b || ne, nv'))
                          ks (ne, out) ;;
         Ok o).
Proof.
  induction ks as [ | k ks IH ]; intros ne out; cbn; [reflexivity|].
  destruct (g out k) as [[b o]|e]; cbn; [apply IH | reflexivity].
Qed.

Lemma foldM_filter {A B} (keep : B -> bool) (f : A -> B -> result A) :
  forall l a,
    foldM (fun a b => if keep b then f a b else Ok a) l a = foldM f (filter keep l) a.
Proof.
  induction l as [ | b l IH ]; intros a; cbn; [reflexivity|].
  destruct (keep b); cbn; [| apply IH].
  destruct (f a b); cbn; [apply IH | reflexivity].
Qed.

(** A loop of [_set] over some keys of a tight source. *)
Lemma set_keys_loop E sbs sitems ks obs oitems :
  tight (TensorDict sbs sitems) = true ->
  NoDup ks -> (forall k, In k ks -> In k (map fst sitems)) ->
  plain (TensorDict obs oitems) = true ->
  compat (leaf_at (TensorDict sbs sitems)) (leaf_at (TensorDict obs oitems)) ->
  exists oitems',
    foldM (fun out key =>
             '(_, out') <- _set (TensorDict sbs sitems) out key [] E ;; Ok out')
          ks (TensorDict obs oitems)
      = Ok (TensorDict obs oitems')
    /\ plain (TensorDict obs oitems') = true
    /\ (forall k q,
          leaf_at (TensorDict obs oitems') (k :: q)
            = if existsb (String.eqb k) ks
              then orelse (kept_from E [] (TensorDict sbs sitems) (k :: q))
                          (leaf_at (TensorDict obs oitems) (k :: q))
              else leaf_at (TensorDict obs oitems) (k :: q)).
Proof.
  intros Htight Hnd Hsub Hplain Hcompat.
  destruct (set_loop (S (depth (TensorDict sbs sitems))) E (set_rec_ok E _)
              sbs sitems [] ks false obs oitems Hnd) as (ne' & oitems' & Hloop & Hp' & Hleaf & _).
  - intros sk Hin. destruct (In_keys_assoc sk sitems (Hsub sk Hin)) as [x Hx].
    exists x. split; [exact Hx|]. split; [exact (tight_assoc _ _ _ _ Htight Hx)|].
    split.
    + pose proof (depth_entry sbs sitems sk x (assoc_In _ _ _ Hx)). lia.
    + apply (compat_ext (fun q => leaf_at (TensorDict sbs sitems) (sk :: q)) (leaf_at x)
               (fun q => leaf_at (TensorDict obs oitems) (sk :: q))
               (fun q => leaf_at (TensorDict obs oitems) (sk :: q))).
      * intros q. cbn [leaf_at]. rewrite Hx. reflexivity.
      * reflexivity.
      * exact (compat_shift _ _ sk Hcompat).
  - exact Hplain.
  - exists oitems'. split; [| split; [exact Hp' | exact Hleaf]].
    unfold _set.
    rewrite (foldM_project
               (fun out key => _set_rec (S (depth (TensorDict sbs sitems)))
                                 (TensorDict sbs sitems) out key [] E) ks false).
    rewrite Hloop. reflexivity.
Qed.

(** *** What [_set_single_key] copies *)

(** The one leaf [_set_single_key] is asked to copy. *)
Definition single (key : NestedKey) (t : tensor) (p : NestedKey) : option tensor :=
  if key_eqb p key then Some t else None.

Lemma key_eqb_refl p : key_eqb p p = true.
Proof. unfold key_eqb. destruct (key_eq_dec p p); congruence. Qed.

Lemma key_eqb_eq p q : key_eqb p q = true <-> p = q.
Proof. unfold key_eqb. destruct (key_eq_dec p q); split; congruence. Qed.

Lemma key_eqb_cons k p k' q : key_eqb (k :: p) (k' :: q) = String.eqb k k' && key_eqb p q.
Proof.
  destruct (key_eqb (k :: p) (k' :: q)) eqn:E1.
  - apply key_eqb_eq in E1. inversion E1; subst.
    rewrite String.eqb_refl, key_eqb_refl. reflexivity.
  - destruct (String.eqb_spec k k') as [-> | Hne]; [| reflexivity].
    destruct (key_eqb p q) eqn:E2; [| reflexivity].
    apply key_eqb_eq in E2. subst. rewrite key_eqb_refl in E1. discriminate E1.
Qed.

Lemma ssk_nil fuel source dest : _set_single_key_rec fuel source dest [] = Ok dest.
Proof. destruct fuel; reflexivity. Qed.

Lemma ssk_spec : forall key fuel sbs sitems dbs ditems t,
  leaf_at (TensorDict sbs sitems) key = Some t ->
  plain (TensorDict sbs sitems) = true ->
  plain (TensorDict dbs ditems) = true ->
  length key <= fuel ->
  compat (single key t) (leaf_at (TensorDict dbs ditems)) ->
  exists ditems',
    _set_single_key_rec fuel (TensorDict sbs sitems) (TensorDict dbs ditems) key
      = Ok (TensorDict dbs ditems')
    /\ plain (TensorDict dbs ditems') = true
    /\ forall p, leaf_at (TensorDict dbs ditems') p
                 = orelse (single key t p) (leaf_at (TensorDict dbs ditems) p).
Proof.
  induction key as [ | k rest IH ];
    intros fuel sbs sitems dbs ditems t Hleaf Hps Hpd Hfuel Hcompat.
  - cbn in Hleaf. discriminate Hleaf.
  - destruct fuel as [ | fuel ]; [cbn in Hfuel; lia|].
    cbn [length] in Hfuel.
    cbn [leaf_at] in Hleaf. destruct (assoc k sitems) as [val|] eqn:Hval; [| discriminate].
    pose proof (plain_assoc _ _ _ _ Hps Hval) as Hpv.
    assert (Hgs : _get_str (TensorDict sbs sitems) k DefaultNone = Ok val).
    { rewrite (plain_get_str _ _ _ _ Hps), Hval. reflexivity. }
    cbn [_set_single_key_rec]. unfold _set_single_key_body. rewrite Hgs. cbn [bind].
    destruct rest as [ | k2 rest' ].
    + destruct val as [ | tv | vbs vitems | sd tds ]; cbn in Hleaf; try discriminate.
      inversion Hleaf; subst tv.
      cbn [is_tensor_collection _set_str bind]. rewrite ssk_nil.
      exists (assoc_set k (Tensor t) ditems). split; [reflexivity|].
      split; [apply plain_assoc_set; [exact Hpd | reflexivity]|].
      intros [ | k' q ]; [reflexivity|].
      rewrite leaf_at_assoc_set. unfold single. rewrite key_eqb_cons.
      destruct (String.eqb_spec k' k) as [-> | Hne]; cbn [andb]; [| reflexivity].
      destruct q as [ | k3 q ]; [reflexivity|].
      change (leaf_at (Tensor t) (k3 :: q)) with (@None tensor).
      change (key_eqb (k3 :: q) []) with false. cbn [orelse].
      destruct (leaf_at (TensorDict dbs ditems) (k :: k3 :: q)) eqn:El; [| reflexivity].
      exfalso. destruct (Hcompat [k] (k3 :: q)) as [H1 _].
      assert (H0 : k3 :: q = []).
      { apply H1.
        - unfold single. rewrite key_eqb_refl. congruence.
        - cbn [app]. rewrite El. congruence. }
      discriminate H0.
    + destruct val as [ | tv | vbs vitems | sd tds ]; cbn in Hpv, Hleaf; try discriminate.
      cbn [is_tensor_collection].
      rewrite (plain_get_str _ _ _ _ Hpd).
      assert (Hsub : forall ybs yitems,
                plain (TensorDict ybs yitems) = true ->
                (forall q, leaf_at (TensorDict ybs yitems) q
                           = leaf_at (TensorDict dbs ditems) (k :: q)) ->
                exists yitems',
                  _set_single_key_rec fuel (TensorDict vbs vitems) (TensorDict ybs yitems)
                    (k2 :: rest') = Ok (TensorDict ybs yitems')
                  /\ plain (TensorDict ybs yitems') = true
                  /\ forall q, leaf_at (TensorDict ybs yitems') q
                               = orelse (single (k :: k2 :: rest') t (k :: q))
                                        (leaf_at (TensorDict dbs ditems) (k :: q))).
      { intros ybs yitems Hpy Hyq.
        destruct (IH fuel vbs vitems ybs yitems t) as (yitems' & Hrun & Hp' & Hl');
          [ exact Hleaf | exact Hpv | exact Hpy | lia | | ].
        - apply (compat_ext (fun q => single (k :: k2 :: rest') t (k :: q))
                   (single (k2 :: rest') t)
                   (fun q => leaf_at (TensorDict dbs ditems) (k :: q))
                   (leaf_at (TensorDict ybs yitems))).
          + intros q. unfold single. rewrite key_eqb_cons, String.eqb_refl. reflexivity.
          + intros q. symmetry. apply Hyq.
          + exact (compat_shift _ _ k Hcompat).
        - exists yitems'. split; [exact Hrun|]. split; [exact Hp'|].
          intros q. rewrite Hl', Hyq. unfold single.
          rewrite (key_eqb_cons k q k), String.eqb_refl. reflexivity. }
      destruct (assoc k ditems) as [y|] eqn:Hy.
      * pose proof (plain_assoc _ _ _ _ Hpd Hy) as Hpy.
        destruct y as [ | ty | ybs yitems | ysd ytds ]; try (cbn in Hpy; congruence).
        -- exfalso. destruct (Hcompat [k] (k2 :: rest')) as [_ H2].
           assert (H0 : k2 :: rest' = []).
           { apply H2.
             - cbn [leaf_at]. rewrite Hy. cbn. congruence.
             - unfold single. cbn [app]. rewrite key_eqb_refl. congruence. }
           discriminate H0.
        -- destruct (Hsub ybs yitems Hpy) as (yitems' & Hrun & Hp' & Hl').
           { intros q. cbn [leaf_at]. rewrite Hy. reflexivity. }
           cbn [bind is_None]. rewrite Hrun. cbn [bind _set_str].
           exists (assoc_set k (TensorDict ybs yitems') ditems).
           split; [reflexivity|]. split; [apply plain_assoc_set; assumption|].
           intros [ | k' q ]; [reflexivity|].
           rewrite leaf_at_assoc_set.
           destruct (String.eqb_spec k' k) as [-> | Hne]; [apply Hl'|].
           unfold single. rewrite key_eqb_cons.
           destruct (String.eqb_spec k' k) as [ | _]; [contradiction | reflexivity].
      * destruct (Hsub vbs [] eq_refl) as (yitems' & Hrun & Hp' & Hl').
        { intros q. cbn [leaf_at]. rewrite Hy. destruct q; reflexivity. }
        cbn [bind is_None default_get empty _set_str]. rewrite Hrun. cbn [bind _set_str].
        exists (assoc_set k (TensorDict vbs yitems') (assoc_set k (TensorDict vbs []) ditems)).
        split; [reflexivity|].
        split; [apply plain_assoc_set; [apply plain_assoc_set; [exact Hpd | reflexivity]
                                       | exact Hp']|].
        intros [ | k' q ]; [reflexivity|].
        rewrite !leaf_at_assoc_set.
        destruct (String.eqb_spec k' k) as [-> | Hne]; [apply Hl'|].
        unfold single. rewrite key_eqb_cons.
        destruct (String.eqb_spec k' k) as [ | _]; [contradiction | reflexivity].
Qed.

(** The loop of [_set_single_key] over the action keys. *)
Lemma ssk_loop sbs sitems :
  plain (TensorDict sbs sitems) = true ->
  forall A obs oitems,
    (forall a, In a A -> leaf_at (TensorDict sbs sitems) a <> None) ->
    plain (TensorDict obs oitems) = true ->
    (forall p, leaf_at (TensorDict obs oitems) p <> None ->
               leaf_at (TensorDict sbs sitems) p <> None) ->
    exists oitems',
      foldM (fun out action_key => _set_single_key (TensorDict sbs sitems) out action_key)
            A (TensorDict obs oitems)
        = Ok (TensorDict obs oitems')
      /\ plain (TensorDict obs oitems') = true
      /\ forall p, leaf_at (TensorDict obs oitems') p
                   = if key_in p A then leaf_at (TensorDict sbs sitems) p
                     else leaf_at (TensorDict obs oitems) p.
Proof.
  intros Hps. induction A as [ | a A IH ]; intros obs oitems HA Hpo Hsub.
  - exists oitems. split; [reflexivity|]. split; [exact Hpo | reflexivity].
  - destruct (leaf_at (TensorDict sbs sitems) a) as [t|] eqn:Ha;
      [| exfalso; exact (HA a (or_introl eq_refl) Ha)].
    destruct (ssk_spec a (S (depth (TensorDict sbs sitems) + length a))
                sbs sitems obs oitems t Ha Hps Hpo) as (oitems1 & Hrun & Hp1 & Hl1).
    { lia. }
    { intros p q. unfold single. split.
      - destruct (key_eqb p a) eqn:E; [| congruence]. apply key_eqb_eq in E. subst p.
        intros _ H. apply (leaf_prefix_free a (TensorDict sbs sitems) q).
        + congruence.
        + apply Hsub. exact H.
      - intros H. destruct (key_eqb (p ++ q) a) eqn:E; [| congruence].
        apply key_eqb_eq in E. intros _.
        apply (leaf_prefix_free p (TensorDict sbs sitems) q).
        + apply Hsub. exact H.
        + rewrite E. congruence. }
    destruct (IH obs oitems1) as (oitems' & Hloop & Hp' & Hl').
    { intros a' Hin. apply HA. right. exact Hin. }
    { exact Hp1. }
    { intros p. rewrite Hl1. unfold single.
      destruct (key_eqb p a) eqn:E; cbn [orelse]; [| apply Hsub].
      apply key_eqb_eq in E. subst p. congruence. }
    exists oitems'. split; [| split; [exact Hp'|]].
    + cbn [foldM]. unfold _set_single_key at 1. rewrite Hrun. cbn [bind]. exact Hloop.
    + intros p. rewrite Hl', Hl1. cbn [key_in existsb]. fold (key_in p A).
      unfold single. destruct (key_in p A); [rewrite orb_true_r; reflexivity|].
      rewrite orb_false_r. destruct (key_eqb p a) eqn:E; [| reflexivity].
      apply key_eqb_eq in E. subst p. cbn [orelse]. symmetry. exact Ha.
Qed.

(** *** What [step_mdp] returns *)

(** The leaves [step_mdp] takes from the root. *)
Definition root_part (ko exa : bool) (A E : list NestedKey) (td : value)
    (p : NestedKey) : option tensor :=
  if ko then
    match p with
    | [] => None
    | k :: _ => if String.eqb k NEXT then None else kept_from E [] td p
    end
  else if negb exa then (if key_in p A then leaf_at td p else None)
  else None.

Lemma leaf_at_empty bs p : leaf_at (TensorDict bs []) p = None.
Proof. destruct p; reflexivity. Qed.

Lemma leaf_at_absent bs items k q :
  ~ In k (map fst items) -> leaf_at (TensorDict bs items) (k :: q) = None.
Proof.
  intros H. cbn [leaf_at]. apply assoc_None_keys in H. rewrite H. reflexivity.
Qed.

Lemma kept_from_absent E tk bs items k q :
  ~ In k (map fst items) -> kept_from E tk (TensorDict bs items) (k :: q) = None.
Proof.
  intros H. unfold kept_from. rewrite (leaf_at_absent _ _ _ _ H).
  destruct (excl E (tk ++ [k]) q); reflexivity.
Qed.

Lemma tight_NoDup bs items : tight (TensorDict bs items) = true -> NoDup (map fst items).
Proof.
  cbn. rewrite !andb_true_iff. intros [[_ H] _]. apply nodupb_NoDup. exact H.
Qed.

(** The loop of [step_mdp] and of the fallback over the keys of ["next"]. *)
Lemma next_phase E nbs nitems obs oitems1 (R : NestedKey -> option tensor) :
  tight (TensorDict nbs nitems) = true ->
  plain (TensorDict obs oitems1) = true ->
  (forall p, leaf_at (TensorDict obs oitems1) p = R p) ->
  compat (leaf_at (TensorDict nbs nitems)) R ->
  exists oitems,
    (ks <- keys (TensorDict nbs nitems) ;;
     foldM (fun out key =>
              '(_, out') <- _set (TensorDict nbs nitems) out key [] E ;; Ok out')
           ks (TensorDict obs oitems1))
      = Ok (TensorDict obs oitems)
    /\ plain (TensorDict obs oitems) = true
    /\ forall p, leaf_at (TensorDict obs oitems) p
                 = orelse (kept_from E [] (TensorDict nbs nitems) p) (R p).
Proof.
  intros Htight Hp1 HR Hcompat.
  destruct (set_keys_loop E nbs nitems (map fst nitems) obs oitems1 Htight
              (tight_NoDup _ _ Htight) (fun k H => H) Hp1)
    as (oitems & Hloop & Hp & Hleaf).
  { apply (compat_ext (leaf_at (TensorDict nbs nitems)) (leaf_at (TensorDict nbs nitems))
             R (leaf_at (TensorDict obs oitems1))); [reflexivity | | exact Hcompat].
    intros q. symmetry. apply HR. }
  exists oitems. split; [| split; [exact Hp|]].
  - rewrite keys_TensorDict. cbn [bind]. exact Hloop.
  - intros [ | k q ].
    + rewrite <- HR. reflexivity.
    + rewrite Hleaf, HR.
      destruct (existsb (String.eqb k) (map fst nitems)) eqn:Ein; [reflexivity|].
      rewrite kept_from_absent; [reflexivity|].
      intros Hin. apply existsb_eqb_In in Hin. congruence.
Qed.

(** The copy of the root and of ["next"] into the empty output, as [step_mdp]
    and the fallback of [__call__] do it. *)
Lemma generic_copy_spec ko exa A E bs items nbs nitems :
  tight (TensorDict bs items) = true ->
  tight (TensorDict nbs nitems) = true ->
  (forall a, In a A -> leaf_at (TensorDict bs items) a <> None) ->
  compat (leaf_at (TensorDict nbs nitems)) (root_part ko exa A E (TensorDict bs items)) ->
  exists oitems,
    generic_copy (TensorDict bs items) (TensorDict nbs nitems) (TensorDict nbs [])
      ko exa A E = Ok (TensorDict nbs oitems)
    /\ plain (TensorDict nbs oitems) = true
    /\ forall p, leaf_at (TensorDict nbs oitems) p
                 = orelse (kept_from E [] (TensorDict nbs nitems) p)
                          (root_part ko exa A E (TensorDict bs items) p).
Proof.
  intros Htd Hnext HA Hcompat.
  assert (Hfirst : exists oitems1,
            (if ko then
               ks <- keys (TensorDict bs items) ;;
               foldM (fun out key =>
                        if negb (String.eqb key NEXT)
                        then '(_, out') <- _set (TensorDict bs items) out key [] E ;; Ok out'
                        else Ok out) ks (TensorDict nbs [])
             else if negb exa then
               foldM (fun out action_key => _set_single_key (TensorDict bs items) out action_key)
                     A (TensorDict nbs [])
             else Ok (TensorDict nbs []))
              = Ok (TensorDict nbs oitems1)
            /\ plain (TensorDict nbs oitems1) = true
            /\ forall p, leaf_at (TensorDict nbs oitems1) p
                         = root_part ko exa A E (TensorDict bs items) p).
  { unfold root_part. destruct ko.
    - set (keep := fun key => negb (String.eqb key NEXT)).
      destruct (set_keys_loop E bs items (filter keep (map fst items)) nbs [] Htd)
        as (oitems1 & Hloop & Hp1 & Hleaf1).
      + apply NoDup_filter. exact (tight_NoDup _ _ Htd).
      + intros k Hin. apply filter_In in Hin. tauto.
      + reflexivity.
      + intros p q. rewrite !leaf_at_empty. split; congruence.
      + exists oitems1. split; [| split; [exact Hp1|]].
        * rewrite keys_TensorDict. cbn [bind]. rewrite <- Hloop.
          apply (foldM_filter keep
                   (fun out key =>
                      '(_, out') <- _set (TensorDict bs items) out key [] E ;; Ok out')).
        * intros [ | k q ]; [reflexivity|].
          rewrite Hleaf1, leaf_at_empty, orelse_None_r.
          destruct (String.eqb_spec k NEXT) as [-> | Hne].
          -- rewrite existsb_eqb_false; [reflexivity|].
             intros Hin. apply filter_In in Hin. destruct Hin as [_ Hk].
             unfold keep in Hk. rewrite String.eqb_refl in Hk. discriminate Hk.
          -- destruct (existsb (String.eqb k) (filter keep (map fst items))) eqn:Ein;
               [reflexivity|].
             rewrite kept_from_absent; [reflexivity|].
             intros Hin. assert (Hin' : In k (filter keep (map fst items))).
             { apply filter_In. split; [exact Hin|]. unfold keep.
               destruct (String.eqb_spec k NEXT); [contradiction | reflexivity]. }
             apply existsb_eqb_In in Hin'. congruence.
    - destruct exa; cbn [negb].
      + exists []. split; [reflexivity|]. split; [reflexivity|].
        intros p. apply leaf_at_empty.
      + destruct (ssk_loop bs items (tight_plain _ Htd) A nbs [] HA eq_refl)
          as (oitems1 & Hloop & Hp1 & Hleaf1).
        { intros p. rewrite leaf_at_empty. congruence. }
        exists oitems1. split; [exact Hloop|]. split; [exact Hp1|].
        intros p. rewrite Hleaf1, leaf_at_empty. reflexivity. }
  destruct Hfirst as (oitems1 & Hrun1 & Hp1 & Hleaf1).
  destruct (next_phase E nbs nitems nbs oitems1 _ Hnext Hp1 Hleaf1 Hcompat)
    as (oitems & Hrun & Hp & Hleaf).
  exists oitems. split; [| split; [exact Hp | exact Hleaf]].
  unfold generic_copy. rewrite Hrun1. cbn [bind]. exact Hrun.
Qed.

(** *** The key trees of the engine *)

(** The keys a tree stands for: the paths that end on [None]. *)
Fixpoint tree_mem (t : key_tree) (p : NestedKey) {struct p} : bool :=
  let 'KeyTree children := t in
  match p with
  | [] => false
  | k :: q =>
      match tree_assoc k children with
      | None => false
      | Some None => match q with [] => true | _ :: _ => false end
      | Some (Some sub) => tree_mem sub q
      end
  end.

(** A tree as the construction leaves it: no name twice at a level and no
    empty sub-dictionary. *)
Inductive tree_ok : key_tree -> Prop :=
| tree_ok_intro children :
    NoDup (map fst children) ->
    (forall k sub, In (k, Some sub) children -> sub <> KeyTree [] /\ tree_ok sub) ->
    tree_ok (KeyTree children).

Lemma key_tree_ind2 (P : key_tree -> Prop) :
  P (KeyTree []) ->
  (forall k ch, P (KeyTree ch) -> P (KeyTree ((k, None) :: ch))) ->
  (forall k sub ch, P sub -> P (KeyTree ch) -> P (KeyTree ((k, Some sub) :: ch))) ->
  forall t, P t.
Proof.
  intros H0 H1 H2. fix IH 1. intros [ch].
  induction ch as [ | [k [sub|]] ch IHch ].
  - exact H0.
  - apply H2; [apply IH | exact IHch].
  - apply H1. exact IHch.
Qed.

Lemma tree_assoc_set_same k v l : tree_assoc k (tree_assoc_set k v l) = Some v.
Proof.
  induction l as [ | [k' v'] l IH ]; cbn.
  - rewrite String.eqb_refl. reflexivity.
  - destruct (String.eqb k k') eqn:E; cbn.
    + rewrite String.eqb_refl. reflexivity.
    + rewrite E. exact IH.
Qed.

Lemma tree_assoc_set_other k k' v l :
  k' <> k -> tree_assoc k' (tree_assoc_set k v l) = tree_assoc k' l.
Proof.
  intros Hne. induction l as [ | [k0 v0] l IH ]; cbn.
  - destruct (String.eqb_spec k' k); [contradiction | reflexivity].
  - destruct (String.eqb_spec k k0) as [-> | Hk]; cbn.
    + destruct (String.eqb_spec k' k0); [contradiction | reflexivity].
    + destruct (String.eqb k' k0); [reflexivity | exact IH].
Qed.

Lemma tree_assoc_In k v l : tree_assoc k l = Some v -> In (k, v) l.
Proof.
  induction l as [ | [k' v'] l IH ]; cbn; [discriminate|].
  destruct (String.eqb_spec k k') as [-> | Hk]; intros H.
  - inversion H. left. reflexivity.
  - right. apply IH. exact H.
Qed.

Lemma tree_assoc_set_In k v l x :
  In x (tree_assoc_set k v l) -> x = (k, v) \/ In x l.
Proof.
  induction l as [ | [k' v'] l IH ]; cbn.
  - intros [<- | []]. left. reflexivity.
  - destruct (String.eqb k k'); cbn.
    + intros [<- | H]; [left; reflexivity | right; right; exact H].
    + intros [<- | H]; [right; left; reflexivity|].
      destruct (IH H) as [-> | H']; [left; reflexivity | right; right; exact H'].
Qed.

Lemma tree_keys_assoc_set k v l :
  map fst (tree_assoc_set k v l)
    = if existsb (String.eqb k) (map fst l) then map fst l else map fst l ++ [k].
Proof.
  induction l as [ | [k' v'] l IH ]; cbn; [reflexivity|].
  destruct (String.eqb_spec k k') as [-> | Hk]; cbn; [reflexivity|].
  rewrite IH. destruct (existsb (String.eqb k) (map fst l)); reflexivity.
Qed.

Lemma tree_NoDup_assoc_set k v l :
  NoDup (map fst l) -> NoDup (map fst (tree_assoc_set k v l)).
Proof.
  rewrite tree_keys_assoc_set. intros H.
  destruct (existsb (String.eqb k) (map fst l)) eqn:E; [exact H|].
  apply NoDup_app; [ exact H | repeat constructor; intros [] | ].
  intros x Hin [<- | []].
  apply existsb_eqb_In in Hin. congruence.
Qed.

Lemma tree_ok_assoc_set k v ch :
  tree_ok (KeyTree ch) ->
  match v with None => True | Some sub => sub <> KeyTree [] /\ tree_ok sub end ->
  tree_ok (KeyTree (tree_assoc_set k v ch)).
Proof.
  intros Hok Hv. inversion Hok as [? Hnd Hsub]; subst.
  constructor; [apply tree_NoDup_assoc_set; exact Hnd|].
  intros k' sub Hin. apply tree_assoc_set_In in Hin. destruct Hin as [E | Hin].
  - inversion E; subst. exact Hv.
  - exact (Hsub k' sub Hin).
Qed.

Lemma tree_ok_sub k sub ch :
  tree_ok (KeyTree ch) -> tree_assoc k ch = Some (Some sub) ->
  sub <> KeyTree [] /\ tree_ok sub.
Proof.
  intros Hok Ha. inversion Hok as [? _ Hsub]; subst.
  exact (Hsub k sub (tree_assoc_In _ _ _ Ha)).
Qed.

Lemma tree_has_mem : forall t,
  tree_ok t -> t <> KeyTree [] -> exists p, tree_mem t p = true.
Proof.
  induction t as [ | k ch IHch | k sub ch IHsub IHch ] using key_tree_ind2;
    intros Hok Hne.
  - congruence.
  - exists [k]. cbn. rewrite String.eqb_refl. reflexivity.
  - inversion Hok as [? _ Hsub]; subst.
    destruct (Hsub k sub (or_introl eq_refl)) as [Hn Hs].
    destruct (IHsub Hs Hn) as [q Hq]. exists (k :: q).
    cbn. rewrite String.eqb_refl. exact Hq.
Qed.

Lemma tree_mem_nil t : tree_mem t [] = false.
Proof. destruct t. reflexivity. Qed.

Lemma tree_insert_spec : forall p t,
  p <> [] -> tree_ok t ->
  (forall q, tree_mem t q = true -> prefixb p q = true \/ prefixb q p = true -> q = p) ->
  exists t',
    tree_insert p t = Ok t' /\ tree_ok t' /\ t' <> KeyTree []
    /\ forall q, tree_mem t' q = key_eqb q p || tree_mem t q.
Proof.
  induction p as [ | k rest IH ]; intros [ch] Hne Hok Hfree; [congruence|].
  destruct rest as [ | k2 rest' ].
  - exists (KeyTree (tree_assoc_set k None ch)).
    split; [reflexivity|]. split; [apply tree_ok_assoc_set; [exact Hok | exact I]|].
    split.
    { intros E. inversion E as [E']. destruct ch as [ | [k0 v0] ch ]; cbn in E'.
      - discriminate E'.
      - destruct (String.eqb k k0); discriminate E'. }
    intros [ | k' q ]; [reflexivity|].
    rewrite key_eqb_cons. cbn [tree_mem].
    destruct (String.eqb_spec k' k) as [-> | Hk]; cbn [andb orb].
    + rewrite tree_assoc_set_same.
      destruct (tree_assoc k ch) as [[sub|]|] eqn:Ha.
      * exfalso. destruct (tree_ok_sub _ _ _ Hok Ha) as [Hn Hs].
        destruct (tree_has_mem sub Hs Hn) as [q0 Hq0].
        assert (E : k :: q0 = [k]).
        { apply Hfree.
          - cbn [tree_mem]. rewrite Ha. exact Hq0.
          - left. cbn. rewrite String.eqb_refl. reflexivity. }
        inversion E; subst. rewrite tree_mem_nil in Hq0. discriminate Hq0.
      * destruct q; reflexivity.
      * destruct q; reflexivity.
    + rewrite tree_assoc_set_other by exact Hk. reflexivity.
  - assert (Hstep : forall sub,
              tree_ok sub ->
              (forall q, tree_mem sub q = true ->
                         tree_mem (KeyTree ch) (k :: q) = true) ->
              (forall q, tree_mem (KeyTree ch) (k :: q) = tree_mem sub q) ->
              exists sub',
                tree_insert (k2 :: rest') sub = Ok sub'
                /\ tree_ok (KeyTree (tree_assoc_set k (Some sub') ch))
                /\ forall q, tree_mem (KeyTree (tree_assoc_set k (Some sub') ch)) q
                             = key_eqb q (k :: k2 :: rest') || tree_mem (KeyTree ch) q).
    { intros sub Hs Hin Heq.
      destruct (IH sub) as (sub' & Hrun & Hok' & Hne' & Hmem'); [discriminate | exact Hs | |].
      - intros q Hq Hpre. f_equal.
        assert (E : k :: q = k :: k2 :: rest').
        { apply Hfree; [apply Hin; exact Hq|].
          destruct Hpre as [Hpre | Hpre]; [left | right];
            cbn [prefixb]; rewrite String.eqb_refl; exact Hpre. }
        inversion E. reflexivity.
      - exists sub'. split; [exact Hrun|].
        split; [apply tree_ok_assoc_set; [exact Hok | split; assumption]|].
        intros [ | k' q ]; [reflexivity|].
        rewrite key_eqb_cons. cbn [tree_mem].
        destruct (String.eqb_spec k' k) as [-> | Hk]; cbn [andb orb].
        + rewrite tree_assoc_set_same, Hmem'.
          f_equal. symmetry. exact (Heq q).
        + rewrite tree_assoc_set_other by exact Hk. reflexivity. }
    assert (Hnonempty : forall sub', KeyTree (tree_assoc_set k (Some sub') ch) <> KeyTree []).
    { intros sub' E. inversion E as [E']. destruct ch as [ | [k0 v0] ch ]; cbn in E'.
      - discriminate E'.
      - destruct (String.eqb k k0); discriminate E'. }
    change (tree_insert (k :: k2 :: rest') (KeyTree ch))
      with (match tree_assoc k ch with
            | None =>
                sub <- tree_insert (k2 :: rest') (KeyTree []) ;;
                Ok (KeyTree (tree_assoc_set k (Some sub) ch))
            | Some (Some sub) =>
                sub' <- tree_insert (k2 :: rest') sub ;;
                Ok (KeyTree (tree_assoc_set k (Some sub') ch))
            | Some None => raise AttributeError "_set_tuple"
            end).
    destruct (tree_assoc k ch) as [[sub|]|] eqn:Ha.
    + destruct (tree_ok_sub _ _ _ Hok Ha) as [Hn Hs].
      destruct (Hstep sub Hs) as (sub' & Hrun & Hok' & Hmem').
      { intros q Hq. cbn [tree_mem]. rewrite Ha. exact Hq. }
      { intros q. cbn [tree_mem]. rewrite Ha. reflexivity. }
      rewrite Hrun. cbn [bind].
      exists (KeyTree (tree_assoc_set k (Some sub') ch)).
      split; [reflexivity|]. split; [exact Hok'|]. split; [apply Hnonempty | exact Hmem'].
    + exfalso. assert (E : [k] = k :: k2 :: rest').
      { apply Hfree.
        - cbn [tree_mem]. rewrite Ha. reflexivity.
        - right. cbn. rewrite String.eqb_refl. reflexivity. }
      discriminate E.
    + destruct (Hstep (KeyTree [])) as (sub' & Hrun & Hok' & Hmem').
      { constructor; [constructor | intros ? ? []]. }
      { intros q Hq. destruct q; cbn in Hq; discriminate Hq. }
      { intros q. cbn [tree_mem]. rewrite Ha. destruct q; reflexivity. }
      rewrite Hrun. cbn [bind].
      exists (KeyTree (tree_assoc_set k (Some sub') ch)).
      split; [reflexivity|]. split; [exact Hok'|]. split; [apply Hnonempty | exact Hmem'].
Qed.

(** No key of the list is empty or a strict prefix of another one. *)
Definition prefix_free (L : list NestedKey) : Prop :=
  (forall p, In p L -> p <> [])
  /\ forall p q, In p L -> In q L -> prefixb p q = true -> p = q.

Lemma key_in_app k l1 l2 : key_in k (l1 ++ l2) = key_in k l1 || key_in k l2.
Proof. unfold key_in. apply existsb_app. Qed.

Lemma repr_loop : forall l t0 l0,
  tree_ok t0 -> (forall q, tree_mem t0 q = key_in q l0) -> prefix_free (l0 ++ l) ->
  exists t,
    foldM (fun t key => tree_insert key t) l t0 = Ok t
    /\ tree_ok t /\ forall q, tree_mem t q = key_in q (l0 ++ l).
Proof.
  induction l as [ | p l IH ]; intros t0 l0 Hok Hmem Hfree.
  - exists t0. rewrite app_nil_r. split; [reflexivity|]. split; assumption.
  - destruct Hfree as [Hne Hpre].
    destruct (tree_insert_spec p t0) as (t1 & Hrun & Hok1 & _ & Hmem1).
    + apply Hne. apply in_or_app. right. left. reflexivity.
    + exact Hok.
    + intros q Hq Hcmp. rewrite Hmem in Hq. apply key_in_In in Hq.
      assert (Hq' : In q (l0 ++ p :: l)) by (apply in_or_app; left; exact Hq).
      assert (Hp' : In p (l0 ++ p :: l)) by (apply in_or_app; right; left; reflexivity).
      destruct Hcmp as [Hc | Hc].
      * symmetry. exact (Hpre p q Hp' Hq' Hc).
      * exact (Hpre q p Hq' Hp' Hc).
    + destruct (IH t1 (l0 ++ [p])) as (t & Hloop & Hokt & Hmemt).
      * exact Hok1.
      * intros q. rewrite Hmem1, key_in_app, Hmem. cbn. rewrite orb_false_r.
        apply orb_comm.
      * rewrite <- app_assoc. split; assumption.
      * exists t. split; [| split; [exact Hokt|]].
        -- cbn [foldM]. rewrite Hrun. cbn [bind]. exact Hloop.
        -- intros q. rewrite Hmemt, <- app_assoc. reflexivity.
Qed.

Lemma repr_spec l :
  prefix_free l ->
  exists t, _repr_key_list_as_tree l = Ok t
            /\ tree_ok t /\ forall q, tree_mem t q = key_in q l.
Proof.
  intros Hfree. apply (repr_loop l (KeyTree []) []).
  - constructor; [constructor | intros ? ? []].
  - intros [ | k q ]; reflexivity.
  - exact Hfree.
Qed.

(** *** What [_grab_and_place] copies *)

(** The leaves a tree selects in a batch. *)
Definition tleaf (t : key_tree) (data_in : value) (p : NestedKey) : option tensor :=
  if tree_mem t p then leaf_at data_in p else None.

Definition grab_spec (t : key_tree) : Prop :=
  tree_ok t ->
  forall ibs iitems obs oitems,
    plain (TensorDict ibs iitems) = true ->
    plain (TensorDict obs oitems) = true ->
    (forall p, tree_mem t p = true -> leaf_at (TensorDict ibs iitems) p <> None) ->
    compat (tleaf t (TensorDict ibs iitems)) (leaf_at (TensorDict obs oitems)) ->
    exists oitems',
      _grab_and_place t (TensorDict ibs iitems) (TensorDict obs oitems)
        = Ok (TensorDict obs oitems')
      /\ plain (TensorDict obs oitems') = true
      /\ forall p, leaf_at (TensorDict obs oitems') p
                   = if tree_mem t p then leaf_at (TensorDict ibs iitems) p
                     else leaf_at (TensorDict obs oitems) p.

Lemma grab_cons key subdict ch data_in data_out :
  _grab_and_place (KeyTree ((key, subdict) :: ch)) data_in data_out
    = (val <- _get_str data_in key NO_DEFAULT ;;
       val <- match subdict with
              | None => Ok val
              | Some sub =>
                  val_out <- _get_str data_out key DefaultNone ;;
                  val_out <- (if is_None val_out then empty val else Ok val_out) ;;
                  match val with
                  | LazyStackedTensorDict sd _ =>
                      vals <- unbind val sd ;;
                      sd_out <- stack_dim_of val_out ;;
                      val_outs <- unbind val_out sd_out ;;
                      rs <- mapM (fun p : value * value =>
                                    _grab_and_place sub (fst p) (snd p))
                                 (zip vals val_outs) ;;
                      Ok (LazyStackedTensorDict sd rs)
                  | _ => _grab_and_place sub val val_out
                  end
              end ;;
       data_out <- _set_str data_out key val ;;
       _grab_and_place (KeyTree ch) data_in data_out).
Proof. reflexivity. Qed.

Lemma tree_mem_cons k o ch k' q :
  tree_mem (KeyTree ((k, o) :: ch)) (k' :: q)
    = if String.eqb k' k
      then match o with
           | None => match q with [] => true | _ :: _ => false end
           | Some sub => tree_mem sub q
           end
      else tree_mem (KeyTree ch) (k' :: q).
Proof. cbn. destruct (String.eqb k' k); reflexivity. Qed.

Lemma tree_mem_keys ch k q : tree_mem (KeyTree ch) (k :: q) = true -> In k (map fst ch).
Proof.
  cbn. destruct (tree_assoc k ch) as [o|] eqn:E; [| discriminate].
  intros _. apply tree_assoc_In in E. apply (in_map fst) in E. exact E.
Qed.

Lemma tree_ok_tail k o ch :
  tree_ok (KeyTree ((k, o) :: ch)) -> tree_ok (KeyTree ch) /\ ~ In k (map fst ch).
Proof.
  intros H. inversion H as [? Hnd Hsub]; subst. cbn in Hnd. inversion Hnd; subst.
  split; [| assumption].
  constructor; [assumption|]. intros k' sub Hin. apply (Hsub k' sub). right. exact Hin.
Qed.

(** After the first entry of a tree is placed, the rest of the loop. *)
Lemma grab_tail k o ch ibs iitems obs oitems oitems1 :
  grab_spec (KeyTree ch) ->
  tree_ok (KeyTree ((k, o) :: ch)) ->
  plain (TensorDict ibs iitems) = true ->
  (forall p, tree_mem (KeyTree ((k, o) :: ch)) p = true ->
             leaf_at (TensorDict ibs iitems) p <> None) ->
  compat (tleaf (KeyTree ((k, o) :: ch)) (TensorDict ibs iitems))
         (leaf_at (TensorDict obs oitems)) ->
  plain (TensorDict obs oitems1) = true ->
  (forall k' q,
     leaf_at (TensorDict obs oitems1) (k' :: q)
       = if String.eqb k' k
         then (if tree_mem (KeyTree ((k, o) :: ch)) (k :: q)
               then leaf_at (TensorDict ibs iitems) (k :: q)
               else leaf_at (TensorDict obs oitems) (k :: q))
         else leaf_at (TensorDict obs oitems) (k' :: q)) ->
  exists oitems',
    _grab_and_place (KeyTree ch) (TensorDict ibs iitems) (TensorDict obs oitems1)
      = Ok (TensorDict obs oitems')
    /\ plain (TensorDict obs oitems') = true
    /\ forall p, leaf_at (TensorDict obs oitems') p
                 = if tree_mem (KeyTree ((k, o) :: ch)) p
                   then leaf_at (TensorDict ibs iitems) p
                   else leaf_at (TensorDict obs oitems) p.
Proof.
  intros IHch Hok Hpi Hin Hcompat Hp1 Hleaf1.
  destruct (tree_ok_tail _ _ _ Hok) as [Hokch Hnotin].
  assert (Hother : forall k' q, tree_mem (KeyTree ch) (k' :: q) = true ->
            k' <> k
            /\ tree_mem (KeyTree ((k, o) :: ch)) (k' :: q) = true).
  { intros k' q Hm. assert (Hk : k' <> k).
    { intros ->. apply Hnotin. exact (tree_mem_keys _ _ _ Hm). }
    split; [exact Hk|]. rewrite tree_mem_cons.
    destruct (String.eqb_spec k' k); [contradiction | exact Hm]. }
  destruct (IHch Hokch ibs iitems obs oitems1 Hpi Hp1) as (oitems' & Hrun & Hp' & Hleaf').
  - intros [ | k' q ] Hm; [cbn in Hm; discriminate Hm|].
    apply Hin. apply Hother. exact Hm.
  - intros p q. unfold tleaf. split.
    + destruct p as [ | k' p ]; [cbn; congruence|].
      destruct (tree_mem (KeyTree ch) (k' :: p)) eqn:Hm; [| congruence].
      destruct (Hother _ _ Hm) as [Hk Hm'].
      intros H1 H2. cbn [app] in H2. rewrite Hleaf1 in H2.
      destruct (String.eqb_spec k' k) as [ | _]; [contradiction|].
      destruct (Hcompat (k' :: p) q) as [Hc _]. apply Hc.
      * unfold tleaf. rewrite Hm'. exact H1.
      * exact H2.
    + destruct p as [ | k' p ]; [cbn; congruence|].
      cbn [app]. destruct (tree_mem (KeyTree ch) (k' :: p ++ q)) eqn:Hm; [| congruence].
      destruct (Hother _ _ Hm) as [Hk Hm'].
      intros H1 H2. rewrite Hleaf1 in H1.
      destruct (String.eqb_spec k' k) as [ | _]; [contradiction|].
      destruct (Hcompat (k' :: p) q) as [_ Hc]. apply Hc.
      * exact H1.
      * unfold tleaf. cbn [app]. rewrite Hm'. exact H2.
  - exists oitems'. split; [exact Hrun|]. split; [exact Hp'|].
    intros [ | k' q ].
    + rewrite Hleaf'. reflexivity.
    + rewrite Hleaf', Hleaf1. rewrite (tree_mem_cons k o ch k' q).
      destruct (String.eqb_spec k' k) as [-> | Hk].
      * assert (Hm : tree_mem (KeyTree ch) (k :: q) = false).
        { destruct (tree_mem (KeyTree ch) (k :: q)) eqn:Hm; [| reflexivity].
          exfalso. apply Hnotin. exact (tree_mem_keys _ _ _ Hm). }
        rewrite Hm, tree_mem_cons, String.eqb_refl. reflexivity.
      * destruct (tree_mem (KeyTree ch) (k' :: q)); reflexivity.
Qed.

Lemma grab_ok : forall t, grab_spec t.
Proof.
  induction t as [ | k ch IHch | k sub ch IHsub IHch ] using key_tree_ind2;
    intros Hok ibs iitems obs oitems Hpi Hpo Hin Hcompat.
  - exists oitems. split; [reflexivity|]. split; [exact Hpo|].
    intros [ | k q ]; reflexivity.
  - assert (Hm : tree_mem (KeyTree ((k, None) :: ch)) [k] = true).
    { rewrite tree_mem_cons, String.eqb_refl. reflexivity. }
    pose proof (Hin [k] Hm) as Hk. cbn [leaf_at] in Hk.
    destruct (assoc k iitems) as [val|] eqn:Hval; [| congruence].
    destruct val as [ | tv | vbs vitems | sd tds ]; try congruence.
    rewrite grab_cons, (plain_get_str _ _ _ _ Hpi), Hval. cbn [bind _set_str].
    apply (grab_tail k None ch ibs iitems obs oitems (assoc_set k (Tensor tv) oitems)
             IHch Hok Hpi Hin Hcompat).
    + apply plain_assoc_set; [exact Hpo | reflexivity].
    + intros k' q. rewrite leaf_at_assoc_set.
      destruct (String.eqb_spec k' k) as [-> | _]; [| reflexivity].
      rewrite tree_mem_cons, String.eqb_refl.
      destruct q as [ | k3 q ].
      * cbn [leaf_at]. rewrite Hval. reflexivity.
      * change (leaf_at (Tensor tv) (k3 :: q)) with (@None tensor).
        destruct (leaf_at (TensorDict obs oitems) (k :: k3 :: q)) eqn:El; [| reflexivity].
        exfalso. destruct (Hcompat [k] (k3 :: q)) as [H1 _].
        assert (H0 : k3 :: q = []).
        { apply H1.
          - unfold tleaf. rewrite Hm. cbn [leaf_at]. rewrite Hval. congruence.
          - cbn [app]. rewrite El. congruence. }
        discriminate H0.
  - inversion Hok as [? _ Hsubs]; subst.
    destruct (Hsubs k sub (or_introl eq_refl)) as [Hn Hs].
    destruct (tree_has_mem sub Hs Hn) as [q0 Hq0].
    assert (Hmem : forall q, tree_mem (KeyTree ((k, Some sub) :: ch)) (k :: q)
                             = tree_mem sub q).
    { intros q. rewrite tree_mem_cons, String.eqb_refl. reflexivity. }
    assert (Hk : leaf_at (TensorDict ibs iitems) (k :: q0) <> None).
    { apply Hin. rewrite Hmem. exact Hq0. }
    cbn [leaf_at] in Hk.
    destruct (assoc k iitems) as [val|] eqn:Hval; [| congruence].
    pose proof (plain_assoc _ _ _ _ Hpi Hval) as Hpv.
    assert (Hlv : forall q, leaf_at (TensorDict ibs iitems) (k :: q) = leaf_at val q).
    { intros q. cbn [leaf_at]. rewrite Hval. reflexivity. }
    destruct val as [ | tv | vbs vitems | sd tds ]; try (cbn in Hpv; congruence).
    { destruct q0; [rewrite tree_mem_nil in Hq0; discriminate Hq0 | cbn in Hk; congruence]. }
    assert (Hsubrun : forall ybs yitems,
              plain (TensorDict ybs yitems) = true ->
              (forall q, leaf_at (TensorDict ybs yitems) q
                         = leaf_at (TensorDict obs oitems) (k :: q)) ->
              exists yitems',
                _grab_and_place sub (TensorDict vbs vitems) (TensorDict ybs yitems)
                  = Ok (TensorDict ybs yitems')
                /\ plain (TensorDict ybs yitems') = true
                /\ forall q, leaf_at (TensorDict ybs yitems') q
                             = if tree_mem sub q then leaf_at (TensorDict vbs vitems) q
                               else leaf_at (TensorDict obs oitems) (k :: q)).
    { intros ybs yitems Hpy Hyq.
      destruct (IHsub Hs vbs vitems ybs yitems Hpv Hpy) as (yitems' & Hrun & Hp' & Hl').
      - intros q Hq. rewrite <- Hlv. apply Hin. rewrite Hmem. exact Hq.
      - apply (compat_ext
                 (fun q => tleaf (KeyTree ((k, Some sub) :: ch)) (TensorDict ibs iitems) (k :: q))
                 (tleaf sub (TensorDict vbs vitems))
                 (fun q => leaf_at (TensorDict obs oitems) (k :: q))
                 (leaf_at (TensorDict ybs yitems))).
        + intros q. unfold tleaf. rewrite Hmem, Hlv. reflexivity.
        + intros q. symmetry. apply Hyq.
        + exact (compat_shift _ _ k Hcompat).
      - exists yitems'. split; [exact Hrun|]. split; [exact Hp'|].
        intros q. rewrite Hl', Hyq. reflexivity. }
    rewrite grab_cons, (plain_get_str _ _ _ _ Hpi), Hval. cbn [bind].
    rewrite (plain_get_str _ _ _ _ Hpo).
    assert (Hfinish : forall ybs yitems',
              plain (TensorDict ybs yitems') = true ->
              (forall q, leaf_at (TensorDict ybs yitems') q
                         = if tree_mem sub q then leaf_at (TensorDict vbs vitems) q
                           else leaf_at (TensorDict obs oitems) (k :: q)) ->
              exists oitems',
                _grab_and_place (KeyTree ch) (TensorDict ibs iitems)
                  (TensorDict obs (assoc_set k (TensorDict ybs yitems') oitems))
                  = Ok (TensorDict obs oitems')
                /\ plain (TensorDict obs oitems') = true
                /\ forall p, leaf_at (TensorDict obs oitems') p
                             = if tree_mem (KeyTree ((k, Some sub) :: ch)) p
                               then leaf_at (TensorDict ibs iitems) p
                               else leaf_at (TensorDict obs oitems) p).
    { intros ybs yitems' Hp' Hl'.
      apply (grab_tail k (Some sub) ch ibs iitems obs oitems
               (assoc_set k (TensorDict ybs yitems') oitems) IHch Hok Hpi Hin Hcompat).
      - apply plain_assoc_set; assumption.
      - intros k' q. rewrite leaf_at_assoc_set.
        destruct (String.eqb_spec k' k) as [-> | _]; [| reflexivity].
        rewrite Hl', Hmem, Hlv. reflexivity. }
    destruct (assoc k oitems) as [y|] eqn:Hy.
    + pose proof (plain_assoc _ _ _ _ Hpo Hy) as Hpy.
      destruct y as [ | ty | ybs yitems | ysd ytds ]; try (cbn in Hpy; congruence).
      * exfalso. destruct (Hcompat [k] q0) as [_ H2].
        assert (H0 : q0 = []).
        { apply H2.
          - cbn [leaf_at]. rewrite Hy. cbn. congruence.
          - unfold tleaf. cbn [app]. rewrite Hmem, Hq0, Hlv. exact Hk. }
        subst q0. rewrite tree_mem_nil in Hq0. discriminate Hq0.
      * destruct (Hsubrun ybs yitems Hpy) as (yitems' & Hrun & Hp' & Hl').
        { intros q. cbn [leaf_at]. rewrite Hy. reflexivity. }
        cbn [bind is_None]. rewrite Hrun. cbn [bind _set_str].
        exact (Hfinish ybs yitems' Hp' Hl').
    + destruct (Hsubrun vbs [] eq_refl) as (yitems' & Hrun & Hp' & Hl').
      { intros q. cbn [leaf_at]. rewrite Hy. destruct q; reflexivity. }
      cbn [bind is_None default_get empty]. rewrite Hrun. cbn [bind _set_str].
      exact (Hfinish vbs yitems' Hp' Hl').
Qed.

(** *** The key set of a plain batch *)




(** *** Well-formed declarations and validated batches *)

(** No key of the list is empty or starts with ["next"]. *)
Definition no_next (L : list NestedKey) : bool :=
  forallb (fun p => match p with
                    | [] => false
                    | k :: _ => negb (String.eqb k NEXT)
                    end) L.

(** No key of one list is a prefix of (or equal to) a key of the other. *)
Definition apart (L1 L2 : list NestedKey) : bool :=
  forallb (fun p => forallb (fun q => negb (prefixb p q) && negb (prefixb q p)) L2) L1.

(** Well-formed declarations: the action, done and reward keys are apart
    from each other and from the observation and state keys, and no declared
    key is empty or starts with ["next"]. *)
Definition wf_keys (A D R O S : list NestedKey) : bool :=
  no_next (S ++ A ++ D ++ O ++ R)
  && apart A D && apart A R && apart D R
  && apart A (O ++ S) && apart D (O ++ S) && apart R (O ++ S).


Lemma prefixb_refl p : prefixb p p = true.
Proof. induction p as [ | k p IH ]; cbn; [reflexivity|]. rewrite String.eqb_refl. exact IH. Qed.





Section FastPath.
Variables (A D R O S : list NestedKey) (ko exr exd exa : bool).
Variables (bs : list nat) (items : list (string * value)).
Variables (nbs : list nat) (nitems : list (string * value)).
Hypothesis Htight : tight (TensorDict bs items) = true.
Hypothesis Hnext : assoc NEXT items = Some (TensorDict nbs nitems).
Hypothesis Hwf : wf_keys A D R O S = true.
Hypothesis Hvalid :
  set_eqb (S ++ A ++ D ++ O
             ++ map (cons NEXT) O ++ map (cons NEXT) D ++ map (cons NEXT) R)
          (leaf_keys (TensorDict bs items)) = true.

























End FastPath.






(** An environment with one action, done, reward and state key and a nested
    observation key, its engine at the default configuration, a batch with
    exactly the declared keys and the same batch with one more key. *)
Definition transition_env : env :=
  mkEnv [["action"]] [["done"]] [["reward"]] [["agent"; "obs"]] [["hidden"]].

Definition transition_engine : _StepMDP :=
  mk_StepMDP [["action"]] [["done"]] [["reward"]] [["agent"; "obs"]] [["hidden"]]
    [["reward"]; ["action"]] true true
    (KeyTree [("hidden", None)])
    (KeyTree [("agent", Some (KeyTree [("obs", None)])); ("done", None)])
    None.

Definition declared_items : list (string * value) :=
  [("hidden", Tensor f0); ("action", Tensor f0); ("done", Tensor bFalse);
   ("agent", TensorDict [] [("obs", Tensor f0)]);
   ("next", TensorDict [] [("agent", TensorDict [] [("obs", Tensor f1)]);
                           ("done", Tensor bFalse); ("reward", Tensor f0)])].

Definition next_example : value :=
  TensorDict [] [("agent", TensorDict [] [("obs", Tensor f1)]);
                 ("done", Tensor bFalse); ("reward", Tensor f0)].


(* ====================================================================== *)
(** * Further properties *)
(* ====================================================================== *)

(** ** Agent grouping: what [check_marl_grouping] accepts *)

(** *** Dicts *)

Lemma dict_get_set_same {V} k (v : V) d : dict_get k (dict_set k v d) = Some v.
Proof.
  induction d as [ | [k' v'] d IH ]; cbn.
  - rewrite String.eqb_refl. reflexivity.
  - destruct (String.eqb k k') eqn:E; cbn.
    + rewrite String.eqb_refl. reflexivity.
    + rewrite E. exact IH.
Qed.

Lemma dict_get_set_other {V} k k' (v : V) d :
  k' <> k -> dict_get k' (dict_set k v d) = dict_get k' d.
Proof.
  intros Hne. induction d as [ | [k0 v0] d IH ]; cbn.
  - destruct (String.eqb_spec k' k); [contradiction | reflexivity].
  - destruct (String.eqb_spec k k0) as [-> | Hk]; cbn.
    + destruct (String.eqb_spec k' k0); [contradiction | reflexivity].
    + destruct (String.eqb k' k0); [reflexivity | exact IH].
Qed.

Lemma dict_get_In {V} k (v : V) d : dict_get k d = Some v -> In (k, v) d.
Proof.
  induction d as [ | [k' v'] d IH ]; cbn; [discriminate|].
  destruct (String.eqb_spec k k') as [-> | Hk]; intros H.
  - inversion H. left. reflexivity.
  - right. apply IH. exact H.
Qed.

Lemma dict_get_None {V} k (d : list (string * V)) :
  dict_get k d = None <-> ~ In k (map fst d).
Proof.
  induction d as [ | [k' v'] d IH ]; cbn.
  - split; [intros _ [] | reflexivity].
  - destruct (String.eqb_spec k k') as [-> | Hk].
    + split; [discriminate | intros H; exfalso; apply H; left; reflexivity].
    + rewrite IH. split.
      * intros H [E | Hin]; [congruence | contradiction].
      * intros H Hin. apply H. right. exact Hin.
Qed.

Lemma In_dict_get {V} k (v : V) d :
  NoDup (map fst d) -> In (k, v) d -> dict_get k d = Some v.
Proof.
  induction d as [ | [k' v'] d IH ]; cbn; intros Hnd Hin; [destruct Hin|].
  inversion Hnd; subst.
  destruct Hin as [E | Hin].
  - inversion E; subst. rewrite String.eqb_refl. reflexivity.
  - destruct (String.eqb_spec k k') as [-> | Hk].
    + exfalso. apply H1. apply (in_map fst) in Hin. exact Hin.
    + apply IH; assumption.
Qed.

Lemma dict_keys_set_present {V} k (v : V) d :
  In k (map fst d) -> map fst (dict_set k v d) = map fst d.
Proof.
  induction d as [ | [k' v'] d IH ]; cbn; [intros []|].
  destruct (String.eqb_spec k k') as [-> | Hk]; cbn; [reflexivity|].
  intros [E | Hin]; [congruence|]. rewrite IH by exact Hin. reflexivity.
Qed.

Lemma dict_set_absent {V} k (v : V) d :
  ~ In k (map fst d) -> dict_set k v d = d ++ [(k, v)].
Proof.
  induction d as [ | [k' v'] d IH ]; cbn; [reflexivity|].
  intros H. destruct (String.eqb_spec k k') as [-> | Hk].
  - exfalso. apply H. left. reflexivity.
  - rewrite IH; [reflexivity|]. intros Hin. apply H. right. exact Hin.
Qed.

(** A comprehension over names that are all different lists them in order. *)
Lemma dict_of_NoDup {V} (val : string -> V) l :
  NoDup l -> dict_of (fun a => a) val l = map (fun a => (a, val a)) l.
Proof.
  unfold dict_of.
  assert (H : forall l d, NoDup (map fst d ++ l) ->
            fold_left (fun d x => dict_set x (val x) d) l d
              = d ++ map (fun a => (a, val a)) l).
  { clear l. induction l as [ | a l IH ]; intros d Hnd; cbn.
    - rewrite app_nil_r. reflexivity.
    - rewrite dict_set_absent.
      + rewrite IH.
        * rewrite <- app_assoc. reflexivity.
        * rewrite map_app. cbn. rewrite <- app_assoc. exact Hnd.
      + intros Hin. apply NoDup_remove_2 in Hnd. apply Hnd.
        apply in_or_app. left. exact Hin. }
  intros Hnd. apply (H l []). exact Hnd.
Qed.

(** *** The check accepts exactly the partitions of the agents *)

(** The table [found_agents] after the agents [seen] were met. *)
Definition marked (agent_names : list string) (found_agents : list (string * bool))
    (seen : list string) : Prop :=
  map fst found_agents = agent_names
  /\ forall a, In a agent_names ->
       dict_get a found_agents = Some (existsb (String.eqb a) seen).

(** What a group must be for the inner loop to go through. *)
Definition fresh_group (agent_names seen group : list string) : Prop :=
  NoDup group /\ incl group agent_names /\ forall a, In a group -> ~ In a seen.

Lemma existsb_eqb_app a (l1 l2 : list string) :
  existsb (String.eqb a) (l1 ++ l2)
    = existsb (String.eqb a) l1 || existsb (String.eqb a) l2.
Proof. apply existsb_app. Qed.

Lemma marked_step agent_names found seen a :
  marked agent_names found seen -> In a agent_names ->
  marked agent_names (dict_set a true found) (seen ++ [a]).
Proof.
  intros [Hk Hl] Ha. split.
  - rewrite dict_keys_set_present; [exact Hk | rewrite Hk; exact Ha].
  - intros a' Ha'. rewrite existsb_eqb_app. cbn [existsb]. rewrite orb_false_r.
    destruct (String.eqb_spec a' a) as [-> | Hne].
    + rewrite dict_get_set_same, orb_true_r. reflexivity.
    + rewrite dict_get_set_other by exact Hne. rewrite orb_false_r. apply Hl. exact Ha'.
Qed.

Lemma mark_group_spec agent_names : forall group found seen,
  marked agent_names found seen ->
  match mark_group group found with
  | Ok found' =>
      marked agent_names found' (seen ++ group) /\ fresh_group agent_names seen group
  | Raise _ => ~ fresh_group agent_names seen group
  end.
Proof.
  induction group as [ | a g IH ]; intros found seen Hm; cbn [mark_group].
  - rewrite app_nil_r. split; [exact Hm|].
    split; [constructor | split; [intros ? [] | intros ? []]].
  - destruct (dict_get a found) as [[|]|] eqn:Eg.
    + (* met before *)
      cbn. intros (_ & Hincl & Hfresh).
      assert (Ha : In a agent_names) by (apply Hincl; left; reflexivity).
      destruct Hm as [_ Hl]. rewrite (Hl a Ha) in Eg. inversion Eg as [E].
      apply existsb_eqb_In in E. exact (Hfresh a (or_introl eq_refl) E).
    + assert (Ha : In a agent_names).
      { destruct Hm as [Hk _]. rewrite <- Hk.
        apply dict_get_In in Eg. apply (in_map fst) in Eg. exact Eg. }
      assert (Hns : ~ In a seen).
      { destruct Hm as [_ Hl]. rewrite (Hl a Ha) in Eg. inversion Eg as [E].
        intros Hin. apply existsb_eqb_In in Hin. congruence. }
      specialize (IH (dict_set a true found) (seen ++ [a]) (marked_step _ _ _ _ Hm Ha)).
      destruct (mark_group g (dict_set a true found)) as [found'|e].
      * destruct IH as [Hm' (Hnd & Hincl & Hfresh)]. split.
        -- rewrite <- app_assoc in Hm'. exact Hm'.
        -- split; [| split].
           ++ constructor; [| exact Hnd].
              intros Hin. apply (Hfresh a Hin). apply in_or_app. right. left. reflexivity.
           ++ intros x [<- | Hx]; [exact Ha | apply Hincl; exact Hx].
           ++ intros x [<- | Hx]; [exact Hns|].
              intros Hin. apply (Hfresh x Hx). apply in_or_app. left. exact Hin.
      * intros (Hnd & Hincl & Hfresh). apply IH. inversion Hnd; subst.
        split; [assumption | split].
        -- intros x Hx. apply Hincl. right. exact Hx.
        -- intros x Hx Hin. apply in_app_or in Hin. destruct Hin as [Hin | [<- | []]].
           ++ exact (Hfresh x (or_intror Hx) Hin).
           ++ contradiction.
    + (* not an agent *)
      cbn. intros (_ & Hincl & _).
      assert (Ha : In a agent_names) by (apply Hincl; left; reflexivity).
      destruct Hm as [Hk _]. apply dict_get_None in Eg. rewrite Hk in Eg. contradiction.
Qed.

(** One iteration of the loop over the groups. *)
Definition group_step (found_agents : list (string * bool)) (g : string * list string)
    : result (list (string * bool)) :=
  let '(group_name, group) := g in
  if Nat.eqb (length group) 0
  then raise ValueError (String.append "Group " (String.append group_name " is empty"))
  else mark_group group found_agents.

(** What the groups must be for the loop over them to go through. *)
Definition fresh_groups (agent_names seen : list string)
    (group_map : list (string * list string)) : Prop :=
  (forall g, In g group_map -> snd g <> [])
  /\ fresh_group agent_names seen (concat (map snd group_map)).

Lemma NoDup_app_disjoint {A} (l1 l2 : list A) :
  NoDup (l1 ++ l2) -> forall x, In x l1 -> In x l2 -> False.
Proof.
  induction l1 as [ | a l1 IH ]; cbn; intros Hnd x H1 H2; [destruct H1|].
  inversion Hnd; subst. destruct H1 as [<- | H1].
  - apply H3. apply in_or_app. right. exact H2.
  - exact (IH H4 x H1 H2).
Qed.

Lemma fresh_group_app agent_names seen g1 g2 :
  fresh_group agent_names seen (g1 ++ g2)
  <-> fresh_group agent_names seen g1 /\ fresh_group agent_names (seen ++ g1) g2.
Proof.
  unfold fresh_group. split.
  - intros (Hnd & Hincl & Hfresh).
    pose proof (NoDup_app_remove_l _ _ Hnd) as Hnd2.
    pose proof (NoDup_app_remove_r _ _ Hnd) as Hnd1.
    repeat split; try assumption.
    + intros x Hx. apply Hincl. apply in_or_app. left. exact Hx.
    + intros x Hx. apply Hfresh. apply in_or_app. left. exact Hx.
    + intros x Hx. apply Hincl. apply in_or_app. right. exact Hx.
    + intros x Hx Hin. apply in_app_or in Hin. destruct Hin as [Hin | Hin].
      * apply (Hfresh x); [apply in_or_app; right; exact Hx | exact Hin].
      * exact (NoDup_app_disjoint _ _ Hnd x Hin Hx).
  - intros [(Hnd1 & Hi1 & Hf1) (Hnd2 & Hi2 & Hf2)]. repeat split.
    + apply NoDup_app; [assumption | assumption |].
      intros x Hx1 Hx2. apply (Hf2 x Hx2). apply in_or_app. right. exact Hx1.
    + intros x Hx. apply in_app_or in Hx. destruct Hx; [apply Hi1 | apply Hi2]; assumption.
    + intros x Hx Hin. apply in_app_or in Hx. destruct Hx as [Hx | Hx].
      * exact (Hf1 x Hx Hin).
      * apply (Hf2 x Hx). apply in_or_app. left. exact Hin.
Qed.

Lemma groups_spec agent_names : forall group_map found seen,
  marked agent_names found seen ->
  match foldM group_step group_map found with
  | Ok found' =>
      marked agent_names found' (seen ++ concat (map snd group_map))
      /\ fresh_groups agent_names seen group_map
  | Raise _ => ~ fresh_groups agent_names seen group_map
  end.
Proof.
  induction group_map as [ | [name g] gm IH ]; intros found seen Hm.
  - cbn. rewrite app_nil_r. split; [exact Hm|]. split; [intros ? [] |].
    split; [constructor | split; [intros ? [] | intros ? []]].
  - cbn [foldM group_step map snd concat].
    destruct g as [ | a g ].
    + cbn. intros [Hne _]. apply (Hne (name, [])); [left; reflexivity | reflexivity].
    + cbn [length Nat.eqb].
      pose proof (mark_group_spec agent_names (a :: g) found seen Hm) as Hg.
      destruct (mark_group (a :: g) found) as [found1|e]; cbn [bind].
      * destruct Hg as [Hm1 Hf1].
        specialize (IH found1 (seen ++ a :: g) Hm1).
        destruct (foldM group_step gm found1) as [found'|e].
        -- destruct IH as [Hm' [Hne' Hf']]. split.
           ++ rewrite <- app_assoc in Hm'. exact Hm'.
           ++ split.
              ** intros x [<- | Hx]; [discriminate | apply Hne'; exact Hx].
              ** apply fresh_group_app. split; assumption.
        -- intros [Hne Hf]. apply IH. split.
           ++ intros x Hx. apply Hne. right. exact Hx.
           ++ apply fresh_group_app in Hf. tauto.
      * intros [_ Hf]. apply Hg. apply fresh_group_app in Hf. tauto.
Qed.

Lemma found_loop_spec : forall found_agents : list (string * bool),
  match foldM (fun (_ : unit) (af : string * bool) =>
                 let '(agent_name, found) := af in
                 if negb found
                 then raise ValueError
                        (String.append "Agent "
                           (String.append agent_name " not found in any group"))
                 else Ok tt)
              found_agents tt with
  | Ok _ => forallb snd found_agents = true
  | Raise _ => forallb snd found_agents = false
  end.
Proof.
  induction found_agents as [ | [a [|]] l IH ]; cbn; [reflexivity | exact IH | reflexivity].
Qed.

Lemma nodup_length_le {A} (dec : forall x y : A, {x = y} + {x <> y}) l :
  length (nodup dec l) <= length l.
Proof.
  induction l as [ | a l IH ]; cbn; [lia|].
  destruct (in_dec dec a l); cbn; lia.
Qed.

Lemma nodup_length_NoDup {A} (dec : forall x y : A, {x = y} + {x <> y}) l :
  length (nodup dec l) = length l <-> NoDup l.
Proof.
  split.
  - induction l as [ | a l IH ]; cbn; intros H; [constructor|].
    destruct (in_dec dec a l) as [Hin | Hnin].
    + pose proof (nodup_length_le dec l). lia.
    + constructor; [exact Hnin | apply IH; cbn in H; lia].
  - intros H. rewrite (nodup_fixed_point dec H). reflexivity.
Qed.

Lemma concat_length_nonempty {A} (ll : list (list A)) :
  (forall g, In g ll -> g <> []) -> length ll <= length (concat ll).
Proof.
  induction ll as [ | g ll IH ]; cbn; intros H; [lia|].
  rewrite length_app.
  assert (Hg : g <> []) by (apply H; left; reflexivity).
  assert (IH' : length ll <= length (concat ll)).
  { apply IH. intros x Hx. apply H. right. exact Hx. }
  destruct g; [congruence | cbn; lia].
Qed.

Lemma check_marl_grouping_unfold group_map agent_names :
  check_marl_grouping group_map agent_names
    = if Nat.eqb (length agent_names) 0 then raise ValueError "No agents passed"
      else if negb (Nat.eqb (length (nodup string_dec agent_names)) (length agent_names))
      then raise ValueError "There are agents with the same name"
      else if Nat.ltb (length agent_names) (length group_map)
      then raise ValueError
             (String.append "Number of groups "
                (String.append (nat_str (length group_map))
                   (String.append " greater than number of agents "
                      (nat_str (length agent_names)))))
      else
        found_agents <-
          foldM group_step group_map
            (dict_of (fun agent_name => agent_name) (fun _ => false) agent_names) ;;
        foldM (fun (_ : unit) (af : string * bool) =>
                 let '(agent_name, found) := af in
                 if negb found
                 then raise ValueError
                        (String.append "Agent "
                           (String.append agent_name " not found in any group"))
                 else Ok tt)
              found_agents tt.
Proof. reflexivity. Qed.

Lemma marked_initial agent_names :
  NoDup agent_names ->
  marked agent_names (dict_of (fun a => a) (fun _ => false) agent_names) [].
Proof.
  intros Hnd. rewrite (dict_of_NoDup (fun _ => false) agent_names Hnd). split.
  - rewrite map_map. cbn. apply map_id.
  - intros a Ha. apply In_dict_get.
    + rewrite map_map. cbn. rewrite map_id. exact Hnd.
    + cbn. apply in_map_iff. exists a. split; [reflexivity | exact Ha].
Qed.

(** The check goes through exactly when the groups partition the agents. *)
Lemma check_marl_grouping_iff group_map agent_names :
  check_marl_grouping group_map agent_names = Ok tt
  <-> agent_names <> [] /\ NoDup agent_names
      /\ (forall g, In g group_map -> snd g <> [])
      /\ Permutation (concat (map snd group_map)) agent_names.
Proof.
  rewrite check_marl_grouping_unfold. split.
  - destruct (Nat.eqb_spec (length agent_names) 0) as [E0 | E0]; [discriminate|].
    destruct (Nat.eqb_spec (length (nodup string_dec agent_names)) (length agent_names))
      as [En | En]; cbn [negb]; [| discriminate].
    apply nodup_length_NoDup in En.
    destruct (Nat.ltb (length agent_names) (length group_map)); [discriminate|].
    pose proof (groups_spec agent_names group_map _ [] (marked_initial _ En)) as Hg.
    destruct (foldM group_step group_map _) as [found'|e]; cbn [bind]; [| discriminate].
    destruct Hg as [[Hk Hl] [Hne (Hnd & Hincl & _)]]. cbn [app] in Hl.
    pose proof (found_loop_spec found') as Hf.
    destruct (foldM _ found' tt) as [u|e]; [| discriminate].
    intros _. split; [destruct agent_names; [cbn in E0; congruence | discriminate]|].
    split; [exact En|]. split; [exact Hne|].
    apply NoDup_Permutation; [exact Hnd | exact En |].
    intros a. split; [apply Hincl|]. intros Ha.
    assert (Hin : exists v, In (a, v) found').
    { rewrite <- Hk in Ha. apply in_map_iff in Ha. destruct Ha as ([a' v] & E & Hin).
      cbn in E. subst a'. exists v. exact Hin. }
    destruct Hin as [v Hin].
    rewrite forallb_forall in Hf. pose proof (Hf _ Hin) as Hv. cbn in Hv. subst v.
    assert (Hg : dict_get a found' = Some true).
    { apply In_dict_get; [rewrite Hk; exact En | exact Hin]. }
    rewrite (Hl a Ha) in Hg. inversion Hg as [E]. apply existsb_eqb_In in E. exact E.
  - intros (Hne & Hnd & Hgroups & Hperm).
    destruct (Nat.eqb_spec (length agent_names) 0) as [E0 | E0].
    { destruct agent_names; [congruence | discriminate E0]. }
    rewrite (proj2 (nodup_length_NoDup string_dec agent_names) Hnd), Nat.eqb_refl.
    cbn [negb].
    assert (Hlen : length group_map <= length agent_names).
    { rewrite <- (Permutation_length Hperm), <- (length_map snd group_map).
      apply concat_length_nonempty. intros g Hg. apply in_map_iff in Hg.
      destruct Hg as (x & <- & Hx). apply Hgroups. exact Hx. }
    destruct (Nat.ltb_spec (length agent_names) (length group_map)) as [Hlt | _]; [lia|].
    pose proof (groups_spec agent_names group_map _ [] (marked_initial _ Hnd)) as Hg.
    assert (Hfresh : fresh_groups agent_names [] group_map).
    { split; [exact Hgroups|]. split; [| split].
      - apply (Permutation_NoDup (Permutation_sym Hperm)). exact Hnd.
      - intros a Ha. apply (Permutation_in _ Hperm). exact Ha.
      - intros a _ []. }
    destruct (foldM group_step group_map _) as [found'|e]; cbn [bind]; [| contradiction].
    destruct Hg as [[Hk Hl] _]. cbn [app] in Hl.
    pose proof (found_loop_spec found') as Hf.
    destruct (foldM _ found' tt) as [[]|e]; [reflexivity|].
    exfalso.
    assert (Hall : forallb snd found' = true).
    { apply forallb_forall. intros [a v] Hin. cbn.
      assert (Ha : In a agent_names).
      { rewrite <- Hk. apply (in_map fst) in Hin. exact Hin. }
      assert (Hg : dict_get a found' = Some v).
      { apply In_dict_get; [rewrite Hk; exact Hnd | exact Hin]. }
      rewrite (Hl a Ha) in Hg. inversion Hg as [E]. subst v.
      apply existsb_eqb_In. apply (Permutation_in _ (Permutation_sym Hperm)). exact Ha. }
    congruence.
Qed.

(** X1: [check_marl_grouping] returns without raising exactly when there is
    at least one agent, the agent names are all different, no group is empty
    and the groups, put end to end, list every agent once and nothing else. *)
Theorem marl_grouping_accepts_exactly_partitions :
  forall (group_map : list (string * list string)) (agent_names : list string),
    check_marl_grouping group_map agent_names = Ok tt
    <-> agent_names <> [] /\ NoDup agent_names
        /\ (forall g, In g group_map -> snd g <> [])
        /\ Permutation (concat (map snd group_map)) agent_names.
Proof. intros. apply check_marl_grouping_iff. Qed.

Lemma concat_singletons {A} (l : list A) : concat (map (fun a => [a]) l) = l.
Proof. induction l as [ | a l IH ]; cbn; [reflexivity | rewrite IH; reflexivity]. Qed.

(** X2: for agents that are at least one and all different, the group map
    of either premade strategy passes [check_marl_grouping]. *)
Theorem premade_group_maps_pass_the_check :
  forall (strategy : MarlGroupMapType) (agent_names : list string),
    agent_names <> [] -> NoDup agent_names ->
    check_marl_grouping (get_group_map strategy agent_names) agent_names = Ok tt.
Proof.
  intros strategy agent_names Hne Hnd. apply check_marl_grouping_iff.
  split; [exact Hne|]. split; [exact Hnd|].
  destruct strategy; cbn [get_group_map].
  - split.
    + intros g [<- | []]. exact Hne.
    + cbn. rewrite app_nil_r. apply Permutation_refl.
  - rewrite (dict_of_NoDup (fun a => [a]) agent_names Hnd). split.
    + intros g Hg. apply in_map_iff in Hg. destruct Hg as (a & <- & _). discriminate.
    + rewrite map_map. cbn [snd]. rewrite concat_singletons. apply Permutation_refl.
Qed.

Lemma premade_group_maps_witness :
  check_marl_grouping (get_group_map ALL_IN_ONE_GROUP ["agent_0"; "agent_1"])
    ["agent_0"; "agent_1"] = Ok tt
  /\ check_marl_grouping (get_group_map ONE_GROUP_PER_AGENT ["agent_0"; "agent_1"])
       ["agent_0"; "agent_1"] = Ok tt.
Proof.
  assert (Hnd : NoDup ["agent_0"; "agent_1"]).
  { constructor; [intros [H | []]; discriminate H|].
    constructor; [intros [] | constructor]. }
  split; apply premade_group_maps_pass_the_check; (discriminate || exact Hnd).
Defined.

(** ** What [clear_mpi_env_vars] hides and restores *)

(** Whether a name starts with one of the prefixes. *)
Definition is_mpi (k : string) : bool :=
  existsb (fun prefix => String.prefix prefix k) MPI_PREFIXES.

Lemma dict_get_remove_same {V} k (d : list (string * V)) : dict_get k (dict_remove k d) = None.
Proof.
  induction d as [ | [k' v'] d IH ]; cbn; [reflexivity|].
  destruct (String.eqb k k') eqn:E; cbn; [exact IH|]. rewrite E. exact IH.
Qed.

Lemma dict_get_remove_other {V} k k' (d : list (string * V)) :
  k' <> k -> dict_get k' (dict_remove k d) = dict_get k' d.
Proof.
  intros Hne. induction d as [ | [k0 v0] d IH ]; cbn; [reflexivity|].
  destruct (String.eqb_spec k k0) as [-> | Hk]; cbn.
  - destruct (String.eqb_spec k' k0); [contradiction | exact IH].
  - destruct (String.eqb k' k0); [reflexivity | exact IH].
Qed.

Lemma dict_keys_set {V} k (v : V) d :
  map fst (dict_set k v d)
    = if existsb (String.eqb k) (map fst d) then map fst d else map fst d ++ [k].
Proof.
  induction d as [ | [k' v'] d IH ]; cbn; [reflexivity|].
  destruct (String.eqb_spec k k') as [-> | Hk]; cbn; [reflexivity|].
  rewrite IH. destruct (existsb (String.eqb k) (map fst d)); reflexivity.
Qed.

Lemma dict_set_NoDup {V} k (v : V) d :
  NoDup (map fst d) -> NoDup (map fst (dict_set k v d)).
Proof.
  rewrite dict_keys_set. intros H.
  destruct (existsb (String.eqb k) (map fst d)) eqn:E; [exact H|].
  apply NoDup_app; [ exact H | repeat constructor; intros [] | ].
  intros x Hin [<- | []].
  apply existsb_eqb_In in Hin. congruence.
Qed.

Lemma dict_get_update {V} (other : list (string * V)) : forall d k,
  NoDup (map fst other) ->
  dict_get k (dict_update d other)
    = match dict_get k other with Some v => Some v | None => dict_get k d end.
Proof.
  unfold dict_update. induction other as [ | [k0 v0] other IH ]; intros d k Hnd; cbn.
  - reflexivity.
  - inversion Hnd; subst. rewrite IH by assumption.
    destruct (String.eqb_spec k k0) as [-> | Hne].
    + apply dict_get_None in H1. rewrite H1. apply dict_get_set_same.
    + destruct (dict_get k other); [reflexivity|].
      apply dict_get_set_other. exact Hne.
Qed.

(** No name starts with both prefixes: the second [del] never meets a
    variable the first one removed. *)
Lemma mpi_prefixes_exclusive k :
  String.prefix "OMPI_" k = true -> String.prefix "PMI_" k = false.
Proof.
  destruct k as [ | c k ]; [discriminate|].
  change (String.prefix "OMPI_" (String c k))
    with (if ascii_dec "O" c then String.prefix "MPI_" k else false).
  change (String.prefix "PMI_" (String c k))
    with (if ascii_dec "P" c then String.prefix "MI_" k else false).
  destruct (ascii_dec "O" c) as [<- | Hne]; [| discriminate].
  intros _. destruct (ascii_dec "P" "O") as [E | _]; [discriminate E | reflexivity].
Qed.

Lemma clear_variable_spec k v (environ removed : environment) x :
  dict_get k environ = Some x ->
  clear_variable (environ, removed) (k, v)
    = Ok (if is_mpi k then (dict_remove k environ, dict_set k v removed)
          else (environ, removed)).
Proof.
  intros Hk. unfold clear_variable, is_mpi, MPI_PREFIXES. cbn [foldM existsb].
  destruct (String.prefix "OMPI_" k) eqn:E1.
  - rewrite (mpi_prefixes_exclusive k E1). unfold dict_del. rewrite Hk. reflexivity.
  - cbn [bind orb]. destruct (String.prefix "PMI_" k) eqn:E2.
    + unfold dict_del. rewrite Hk. reflexivity.
    + reflexivity.
Qed.

Lemma clear_loop_spec : forall (l cur removed : environment),
  NoDup (map fst l) ->
  (forall k v, In (k, v) l -> dict_get k cur = Some v) ->
  NoDup (map fst removed) ->
  exists cur' removed',
    foldM clear_variable l (cur, removed) = Ok (cur', removed')
    /\ NoDup (map fst removed')
    /\ (forall k, dict_get k cur'
                  = if is_mpi k && existsb (String.eqb k) (map fst l)
                    then None else dict_get k cur)
    /\ (forall k, dict_get k removed'
                  = if is_mpi k && existsb (String.eqb k) (map fst l)
                    then dict_get k cur else dict_get k removed).
Proof.
  induction l as [ | [k0 v0] l IH ]; intros cur removed Hnd Hin Hr.
  - exists cur, removed. split; [reflexivity|]. split; [exact Hr|].
    split; intros k; cbn; rewrite andb_false_r; reflexivity.
  - cbn [map fst] in Hnd. inversion Hnd as [ | ? ? Hk0 Hnd' ]; subst.
    pose proof (Hin k0 v0 (or_introl eq_refl)) as Hk0cur.
    pose proof (clear_variable_spec k0 v0 cur removed v0 Hk0cur) as Hstep.
    assert (Hrest : forall cur1,
              (forall k, k <> k0 -> dict_get k cur1 = dict_get k cur) ->
              forall k v, In (k, v) l -> dict_get k cur1 = Some v).
    { intros cur1 H1 k v Hkv. rewrite H1.
      - apply Hin. right. exact Hkv.
      - intros ->. apply Hk0. apply (in_map fst) in Hkv. exact Hkv. }
    assert (Hmem : existsb (String.eqb k0) (map fst l) = false).
    { apply existsb_eqb_false. exact Hk0. }
    destruct (is_mpi k0) eqn:Empi.
    + destruct (IH (dict_remove k0 cur) (dict_set k0 v0 removed) Hnd')
        as (cur' & removed' & Hrun & Hnd'' & Hc & Hrm).
      { apply Hrest. intros k Hne. apply dict_get_remove_other. exact Hne. }
      { apply dict_set_NoDup. exact Hr. }
      exists cur', removed'.
      split; [cbn [foldM]; rewrite Hstep; cbn [bind]; exact Hrun|]. split; [exact Hnd''|].
      split; intros k; cbn [map fst existsb].
      * rewrite Hc. destruct (String.eqb_spec k k0) as [-> | Hne].
        -- rewrite Hmem, Empi, andb_false_r. cbn. apply dict_get_remove_same.
        -- cbn [orb]. rewrite dict_get_remove_other by exact Hne. reflexivity.
      * rewrite Hrm. destruct (String.eqb_spec k k0) as [-> | Hne].
        -- rewrite Hmem, Empi, andb_false_r. cbn. rewrite dict_get_set_same.
           symmetry. exact Hk0cur.
        -- cbn [orb]. rewrite dict_get_remove_other by exact Hne.
           rewrite dict_get_set_other by exact Hne. reflexivity.
    + destruct (IH cur removed Hnd') as (cur' & removed' & Hrun & Hnd'' & Hc & Hrm).
      { apply Hrest. reflexivity. }
      { exact Hr. }
      exists cur', removed'.
      split; [cbn [foldM]; rewrite Hstep; cbn [bind]; exact Hrun|]. split; [exact Hnd''|].
      split; intros k; cbn [map fst existsb].
      * rewrite Hc. destruct (String.eqb_spec k k0) as [-> | Hne]; [| reflexivity].
        rewrite Hmem, Empi. reflexivity.
      * rewrite Hrm. destruct (String.eqb_spec k k0) as [-> | Hne]; [| reflexivity].
        rewrite Hmem, Empi. reflexivity.
Qed.

Lemma dict_get_absent_existsb {V} k (d : list (string * V)) :
  existsb (String.eqb k) (map fst d) = false -> dict_get k d = None.
Proof.
  intros H. apply dict_get_None. intros Hin. apply existsb_eqb_In in Hin. congruence.
Qed.

(** The environment the body sees and the variables set aside. *)
Lemma clear_mpi_spec (environ : environment) :
  NoDup (map fst environ) ->
  exists inside removed,
    clear_mpi environ = Ok (inside, removed)
    /\ NoDup (map fst removed)
    /\ (forall k, dict_get k inside = if is_mpi k then None else dict_get k environ)
    /\ (forall k, dict_get k removed = if is_mpi k then dict_get k environ else None).
Proof.
  intros Hnd.
  destruct (clear_loop_spec environ environ [] Hnd) as (inside & removed & Hrun & Hr & Hc & Hrm).
  { intros k v H. apply In_dict_get; assumption. }
  { constructor. }
  exists inside, removed. split; [exact Hrun|]. split; [exact Hr|].
  split; intros k.
  - rewrite Hc. destruct (is_mpi k); [| reflexivity].
    destruct (existsb (String.eqb k) (map fst environ)) eqn:E; [reflexivity|].
    cbn. apply dict_get_absent_existsb. exact E.
  - rewrite Hrm. destruct (is_mpi k); [| reflexivity].
    destruct (existsb (String.eqb k) (map fst environ)) eqn:E; [reflexivity|].
    cbn. symmetry. apply dict_get_absent_existsb. exact E.
Qed.

(** X3: with an environment that is a dict (no name twice), the statements
    of [clear_mpi_env_vars] before the [yield] never fail, and the body
    runs in an environment where no name starts with ["OMPI_"] or
    ["PMI_"] and every other variable has the value it had. *)
Theorem mpi_variables_are_hidden_from_the_body :
  forall environ : environment,
    NoDup (map fst environ) ->
    exists inside removed,
      clear_mpi environ = Ok (inside, removed)
      /\ (forall k v, In (k, v) inside -> is_mpi k = false)
      /\ (forall k, is_mpi k = false -> dict_get k inside = dict_get k environ).
Proof.
  intros environ Hnd.
  destruct (clear_mpi_spec environ Hnd) as (inside & removed & Hrun & _ & Hc & _).
  exists inside, removed. split; [exact Hrun|]. split.
  - intros k v Hin. destruct (is_mpi k) eqn:E; [| reflexivity].
    pose proof (Hc k) as Hk. rewrite E in Hk.
    apply dict_get_None in Hk. exfalso. apply Hk.
    apply (in_map fst) in Hin. exact Hin.
  - intros k E. rewrite Hc, E. reflexivity.
Qed.

Lemma mpi_variables_hidden_witness :
  exists inside removed,
    clear_mpi [("PATH", "/bin"); ("OMPI_COMM_WORLD_RANK", "0"); ("PMI_SIZE", "2")]
      = Ok (inside, removed)
    /\ (forall k v, In (k, v) inside -> is_mpi k = false)
    /\ (forall k, is_mpi k = false ->
          dict_get k inside
            = dict_get k [("PATH", "/bin"); ("OMPI_COMM_WORLD_RANK", "0"); ("PMI_SIZE", "2")]).
Proof.
  apply mpi_variables_are_hidden_from_the_body.
  repeat constructor; cbn; intuition discriminate.
Defined.

(** X4: whatever the body of [with clear_mpi_env_vars()] does to the
    environment, and whether it returns or raises, afterwards every variable
    that was set aside has its original value again and every other
    variable has the value the body left; a body that leaves the
    environment alone therefore leaves every variable as it was. *)
Theorem mpi_variables_are_restored :
  forall (A : Type) (environ : environment)
         (body : environment -> environment * result A),
    NoDup (map fst environ) ->
    exists inside after,
      clear_mpi_env_vars body environ = Ok (after, snd (body inside))
      /\ (forall k, dict_get k after
                    = if is_mpi k && existsb (String.eqb k) (map fst environ)
                      then dict_get k environ
                      else dict_get k (fst (body inside)))
      /\ (fst (body inside) = inside ->
          forall k, dict_get k after = dict_get k environ).
Proof.
  intros A environ body Hnd.
  destruct (clear_mpi_spec environ Hnd) as (inside & removed & Hrun & Hr & Hc & Hrm).
  exists inside, (dict_update (fst (body inside)) removed).
  assert (Hafter : forall k,
            dict_get k (dict_update (fst (body inside)) removed)
              = if is_mpi k && existsb (String.eqb k) (map fst environ)
                then dict_get k environ
                else dict_get k (fst (body inside))).
  { intros k. rewrite (dict_get_update removed _ k Hr), Hrm.
    destruct (is_mpi k); [| reflexivity]. cbn [andb].
    destruct (existsb (String.eqb k) (map fst environ)) eqn:E.
    - destruct (dict_get k environ) eqn:Eg; [reflexivity|].
      apply dict_get_None in Eg. apply existsb_eqb_In in E. contradiction.
    - rewrite (dict_get_absent_existsb k environ E). reflexivity. }
  split; [| split].
  - unfold clear_mpi_env_vars. rewrite Hrun. cbn [bind].
    destruct (body inside) as [env2 r]. reflexivity.
  - exact Hafter.
  - intros Hsame k. rewrite Hafter, Hsame, Hc.
    destruct (is_mpi k); [| reflexivity]. cbn [andb].
    destruct (existsb (String.eqb k) (map fst environ)) eqn:E; [reflexivity|].
    rewrite (dict_get_absent_existsb k environ E). reflexivity.
Qed.

Lemma mpi_variables_restored_witness :
  exists inside after,
    clear_mpi_env_vars (fun e => (dict_set "PMI_SIZE" "9" e, Ok tt))
      [("PATH", "/bin"); ("OMPI_COMM_WORLD_RANK", "0"); ("PMI_SIZE", "2")]
      = Ok (after, snd ((fun e => (dict_set "PMI_SIZE" "9" e, Ok tt)) inside))
    /\ dict_get "PMI_SIZE" after = Some "2".
Proof.
  destruct (mpi_variables_are_restored unit
              [("PATH", "/bin"); ("OMPI_COMM_WORLD_RANK", "0"); ("PMI_SIZE", "2")]
              (fun e => (dict_set "PMI_SIZE" "9" e, Ok tt)))
    as (inside & after & Hrun & Hk & _).
  - repeat constructor; cbn; intuition discriminate.
  - exists inside, after. split; [exact Hrun|]. rewrite Hk. reflexivity.
Defined.

(** ** What [_selective_unsqueeze] returns *)

Lemma unsqueeze_last t :
  unsqueeze t (-1) = Ok (mkTensor (shape t ++ [1]) (data t)).
Proof.
  unfold unsqueeze, insert_at, ndim.
  assert (H1 : ((- (Z.of_nat (length (shape t)) + 1) <=? -1)
                && (-1 <=? Z.of_nat (length (shape t))))%Z = true).
  { apply andb_true_iff. split; apply Z.leb_le; lia. }
  rewrite H1. cbn [Z.ltb Z.compare].
  replace (Z.to_nat (-1 + Z.of_nat (length (shape t)) + 1)) with (length (shape t)) by lia.
  rewrite firstn_all, skipn_all. reflexivity.
Qed.

Lemma firstn_length_eq {A} (l p : list A) :
  firstn (length p) l = p -> length p <= length l.
Proof.
  intros H. rewrite <- H at 1. rewrite length_firstn. lia.
Qed.

(** X5: with the default [dim=-1], [_selective_unsqueeze] fails (with a
    [RuntimeError]) exactly when the shape does not start with the batch
    size; otherwise it returns the same data, with a trailing dimension of
    size one added only when the tensor has no dimension beyond the batch
    size, so that the result always has one, and applying it again changes
    nothing. *)
Theorem selective_unsqueeze_adds_one_trailing_dim :
  forall (t : tensor) (batch_size : list nat),
    match _selective_unsqueeze t batch_size (-1) with
    | Ok t' =>
        is_prefix batch_size (shape t) = true
        /\ data t' = data t
        /\ shape t' = (if Nat.eqb (ndim t) (length batch_size)
                       then shape t ++ [1] else shape t)
        /\ length batch_size < ndim t'
        /\ _selective_unsqueeze t' batch_size (-1) = Ok t'
    | Raise e =>
        exn_type e = RuntimeError /\ is_prefix batch_size (shape t) = false
    end.
Proof.
  intros t bs. unfold _selective_unsqueeze, is_prefix, ndim.
  destruct (Nat.ltb_spec (length (shape t)) (length bs)) as [Hlt | Hge].
  - cbn. split; [reflexivity|]. unfold shape_eqb.
    destruct (list_eq_dec Nat.eq_dec (firstn (length bs) (shape t)) bs) as [E | _];
      [| reflexivity].
    apply firstn_length_eq in E. lia.
  - destruct (shape_eqb (firstn (length bs) (shape t)) bs) eqn:Es; cbn [negb].
    + apply shape_eqb_true in Es.
      destruct (Nat.eqb_spec (length (shape t)) (length bs)) as [El | Hne].
      * rewrite unsqueeze_last. cbn [shape data].
        assert (Hpre : firstn (length bs) (shape t ++ [1]) = bs).
        { rewrite firstn_app, Es.
          replace (length bs - length (shape t)) with 0 by lia.
          cbn. apply app_nil_r. }
        repeat split.
        -- rewrite length_app. cbn. lia.
        -- rewrite length_app. cbn [length].
           destruct (Nat.ltb_spec (length (shape t) + 1) (length bs)); [lia|].
           rewrite Hpre, shape_eqb_refl. cbn [negb].
           destruct (Nat.eqb_spec (length (shape t) + 1) (length bs)); [lia | reflexivity].
      * repeat split; [lia|].
        destruct (Nat.ltb_spec (length (shape t)) (length bs)); [lia|].
        rewrite Es, shape_eqb_refl. cbn [negb].
        destruct (Nat.eqb_spec (length (shape t)) (length bs)); [lia | reflexivity].
    + cbn. split; reflexivity.
Qed.

(** ** More on the transition: what [step_mdp], [_set] and [_set_single_key]
       copy *)

(** Two values agree when, wherever both hold an entry under the same path,
    both entries are tensors or both are batches. *)
Fixpoint agree (v1 v2 : value) : bool :=
  match v1, v2 with
  | Tensor _, Tensor _ => true
  | TensorDict _ items1, TensorDict _ items2 =>
      forallb (fun kv => match assoc (fst kv) items2 with
                         | Some y => agree (snd kv) y
                         | None => true
                         end) items1
  | _, _ => false
  end.

Lemma agree_compat : forall p v1 v2 q,
  agree v1 v2 = true ->
  (leaf_at v1 p <> None -> leaf_at v2 (p ++ q) <> None -> q = [])
  /\ (leaf_at v2 p <> None -> leaf_at v1 (p ++ q) <> None -> q = []).
Proof.
  induction p as [ | k p IH ]; intros v1 v2 q Ha.
  - destruct v1 as [ | t1 | bs1 i1 | sd1 l1 ], v2 as [ | t2 | bs2 i2 | sd2 l2 ];
      cbn in Ha; try discriminate; cbn [app leaf_at]; split; intros H1 H2;
      try congruence; destruct q; [reflexivity | cbn in H2; congruence
                                  | reflexivity | cbn in H2; congruence].
  - destruct v1 as [ | t1 | bs1 i1 | sd1 l1 ], v2 as [ | t2 | bs2 i2 | sd2 l2 ];
      cbn in Ha; try discriminate; cbn [app leaf_at]; try (split; congruence).
    destruct (assoc k i1) as [x|] eqn:E1; [| split; congruence].
    destruct (assoc k i2) as [y|] eqn:E2; [| split; congruence].
    rewrite forallb_forall in Ha. pose proof (Ha _ (assoc_In _ _ _ E1)) as Hxy.
    cbn in Hxy. rewrite E2 in Hxy. exact (IH x y q Hxy).
Qed.

Lemma agree_compat_leaves v1 v2 :
  agree v1 v2 = true -> compat (leaf_at v1) (leaf_at v2).
Proof. intros Ha p q. exact (agree_compat p v1 v2 q Ha). Qed.

Lemma compat_sub (f g g' : NestedKey -> option tensor) :
  (forall p, g' p <> None -> g p <> None) -> compat f g -> compat f g'.
Proof.
  intros Hsub H p q. destruct (H p q) as [H1 H2]. split.
  - intros Hf Hg. apply H1; [exact Hf | apply Hsub; exact Hg].
  - intros Hg Hf. apply H2; [apply Hsub; exact Hg | exact Hf].
Qed.

Lemma root_part_is_root_leaf ko exa A E td p :
  root_part ko exa A E td p <> None -> leaf_at td p <> None.
Proof.
  unfold root_part. destruct ko.
  - destruct p as [ | k q ]; [congruence|].
    destruct (String.eqb k NEXT); [congruence|].
    unfold kept_from. destruct (excl _ _ _); [congruence | exact (fun H => H)].
  - destruct (negb exa); [| congruence].
    destruct (key_in p A); [exact (fun H => H) | congruence].
Qed.

(** The functional reading of [step_mdp] on a dense batch. *)
Lemma step_mdp_spec ko exr exd exa R D A bs items nbs nitems :
  tight (TensorDict bs items) = true ->
  assoc NEXT items = Some (TensorDict nbs nitems) ->
  (ko = false -> exa = false ->
   forall a, In a A -> leaf_at (TensorDict bs items) a <> None) ->
  agree (TensorDict nbs nitems) (TensorDict bs items) = true ->
  exists out_items,
    step_mdp (TensorDict bs items) ko exr exd exa R D A = Ok (TensorDict nbs out_items)
    /\ plain (TensorDict nbs out_items) = true
    /\ forall p,
         leaf_at (TensorDict nbs out_items) p
           = orelse (kept_from (excluded_of exr exd exa R D A) [] (TensorDict nbs nitems) p)
                    (root_part ko exa A (excluded_of exr exd exa R D A)
                       (TensorDict bs items) p).
Proof.
  intros Htight Hnext HA Hagree.
  assert (Hcompat : compat (leaf_at (TensorDict nbs nitems))
                      (root_part ko exa A (excluded_of exr exd exa R D A)
                         (TensorDict bs items))).
  { apply (compat_sub _ (leaf_at (TensorDict bs items))).
    - apply root_part_is_root_leaf.
    - apply agree_compat_leaves. exact Hagree. }
  pose proof (tight_assoc _ _ _ _ Htight Hnext) as Hn.
  rewrite step_mdp_TensorDict. unfold get. cbn [get_from _get_str]. rewrite Hnext.
  cbn [bind empty].
  destruct ko, exa.
  - exact (generic_copy_spec true true [] _ bs items nbs nitems Htight Hn
             (fun a (H : In a []) => False_ind _ H) Hcompat).
  - exact (generic_copy_spec true false [] _ bs items nbs nitems Htight Hn
             (fun a (H : In a []) => False_ind _ H) Hcompat).
  - exact (generic_copy_spec false true [] _ bs items nbs nitems Htight Hn
             (fun a (H : In a []) => False_ind _ H) Hcompat).
  - exact (generic_copy_spec false false A _ bs items nbs nitems Htight Hn
             (HA eq_refl eq_refl) Hcompat).
Qed.

Lemma kept_from_excluded E src p q :
  p <> [] -> In p E -> kept_from E [] src (p ++ q) = None.
Proof.
  intros Hp Hin. destruct p as [ | k p' ]; [congruence|].
  cbn [app kept_from].
  assert (Hex : excl E [k] (p' ++ q) = true).
  { apply excl_spec. exists p', q. split; [reflexivity | exact Hin]. }
  rewrite Hex. reflexivity.
Qed.

(** X6: on a dense batch whose ["next"] entry is a batch that agrees with the
    root, [step_mdp] succeeds, its result has the batch size of ["next"], and
    its leaves are exactly: every leaf of ["next"] that is not at or below an
    excluded key, and, where ["next"] gives none, the root's share
    ([root_part]): with [keep_other] the root's leaves outside ["next"] that
    are not excluded, without it the action keys unless [exclude_action]. *)
Theorem step_mdp_overlays_next_on_the_root :
  forall (keep_other exclude_reward exclude_done exclude_action : bool)
         (reward_keys done_keys action_keys : list NestedKey)
         (batch_size : list nat) (items : list (string * value))
         (next_batch_size : list nat) (next_items : list (string * value)),
    tight (TensorDict batch_size items) = true ->
    assoc NEXT items = Some (TensorDict next_batch_size next_items) ->
    (keep_other = false -> exclude_action = false ->
     forall a, In a action_keys -> leaf_at (TensorDict batch_size items) a <> None) ->
    agree (TensorDict next_batch_size next_items) (TensorDict batch_size items) = true ->
    exists out_items,
      step_mdp (TensorDict batch_size items) keep_other exclude_reward exclude_done
        exclude_action reward_keys done_keys action_keys
        = Ok (TensorDict next_batch_size out_items)
      /\ forall p,
           leaf_at (TensorDict next_batch_size out_items) p
             = match kept_from (excluded_of exclude_reward exclude_done exclude_action
                                  reward_keys done_keys action_keys) []
                       (TensorDict next_batch_size next_items) p with
               | Some t => Some t
               | None =>
                   root_part keep_other exclude_action action_keys
                     (excluded_of exclude_reward exclude_done exclude_action
                        reward_keys done_keys action_keys)
                     (TensorDict batch_size items) p
               end.
Proof.
  intros ko exr exd exa R D A bs items nbs nitems Htight Hnext HA Hagree.
  destruct (step_mdp_spec ko exr exd exa R D A bs items nbs nitems Htight Hnext HA Hagree)
    as (out_items & Hrun & _ & Hleaves).
  exists out_items. split; [exact Hrun|]. intros p. rewrite Hleaves. reflexivity.
Qed.

Lemma step_mdp_overlay_witness :
  exists out_items,
    step_mdp (TensorDict [] declared_items) false true false false
      [["reward"]] [["done"]] [["action"]] = Ok (TensorDict [] out_items)
    /\ forall p,
         leaf_at (TensorDict [] out_items) p
           = match kept_from (excluded_of true false false [["reward"]] [["done"]] [["action"]])
                     [] next_example p with
             | Some t => Some t
             | None =>
                 root_part false false [["action"]]
                   (excluded_of true false false [["reward"]] [["done"]] [["action"]])
                   (TensorDict [] declared_items) p
             end.
Proof.
  apply (step_mdp_overlays_next_on_the_root false true false false
           [["reward"]] [["done"]] [["action"]] [] declared_items []
           [("agent", TensorDict [] [("obs", Tensor f1)]);
            ("done", Tensor bFalse); ("reward", Tensor f0)]).
  - reflexivity.
  - reflexivity.
  - intros _ _ a [<- | []]. discriminate.
  - reflexivity.
Defined.

(** X7: with [keep_other], no leaf at or below an excluded key is in the
    result of [step_mdp], whether it sits in the root or in ["next"]. *)
Theorem excluded_keys_never_reach_the_output :
  forall (exclude_reward exclude_done exclude_action : bool)
         (reward_keys done_keys action_keys : list NestedKey)
         (batch_size : list nat) (items : list (string * value))
         (next_batch_size : list nat) (next_items : list (string * value)),
    tight (TensorDict batch_size items) = true ->
    assoc NEXT items = Some (TensorDict next_batch_size next_items) ->
    agree (TensorDict next_batch_size next_items) (TensorDict batch_size items) = true ->
    exists out,
      step_mdp (TensorDict batch_size items) true exclude_reward exclude_done
        exclude_action reward_keys done_keys action_keys = Ok out
      /\ forall p q,
           p <> [] ->
           In p (excluded_of exclude_reward exclude_done exclude_action
                   reward_keys done_keys action_keys) ->
           leaf_at out (p ++ q) = None.
Proof.
  intros exr exd exa R D A bs items nbs nitems Htight Hnext Hagree.
  destruct (step_mdp_spec true exr exd exa R D A bs items nbs nitems Htight Hnext
              (fun H => False_ind _ (Bool.diff_true_false H)) Hagree)
    as (out_items & Hrun & _ & Hleaves).
  exists (TensorDict nbs out_items). split; [exact Hrun|].
  intros p q Hp Hin. rewrite Hleaves, (kept_from_excluded _ _ p q Hp Hin).
  cbn [orelse]. unfold root_part.
  destruct p as [ | k p' ]; [congruence|]. cbn [app].
  destruct (String.eqb k NEXT); [reflexivity|].
  exact (kept_from_excluded _ _ (k :: p') q Hp Hin).
Qed.

Lemma excluded_keys_witness :
  exists out,
    step_mdp (TensorDict [] declared_items) true true false true
      [["reward"]] [["done"]] [["action"]] = Ok out
    /\ forall p q,
         p <> [] ->
         In p (excluded_of true false true [["reward"]] [["done"]] [["action"]]) ->
         leaf_at out (p ++ q) = None.
Proof.
  apply (excluded_keys_never_reach_the_output true false true
           [["reward"]] [["done"]] [["action"]] [] declared_items []
           [("agent", TensorDict [] [("obs", Tensor f1)]);
            ("done", Tensor bFalse); ("reward", Tensor f0)]);
    reflexivity.
Defined.

Lemma try_except_inv {A} (body : result A) (handler : exn -> result A) (a : A) :
  try_except_RuntimeError body handler = Ok a ->
  body = Ok a
  \/ exists e, body = Raise e /\ exn_type e = RuntimeError /\ handler e = Ok a.
Proof.
  unfold try_except_RuntimeError. destruct body as [x|e].
  - intros H. left. exact H.
  - destruct (exn_type e) eqn:Et; try discriminate.
    intros H. right. exists e. repeat split; assumption.
Qed.

(** The loop of [_set] ends with [True] only if one of its calls returned
    [True]. *)
Lemma set_loop_true (f : value -> string -> result (bool * value)) :
  forall ks ne nv nv',
    foldM (fun (st : bool * value) subkey =>
             let '(non_empty_local, new_val) := st in
             '(b, new_val') <- f new_val subkey ;;
             Ok (b || non_empty_local, new_val'))
          ks (ne, nv) = Ok (true, nv') ->
    ne = true \/ exists sk d d', In sk ks /\ f d sk = Ok (true, d').
Proof.
  induction ks as [ | sk ks IH ]; intros ne nv nv' H; cbn [foldM] in H.
  - inversion H. left. reflexivity.
  - destruct (f nv sk) as [[b d']|e] eqn:Hf; cbn [bind] in H; [| discriminate].
    destruct (IH _ _ _ H) as [Hb | (sk' & d & d2 & Hin & Hrun)].
    + apply orb_true_iff in Hb. destruct Hb as [-> | ->].
      * right. exists sk, nv, d'. split; [left; reflexivity | exact Hf].
      * left. reflexivity.
    + right. exists sk', d, d2. split; [right; exact Hin | exact Hrun].
Qed.

(** [_set] returns [True] only if it copied a leaf. *)
Lemma set_true_copies E : forall fuel sbs sitems dest key total val dest',
  assoc key sitems = Some val -> tight val = true ->
  _set_rec fuel (TensorDict sbs sitems) dest key total E = Ok (true, dest') ->
  exists q, copied E (total ++ [key]) val q <> None.
Proof.
  induction fuel as [ | fuel IHf ]; intros sbs sitems dest key total val dest' Hval Htight Hrun.
  - discriminate Hrun.
  - cbn [_set_rec] in Hrun.
    destruct (key_in (total ++ [key]) E) eqn:Hex; cbn [negb] in Hrun; [discriminate|].
    assert (Hget : _get_str (TensorDict sbs sitems) key NO_DEFAULT = Ok val).
    { cbn. rewrite Hval. destruct val; cbn in Htight; try congruence; reflexivity. }
    rewrite Hget in Hrun. cbn [bind] in Hrun.
    apply try_except_inv in Hrun.
    destruct Hrun as [Hbody | (e & _ & _ & Hh)].
    2:{ destruct (re_match HET_PATTERN (exn_msg e)); discriminate Hh. }
    destruct val as [ | t | vbs vitems | sd tds ]; try (cbn in Htight; congruence).
    + exists []. unfold copied. cbn [excl]. rewrite Hex. cbn. congruence.
    + cbn [is_tensor_collection] in Hbody.
      destruct (_get_str dest key DefaultNone) as [nv0|e0]; cbn [bind] in Hbody;
        [| discriminate].
      destruct (if is_None nv0 then empty (TensorDict vbs vitems) else Ok nv0)
        as [nv1|e1]; cbn [bind] in Hbody; [| discriminate].
      rewrite keys_TensorDict in Hbody. cbn [bind] in Hbody.
      match type of Hbody with
      | bind ?loop _ = _ => destruct loop as [[ne nv2]|e2] eqn:Hloop
      end; cbn [bind] in Hbody; [| discriminate].
      destruct ne; [| discriminate].
      destruct (set_loop_true
                  (fun d sk => _set_rec fuel (TensorDict vbs vitems) d sk (total ++ [key]) E)
                  _ _ _ _ Hloop) as [Hf | (sk & d & d2 & Hin & Hsub)]; [discriminate|].
      destruct (In_keys_assoc sk vitems Hin) as [x Hx].
      destruct (IHf vbs vitems d sk (total ++ [key]) x d2 Hx
                  (tight_assoc _ _ _ _ Htight Hx) Hsub) as [q Hq].
      exists (sk :: q). unfold copied in *. cbn [excl leaf_at]. rewrite Hex, Hx. cbn [orb].
      exact Hq.
Qed.

Lemma agree_entry_compat val dbs ditems key :
  (forall y, assoc key ditems = Some y -> agree val y = true) ->
  compat (leaf_at val) (fun q => leaf_at (TensorDict dbs ditems) (key :: q)).
Proof.
  intros H. destruct (assoc key ditems) as [y|] eqn:Hy.
  - apply (compat_ext (leaf_at val) (leaf_at val) (leaf_at y)).
    + reflexivity.
    + intros q. cbn [leaf_at]. rewrite Hy. reflexivity.
    + apply agree_compat_leaves. apply H. reflexivity.
  - intros p q. cbn [leaf_at]. rewrite Hy. split; congruence.
Qed.

(** X8: [_set] copies the entry [key] of a batch into the destination: the
    leaves of the entry that are not at or below an excluded key land under
    [key], every other leaf of the destination stays, and the call returns
    [True] exactly when it copied a leaf. *)
Theorem set_copies_the_unexcluded_leaves :
  forall (excluded : list NestedKey) (source_batch_size : list nat)
         (source_items : list (string * value)) (dest_batch_size : list nat)
         (dest_items : list (string * value)) (key : string) (total_key : NestedKey)
         (val : value),
    assoc key source_items = Some val ->
    tight val = true ->
    plain (TensorDict dest_batch_size dest_items) = true ->
    (forall y, assoc key dest_items = Some y -> agree val y = true) ->
    exists non_empty dest_items',
      _set (TensorDict source_batch_size source_items)
           (TensorDict dest_batch_size dest_items) key total_key excluded
        = Ok (non_empty, TensorDict dest_batch_size dest_items')
      /\ (forall k q,
            leaf_at (TensorDict dest_batch_size dest_items') (k :: q)
              = if String.eqb k key
                then match copied excluded (total_key ++ [key]) val q with
                     | Some t => Some t
                     | None => leaf_at (TensorDict dest_batch_size dest_items) (k :: q)
                     end
                else leaf_at (TensorDict dest_batch_size dest_items) (k :: q))
      /\ (non_empty = true <-> exists q, copied excluded (total_key ++ [key]) val q <> None).
Proof.
  intros E sbs sitems dbs ditems key total val Hval Htight Hplain Hagree.
  unfold _set.
  destruct (set_rec_ok E (S (depth (TensorDict sbs sitems))) sbs sitems dbs ditems key total val
              Hval Htight) as (b & ditems' & Hrun & _ & Hleaves & Hfalse).
  - pose proof (depth_entry sbs sitems key val (assoc_In _ _ _ Hval)). lia.
  - exact Hplain.
  - apply agree_entry_compat. exact Hagree.
  - exists b, ditems'. split; [exact Hrun|]. split.
    + intros k q. rewrite Hleaves. reflexivity.
    + split.
      * intros ->. exact (set_true_copies E _ _ _ _ _ _ _ _ Hval Htight Hrun).
      * intros [q Hq]. destruct b; [reflexivity|]. exfalso. apply Hq, Hfalse. reflexivity.
Qed.

Lemma set_copies_witness :
  exists non_empty dest_items',
    _set (TensorDict [] declared_items) (TensorDict [] []) "agent" [] [["done"]]
      = Ok (non_empty, TensorDict [] dest_items')
    /\ (forall k q,
          leaf_at (TensorDict [] dest_items') (k :: q)
            = if String.eqb k "agent"
              then match copied [["done"]] ([] ++ ["agent"])
                           (TensorDict [] [("obs", Tensor f0)]) q with
                   | Some t => Some t
                   | None => leaf_at (TensorDict [] []) (k :: q)
                   end
              else leaf_at (TensorDict [] []) (k :: q))
    /\ (non_empty = true
        <-> exists q, copied [["done"]] ([] ++ ["agent"])
                        (TensorDict [] [("obs", Tensor f0)]) q <> None).
Proof.
  apply (set_copies_the_unexcluded_leaves [["done"]] [] declared_items [] [] "agent" []
           (TensorDict [] [("obs", Tensor f0)])).
  - reflexivity.
  - reflexivity.
  - reflexivity.
  - intros y Hy. discriminate Hy.
Defined.

Lemma compat_sub_left (f f' g : NestedKey -> option tensor) :
  (forall p, f' p <> None -> f p <> None) -> compat f g -> compat f' g.
Proof.
  intros Hsub H. apply compat_sym. apply (compat_sub g f f' Hsub). apply compat_sym. exact H.
Qed.

(** X9: [_set_single_key] copies one leaf: where [key] is a leaf of the
    source, the destination gains that leaf at [key] (the batches on the way
    are created when missing) and keeps every other leaf. *)
Theorem set_single_key_copies_one_leaf :
  forall (source_batch_size : list nat) (source_items : list (string * value))
         (dest_batch_size : list nat) (dest_items : list (string * value))
         (key : NestedKey) (t : tensor),
    leaf_at (TensorDict source_batch_size source_items) key = Some t ->
    plain (TensorDict source_batch_size source_items) = true ->
    plain (TensorDict dest_batch_size dest_items) = true ->
    agree (TensorDict source_batch_size source_items)
          (TensorDict dest_batch_size dest_items) = true ->
    exists dest_items',
      _set_single_key (TensorDict source_batch_size source_items)
                      (TensorDict dest_batch_size dest_items) key
        = Ok (TensorDict dest_batch_size dest_items')
      /\ forall p,
           leaf_at (TensorDict dest_batch_size dest_items') p
             = if key_eqb p key then Some t
               else leaf_at (TensorDict dest_batch_size dest_items) p.
Proof.
  intros sbs sitems dbs ditems key t Hleaf Hps Hpd Hagree.
  unfold _set_single_key.
  destruct (ssk_spec key (S (depth (TensorDict sbs sitems) + length key))
              sbs sitems dbs ditems t Hleaf Hps Hpd) as (ditems' & Hrun & _ & Hleaves).
  - lia.
  - apply (compat_sub_left (leaf_at (TensorDict sbs sitems))).
    + intros p. unfold single. destruct (key_eqb p key) eqn:Ek; [| congruence].
      apply key_eqb_eq in Ek. subst p. intros _. congruence.
    + apply agree_compat_leaves. exact Hagree.
  - exists ditems'. split; [exact Hrun|]. intros p. rewrite Hleaves. unfold single.
    destruct (key_eqb p key); reflexivity.
Qed.

Lemma set_single_key_witness :
  exists dest_items',
    _set_single_key (TensorDict [] declared_items)
                    (TensorDict [] [("done", Tensor bFalse)]) ["agent"; "obs"]
      = Ok (TensorDict [] dest_items')
    /\ forall p,
         leaf_at (TensorDict [] dest_items') p
           = if key_eqb p ["agent"; "obs"] then Some f0
             else leaf_at (TensorDict [] [("done", Tensor bFalse)]) p.
Proof.
  apply (set_single_key_copies_one_leaf [] declared_items [] [("done", Tensor bFalse)]
           ["agent"; "obs"] f0); reflexivity.
Defined.

(** A decidable form of [prefix_free]. *)
Definition prefix_freeb (L : list NestedKey) : bool :=
  forallb (fun p => match p with [] => false | _ :: _ => true end) L
  && forallb (fun p => forallb (fun q => implb (prefixb p q) (key_eqb p q)) L) L.

Lemma prefix_freeb_spec L : prefix_freeb L = true -> prefix_free L.
Proof.
  unfold prefix_freeb. rewrite andb_true_iff, !forallb_forall. intros [H1 H2]. split.
  - intros p Hp E. specialize (H1 p Hp). subst p. discriminate H1.
  - intros p q Hp Hq Hpre. specialize (H2 p Hp). rewrite forallb_forall in H2.
    specialize (H2 q Hq). rewrite Hpre in H2. cbn in H2. apply key_eqb_eq. exact H2.
Qed.

(** X10: for keys none of which is empty or a strict prefix of another,
    [_repr_key_list_as_tree] builds a tree whose root-to-leaf paths are
    exactly the listed keys; the order of the list and repeated keys make no
    difference to the paths. *)
Theorem key_tree_holds_exactly_the_listed_keys :
  forall key_list : list NestedKey,
    prefix_free key_list ->
    exists t,
      _repr_key_list_as_tree key_list = Ok t
      /\ (forall q, tree_mem t q = true <-> In q key_list)
      /\ forall key_list',
           (forall q, In q key_list' <-> In q key_list) ->
           exists t', _repr_key_list_as_tree key_list' = Ok t'
                      /\ forall q, tree_mem t' q = tree_mem t q.
Proof.
  intros l Hfree. destruct (repr_spec l Hfree) as (t & Hrun & _ & Hmem).
  exists t. split; [exact Hrun|]. split.
  - intros q. rewrite Hmem. apply key_in_In.
  - intros l' Hsame.
    assert (Hfree' : prefix_free l').
    { destruct Hfree as [H1 H2]. split.
      - intros p Hp. apply H1, Hsame, Hp.
      - intros p q Hp Hq. apply H2; apply Hsame; assumption. }
    destruct (repr_spec l' Hfree') as (t' & Hrun' & _ & Hmem').
    exists t'. split; [exact Hrun'|]. intros q. rewrite Hmem', Hmem.
    apply key_in_ext. exact Hsame.
Qed.

Lemma key_tree_witness :
  exists t,
    _repr_key_list_as_tree [["agent"; "obs"]; ["done"]; ["agent"; "reward"]] = Ok t
    /\ (forall q, tree_mem t q = true
                  <-> In q [["agent"; "obs"]; ["done"]; ["agent"; "reward"]])
    /\ forall key_list',
         (forall q, In q key_list'
                    <-> In q [["agent"; "obs"]; ["done"]; ["agent"; "reward"]]) ->
         exists t', _repr_key_list_as_tree key_list' = Ok t'
                    /\ forall q, tree_mem t' q = tree_mem t q.
Proof.
  apply (key_tree_holds_exactly_the_listed_keys
           [["agent"; "obs"]; ["done"]; ["agent"; "reward"]]).
  apply prefix_freeb_spec. reflexivity.
Defined.

(** ** More on the precomputed path: what [_grab_and_place] copies *)

Lemma grab_listed_keys L t ibs iitems obs oitems :
  prefix_free L ->
  _repr_key_list_as_tree L = Ok t ->
  plain (TensorDict ibs iitems) = true ->
  plain (TensorDict obs oitems) = true ->
  (forall p, In p L -> leaf_at (TensorDict ibs iitems) p <> None) ->
  compat (leaf_at (TensorDict ibs iitems)) (leaf_at (TensorDict obs oitems)) ->
  exists oitems',
    _grab_and_place t (TensorDict ibs iitems) (TensorDict obs oitems)
      = Ok (TensorDict obs oitems')
    /\ plain (TensorDict obs oitems') = true
    /\ forall p,
         leaf_at (TensorDict obs oitems') p
           = if key_in p L then leaf_at (TensorDict ibs iitems) p
             else leaf_at (TensorDict obs oitems) p.
Proof.
  intros Hfree Hrepr Hpi Hpo Hin Hcompat.
  destruct (repr_spec L Hfree) as (t' & Hrun & Hok & Hmem).
  rewrite Hrepr in Hrun. inversion Hrun; subst t'. clear Hrun.
  destruct (grab_ok t Hok ibs iitems obs oitems Hpi Hpo) as (oitems' & Hgrab & Hp' & Hleaves).
  - intros p Hp. apply Hin. apply key_in_In. rewrite <- Hmem. exact Hp.
  - apply (compat_sub_left (leaf_at (TensorDict ibs iitems))); [| exact Hcompat].
    intros p. unfold tleaf. destruct (tree_mem t p); congruence.
  - exists oitems'. split; [exact Hgrab|]. split; [exact Hp'|].
    intros p. rewrite Hleaves, Hmem. reflexivity.
Qed.

(** X11: [_grab_and_place], given the tree of a list of keys that are all
    leaves of [data_in], writes exactly those leaves into [data_out] and
    leaves every other leaf of [data_out] as it was. *)
Theorem grab_and_place_copies_the_listed_keys :
  forall (key_list : list NestedKey) (t : key_tree)
         (in_batch_size : list nat) (in_items : list (string * value))
         (out_batch_size : list nat) (out_items : list (string * value)),
    prefix_free key_list ->
    _repr_key_list_as_tree key_list = Ok t ->
    plain (TensorDict in_batch_size in_items) = true ->
    plain (TensorDict out_batch_size out_items) = true ->
    (forall p, In p key_list -> leaf_at (TensorDict in_batch_size in_items) p <> None) ->
    agree (TensorDict in_batch_size in_items) (TensorDict out_batch_size out_items) = true ->
    exists out_items',
      _grab_and_place t (TensorDict in_batch_size in_items)
                        (TensorDict out_batch_size out_items)
        = Ok (TensorDict out_batch_size out_items')
      /\ forall p,
           leaf_at (TensorDict out_batch_size out_items') p
             = if key_in p key_list then leaf_at (TensorDict in_batch_size in_items) p
               else leaf_at (TensorDict out_batch_size out_items) p.
Proof.
  intros L t ibs iitems obs oitems Hfree Hrepr Hpi Hpo Hin Hagree.
  destruct (grab_listed_keys L t ibs iitems obs oitems Hfree Hrepr Hpi Hpo Hin
              (agree_compat_leaves _ _ Hagree)) as (oitems' & Hrun & _ & Hleaves).
  exists oitems'. split; [exact Hrun | exact Hleaves].
Qed.

Lemma grab_and_place_witness :
  exists out_items',
    _grab_and_place (KeyTree [("agent", Some (KeyTree [("obs", None)])); ("done", None)])
      next_example (TensorDict [] [("hidden", Tensor f0)])
      = Ok (TensorDict [] out_items')
    /\ forall p,
         leaf_at (TensorDict [] out_items') p
           = if key_in p [["agent"; "obs"]; ["done"]] then leaf_at next_example p
             else leaf_at (TensorDict [] [("hidden", Tensor f0)]) p.
Proof.
  apply (grab_and_place_copies_the_listed_keys [["agent"; "obs"]; ["done"]]
           (KeyTree [("agent", Some (KeyTree [("obs", None)])); ("done", None)])
           [] [("agent", TensorDict [] [("obs", Tensor f1)]);
               ("done", Tensor bFalse); ("reward", Tensor f0)]
           [] [("hidden", Tensor f0)]).
  - apply prefix_freeb_spec. reflexivity.
  - reflexivity.
  - reflexivity.
  - reflexivity.
  - intros p [<- | [<- | []]]; discriminate.
  - reflexivity.
Defined.






Lemma validated_call self bs items nbs nitems :
  validated self = Some true ->
  assoc NEXT items = Some (TensorDict nbs nitems) ->
  __call__ self (TensorDict bs items)
    = mkEffect
        (out <- _grab_and_place (keys_from_root self) (TensorDict bs items)
                  (TensorDict nbs []) ;;
         _grab_and_place (keys_from_next self) (TensorDict nbs nitems) out)
        self [].
Proof.
  intros Hflag Hnext. rewrite call_TensorDict. cbn [_get_str]. rewrite Hnext.
  cbn [bind empty]. unfold validate. rewrite Hflag. reflexivity.
Qed.




(** X13: once the flag is [True], [__call__] on a dense batch that holds
    every key the engine expects returns exactly the expected keys, those of
    ["next"] first: any other entry of the batch, in the root or in
    ["next"], is left out, and no warning is issued. *)
Theorem validated_call_copies_only_the_expected_keys :
  forall (e : env) (keep_other exclude_reward exclude_done exclude_action : bool)
         (engine : _StepMDP) (batch_size : list nat) (items : list (string * value))
         (next_batch_size : list nat) (next_items : list (string * value)),
    _StepMDP_init e keep_other exclude_reward exclude_done exclude_action = Ok engine ->
    prefix_free ((if negb exclude_action then env_action_keys e else [])
                   ++ (if keep_other then env_state_keys e else [])) ->
    prefix_free (env_observation_keys e
                   ++ (if negb exclude_reward then env_reward_keys e else [])
                   ++ (if negb exclude_done then env_done_keys e else [])) ->
    plain (TensorDict batch_size items) = true ->
    assoc NEXT items = Some (TensorDict next_batch_size next_items) ->
    (forall p, In p ((if negb exclude_action then env_action_keys e else [])
                       ++ (if keep_other then env_state_keys e else [])) ->
               leaf_at (TensorDict batch_size items) p <> None) ->
    (forall p, In p (env_observation_keys e
                       ++ (if negb exclude_reward then env_reward_keys e else [])
                       ++ (if negb exclude_done then env_done_keys e else [])) ->
               leaf_at (TensorDict next_batch_size next_items) p <> None) ->
    agree (TensorDict next_batch_size next_items) (TensorDict batch_size items) = true ->
    exists out_items,
      returned (__call__ (set_validated engine (Some true)) (TensorDict batch_size items))
        = Ok (TensorDict next_batch_size out_items)
      /\ warnings (__call__ (set_validated engine (Some true))
                     (TensorDict batch_size items)) = []
      /\ forall p,
           leaf_at (TensorDict next_batch_size out_items) p
             = if key_in p (env_observation_keys e
                              ++ (if negb exclude_reward then env_reward_keys e else [])
                              ++ (if negb exclude_done then env_done_keys e else []))
               then leaf_at (TensorDict next_batch_size next_items) p
               else if key_in p ((if negb exclude_action then env_action_keys e else [])
                                   ++ (if keep_other then env_state_keys e else []))
                    then leaf_at (TensorDict batch_size items) p
                    else None.
Proof.
  intros e ko exr exd exa engine bs items nbs nitems Hinit Hfr Hfn Hplain Hnext Hr Hn Hagree.
  destruct (init_fields _ _ _ _ _ _ Hinit) as (root & next & Hroot & Hnxt & ->).
  rewrite (validated_call (set_validated _ (Some true)) bs items nbs nitems eq_refl Hnext).
  cbn [returned warnings set_validated keys_from_root keys_from_next].
  pose proof (plain_assoc _ _ _ _ Hplain Hnext) as Hpn.
  destruct (grab_listed_keys _ root bs items nbs [] Hfr Hroot Hplain eq_refl Hr)
    as (o1 & Hrun1 & Hp1 & Hl1).
  { intros p q. rewrite !leaf_at_empty. split; congruence. }
  destruct (grab_listed_keys _ next nbs nitems nbs o1 Hfn Hnxt Hpn Hp1 Hn)
    as (o2 & Hrun2 & _ & Hl2).
  { apply (compat_sub _ (leaf_at (TensorDict bs items))).
    - intros p. rewrite Hl1, leaf_at_empty. destruct (key_in p _); congruence.
    - apply agree_compat_leaves. exact Hagree. }
  exists o2. split; [rewrite Hrun1; exact Hrun2|]. split; [reflexivity|].
  intros p. rewrite Hl2, Hl1, leaf_at_empty. reflexivity.
Qed.

Definition undeclared_items : list (string * value) :=
  [("hidden", Tensor f0); ("action", Tensor f0); ("extra", Tensor f1);
   ("next", TensorDict [] [("agent", TensorDict [] [("obs", Tensor f1)]);
                           ("done", Tensor bFalse); ("reward", Tensor f0);
                           ("info", Tensor f1)])].

Lemma validated_call_expected_keys_witness :
  exists out_items,
    returned (__call__ (set_validated transition_engine (Some true))
                (TensorDict [] undeclared_items))
      = Ok (TensorDict [] out_items)
    /\ warnings (__call__ (set_validated transition_engine (Some true))
                   (TensorDict [] undeclared_items)) = []
    /\ forall p,
         leaf_at (TensorDict [] out_items) p
           = if key_in p [["agent"; "obs"]; ["done"]]
             then leaf_at (TensorDict [] [("agent", TensorDict [] [("obs", Tensor f1)]);
                                          ("done", Tensor bFalse); ("reward", Tensor f0);
                                          ("info", Tensor f1)]) p
             else if key_in p [["hidden"]]
                  then leaf_at (TensorDict [] undeclared_items) p
                  else None.
Proof.
  apply (validated_call_copies_only_the_expected_keys transition_env true true false true
           transition_engine [] undeclared_items []
           [("agent", TensorDict [] [("obs", Tensor f1)]);
            ("done", Tensor bFalse); ("reward", Tensor f0); ("info", Tensor f1)]).
  - reflexivity.
  - apply prefix_freeb_spec. reflexivity.
  - apply prefix_freeb_spec. reflexivity.
  - reflexivity.
  - reflexivity.
  - intros p [<- | []]. discriminate.
  - intros p [<- | [<- | []]]; discriminate.
  - reflexivity.
Defined.

(** ** The fallback of [__call__] on lazy stacks *)

(** Every dense batch of the value holds a ["next"] entry. *)
Fixpoint has_next (v : value) : bool :=
  match v with
  | TensorDict _ items =>
      match assoc NEXT items with
      | None | Some PyNone => false
      | Some _ => true
      end
  | LazyStackedTensorDict _ tds => forallb has_next tds
  | _ => false
  end.

(** The comprehension [[self.__call__(td) for td in tensordict.tensordicts]]. *)
Fixpoint call_each (l : list value) (self : _StepMDP) : effect (result (list value)) :=
  match l with
  | [] => mkEffect (Ok []) self []
  | td :: l' =>
      let r1 := __call__ self td in
      match returned r1 with
      | Raise e => mkEffect (Raise e) (self_after r1) (warnings r1)
      | Ok o =>
          let r2 := call_each l' (self_after r1) in
          mkEffect (os <- returned r2 ;; Ok (o :: os)) (self_after r2)
                   (warnings r1 ++ warnings r2)
      end
  end.

(** The comprehension [[step_mdp(td, ...) for td in tensordict.tensordicts]]. *)
Fixpoint step_each (ko exr exd exa : bool) (R D A : list NestedKey) (l : list value)
    {struct l} : result (list value) :=
  match l with
  | [] => Ok []
  | td :: l' =>
      o <- step_mdp td ko exr exd exa R D A ;;
      os <- step_each ko exr exd exa R D A l' ;; Ok (o :: os)
  end.

Lemma call_stack self sd tds :
  __call__ self (LazyStackedTensorDict sd tds)
    = let r := call_each tds self in
      mkEffect (outs <- returned r ;; lazy_stack outs sd) (self_after r) (warnings r).
Proof. reflexivity. Qed.

Lemma step_mdp_stack sd tds ko exr exd exa R D A :
  step_mdp (LazyStackedTensorDict sd tds) ko exr exd exa R D A
    = (outs <- step_each ko exr exd exa R D A tds ;; lazy_stack outs sd).
Proof.
  assert (H : forall l,
            (fix go (l : list value) : result (list value) :=
               match l with
               | [] => Ok []
               | td :: l' =>
                   o <- step_mdp td ko exr exd exa R D A ;;
                   os <- go l' ;; Ok (o :: os)
               end) l = step_each ko exr exd exa R D A l).
  { induction l as [ | td l IH ]; [reflexivity|].
    cbn [step_each]. rewrite <- IH. reflexivity. }
  rewrite <- H. reflexivity.
Qed.

Lemma unvalidated_call self ko exr exd exa R D A :
  validated self = Some false ->
  keep_other self = ko -> exclude_action self = exa -> action_keys self = A ->
  (forall k, key_in k (excluded self) = key_in k (excluded_of exr exd exa R D A)) ->
  forall v, has_next v = true ->
    __call__ self v = mkEffect (step_mdp v ko exr exd exa R D A) self [].
Proof.
  intros Hflag Hko Hexa HA HE.
  induction v as [ | t | bs items _ | sd tds IH ] using value_rect'; intros Hn;
    try discriminate Hn.
  - cbn [has_next] in Hn.
    destruct (assoc NEXT items) as [x|] eqn:Hx; [| discriminate Hn].
    assert (Hget : forall d, _get_str (TensorDict bs items) NEXT d = Ok x).
    { intros d. cbn. rewrite Hx. destruct x; [discriminate Hn | reflexivity ..]. }
    rewrite call_TensorDict, step_mdp_TensorDict. unfold get. cbn [get_from].
    rewrite !Hget. cbn [bind].
    destruct (empty x) as [out|err]; cbn [bind]; [| reflexivity].
    unfold validate. rewrite Hflag. cbn [returned self_after warnings].
    rewrite Hko, Hexa, HA. f_equal.
    apply generic_copy_excluded_ext. exact HE.
  - rewrite call_stack, step_mdp_stack. cbn [has_next] in Hn.
    assert (Hall : call_each tds self
                   = mkEffect (step_each ko exr exd exa R D A tds) self []).
    { induction tds as [ | td tds IHl ]; [reflexivity|].
      cbn [forallb] in Hn. apply andb_true_iff in Hn. destruct Hn as [Hn1 Hn2].
      pose proof (Forall_inv IH) as IH1. pose proof (Forall_inv_tail IH) as IH2.
      cbn [call_each step_each]. rewrite (IH1 Hn1). cbn [returned self_after warnings].
      destruct (step_mdp td ko exr exd exa R D A) as [o|err]; cbn [bind]; [| reflexivity].
      rewrite (IHl IH2 Hn2). reflexivity. }
    rewrite Hall. reflexivity.
Qed.

(** X14: once the flag is [False], [__call__] is [step_mdp]: on a dense
    batch that holds ["next"], and on any nesting of lazy stacks of such
    batches, it returns what [step_mdp] returns with the engine's settings
    and the environment's keys (errors included), leaves the engine as it
    was and issues no warning. *)
Theorem unvalidated_call_is_step_mdp :
  forall (e : env) (keep_other exclude_reward exclude_done exclude_action : bool)
         (engine : _StepMDP) (tensordict : value),
    _StepMDP_init e keep_other exclude_reward exclude_done exclude_action = Ok engine ->
    has_next tensordict = true ->
    __call__ (set_validated engine (Some false)) tensordict
      = mkEffect
          (step_mdp tensordict keep_other exclude_reward exclude_done exclude_action
             (env_reward_keys e) (env_done_keys e) (env_action_keys e))
          (set_validated engine (Some false)) [].
Proof.
  intros e ko exr exd exa engine td Hinit Hn.
  destruct (init_fields _ _ _ _ _ _ Hinit) as (root & next & _ & _ & ->).
  apply unvalidated_call; try reflexivity; [| exact Hn].
  intros k. cbn [set_validated excluded]. apply key_in_nodup.
Qed.

Lemma unvalidated_call_witness :
  __call__ (set_validated transition_engine (Some false))
    (LazyStackedTensorDict 0 [TensorDict [] declared_items; TensorDict [] undeclared_items])
    = mkEffect
        (step_mdp
           (LazyStackedTensorDict 0
              [TensorDict [] declared_items; TensorDict [] undeclared_items])
           true true false true [["reward"]] [["done"]] [["action"]])
        (set_validated transition_engine (Some false)) [].
Proof.
  apply (unvalidated_call_is_step_mdp transition_env true true false true
           transition_engine
           (LazyStackedTensorDict 0
              [TensorDict [] declared_items; TensorDict [] undeclared_items]));
    reflexivity.
Defined.

(* ====================================================================== *)
(** ** The public walk: [terminated_or_truncated] *)
(* ====================================================================== *)

(** *** What the public walk reports *)

(** Some done / terminated / truncated leaf, at any depth, is true. *)
Fixpoint any_done (v : value) : bool :=
  match v with
  | TensorDict _ items =>
      existsb (fun kv => if done_named kv then leaf_true (snd kv) else any_done (snd kv))
              items
  | _ => false
  end.

Lemma map_orb_false l : map (orb false) l = l.
Proof. induction l as [ | b l IH ]; cbn; [reflexivity | rewrite IH; reflexivity]. Qed.

Lemma aggregate_or_tensor_ok bs s0 agg v :
  agg_ok bs s0 agg -> done_leaf_ok bs s0 v = true ->
  exists a, aggregate_or_tensor agg v = Ok (Some a)
            /\ agg_ok bs s0 (Some a)
            /\ tensor_any a = agg_any agg || leaf_true v.
Proof.
  intros Hagg Hv. destruct v as [ | t | | ]; cbn in Hv; try discriminate.
  destruct (data t) as [l|] eqn:Hd; [| discriminate].
  rewrite !andb_true_iff in Hv. destruct Hv as [[Hlen Hs] Hpre].
  apply Nat.eqb_eq in Hlen. apply shape_eqb_true in Hs.
  destruct agg as [a|]; cbn [aggregate_or_tensor].
  - destruct Hagg as (la & Hda & Hla & Hsa & Hpa).
    unfold tensor_or. rewrite Hda, Hd, Hsa, Hs, shape_eqb_refl. cbn.
    eexists. split; [reflexivity|]. split.
    + exists (zip_with orb la l). cbn. repeat split; try assumption.
      rewrite length_zip_with; congruence.
    + unfold tensor_any. cbn. rewrite Hda, Hd. cbn.
      apply existsb_zip_with_orb. congruence.
  - unfold tensor_or, tensor_False. cbn [data bool_tensor shape]. rewrite Hd.
    destruct (shape_eqb [] (shape t)) eqn:Es.
    + apply shape_eqb_true in Es. rewrite <- Es in Hlen. cbn in Hlen.
      destruct l as [ | y [ | z l ] ]; try discriminate Hlen.
      cbn. eexists. split; [reflexivity|]. split.
      * rewrite <- Es in Hpre. rewrite <- Hs, <- Es.
        exists [y]. cbn. repeat split. exact Hpre.
      * unfold tensor_any. cbn. rewrite Hd. reflexivity.
    + cbn. rewrite map_orb_false. eexists. split; [reflexivity|]. split.
      * exists l. cbn. repeat split; congruence.
      * unfold tensor_any. cbn. rewrite Hd. reflexivity.
Qed.

(** One iteration of the schema-less loop of the public walk. *)
Definition public_step (fuel : nat) (key : option string) (curr_done_key : NestedKey)
    (st : option tensor * bool * value * list NestedKey) (it : string * value)
    : result (option tensor * bool * value * list NestedKey) :=
  let '(aggregate, any_eot, data, list_of_keys) := st in
  let '(eot_key, item) := it in
  if String.eqb eot_key "done" then
    done <- get_or_zeros data eot_key ;;
    aggregate <- aggregate_or_tensor aggregate done ;;
    Ok (aggregate, any_eot, data, list_of_keys)
  else if String.eqb eot_key "terminated" || String.eqb eot_key "truncated" then
    done <- get_or_zeros data eot_key ;;
    aggregate <- aggregate_or_tensor aggregate done ;;
    Ok (aggregate, any_eot, data, list_of_keys)
  else if is_tensor_collection item then
    w <- terminated_or_truncated_inner fuel item None key
           (curr_done_key ++ [eot_key]) list_of_keys ;;
    data <- _set_str data eot_key (walked w) ;;
    Ok (aggregate, any_eot || eot w, data, written w)
  else Ok st.

Lemma public_inner_unfold fuel data key curr ks :
  terminated_or_truncated_inner (S fuel) data None key curr ks
    = (its <- items_of data ;;
       '(aggregate, any_eot, data, list_of_keys) <-
         foldM (public_step fuel key curr) its (None, false, data, ks) ;;
       store_aggregate aggregate any_eot data key curr list_of_keys).
Proof. reflexivity. Qed.

Lemma is_done_name_cases k :
  is_done_name k
    = (String.eqb k "done" || (String.eqb k "terminated" || String.eqb k "truncated")).
Proof.
  unfold is_done_name.
  destruct (String.eqb k "done"), (String.eqb k "terminated"), (String.eqb k "truncated");
    reflexivity.
Qed.

Section PublicWalk.
Variable fuel : nat.
Variable key : option string.
Hypothesis IH : forall data curr ks,
  done_ready data = true -> plain data = true -> is_TensorDict data = true ->
  depth data < fuel ->
  exists data' ks',
    terminated_or_truncated_inner fuel data None key curr ks
      = Ok (mkWalk (any_done data) data' ks').

Lemma public_loop_spec curr bs s0 : forall l agg any items ks,
  agg_ok bs s0 agg ->
  (forall k v, In (k, v) l ->
     if is_done_name k
     then assoc k items = Some v /\ done_leaf_ok bs s0 v = true
     else is_tensor_collection v = true ->
          done_ready v = true /\ plain v = true /\ is_TensorDict v = true
          /\ depth v < fuel) ->
  exists agg' items' ks',
    foldM (public_step fuel key curr) l (agg, any, TensorDict bs items, ks)
      = Ok (agg',
            any || existsb (fun kv => negb (done_named kv) && any_done (snd kv)) l,
            TensorDict bs items', ks')
    /\ agg_ok bs s0 agg'
    /\ agg_any agg'
       = agg_any agg || existsb (fun kv => done_named kv && leaf_true (snd kv)) l.
Proof.
  induction l as [ | [k v] l IHl ]; intros agg any items ks Hagg Hall.
  - exists agg, items, ks. cbn. rewrite !orb_false_r. auto.
  - pose proof (Hall k v (or_introl eq_refl)) as Hkv.
    assert (Hrest : forall items',
              (forall k', is_done_name k' = true -> assoc k' items' = assoc k' items) ->
              forall k' v', In (k', v') l ->
                if is_done_name k'
                then assoc k' items' = Some v' /\ done_leaf_ok bs s0 v' = true
                else is_tensor_collection v' = true ->
                     done_ready v' = true /\ plain v' = true /\ is_TensorDict v' = true
                     /\ depth v' < fuel).
    { intros items' Hsame k' v' Hin. specialize (Hall k' v' (or_intror Hin)).
      destruct (is_done_name k') eqn:E; [| exact Hall].
      rewrite (Hsame k' E). exact Hall. }
    cbn [foldM existsb]. unfold done_named at 1 3. cbn [fst snd].
    destruct (is_done_name k) eqn:Ek.
    + destruct Hkv as [Ha Hv].
      destruct (aggregate_or_tensor_ok bs s0 agg v Hagg Hv) as (a & Hor & Hok & Hany).
      assert (Hget : get_or_zeros (TensorDict bs items) k = Ok v).
      { unfold get_or_zeros, get_or_None. cbn [get_from _get_str]. rewrite Ha.
        destruct v; cbn in Hv; try discriminate. reflexivity. }
      assert (Hstep : public_step fuel key curr (agg, any, TensorDict bs items, ks) (k, v)
                      = Ok (Some a, any, TensorDict bs items, ks)).
      { unfold public_step. rewrite is_done_name_cases in Ek.
        destruct (String.eqb k "done"); [rewrite Hget; cbn [bind]; rewrite Hor; reflexivity|].
        cbn [orb] in Ek. rewrite Ek, Hget. cbn [bind]. rewrite Hor. reflexivity. }
      rewrite Hstep. cbn [bind].
      destruct (IHl (Some a) any items ks Hok (Hrest items (fun _ _ => eq_refl)))
        as (agg' & items' & ks' & Hf & Hok' & Hany').
      exists agg', items', ks'. rewrite Hf. cbn [negb andb orb].
      split; [reflexivity|]. split; [exact Hok'|].
      rewrite Hany'. cbn [agg_any]. rewrite Hany, orb_assoc. reflexivity.
    + assert (Hnot : String.eqb k "done" = false
                     /\ (String.eqb k "terminated" || String.eqb k "truncated") = false).
      { rewrite is_done_name_cases in Ek. apply orb_false_iff in Ek. exact Ek. }
      destruct Hnot as [Hn1 Hn2]. cbn [negb andb orb].
      destruct (is_tensor_collection v) eqn:Ev.
      * destruct (Hkv eq_refl) as (Hr & Hpl & Htd & Hd).
        destruct (IH v (curr ++ [k]) ks Hr Hpl Htd Hd) as (v' & ks1 & Hw).
        assert (Hstep : public_step fuel key curr (agg, any, TensorDict bs items, ks) (k, v)
                        = Ok (agg, any || any_done v,
                              TensorDict bs (assoc_set k v' items), ks1)).
        { unfold public_step. rewrite Hn1, Hn2, Ev, Hw. reflexivity. }
        rewrite Hstep. cbn [bind].
        destruct (IHl agg (any || any_done v) (assoc_set k v' items) ks1 Hagg)
          as (agg' & items' & ks' & Hf & Hok' & Hany').
        { apply Hrest. intros k' Hk'. apply assoc_set_other. congruence. }
        exists agg', items', ks'. rewrite Hf, orb_assoc.
        split; [reflexivity | split; assumption].
      * assert (Hstep : public_step fuel key curr (agg, any, TensorDict bs items, ks) (k, v)
                        = Ok (agg, any, TensorDict bs items, ks)).
        { unfold public_step. rewrite Hn1, Hn2, Ev. reflexivity. }
        rewrite Hstep. cbn [bind].
        destruct (IHl agg any items ks Hagg (Hrest items (fun _ _ => eq_refl)))
          as (agg' & items' & ks' & Hf & Hok' & Hany').
        exists agg', items', ks'. rewrite Hf.
        assert (Hv0 : any_done v = false).
        { destruct v; try reflexivity; discriminate Ev. }
        rewrite Hv0. cbn [orb]. split; [reflexivity | split; assumption].
Qed.
End PublicWalk.

Lemma store_aggregate_spec bs s0 items agg any key curr ks :
  agg_ok bs s0 agg ->
  exists items' ks',
    store_aggregate agg any (TensorDict bs items) key curr ks
      = Ok (mkWalk (any || agg_any agg) (TensorDict bs items') ks').
Proof.
  intros Hagg. unfold store_aggregate. destruct agg as [a|].
  - destruct key as [k|].
    + destruct Hagg as (l & Hd & Hl & Hs & Hp). unfold set_tensor.
      cbn [batch_size_of bind]. rewrite Hs, Hp. cbn [_set_str bind].
      eexists. eexists. reflexivity.
    + eexists. eexists. reflexivity.
  - cbn [agg_any]. rewrite orb_false_r. eexists. eexists. reflexivity.
Qed.

Lemma any_done_split items :
  existsb (fun kv => if done_named kv then leaf_true (snd kv) else any_done (snd kv)) items
    = existsb (fun kv => negb (done_named kv) && any_done (snd kv)) items
      || existsb (fun kv => done_named kv && leaf_true (snd kv)) items.
Proof.
  induction items as [ | kv items IH ]; cbn [existsb]; [reflexivity|].
  rewrite IH.
  destruct (done_named kv), (leaf_true (snd kv)), (any_done (snd kv)),
    (existsb (fun kv => negb (done_named kv) && any_done (snd kv)) items),
    (existsb (fun kv => done_named kv && leaf_true (snd kv)) items); reflexivity.
Qed.

(** On a batch whose done entries are well-shaped boolean leaves the public
    schema-less walk returns, and it returns [any_done]. *)
Lemma public_walk (key : option string) : forall fuel data curr ks,
  done_ready data = true -> plain data = true -> is_TensorDict data = true ->
  depth data < fuel ->
  exists data' ks',
    terminated_or_truncated_inner fuel data None key curr ks
      = Ok (mkWalk (any_done data) data' ks').
Proof.
  induction fuel as [ | fuel IH ]; intros data curr ks Hr Hp Htd Hd; [lia|].
  destruct data as [ | t | bs items | sd tds ]; try discriminate.
  rewrite public_inner_unfold. cbn [items_of bind].
  destruct (done_ready_entries bs items Hr) as [Hleaves Hsubs].
  pose proof Hp as Hp'. cbn in Hp'. rewrite andb_true_iff in Hp'.
  destruct Hp' as [Hnd Hall]. apply nodupb_NoDup in Hnd.
  destruct (public_loop_spec fuel key) with
    (curr := curr) (bs := bs) (s0 := done_shape items) (l := items)
    (agg := @None tensor) (any := false) (items := items) (ks := ks)
    as (agg & items' & ks' & Hf & Hok & Hany).
  - intros d c k0 Hr0 Hp0 Htd0 Hd0. apply IH; assumption.
  - exact I.
  - intros k v Hin. destruct (is_done_name k) eqn:Ek.
    + split; [exact (In_assoc_nodup k v items Hnd Hin)|].
      rewrite forallb_forall in Hleaves. specialize (Hleaves (k, v) Hin).
      unfold done_named in Hleaves. cbn [fst snd] in Hleaves. rewrite Ek in Hleaves.
      exact Hleaves.
    + intros Ev.
      assert (Hsub : In (k, v) (sub_batches items)).
      { unfold sub_batches. apply filter_In. split; [exact Hin|].
        unfold done_named. cbn [fst snd]. rewrite Ek, Ev. reflexivity. }
      destruct (Hsubs k v Hsub) as (H1 & H2 & H3).
      rewrite forallb_forall in Hall. pose proof (Hall (k, v) Hin) as Hpv.
      repeat split; try assumption.
      pose proof (depth_entry bs items k v H3). lia.
  - rewrite Hf. cbn [bind].
    destruct (store_aggregate_spec bs (done_shape items) items' agg
                (false || existsb (fun kv => negb (done_named kv) && any_done (snd kv)) items)
                key curr ks' Hok) as (items2 & ks2 & Hs).
    rewrite Hs. exists (TensorDict bs items2), ks2. f_equal. f_equal.
    cbn [any_done orb agg_any] in *. rewrite Hany, any_done_split. reflexivity.
Qed.

(** A done / terminated / truncated leaf, at any depth, that is true. *)
Definition true_done_leaf (batch : value) : Prop :=
  exists p name t,
    is_done_name name = true /\ leaf_at batch (p ++ [name]) = Some t
    /\ tensor_any t = true.

Lemma any_done_true_leaf : forall batch,
  plain batch = true -> done_ready batch = true ->
  (any_done batch = true <-> true_done_leaf batch).
Proof.
  induction batch as [ | t | bs items IH | sd tds _ ] using value_rect';
    intros Hp Hr; try discriminate.
  - split; [discriminate|]. intros (p & name & t' & _ & Hl & _).
    destruct p; cbn in Hl; discriminate.
  - pose proof Hp as Hp'. cbn in Hp'. rewrite andb_true_iff in Hp'.
    destruct Hp' as [Hnd Hall]. apply nodupb_NoDup in Hnd.
    rewrite forallb_forall in Hall. rewrite Forall_forall in IH.
    cbn [done_ready] in Hr. rewrite forallb_forall in Hr.
    cbn [any_done]. split.
    + intros H. apply existsb_exists in H. destruct H as ([k x] & Hin & H).
      pose proof (In_assoc_nodup k x items Hnd Hin) as Ha.
      destruct (done_named (k, x)) eqn:Ek.
      * cbn [snd] in H. destruct x as [ | t | | ]; try discriminate.
        exists [], k, t. repeat split; try assumption.
        cbn. rewrite Ha. reflexivity.
      * specialize (Hr (k, x) Hin). rewrite Ek in Hr. cbn [snd] in *.
        apply (IH (k, x) Hin (Hall (k, x) Hin) Hr) in H.
        destruct H as (p & name & t & Hname & Hl & Ht).
        exists (k :: p), name, t. repeat split; try assumption.
        cbn. rewrite Ha. exact Hl.
    + intros (p & name & t & Hname & Hl & Ht).
      destruct p as [ | k p ].
      * cbn in Hl. destruct (assoc name items) as [x|] eqn:Ha; [| discriminate].
        destruct x; try discriminate. inversion Hl; subst.
        apply existsb_exists. exists (name, Tensor t). split; [apply assoc_In; exact Ha|].
        unfold done_named. cbn [fst snd]. rewrite Hname. exact Ht.
      * cbn in Hl. destruct (assoc k items) as [x|] eqn:Ha; [| discriminate].
        pose proof (assoc_In _ _ _ Ha) as Hin.
        apply existsb_exists. exists (k, x). split; [exact Hin|].
        specialize (Hr (k, x) Hin). cbn [snd] in *.
        destruct (done_named (k, x)) eqn:Ek.
        -- exfalso. destruct x as [ | tx | | ]; cbn in Hr; try discriminate.
           destruct p; cbn in Hl; discriminate.
        -- apply (IH (k, x) Hin (Hall (k, x) Hin) Hr).
           exists p, name, t. repeat split; assumption.
Qed.

(** X15: without a spec, on a batch of nested [TensorDict]s whose done /
    terminated / truncated entries are boolean leaves shaped alike within
    each node, the public [terminated_or_truncated] returns, and it returns
    true if and only if some such leaf, at any depth, is true: here the
    leaves of a node do not prevail over those nested beneath it. *)
Theorem public_walk_reports_every_done_leaf :
  forall (batch : value) (key : option string) (write_full_false : bool),
    plain batch = true -> done_ready batch = true -> is_TensorDict batch = true ->
    exists b batch',
      terminated_or_truncated batch None key write_full_false = Ok (b, batch')
      /\ (b = true <-> true_done_leaf batch).
Proof.
  intros batch key wff Hp Hr Htd.
  destruct (public_walk key (S (depth batch)) batch [] [] Hr Hp Htd (Nat.lt_succ_diag_r _))
    as (batch' & ks' & Hw).
  unfold terminated_or_truncated. rewrite Hw. cbn [bind eot walked written].
  exists (any_done batch).
  destruct (negb (any_done batch) && negb wff); eexists;
    (split; [reflexivity | apply any_done_true_leaf; assumption]).
Qed.

Lemma public_walk_witness :
  exists b batch',
    terminated_or_truncated shadowed_batch None (Some "_reset") false = Ok (b, batch')
    /\ (b = true <-> true_done_leaf shadowed_batch).
Proof.
  apply (public_walk_reports_every_done_leaf shadowed_batch (Some "_reset") false);
    reflexivity.
Defined.

Lemma deciding_leaf_is_true_leaf batch : deciding_leaf batch -> true_done_leaf batch.
Proof.
  intros (p & name & t & _ & Hname & Hl & Ht). exists p, name, t. auto.
Qed.

(** X16: on such batches, without a spec, the private
    [_terminated_or_truncated] and the public [terminated_or_truncated] both
    return; whenever the private one reports true so does the public one,
    and they report the same whenever no done leaf lies beneath a node that
    has done leaves of its own. *)
Theorem private_walk_reports_no_more_than_the_public_one :
  forall (batch : value) (key : option string) (write_full_false : bool),
    plain batch = true -> done_ready batch = true -> is_TensorDict batch = true ->
    exists b_private batch_private b_public batch_public,
      _terminated_or_truncated batch None key write_full_false
        = Ok (b_private, batch_private)
      /\ terminated_or_truncated batch None key write_full_false
         = Ok (b_public, batch_public)
      /\ (b_private = true -> b_public = true)
      /\ ((forall p name t,
             is_done_name name = true -> leaf_at batch (p ++ [name]) = Some t ->
             unshadowed batch p) ->
          b_private = b_public).
Proof.
  intros batch key wff Hp Hr Htd.
  destruct (walk_no_schema key (S (depth batch)) batch [] [] Hr Htd (Nat.lt_succ_diag_r _))
    as (b1 & ks1 & Hw1).
  destruct (public_walk key (S (depth batch)) batch [] [] Hr Hp Htd (Nat.lt_succ_diag_r _))
    as (b2 & ks2 & Hw2).
  unfold _terminated_or_truncated, terminated_or_truncated.
  rewrite Hw1, Hw2. cbn [bind eot walked written].
  pose proof (eot_of_deciding_leaf batch Hp) as H1.
  pose proof (any_done_true_leaf batch Hp Hr) as H2.
  assert (Himp : eot_of batch = true -> any_done batch = true).
  { intros H. apply H2, deciding_leaf_is_true_leaf, H1, H. }
  assert (Hconv : (forall p name t,
                     is_done_name name = true -> leaf_at batch (p ++ [name]) = Some t ->
                     unshadowed batch p) ->
                  eot_of batch = any_done batch).
  { intros Hflat. destruct (any_done batch) eqn:Ea.
    - apply H1. destruct (proj1 H2 eq_refl) as (p & name & t & Hn & Hl & Ht).
      exists p, name, t. repeat split; try assumption. exact (Hflat p name t Hn Hl).
    - destruct (eot_of batch); [symmetry; apply Himp; reflexivity | reflexivity]. }
  exists (eot_of batch).
  destruct (negb (eot_of batch) && negb wff); eexists;
    exists (any_done batch);
    destruct (negb (any_done batch) && negb wff); eexists;
    (split; [reflexivity|]); (split; [reflexivity|]); (split; [exact Himp | exact Hconv]).
Qed.

Lemma private_and_public_walk_witness :
  exists b_private batch_private b_public batch_public,
    _terminated_or_truncated shadowed_batch None (Some "_reset") false
      = Ok (b_private, batch_private)
    /\ terminated_or_truncated shadowed_batch None (Some "_reset") false
       = Ok (b_public, batch_public)
    /\ (b_private = true -> b_public = true)
    /\ ((forall p name t,
           is_done_name name = true -> leaf_at shadowed_batch (p ++ [name]) = Some t ->
           unshadowed shadowed_batch p) ->
        b_private = b_public).
Proof.
  apply (private_walk_reports_no_more_than_the_public_one shadowed_batch
           (Some "_reset") false); reflexivity.
Defined.

(* ====================================================================== *)
(** ** What [_per_level_env_check] accepts *)
(* ====================================================================== *)

(** *** What the check accepts *)

Lemma for_each_returns {A} (f : A -> outcome unit) (l : list A) :
  for_each f l = Returns tt <-> forall x, In x l -> f x = Returns tt.
Proof.
  induction l as [ | x l IH ]; cbn [for_each].
  - split; [intros _ y [] | reflexivity].
  - destruct (f x) as [[]|a|e] eqn:Ef; cbn [obind].
    + rewrite IH. split.
      * intros H y [<- | Hy]; [exact Ef | apply H; exact Hy].
      * intros H y Hy. apply H. right. exact Hy.
    + split; [discriminate|]. intros H. specialize (H x (or_introl eq_refl)). congruence.
    + split; [discriminate|]. intros H. specialize (H x (or_introl eq_refl)). congruence.
Qed.

Lemma names_eqb_spec a b :
  names_eqb a b = true <-> forall k, In k a <-> In k b.
Proof.
  unfold names_eqb. rewrite andb_true_iff, !forallb_forall. split.
  - intros [H1 H2] k. split; intros Hk.
    + apply existsb_eqb_In. apply H1. exact Hk.
    + apply existsb_eqb_In. apply H2. exact Hk.
  - intros H. split; intros k Hk; apply existsb_eqb_In; apply H; exact Hk.
Qed.



Lemma node_at_entry bs items k q :
  node_at (TensorDict bs items) (k :: q)
    = match assoc k items with Some x => node_at x q | None => None end.
Proof. reflexivity. Qed.


Lemma assoc_keys_iff k (l : list (string * value)) :
  In k (map fst l) <-> assoc k l <> None.
Proof.
  split.
  - intros Hin. destruct (In_keys_assoc k l Hin) as [x Hx]. congruence.
  - intros Hne. destruct (assoc k l) as [x|] eqn:E; [| congruence].
    apply assoc_In in E. apply (in_map fst) in E. exact E.
Qed.

Section PerLevelCheckProofs.
Variable enum : list string -> list string.
Hypothesis enum_spec : forall l k, In k (enum l) <-> In k l.

(** The statements of the loop of the check for one key. *)
Definition check_entry (fuel : nat) (data0 data1 : value) (check_dtype : bool)
    (key : string) : outcome unit :=
  _data0 <~ lift (get data0 [key]) ;;
  _data1 <~ lift (get data1 [key]) ;;
  shape0 <~ lift (value_shape _data0) ;;
  shape1 <~ lift (value_shape _data1) ;;
  if negb (shape_eqb shape0 shape1)
  then AssertionError (Shapes_dont_match key)
  else if is_tensor_collection _data0
  then _per_level_env_check_rec enum fuel _data0 _data1 check_dtype
  else if check_dtype then
    dtype0 <~ lift (value_dtype _data0) ;;
    dtype1 <~ lift (value_dtype _data1) ;;
    if negb (same_dtype dtype0 dtype1)
    then AssertionError (Dtypes_dont_match key)
    else Returns tt
  else Returns tt.

Lemma check_dense fuel bs0 items0 bs1 items1 cd :
  _per_level_env_check_rec enum (S fuel) (TensorDict bs0 items0) (TensorDict bs1 items1) cd
    = if negb (names_eqb (map fst items0) (map fst items1))
      then AssertionError Keys_mismatch
      else for_each (check_entry fuel (TensorDict bs0 items0) (TensorDict bs1 items1) cd)
                    (enum (map fst items0)).
Proof. reflexivity. Qed.

Lemma check_against_tensor fuel bs items t cd :
  _per_level_env_check_rec enum fuel (TensorDict bs items) (Tensor t) cd <> Returns tt.
Proof. destruct fuel; cbn; discriminate. Qed.

(** One key of two plain batches. *)
Lemma check_entry_plain fuel bs0 items0 bs1 items1 cd k x0 x1 :
  plain (TensorDict bs0 items0) = true -> plain (TensorDict bs1 items1) = true ->
  assoc k items0 = Some x0 -> assoc k items1 = Some x1 ->
  check_entry fuel (TensorDict bs0 items0) (TensorDict bs1 items1) cd k
    = match x0, x1 with
      | Tensor t0, Tensor t1 =>
          if negb (shape_eqb (shape t0) (shape t1))
          then AssertionError (Shapes_dont_match k)
          else if cd && negb (same_dtype (dtype_of t0) (dtype_of t1))
               then AssertionError (Dtypes_dont_match k) else Returns tt
      | Tensor t0, TensorDict b1 _ =>
          if negb (shape_eqb (shape t0) b1)
          then AssertionError (Shapes_dont_match k)
          else if cd then Escapes (mkExn AttributeError "dtype") else Returns tt
      | TensorDict b0 _, Tensor t1 =>
          if negb (shape_eqb b0 (shape t1))
          then AssertionError (Shapes_dont_match k)
          else _per_level_env_check_rec enum fuel x0 x1 cd
      | TensorDict b0 _, TensorDict b1 _ =>
          if negb (shape_eqb b0 b1)
          then AssertionError (Shapes_dont_match k)
          else _per_level_env_check_rec enum fuel x0 x1 cd
      | _, _ => Returns tt
      end.
Proof.
  intros Hp0 Hp1 H0 H1.
  pose proof (plain_assoc _ _ _ _ Hp0 H0) as Hx0.
  pose proof (plain_assoc _ _ _ _ Hp1 H1) as Hx1.
  unfold check_entry, get. cbn [get_from].
  rewrite (plain_get_str _ _ _ _ Hp0), (plain_get_str _ _ _ _ Hp1), H0, H1.
  cbn [lift obind].
  destruct x0 as [ | t0 | b0 i0 | ? ? ], x1 as [ | t1 | b1 i1 | ? ? ];
    try discriminate Hx0; try discriminate Hx1;
    cbn [value_shape batch_size_of lift obind is_tensor_collection value_dtype raise].
  - destruct (negb (shape_eqb (shape t0) (shape t1))); [reflexivity|].
    destruct cd; cbn [andb]; [| reflexivity].
    destruct (negb (same_dtype (dtype_of t0) (dtype_of t1))); reflexivity.
  - destruct (negb (shape_eqb (shape t0) b1)); [reflexivity|].
    destruct cd; reflexivity.
  - reflexivity.
  - reflexivity.
Qed.

End PerLevelCheckProofs.

Section PerLevelCheckDtype.
Variable enum : list string -> list string.

Lemma check_entry_weaker fuel d0 d1 key :
  (forall x0 x1, _per_level_env_check_rec enum fuel x0 x1 true = Returns tt ->
                 _per_level_env_check_rec enum fuel x0 x1 false = Returns tt) ->
  check_entry enum fuel d0 d1 true key = Returns tt ->
  check_entry enum fuel d0 d1 false key = Returns tt.
Proof.
  intros IH. unfold check_entry.
  destruct (lift (get d0 [key])) as [x0| |]; cbn [obind]; try discriminate.
  destruct (lift (get d1 [key])) as [x1| |]; cbn [obind]; try discriminate.
  destruct (lift (value_shape x0)) as [s0| |]; cbn [obind]; try discriminate.
  destruct (lift (value_shape x1)) as [s1| |]; cbn [obind]; try discriminate.
  destruct (negb (shape_eqb s0 s1)); [discriminate|].
  destruct (is_tensor_collection x0); [apply IH | reflexivity].
Qed.

(** Whatever passes with [check_dtype] passes without it. *)
Lemma check_rec_weaker : forall fuel d0 d1,
  _per_level_env_check_rec enum fuel d0 d1 true = Returns tt ->
  _per_level_env_check_rec enum fuel d0 d1 false = Returns tt.
Proof.
  induction fuel as [ | fuel IH ]; intros d0 d1; [discriminate|].
  assert (Hdense :
            (keys0 <~ lift (keys d0) ;;
             keys1 <~ lift (keys d1) ;;
             if negb (names_eqb keys0 keys1) then AssertionError Keys_mismatch
             else for_each (check_entry enum fuel d0 d1 true) (enum keys0)) = Returns tt ->
            (keys0 <~ lift (keys d0) ;;
             keys1 <~ lift (keys d1) ;;
             if negb (names_eqb keys0 keys1) then AssertionError Keys_mismatch
             else for_each (check_entry enum fuel d0 d1 false) (enum keys0)) = Returns tt).
  { destruct (lift (keys d0)) as [k0| |]; cbn [obind]; try discriminate.
    destruct (lift (keys d1)) as [k1| |]; cbn [obind]; try discriminate.
    destruct (negb (names_eqb k0 k1)); [discriminate|].
    rewrite !for_each_returns. intros H key Hin.
    apply (check_entry_weaker fuel d0 d1 key IH). apply H. exact Hin. }
  destruct d0 as [ | t0 | bs0 items0 | sd0 tds0 ]; try exact Hdense.
  destruct d1 as [ | t1 | bs1 items1 | sd1 tds1 ]; try exact Hdense.
  cbn [_per_level_env_check_rec].
  destruct (negb (Nat.eqb sd0 sd1)); [discriminate|].
  rewrite !for_each_returns. intros H p Hin. apply IH. apply H. exact Hin.
Qed.
End PerLevelCheckDtype.



(** X18: whatever passes [_per_level_env_check] with [check_dtype] passes
    without it, for any two values and any enumeration order. *)
Theorem check_dtype_only_narrows :
  forall (enum : list string -> list string) (data0 data1 : value),
    _per_level_env_check enum data0 data1 true = Returns tt ->
    _per_level_env_check enum data0 data1 false = Returns tt.
Proof.
  intros enum d0 d1. unfold _per_level_env_check. apply check_rec_weaker.
Qed.

Lemma check_dtype_only_narrows_witness :
  _per_level_env_check (fun l => l) (TensorDict [] declared_items)
    (TensorDict [] declared_items) false = Returns tt.
Proof.
  apply (check_dtype_only_narrows (fun l => l)). reflexivity.
Defined.






Section PerLevelCheckLoose.
Variable enum : list string -> list string.
Hypothesis enum_spec : forall l k, In k (enum l) <-> In k l.

(** Whatever [check_dtype] is, a check that returns has found, for every
    entry of [data0], an entry of the same shape in [data1]. *)
Lemma check_rec_counterparts cd : forall fuel d0 d1,
  plain d0 = true -> plain d1 = true ->
  is_TensorDict d0 = true -> is_TensorDict d1 = true -> depth d0 < fuel ->
  _per_level_env_check_rec enum fuel d0 d1 cd = Returns tt ->
  forall p x0, p <> [] -> node_at d0 p = Some x0 ->
    exists x1, node_at d1 p = Some x1 /\ value_shape x1 = value_shape x0
               /\ (is_TensorDict x0 = true -> is_TensorDict x1 = true).
Proof.
  induction fuel as [ | fuel IH ]; intros d0 d1 Hp0 Hp1 Htd0 Htd1 Hd Hrun; [lia|].
  destruct d0 as [ | | bs0 items0 | ]; try discriminate.
  destruct d1 as [ | | bs1 items1 | ]; try discriminate.
  rewrite check_dense in Hrun.
  destruct (names_eqb (map fst items0) (map fst items1)) eqn:En; [| discriminate].
  cbn [negb] in Hrun. pose proof (proj1 (names_eqb_spec _ _) En) as Hkeys.
  rewrite for_each_returns in Hrun.
  intros [ | k q ] x0 Hne Hnode; [congruence|].
  rewrite node_at_entry in Hnode |- *.
  destruct (assoc k items0) as [y0|] eqn:H0; [| discriminate].
  assert (Hin0 : In k (map fst items0)) by (apply assoc_keys_iff; congruence).
  destruct (In_keys_assoc k items1 (proj1 (Hkeys k) Hin0)) as [y1 H1].
  rewrite H1.
  specialize (Hrun k (proj2 (enum_spec _ _) Hin0)).
  rewrite (check_entry_plain enum fuel bs0 items0 bs1 items1 cd k y0 y1 Hp0 Hp1 H0 H1) in Hrun.
  pose proof (plain_assoc _ _ _ _ Hp0 H0) as Hy0.
  pose proof (plain_assoc _ _ _ _ Hp1 H1) as Hy1.
  pose proof (depth_entry bs0 items0 k y0 (assoc_In _ _ _ H0)) as Hdy.
  destruct y0 as [ | t0 | b0 i0 | ? ? ], y1 as [ | t1 | b1 i1 | ? ? ];
    try discriminate Hy0; try discriminate Hy1.
  - destruct (shape_eqb (shape t0) (shape t1)) eqn:Es; [| discriminate].
    apply shape_eqb_true in Es.
    destruct q; [| discriminate]. cbn in Hnode. inversion Hnode; subst x0.
    exists (Tensor t1). cbn. rewrite Es. repeat split. discriminate.
  - destruct (shape_eqb (shape t0) b1) eqn:Es; [| discriminate].
    apply shape_eqb_true in Es.
    destruct q; [| discriminate]. cbn in Hnode. inversion Hnode; subst x0.
    exists (TensorDict b1 i1). cbn. rewrite Es. repeat split.
  - exfalso. destruct (negb (shape_eqb b0 (shape t1))); [discriminate|].
    exact (check_against_tensor enum _ _ _ _ _ Hrun).
  - destruct (shape_eqb b0 b1) eqn:Es; [| discriminate].
    apply shape_eqb_true in Es. cbn [negb] in Hrun.
    destruct q as [ | k' q ].
    + cbn in Hnode. inversion Hnode; subst x0.
      exists (TensorDict b1 i1). cbn. rewrite Es. repeat split.
    + apply (IH (TensorDict b0 i0) (TensorDict b1 i1) Hy0 Hy1 eq_refl eq_refl);
        [lia | exact Hrun | discriminate | exact Hnode].
Qed.

(** A tensor of [data0] facing a batch of [data1] whose batch size is the
    tensor's shape passes when [check_dtype] is off. *)
Lemma check_tensor_against_batch bs0 bs1 k t sub_items :
  _per_level_env_check enum (TensorDict bs0 [(k, Tensor t)])
    (TensorDict bs1 [(k, TensorDict (shape t) sub_items)]) false = Returns tt.
Proof.
  unfold _per_level_env_check. rewrite check_dense. cbn [map fst].
  assert (En : names_eqb [k] [k] = true).
  { apply names_eqb_spec. intros k0. reflexivity. }
  rewrite En. cbn [negb]. apply for_each_returns. intros k0 Hk0.
  apply (proj1 (enum_spec _ _)) in Hk0. destruct Hk0 as [<- | []].
  unfold check_entry, get. cbn [get_from _get_str assoc]. rewrite String.eqb_refl.
  cbn [lift obind value_shape batch_size_of]. rewrite shape_eqb_refl. reflexivity.
Qed.
End PerLevelCheckLoose.

(** X25: whatever [check_dtype] is, when [_per_level_env_check] returns on
    two plain batches, every entry of [data0], at any depth, has an entry
    at the same path in [data1] with the same shape (batch size, for a
    batch), and a batch faces a batch.  With [check_dtype] off the converse
    kind check is not made: a tensor of [data0] passes against a batch of
    [data1] whose batch size is the tensor's shape. *)
Theorem per_level_check_finds_a_counterpart_of_every_entry :
  forall (enum : list string -> list string) (check_dtype : bool)
         (batch_size0 : list nat) (items0 : list (string * value))
         (batch_size1 : list nat) (items1 : list (string * value)),
    (forall l k, In k (enum l) <-> In k l) ->
    plain (TensorDict batch_size0 items0) = true ->
    plain (TensorDict batch_size1 items1) = true ->
    (_per_level_env_check enum (TensorDict batch_size0 items0)
       (TensorDict batch_size1 items1) check_dtype = Returns tt ->
     forall p x0, p <> [] -> node_at (TensorDict batch_size0 items0) p = Some x0 ->
       exists x1, node_at (TensorDict batch_size1 items1) p = Some x1
                  /\ value_shape x1 = value_shape x0
                  /\ (is_TensorDict x0 = true -> is_TensorDict x1 = true))
    /\ (forall bs0 bs1 k t sub_items,
          _per_level_env_check enum (TensorDict bs0 [(k, Tensor t)])
            (TensorDict bs1 [(k, TensorDict (shape t) sub_items)]) false = Returns tt).
Proof.
  intros enum cd bs0 items0 bs1 items1 Henum Hp0 Hp1. split.
  - unfold _per_level_env_check. intros Hrun.
    apply (check_rec_counterparts enum Henum cd (S (depth (TensorDict bs0 items0))));
      try assumption; try reflexivity. lia.
  - intros. apply check_tensor_against_batch. exact Henum.
Qed.

Lemma per_level_counterpart_witness :
  _per_level_env_check (fun l => l) (TensorDict [] declared_items)
    (TensorDict [3] declared_items) false = Returns tt
  /\ (forall p x0, p <> [] -> node_at (TensorDict [] declared_items) p = Some x0 ->
       exists x1, node_at (TensorDict [3] declared_items) p = Some x1
                  /\ value_shape x1 = value_shape x0
                  /\ (is_TensorDict x0 = true -> is_TensorDict x1 = true)).
Proof.
  split; [reflexivity|].
  apply (proj1 (per_level_check_finds_a_counterpart_of_every_entry (fun l => l) false
                  [] declared_items [3] declared_items
                  (fun l k => iff_refl _) eq_refl eq_refl)).
  reflexivity.
Defined.

(* ====================================================================== *)
(** ** The spec [make_composite_from_td] builds *)
(* ====================================================================== *)

(** The spec found at a path of a composite spec. *)
Fixpoint tensor_spec_at (s : tensor_spec) (p : NestedKey) : option tensor_spec :=
  match p with
  | [] => Some s
  | k :: rest =>
      match s with
      | CompositeSpecOf entries _ =>
          match dict_get k entries with
          | Some sub => tensor_spec_at sub rest
          | None => None
          end
      | UnboundedContinuousTensorSpec _ _ => None
      end
  end.

(** What the function returns on a plain value, as a function. *)
Fixpoint spec_of (v : value) : tensor_spec :=
  match v with
  | TensorDict bs items =>
      CompositeSpecOf (map (fun kv => (fst kv, spec_of (snd kv))) items) bs
  | Tensor t => UnboundedContinuousTensorSpec (dtype_of t) (shape_or_one (shape t))
  | _ => CompositeSpecOf [] []
  end.

Lemma make_composite_loop fuel :
  (forall x, plain x = true -> is_TensorDict x = true -> depth x < fuel ->
             make_composite_from_td_rec fuel x = Ok (spec_of x)) ->
  forall l d,
    NoDup (map fst d ++ map fst l) ->
    (forall k x, In (k, x) l -> plain x = true /\ depth x < fuel) ->
    foldM (fun (d : list (string * tensor_spec)) (it : string * value) =>
             let '(key, tensor) := it in
             s <- (if is_tensor_collection tensor
                   then make_composite_from_td_rec fuel tensor
                   else
                     dt <- value_dtype tensor ;;
                     sh <- value_shape tensor ;;
                     Ok (UnboundedContinuousTensorSpec dt (shape_or_one sh))) ;;
             Ok (dict_set key s d))
          l d
      = Ok (d ++ map (fun kv => (fst kv, spec_of (snd kv))) l).
Proof.
  intros IH. induction l as [ | [k x] l IHl ]; intros d Hnd Hall; cbn [foldM map].
  - rewrite app_nil_r. reflexivity.
  - destruct (Hall k x (or_introl eq_refl)) as [Hpx Hdx].
    assert (Hs : (if is_tensor_collection x
                  then make_composite_from_td_rec fuel x
                  else
                    dt <- value_dtype x ;;
                    sh <- value_shape x ;;
                    Ok (UnboundedContinuousTensorSpec dt (shape_or_one sh)))
                 = Ok (spec_of x)).
    { destruct x as [ | t | bs items | ? ? ]; try discriminate Hpx.
      - reflexivity.
      - cbn [is_tensor_collection]. apply IH; [exact Hpx | reflexivity | exact Hdx]. }
    rewrite Hs. cbn [bind fst snd]. rewrite dict_set_absent.
    + rewrite IHl.
      * rewrite <- app_assoc. reflexivity.
      * rewrite map_app. cbn [map fst]. rewrite <- app_assoc. exact Hnd.
      * intros k' x' Hin. apply (Hall k' x'). right. exact Hin.
    + intros Hin. cbn [map fst] in Hnd. apply NoDup_remove_2 in Hnd. apply Hnd.
      apply in_or_app. left. exact Hin.
Qed.

Lemma make_composite_spec_of : forall fuel data,
  plain data = true -> is_TensorDict data = true -> depth data < fuel ->
  make_composite_from_td_rec fuel data = Ok (spec_of data).
Proof.
  induction fuel as [ | fuel IH ]; intros data Hp Htd Hd; [lia|].
  destruct data as [ | | bs items | ]; try discriminate.
  cbn [make_composite_from_td_rec items_of bind].
  pose proof Hp as Hp'. cbn in Hp'. rewrite andb_true_iff in Hp'.
  destruct Hp' as [Hnd Hall]. apply nodupb_NoDup in Hnd.
  rewrite (make_composite_loop fuel IH items []).
  - reflexivity.
  - exact Hnd.
  - intros k x Hin. split.
    + rewrite forallb_forall in Hall. exact (Hall (k, x) Hin).
    + pose proof (depth_entry bs items k x Hin). lia.
Qed.

Lemma dict_get_map_spec k (items : list (string * value)) :
  dict_get k (map (fun kv => (fst kv, spec_of (snd kv))) items)
    = option_map spec_of (assoc k items).
Proof.
  induction items as [ | [k' x] items IH ]; cbn; [reflexivity|].
  destruct (String.eqb k k'); [reflexivity | exact IH].
Qed.

Lemma spec_of_at : forall p v,
  plain v = true ->
  tensor_spec_at (spec_of v) p = option_map spec_of (node_at v p).
Proof.
  induction p as [ | k p IH ]; intros v Hp; [reflexivity|].
  destruct v as [ | t | bs items | ? ? ]; try discriminate Hp.
  - reflexivity.
  - cbn [spec_of tensor_spec_at node_at]. rewrite dict_get_map_spec.
    destruct (assoc k items) as [x|] eqn:Ha; cbn [option_map]; [| reflexivity].
    apply IH. exact (plain_assoc _ _ _ _ Hp Ha).
Qed.

(** X20: on a plain batch [make_composite_from_td] returns a spec that
    mirrors it: at every path the spec has an entry exactly where the batch
    has one; a tensor gets an unbounded spec of its dtype and its shape, a
    scalar one the shape [[1]], so that no leaf spec has an empty shape; a
    nested batch gets a composite spec whose shape is its batch size. *)
Theorem composite_spec_mirrors_the_batch :
  forall (batch_size : list nat) (items : list (string * value)),
    plain (TensorDict batch_size items) = true ->
    exists s,
      make_composite_from_td (TensorDict batch_size items) = Ok s
      /\ forall p,
           match node_at (TensorDict batch_size items) p, tensor_spec_at s p with
           | Some (Tensor t), Some (UnboundedContinuousTensorSpec dt sh) =>
               dt = dtype_of t /\ sh <> []
               /\ sh = (if Nat.eqb (ndim t) 0 then [1] else shape t)
           | Some (TensorDict bs _), Some (CompositeSpecOf _ sh) => sh = bs
           | None, None => True
           | _, _ => False
           end.
Proof.
  intros bs items Hp. exists (spec_of (TensorDict bs items)). split.
  - unfold make_composite_from_td. apply make_composite_spec_of; [exact Hp | reflexivity | lia].
  - intros p. rewrite (spec_of_at p _ Hp).
    destruct (node_at (TensorDict bs items) p) as [x|] eqn:Hx; cbn [option_map]; [| exact I].
    assert (Hpx : plain x = true).
    { clear - Hp Hx. revert items bs x Hp Hx.
      induction p as [ | k p IH ]; intros items bs x Hp Hx.
      - inversion Hx; subst. exact Hp.
      - cbn in Hx. destruct (assoc k items) as [y|] eqn:Ha; [| discriminate].
        pose proof (plain_assoc _ _ _ _ Hp Ha) as Hy.
        destruct y as [ | t | b i | ? ? ]; try discriminate Hy.
        + destruct p; cbn in Hx; [inversion Hx; reflexivity | discriminate].
        + exact (IH i b x Hy Hx). }
    destruct x as [ | t | b i | ? ? ]; try discriminate Hpx; cbn [spec_of].
    + unfold shape_or_one, ndim. destruct (shape t); cbn; repeat split; discriminate.
    + reflexivity.
Qed.

Lemma composite_spec_witness :
  exists s,
    make_composite_from_td (TensorDict [] declared_items) = Ok s
    /\ forall p,
         match node_at (TensorDict [] declared_items) p, tensor_spec_at s p with
         | Some (Tensor t), Some (UnboundedContinuousTensorSpec dt sh) =>
             dt = dtype_of t /\ sh <> []
             /\ sh = (if Nat.eqb (ndim t) 0 then [1] else shape t)
         | Some (TensorDict bs _), Some (CompositeSpecOf _ sh) => sh = bs
         | None, None => True
         | _, _ => False
         end.
Proof.
  apply (composite_spec_mirrors_the_batch [] declared_items). reflexivity.
Defined.

(* ====================================================================== *)
(** ** More on [_aggregate_end_of_traj]: every reset key present *)
(* ====================================================================== *)

(** Whether the signal [t] marks element [i] of a batch of [n] dimensions:
    some element of [t] within row [i] is true. *)
Definition signal_row (n : nat) (t : tensor) (i : nat) : bool :=
  if Nat.ltb n (ndim t)
  then existsb (fun b => b)
         (slice (i * prod (skipn n (shape t))) (prod (skipn n (shape t))) (truths (data t)))
  else nth i (truths (data t)) false.

Definition row_of (data : value) (n : nat) (key : NestedKey) (i : nat) : bool :=
  match get_or_None data key with
  | Ok (Tensor t) => signal_row n t i
  | _ => false
  end.

(** A reset signal as the loop expects it: a boolean tensor with as many
    elements as its shape says, whose shape extends the batch size. *)
Definition well_formed_signal (batch : value) (batch_size : list nat) (key : NestedKey)
    : Prop :=
  exists t l, get_or_None batch key = Ok (Tensor t)
              /\ data t = Bools l /\ length l = prod (shape t)
              /\ firstn (length batch_size) (shape t) = batch_size.

Lemma nth_map_seq {A} (f : nat -> A) (d : A) n i :
  i < n -> nth i (map f (seq 0 n)) d = f i.
Proof.
  intros Hi. rewrite (nth_indep _ d (f 0)) by (rewrite length_map, length_seq; exact Hi).
  rewrite (map_nth f (seq 0 n) 0 i), seq_nth by exact Hi. reflexivity.
Qed.

Lemma nth_zip_with_orb : forall la lb i,
  length la = length lb ->
  nth i (zip_with orb la lb) false = nth i la false || nth i lb false.
Proof.
  induction la as [ | a la IH ]; intros [ | b lb ] i H; cbn in H; try discriminate.
  - destruct i; reflexivity.
  - destruct i as [ | i ]; cbn; [reflexivity | apply IH; lia].
Qed.

Lemma reduce_to_rows (bs : list nat) (t : tensor) (l : list bool) :
  data t = Bools l -> length l = prod (shape t) ->
  firstn (length bs) (shape t) = bs ->
  exists t' l', reduce_to (length bs) (Tensor t) = Ok t'
                /\ shape t' = bs /\ data t' = Bools l' /\ length l' = prod bs
                /\ forall i, i < prod bs -> nth i l' false = signal_row (length bs) t i.
Proof.
  intros Hd Hl Hs. unfold reduce_to, signal_row.
  destruct (Nat.ltb (length bs) (ndim t)) eqn:E.
  - eexists. eexists. split; [reflexivity|]. unfold flatten_any. cbn [shape data bool_tensor].
    rewrite Hs. repeat split.
    + rewrite length_map, length_seq. reflexivity.
    + intros i Hi. rewrite (nth_map_seq _ false (prod bs) i Hi). reflexivity.
  - apply Nat.ltb_ge in E. unfold ndim in E.
    rewrite firstn_all2 in Hs by exact E.
    exists t, l. split; [reflexivity|]. rewrite Hd. cbn [truths].
    repeat split; congruence.
Qed.

(** The reset value after some keys: [f i] tells whether one of them marks
    batch element [i]. *)
Definition reset_rows (bs : list nat) (r : reset_value) (f : nat -> bool) : Prop :=
  match r with
  | PyFalse => forall i, f i = false
  | ResetTensor a =>
      shape a = bs
      /\ exists la, data a = Bools la /\ length la = prod bs
                    /\ forall i, i < prod bs -> nth i la false = f i
  end.

Lemma reset_or_rows bs r f t l g :
  reset_rows bs r f ->
  shape t = bs -> data t = Bools l -> length l = prod bs ->
  (forall i, i < prod bs -> nth i l false = g i) ->
  exists a, reset_or r t = Ok (ResetTensor a)
            /\ reset_rows bs (ResetTensor a) (fun i => f i || g i).
Proof.
  intros Hr Hs Hd Hl Hg. destruct r as [ | a ]; cbn [reset_or].
  - unfold or_False. rewrite Hd. cbn [bind]. exists t. split; [reflexivity|].
    cbn. split; [exact Hs|]. exists l. repeat split; try assumption.
    intros i Hi. rewrite (Hr i). cbn. apply Hg. exact Hi.
  - destruct Hr as (Ha & la & Hda & Hla & Hf).
    unfold tensor_or. rewrite Hda, Hd, Ha, Hs, shape_eqb_refl. cbn [bind].
    eexists. split; [reflexivity|]. cbn. split; [reflexivity|].
    exists (zip_with orb la l). repeat split.
    + rewrite length_zip_with; congruence.
    + intros i Hi. rewrite nth_zip_with_orb by congruence.
      rewrite (Hf i Hi), (Hg i Hi). reflexivity.
Qed.

Lemma loop_all_present (batch : value) (bs : list nat) : forall ks r hm f,
  hm <> Some true ->
  (forall k, In k ks -> well_formed_signal batch bs k) ->
  reset_rows bs r f ->
  exists r',
    reset_keys_loop batch (length bs) ks r hm
      = Ok (r', match ks with [] => hm | _ => Some false end)
    /\ (ks <> [] -> exists a, r' = ResetTensor a)
    /\ reset_rows bs r' (fun i => f i || existsb (fun k => row_of batch (length bs) k i) ks).
Proof.
  induction ks as [ | k ks IH ]; intros r hm f Hhm Hall Hr.
  - exists r. split; [reflexivity|]. split; [congruence|].
    destruct r as [ | a ]; cbn in *.
    + intros i. rewrite Hr. reflexivity.
    + destruct Hr as (Ha & la & Hda & Hla & Hf). split; [exact Ha|].
      exists la. repeat split; try assumption.
      intros i Hi. rewrite orb_false_r. apply Hf. exact Hi.
  - destruct (Hall k (or_introl eq_refl)) as (t & l & Hg & Hd & Hl & Hs).
    destruct (reduce_to_rows bs t l Hd Hl Hs) as (t' & l' & Hred & Hs' & Hd' & Hl' & Hrow).
    destruct (reset_or_rows bs r f t' l' (signal_row (length bs) t) Hr Hs' Hd' Hl' Hrow)
      as (a & Hor & Ha).
    destruct (IH (ResetTensor a) (Some false)
                (fun i => f i || signal_row (length bs) t i)) as (r' & Hloop & Hsome & Hr');
      [discriminate | intros k' Hk'; apply Hall; right; exact Hk' | exact Ha |].
    exists r'. cbn [reset_keys_loop]. rewrite Hg. cbn [bind is_None].
    assert (Hstep : (local_reset <- reduce_to (length bs) (Tensor t) ;;
                     reset <- reset_or r local_reset ;;
                     reset_keys_loop batch (length bs) ks reset (Some false))
                    = Ok (r', Some false)).
    { rewrite Hred. cbn [bind]. rewrite Hor. cbn [bind]. rewrite Hloop.
      destruct ks; reflexivity. }
    split; [| split].
    + destruct hm as [ [ | ] | ]; [congruence | exact Hstep | exact Hstep].
    + intros _. destruct ks as [ | k2 ks ].
      * cbn in Hloop. inversion Hloop. exists a. reflexivity.
      * apply Hsome. discriminate.
    + destruct r' as [ | a' ]; cbn in Hr' |- *.
      * intros i. specialize (Hr' i). unfold row_of at 1. rewrite Hg.
        rewrite <- orb_assoc in Hr'. exact Hr'.
      * destruct Hr' as (Ha' & la' & Hda' & Hla' & Hf'). split; [exact Ha'|].
        exists la'. repeat split; try assumption.
        intros i Hi. rewrite (Hf' i Hi). unfold row_of at 2. rewrite Hg.
        rewrite orb_assoc. reflexivity.
Qed.

(** X21: when the expected reset keys (given, or derived from the done
    keys) are not empty and each is present in the batch as a well-formed
    boolean signal, [_aggregate_end_of_traj] returns a boolean tensor of the
    batch size whose element [i] is true exactly when some reset signal has
    a true element in its row [i]: the signals are reduced to the batch
    dimensions and or-ed, in whatever order the keys come. *)
Theorem present_reset_keys_are_ored_row_by_row :
  forall (batch : value) (batch_size : list nat)
         (reset_keys done_keys : option (list NestedKey)) (keys : list NestedKey),
    batch_size_of batch = Ok batch_size ->
    reset_keys_of reset_keys done_keys = Some keys ->
    keys <> [] ->
    (forall k, In k keys -> well_formed_signal batch batch_size k) ->
    exists r l,
      _aggregate_end_of_traj batch reset_keys done_keys = Ok (ResetTensor r)
      /\ shape r = batch_size /\ data r = Bools l /\ length l = prod batch_size
      /\ forall i, i < prod batch_size ->
           nth i l false
             = existsb (fun k => row_of batch (length batch_size) k i) keys.
Proof.
  intros batch bs rk dk keys Hbs Hkeys Hne Hall.
  destruct (loop_all_present batch bs keys PyFalse None (fun _ => false))
    as (r' & Hloop & Hsome & Hrows); [discriminate | exact Hall | intros i; reflexivity |].
  destruct (Hsome Hne) as [a ->].
  destruct Hrows as (Ha & la & Hda & Hla & Hf).
  exists a, la. unfold _aggregate_end_of_traj. rewrite Hbs. cbn [bind]. rewrite Hkeys, Hloop.
  cbn [bind]. destruct keys; [congruence|]. repeat split; try assumption.
Qed.

Lemma present_reset_keys_witness :
  exists r l,
    _aggregate_end_of_traj reset_example_current
      (Some [["_reset"]; ["a"; "_reset"]]) None = Ok (ResetTensor r)
    /\ shape r = [2] /\ data r = Bools l /\ length l = prod [2]
    /\ forall i, i < prod [2] ->
         nth i l false
           = existsb (fun k => row_of reset_example_current (length [2]) k i)
               [["_reset"]; ["a"; "_reset"]].
Proof.
  apply (present_reset_keys_are_ored_row_by_row reset_example_current [2]
           (Some [["_reset"]; ["a"; "_reset"]]) None [["_reset"]; ["a"; "_reset"]]).
  - reflexivity.
  - reflexivity.
  - discriminate.
  - intros k [<- | [<- | []]].
    + exists (mkTensor [2; 1] (Bools [true; false])), [true; false].
      repeat split; reflexivity.
    + exists (mkTensor [2; 1] (Bools [true; true])), [true; true].
      repeat split; reflexivity.
Defined.

(** *** No reset key given: the ["_reset"] entries found in the batch *)

Definition RESET : string := "_reset".

(** Whether a ["_reset"] entry, at any depth, marks batch element [i]. *)
Fixpoint resets_at (v : value) (n i : nat) : bool :=
  match v with
  | TensorDict _ items =>
      existsb (fun kv => if String.eqb (fst kv) RESET
                         then match snd kv with
                              | Tensor t => signal_row n t i
                              | _ => false
                              end
                         else resets_at (snd kv) n i) items
  | _ => false
  end.

(** Whether the batch holds a ["_reset"] entry at any depth. *)
Fixpoint has_reset (v : value) : bool :=
  match v with
  | TensorDict _ items =>
      existsb (fun kv => String.eqb (fst kv) RESET || has_reset (snd kv)) items
  | _ => false
  end.

(** Batches whose ["_reset"] entries, at every depth, are well-formed
    boolean signals that extend the batch size [bs]. *)
Fixpoint resets_ready (bs : list nat) (v : value) : bool :=
  match v with
  | Tensor _ => true
  | TensorDict _ items =>
      forallb (fun kv => if String.eqb (fst kv) RESET
                         then match snd kv with
                              | Tensor t =>
                                  match data t with
                                  | Bools l =>
                                      Nat.eqb (length l) (prod (shape t))
                                        && is_prefix bs (shape t)
                                  | Floats _ => false
                                  end
                              | _ => false
                              end
                         else resets_ready bs (snd kv)) items
  | _ => false
  end.

(** The accumulator of [skim_through]: the scalar [False] it starts from as
    long as no entry was met, then a tensor of the batch size. *)
Definition skim_rows (bs : list nat) (a : tensor) (started : bool) (f : nat -> bool)
    : Prop :=
  if started
  then shape a = bs
       /\ exists la, data a = Bools la /\ length la = prod bs
                     /\ forall i, i < prod bs -> nth i la false = f i
  else a = tensor_False /\ forall i, f i = false.

Lemma skim_or bs a started f t l g :
  skim_rows bs a started f ->
  shape t = bs -> data t = Bools l -> length l = prod bs ->
  (forall i, i < prod bs -> nth i l false = g i) ->
  exists a', tensor_or a t = Ok a' /\ skim_rows bs a' true (fun i => f i || g i).
Proof.
  intros Ha Hs Hd Hl Hg. destruct started; cbn [skim_rows] in *.
  - destruct Ha as (Hsa & la & Hda & Hla & Hf).
    unfold tensor_or. rewrite Hda, Hd, Hsa, Hs, shape_eqb_refl.
    eexists. split; [reflexivity|]. cbn. split; [reflexivity|].
    exists (zip_with orb la l). repeat split.
    + rewrite length_zip_with; congruence.
    + intros i Hi. rewrite nth_zip_with_orb by congruence.
      rewrite (Hf i Hi), (Hg i Hi). reflexivity.
  - destruct Ha as [-> Hf]. unfold tensor_or, tensor_False.
    cbn [data bool_tensor shape]. rewrite Hd.
    assert (Hrows : forall i, i < prod bs -> nth i l false = f i || g i).
    { intros i Hi. rewrite (Hf i). apply Hg. exact Hi. }
    destruct (shape_eqb [] (shape t)) eqn:Es.
    + apply shape_eqb_true in Es. rewrite <- Es in Hs. subst bs. cbn in Hl.
      destruct l as [ | y [ | z l ] ]; try discriminate Hl.
      eexists. split; [reflexivity|]. cbn. split; [reflexivity|].
      exists [y]. repeat split. exact Hrows.
    + eexists. split; [reflexivity|]. cbn. rewrite map_orb_false. split; [exact Hs|].
      exists l. repeat split; assumption.
Qed.

(** One iteration of the loop of [skim_through]. *)
Definition skim_step (fuel n : nat) (td : value) (reset : tensor) (key : string)
    : result tensor :=
  if String.eqb key RESET then
    local_reset <- _get_str td key NO_DEFAULT ;;
    local_reset <- reduce_to n local_reset ;;
    tensor_or reset local_reset
  else
    x <- _get_str td key DefaultNone ;;
    if is_tensor_collection x then skim_through fuel n x reset
    else Ok reset.

Lemma skim_unfold fuel n td reset :
  skim_through (S fuel) n td reset
    = (ks <- keys td ;; foldM (skim_step fuel n td) ks reset).
Proof. reflexivity. Qed.

Section Skim.
Variable bs : list nat.
Variable fuel : nat.
Hypothesis IH : forall td a started f,
  plain td = true -> is_TensorDict td = true -> resets_ready bs td = true ->
  depth td < fuel -> skim_rows bs a started f ->
  exists a', skim_through fuel (length bs) td a = Ok a'
             /\ skim_rows bs a' (started || has_reset td)
                  (fun i => f i || resets_at td (length bs) i).

Lemma skim_loop tbs titems : forall l a started f,
  plain (TensorDict tbs titems) = true ->
  (forall k x, In (k, x) l ->
     assoc k titems = Some x /\ plain x = true /\ depth x < fuel
     /\ if String.eqb k RESET
        then exists t lt, x = Tensor t /\ data t = Bools lt /\ length lt = prod (shape t)
                          /\ firstn (length bs) (shape t) = bs
        else resets_ready bs x = true) ->
  skim_rows bs a started f ->
  exists a',
    foldM (skim_step fuel (length bs) (TensorDict tbs titems)) (map fst l) a = Ok a'
    /\ skim_rows bs a'
         (started || existsb (fun kv => String.eqb (fst kv) RESET || has_reset (snd kv)) l)
         (fun i => f i || existsb (fun kv => if String.eqb (fst kv) RESET
                                             then match snd kv with
                                                  | Tensor t => signal_row (length bs) t i
                                                  | _ => false
                                                  end
                                             else resets_at (snd kv) (length bs) i) l).
Proof.
  induction l as [ | [k x] l IHl ]; intros a started f Hp Hall Ha.
  - exists a. split; [reflexivity|]. cbn [existsb]. rewrite orb_false_r.
    destruct started; cbn [skim_rows] in *.
    + destruct Ha as (Hs & la & Hd & Hl & Hf). split; [exact Hs|].
      exists la. repeat split; try assumption.
      intros i Hi. rewrite orb_false_r. apply Hf. exact Hi.
    + destruct Ha as [-> Hf]. split; [reflexivity|]. intros i. rewrite Hf. reflexivity.
  - destruct (Hall k x (or_introl eq_refl)) as (Hk & Hpx & Hdx & Hkind).
    assert (Hrest : forall k' x', In (k', x') l ->
              assoc k' titems = Some x' /\ plain x' = true /\ depth x' < fuel
              /\ if String.eqb k' RESET
                 then exists t lt, x' = Tensor t /\ data t = Bools lt
                                   /\ length lt = prod (shape t)
                                   /\ firstn (length bs) (shape t) = bs
                 else resets_ready bs x' = true).
    { intros k' x' Hin. apply Hall. right. exact Hin. }
    cbn [map fst foldM existsb snd].
    destruct (String.eqb k RESET) eqn:Ek.
    + destruct Hkind as (t & lt & -> & Hd & Hl & Hs).
      destruct (reduce_to_rows bs t lt Hd Hl Hs) as (t' & l' & Hred & Hs' & Hd' & Hl' & Hrow).
      destruct (skim_or bs a started f t' l' (signal_row (length bs) t) Ha Hs' Hd' Hl' Hrow)
        as (a1 & Hor & Ha1).
      assert (Hstep : skim_step fuel (length bs) (TensorDict tbs titems) a k = Ok a1).
      { unfold skim_step. rewrite Ek, (plain_get_str _ _ _ _ Hp), Hk. cbn [bind].
        rewrite Hred. cbn [bind]. exact Hor. }
      rewrite Hstep. cbn [bind].
      destruct (IHl a1 true (fun i => f i || signal_row (length bs) t i) Hp Hrest Ha1)
        as (a' & Hloop & Ha').
      exists a'. split; [exact Hloop|]. cbn [orb] in *. rewrite orb_true_r.
      destruct Ha' as (Hsa & la & Hda & Hla & Hf). split; [exact Hsa|].
      exists la. repeat split; try assumption.
      intros i Hi. rewrite (Hf i Hi), orb_assoc. reflexivity.
    + cbn [orb].
      destruct x as [ | t | xbs xitems | ? ? ]; try discriminate Hpx.
      * assert (Hstep : skim_step fuel (length bs) (TensorDict tbs titems) a k = Ok a).
        { unfold skim_step. rewrite Ek, (plain_get_str _ _ _ _ Hp), Hk. reflexivity. }
        rewrite Hstep. cbn [bind has_reset resets_at orb].
        destruct (IHl a started f Hp Hrest Ha) as (a' & Hloop & Ha').
        exists a'. split; [exact Hloop | exact Ha'].
      * destruct (IH (TensorDict xbs xitems) a started f Hpx eq_refl Hkind Hdx Ha)
          as (a1 & Hsk & Ha1).
        assert (Hstep : skim_step fuel (length bs) (TensorDict tbs titems) a k = Ok a1).
        { unfold skim_step. rewrite Ek, (plain_get_str _ _ _ _ Hp), Hk. cbn [bind].
          exact Hsk. }
        rewrite Hstep. cbn [bind].
        destruct (IHl a1 (started || has_reset (TensorDict xbs xitems))
                    (fun i => f i || resets_at (TensorDict xbs xitems) (length bs) i)
                    Hp Hrest Ha1) as (a' & Hloop & Ha').
        exists a'. split; [exact Hloop|]. rewrite orb_assoc.
        destruct (started || has_reset (TensorDict xbs xitems)
                  || existsb (fun kv => String.eqb (fst kv) RESET || has_reset (snd kv)) l);
          cbn [skim_rows] in *.
        -- destruct Ha' as (Hsa & la & Hda & Hla & Hf). split; [exact Hsa|].
           exists la. repeat split; try assumption.
           intros i Hi. rewrite (Hf i Hi), orb_assoc. reflexivity.
        -- destruct Ha' as [-> Hf]. split; [reflexivity|].
           intros i. rewrite orb_assoc. apply Hf.
Qed.
End Skim.

Lemma skim_main (bs : list nat) : forall fuel td a started f,
  plain td = true -> is_TensorDict td = true -> resets_ready bs td = true ->
  depth td < fuel -> skim_rows bs a started f ->
  exists a', skim_through fuel (length bs) td a = Ok a'
             /\ skim_rows bs a' (started || has_reset td)
                  (fun i => f i || resets_at td (length bs) i).
Proof.
  induction fuel as [ | fuel IH ]; intros td a started f Hp Htd Hr Hd Ha; [lia|].
  destruct td as [ | | tbs titems | ]; try discriminate.
  rewrite skim_unfold, keys_TensorDict. cbn [bind].
  pose proof Hp as Hp'. cbn in Hp'. rewrite andb_true_iff in Hp'.
  destruct Hp' as [Hnd Hall]. apply nodupb_NoDup in Hnd.
  rewrite forallb_forall in Hall. cbn [resets_ready] in Hr. rewrite forallb_forall in Hr.
  apply (skim_loop bs fuel IH tbs titems titems a started f Hp); [| exact Ha].
  intros k x Hin. split; [exact (In_assoc_nodup k x titems Hnd Hin)|].
  split; [exact (Hall (k, x) Hin)|].
  split; [pose proof (depth_entry tbs titems k x Hin); lia|].
  specialize (Hr (k, x) Hin). cbn [fst snd] in Hr.
  destruct (String.eqb k RESET); [| exact Hr].
  destruct x as [ | t | | ]; try discriminate Hr.
  destruct (data t) as [lt|] eqn:Hdt; [| discriminate Hr].
  apply andb_true_iff in Hr. destruct Hr as [Hlen Hpre].
  apply Nat.eqb_eq in Hlen. apply is_prefix_true in Hpre.
  exists t, lt. repeat split; assumption.
Qed.

Lemma resets_ready_entry bs tbs items k x :
  resets_ready bs (TensorDict tbs items) = true -> In (k, x) items ->
  if String.eqb k RESET then exists t, x = Tensor t else resets_ready bs x = true.
Proof.
  cbn [resets_ready]. rewrite forallb_forall. intros H Hin.
  specialize (H (k, x) Hin). cbn [fst snd] in H.
  destruct (String.eqb k RESET); [| exact H].
  destruct x as [ | t | | ]; try discriminate H. exists t. reflexivity.
Qed.

(** A ["_reset"] entry at some depth that satisfies [P]. *)
Definition reset_entry (P : tensor -> Prop) (batch : value) : Prop :=
  exists p t, leaf_at batch (p ++ [RESET]) = Some t /\ P t.

Lemma reset_entry_node P bs tbs items :
  plain (TensorDict tbs items) = true -> resets_ready bs (TensorDict tbs items) = true ->
  (reset_entry P (TensorDict tbs items)
   <-> exists k x, In (k, x) items
                   /\ if String.eqb k RESET then exists t, x = Tensor t /\ P t
                      else reset_entry P x).
Proof.
  intros Hp Hr. pose proof Hp as Hp'. cbn in Hp'. rewrite andb_true_iff in Hp'.
  destruct Hp' as [Hnd _]. apply nodupb_NoDup in Hnd. split.
  - intros (p & t & Hl & HP). destruct p as [ | k p ].
    + cbn in Hl. destruct (assoc RESET items) as [x|] eqn:Ha; [| discriminate].
      destruct x; try discriminate. inversion Hl; subst.
      exists RESET, (Tensor t). split; [apply assoc_In; exact Ha|].
      rewrite String.eqb_refl. exists t. auto.
    + cbn in Hl. destruct (assoc k items) as [x|] eqn:Ha; [| discriminate].
      pose proof (assoc_In _ _ _ Ha) as Hin.
      exists k, x. split; [exact Hin|].
      pose proof (resets_ready_entry bs tbs items k x Hr Hin) as Hk.
      destruct (String.eqb k RESET).
      * destruct Hk as [t' ->]. destruct p; cbn in Hl; discriminate.
      * exists p, t. auto.
  - intros (k & x & Hin & H). pose proof (In_assoc_nodup k x items Hnd Hin) as Ha.
    destruct (String.eqb_spec k RESET) as [-> | Hne].
    + destruct H as (t & -> & HP). exists [], t. split; [| exact HP].
      cbn. rewrite Ha. reflexivity.
    + destruct H as (p & t & Hl & HP). exists (k :: p), t. split; [| exact HP].
      cbn. rewrite Ha. exact Hl.
Qed.

Lemma resets_at_entry bs n i : forall batch,
  plain batch = true -> resets_ready bs batch = true ->
  (resets_at batch n i = true <-> reset_entry (fun t => signal_row n t i = true) batch).
Proof.
  induction batch as [ | t | tbs items IH | sd tds _ ] using value_rect';
    intros Hp Hr; try discriminate.
  - split; [discriminate|]. intros (p & t' & Hl & _). destruct p; cbn in Hl; discriminate.
  - rewrite (reset_entry_node _ bs tbs items Hp Hr). cbn [resets_at].
    rewrite existsb_exists. rewrite Forall_forall in IH.
    pose proof Hp as Hp'. cbn in Hp'. rewrite andb_true_iff in Hp'.
    destruct Hp' as [_ Hall]. rewrite forallb_forall in Hall.
    split.
    + intros ([k x] & Hin & H). cbn [fst snd] in H. exists k, x. split; [exact Hin|].
      pose proof (resets_ready_entry bs tbs items k x Hr Hin) as Hk.
      destruct (String.eqb k RESET).
      * destruct Hk as [t ->]. exists t. auto.
      * apply (IH (k, x) Hin (Hall (k, x) Hin) Hk). exact H.
    + intros (k & x & Hin & H). exists (k, x). split; [exact Hin|]. cbn [fst snd].
      pose proof (resets_ready_entry bs tbs items k x Hr Hin) as Hk.
      destruct (String.eqb k RESET).
      * destruct H as (t & -> & H). exact H.
      * apply (IH (k, x) Hin (Hall (k, x) Hin) Hk). exact H.
Qed.

Lemma has_reset_entry bs : forall batch,
  plain batch = true -> resets_ready bs batch = true ->
  (has_reset batch = true <-> reset_entry (fun _ => True) batch).
Proof.
  induction batch as [ | t | tbs items IH | sd tds _ ] using value_rect';
    intros Hp Hr; try discriminate.
  - split; [discriminate|]. intros (p & t' & Hl & _). destruct p; cbn in Hl; discriminate.
  - rewrite (reset_entry_node _ bs tbs items Hp Hr). cbn [has_reset].
    rewrite existsb_exists. rewrite Forall_forall in IH.
    pose proof Hp as Hp'. cbn in Hp'. rewrite andb_true_iff in Hp'.
    destruct Hp' as [_ Hall]. rewrite forallb_forall in Hall.
    split.
    + intros ([k x] & Hin & H). cbn [fst snd] in H. exists k, x. split; [exact Hin|].
      pose proof (resets_ready_entry bs tbs items k x Hr Hin) as Hk.
      destruct (String.eqb k RESET).
      * destruct Hk as [t ->]. exists t. auto.
      * apply (IH (k, x) Hin (Hall (k, x) Hin) Hk). exact H.
    + intros (k & x & Hin & H). exists (k, x). split; [exact Hin|]. cbn [fst snd].
      pose proof (resets_ready_entry bs tbs items k x Hr Hin) as Hk.
      destruct (String.eqb k RESET); [reflexivity|].
      apply (IH (k, x) Hin (Hall (k, x) Hin) Hk). exact H.
Qed.

(** X22: with neither reset keys nor done keys, on a plain batch whose
    ["_reset"] entries are well-formed boolean signals,
    [_aggregate_end_of_traj] returns; when the batch holds no ["_reset"]
    entry at any depth the result is the scalar [torch.tensor(False)], not
    a tensor of the batch size; otherwise it is a boolean tensor of the
    batch size whose element [i] is true exactly when some ["_reset"]
    entry, at any depth, has a true element in its row [i]. *)
Theorem found_reset_entries_are_ored_row_by_row :
  forall (batch_size : list nat) (items : list (string * value)),
    plain (TensorDict batch_size items) = true ->
    resets_ready batch_size (TensorDict batch_size items) = true ->
    exists r,
      _aggregate_end_of_traj (TensorDict batch_size items) None None = Ok (ResetTensor r)
      /\ ((forall p, leaf_at (TensorDict batch_size items) (p ++ [RESET]) = None) ->
          r = tensor_False)
      /\ ((exists p t, leaf_at (TensorDict batch_size items) (p ++ [RESET]) = Some t) ->
          shape r = batch_size
          /\ exists l, data r = Bools l /\ length l = prod batch_size
               /\ forall i, i < prod batch_size ->
                    (nth i l false = true
                     <-> exists p t,
                           leaf_at (TensorDict batch_size items) (p ++ [RESET]) = Some t
                           /\ signal_row (length batch_size) t i = true)).
Proof.
  intros bs items Hp Hr.
  destruct (skim_main bs (S (depth (TensorDict bs items))) (TensorDict bs items)
              tensor_False false (fun _ => false) Hp eq_refl Hr (Nat.lt_succ_diag_r _))
    as (r & Hrun & Hrows); [split; reflexivity|].
  exists r. unfold _aggregate_end_of_traj. cbn [batch_size_of bind reset_keys_of].
  change (bool_tensor [] [false]) with tensor_False. rewrite Hrun. cbn [bind].
  split; [reflexivity|]. cbn [orb] in Hrows.
  pose proof (has_reset_entry bs _ Hp Hr) as Hhas. split.
  - intros Hnone. destruct (has_reset (TensorDict bs items)).
    + exfalso. destruct (proj1 Hhas eq_refl) as (p & t & Hl & _).
      rewrite Hnone in Hl. discriminate.
    + destruct Hrows as [-> _]. reflexivity.
  - intros (p & t & Hl).
    assert (Hh : has_reset (TensorDict bs items) = true).
    { apply Hhas. exists p, t. auto. }
    rewrite Hh in Hrows. destruct Hrows as (Hs & l & Hd & Hlen & Hf).
    split; [exact Hs|]. exists l. repeat split; try assumption.
    + intros Hi. apply (resets_at_entry bs (length bs) i _ Hp Hr).
      rewrite <- (Hf i H). exact Hi.
    + intros He. rewrite (Hf i H). apply (resets_at_entry bs (length bs) i _ Hp Hr). exact He.
Qed.

Lemma found_reset_entries_witness :
  exists r,
    _aggregate_end_of_traj reset_example_current None None = Ok (ResetTensor r)
    /\ ((forall p, leaf_at reset_example_current (p ++ [RESET]) = None) -> r = tensor_False)
    /\ ((exists p t, leaf_at reset_example_current (p ++ [RESET]) = Some t) ->
        shape r = [2]
        /\ exists l, data r = Bools l /\ length l = prod [2]
             /\ forall i, i < prod [2] ->
                  (nth i l false = true
                   <-> exists p t,
                         leaf_at reset_example_current (p ++ [RESET]) = Some t
                         /\ signal_row (length [2]) t i = true)).
Proof.
  apply (found_reset_entries_are_ored_row_by_row [2]
           [("_reset", Tensor (mkTensor [2; 1] (Bools [true; false])));
            ("a", TensorDict [2]
                    [("_reset", Tensor (mkTensor [2; 1] (Bools [true; true])));
                     ("obs", Tensor (mkTensor [2] (Floats [1%float; 2%float])))])]);
    reflexivity.
Defined.

(** *** The public walk along a done spec *)

(** Some leaf the spec names, at any depth, is true in the batch. *)
Fixpoint any_spec (s : spec) (v : value) : bool :=
  match s, v with
  | CompositeSpec entries, TensorDict _ items =>
      existsb (fun e => match snd e with
                        | LeafSpec => entry_true items (fst e)
                        | CompositeSpec _ =>
                            match assoc (fst e) items with
                            | Some x => any_spec (snd e) x
                            | None => false
                            end
                        end) entries
  | _, _ => false
  end.

(** One iteration of the loop of the public walk along a spec. *)
Definition public_schema_step (fuel : nat) (key : option string) (curr_done_key : NestedKey)
    (st : option tensor * bool * value * list NestedKey) (it : string * spec)
    : result (option tensor * bool * value * list NestedKey) :=
  let '(aggregate, any_eot, data, list_of_keys) := st in
  let '(eot_key, item) := it in
  if is_composite item then
    sub <- get data [eot_key] ;;
    w <- terminated_or_truncated_inner fuel sub (Some item) key
           (curr_done_key ++ [eot_key]) list_of_keys ;;
    data <- _set_str data eot_key (walked w) ;;
    Ok (aggregate, any_eot || eot w, data, written w)
  else
    sop <- get_or_zeros data eot_key ;;
    aggregate <- aggregate_or_tensor aggregate sop ;;
    Ok (aggregate, any_eot, data, list_of_keys).

Lemma public_schema_unfold fuel data s key curr ks :
  terminated_or_truncated_inner (S fuel) data (Some s) key curr ks
    = (sits <- spec_items s ;;
       '(aggregate, any_eot, data, list_of_keys) <-
         foldM (public_schema_step fuel key curr) sits (None, false, data, ks) ;;
       store_aggregate aggregate any_eot data key curr list_of_keys).
Proof. reflexivity. Qed.

Definition child_any (items : list (string * value)) (e : string * spec) : bool :=
  match snd e with
  | LeafSpec => false
  | CompositeSpec _ =>
      match assoc (fst e) items with
      | Some x => any_spec (snd e) x
      | None => false
      end
  end.

Lemma get_or_zeros_stop bs items k :
  get_or_zeros (TensorDict bs items) k = Ok (stop_of bs items k).
Proof. unfold get_or_zeros, get_or_None. cbn [get_from]. apply stop_lookup. Qed.

Lemma stop_of_same bs items items0 k :
  assoc k items = assoc k items0 -> stop_of bs items k = stop_of bs items0 k.
Proof. unfold stop_of. intros ->. reflexivity. Qed.

Section PublicSchemaWalk.
Variable fuel : nat.
Variable key : option string.
Hypothesis IH : forall s data curr ks,
  spec_ready s data = true -> depth data < fuel ->
  exists data' ks',
    terminated_or_truncated_inner fuel data (Some s) key curr ks
      = Ok (mkWalk (any_spec s data) data' ks').

Lemma public_schema_loop curr bs s0 items0 : forall l agg any items ks,
  agg_ok bs s0 agg ->
  NoDup (map fst l) ->
  (forall k, In k (map fst l) -> assoc k items = assoc k items0) ->
  (forall k s, In (k, s) l ->
     if is_composite s
     then exists x, assoc k items0 = Some x /\ is_TensorDict x = true
                    /\ spec_ready s x = true /\ depth x < fuel
     else done_leaf_ok bs s0 (stop_of bs items0 k) = true) ->
  exists agg' items' ks',
    foldM (public_schema_step fuel key curr) l (agg, any, TensorDict bs items, ks)
      = Ok (agg', any || existsb (child_any items0) l, TensorDict bs items', ks')
    /\ agg_ok bs s0 agg'
    /\ agg_any agg'
       = agg_any agg || existsb (fun e => leaf_spec e && entry_true items0 (fst e)) l.
Proof.
  induction l as [ | [k s] l IHl ]; intros agg any items ks Hagg Hnd Hsame Hall.
  - exists agg, items, ks. cbn. rewrite !orb_false_r. auto.
  - inversion Hnd as [ | ? ? Hnotin Hnd' ]; subst.
    pose proof (Hall k s (or_introl eq_refl)) as Hks.
    assert (Hrest : forall k0 s1, In (k0, s1) l ->
              if is_composite s1
              then exists x, assoc k0 items0 = Some x /\ is_TensorDict x = true
                             /\ spec_ready s1 x = true /\ depth x < fuel
              else done_leaf_ok bs s0 (stop_of bs items0 k0) = true).
    { intros k0 s1 Hin. apply (Hall k0 s1). right. exact Hin. }
    cbn [foldM existsb]. unfold child_any at 1, leaf_spec at 1. cbn [fst snd].
    destruct s as [ | es ]; cbn [is_composite negb andb] in *.
    + destruct (aggregate_or_tensor_ok bs s0 agg _ Hagg Hks) as (a & Hor & Hok & Hany).
      assert (Hstep : public_schema_step fuel key curr (agg, any, TensorDict bs items, ks)
                        (k, LeafSpec)
                      = Ok (Some a, any, TensorDict bs items, ks)).
      { unfold public_schema_step. cbn [is_composite].
        rewrite get_or_zeros_stop, (stop_of_same bs items items0 k (Hsame k (or_introl eq_refl))).
        cbn [bind]. rewrite Hor. reflexivity. }
      rewrite Hstep. cbn [bind].
      destruct (IHl (Some a) any items ks Hok Hnd') as (agg' & items' & ks' & Hf & Hok' & Hany');
        [intros k0 Hin; apply Hsame; right; exact Hin | exact Hrest |].
      exists agg', items', ks'. rewrite Hf. cbn [orb]. split; [reflexivity|].
      split; [exact Hok'|].
      rewrite Hany'. cbn [agg_any]. rewrite Hany, leaf_true_stop_of, orb_assoc. reflexivity.
    + destruct Hks as (x & Hx & Htd & Hr & Hd).
      destruct (IH (CompositeSpec es) x (curr ++ [k]) ks Hr Hd) as (x' & ks1 & Hw).
      assert (Hstep : public_schema_step fuel key curr (agg, any, TensorDict bs items, ks)
                        (k, CompositeSpec es)
                      = Ok (agg, any || any_spec (CompositeSpec es) x,
                            TensorDict bs (assoc_set k x' items), ks1)).
      { unfold public_schema_step, get. cbn [is_composite get_from _get_str].
        rewrite (Hsame k (or_introl eq_refl)), Hx.
        destruct x; try discriminate Htd. cbn [bind]. rewrite Hw. reflexivity. }
      rewrite Hstep. cbn [bind].
      destruct (IHl agg (any || any_spec (CompositeSpec es) x) (assoc_set k x' items) ks1
                  Hagg Hnd') as (agg' & items' & ks' & Hf & Hok' & Hany');
        [ | exact Hrest |].
      { intros k0 Hin. rewrite assoc_set_other.
        - apply Hsame. right. exact Hin.
        - intros ->. contradiction. }
      exists agg', items', ks'. rewrite Hf, Hx, orb_assoc.
      split; [reflexivity | split; assumption].
Qed.
End PublicSchemaWalk.

Lemma any_spec_split items entries :
  existsb (fun e => match snd e with
                    | LeafSpec => entry_true items (fst e)
                    | CompositeSpec _ =>
                        match assoc (fst e) items with
                        | Some x => any_spec (snd e) x
                        | None => false
                        end
                    end) entries
    = existsb (child_any items) entries
      || existsb (fun e => leaf_spec e && entry_true items (fst e)) entries.
Proof.
  induction entries as [ | [k s] entries IH ]; cbn [existsb]; [reflexivity|].
  rewrite IH. unfold child_any at 2, leaf_spec at 2. cbn [fst snd].
  destruct s as [ | es ]; cbn [is_composite negb andb orb].
  - destruct (entry_true items k), (existsb (child_any items) entries),
      (existsb (fun e => leaf_spec e && entry_true items (fst e)) entries); reflexivity.
  - destruct (match assoc k items with
              | Some x => any_spec (CompositeSpec es) x
              | None => false
              end), (existsb (child_any items) entries),
      (existsb (fun e => leaf_spec e && entry_true items (fst e)) entries); reflexivity.
Qed.

(** On a batch that conforms to the spec the public walk returns, and it
    returns [any_spec]. *)
Lemma public_walk_schema (key : option string) : forall fuel s data curr ks,
  spec_ready s data = true -> depth data < fuel ->
  exists data' ks',
    terminated_or_truncated_inner fuel data (Some s) key curr ks
      = Ok (mkWalk (any_spec s data) data' ks').
Proof.
  induction fuel as [ | fuel IH ]; intros s data curr ks Hr Hd; [lia|].
  destruct s as [ | entries ]; [discriminate|].
  destruct data as [ | t | bs items | sd tds ]; try discriminate.
  rewrite public_schema_unfold. cbn [spec_items bind].
  destruct (spec_ready_entries entries bs items Hr) as (Hnd & Hleaves & Hsubs).
  destruct (public_schema_loop fuel key IH curr bs (stop_shape bs entries items) items
              entries None false items ks I Hnd (fun _ _ => eq_refl))
    as (agg & items' & ks' & Hf & Hok & Hany).
  { intros k s Hin. destruct (is_composite s) eqn:Ec.
    - destruct (Hsubs k s Hin Ec) as (x & Hx & Htd & Hrx).
      exists x. repeat split; try assumption.
      pose proof (depth_entry bs items k x (assoc_In _ _ _ Hx)). lia.
    - rewrite forallb_forall in Hleaves. specialize (Hleaves (k, s) Hin).
      unfold leaf_spec in Hleaves. cbn [fst snd] in Hleaves. rewrite Ec in Hleaves.
      exact Hleaves. }
  rewrite Hf. cbn [bind].
  destruct (store_aggregate_spec bs (stop_shape bs entries items) items' agg
              (false || existsb (child_any items) entries) key curr ks' Hok)
    as (items2 & ks2 & Hs).
  rewrite Hs. exists (TensorDict bs items2), ks2. f_equal. f_equal.
  cbn [any_spec orb agg_any] in *. rewrite Hany, any_spec_split. reflexivity.
Qed.

(** A leaf the spec names, at any depth, that is true in the batch. *)
Definition true_spec_leaf (s : spec) (batch : value) : Prop :=
  exists p name t,
    spec_at s (p ++ [name]) = Some LeafSpec
    /\ leaf_at batch (p ++ [name]) = Some t /\ tensor_any t = true.

Lemma any_spec_true_leaf : forall s batch,
  spec_ready s batch = true -> (any_spec s batch = true <-> true_spec_leaf s batch).
Proof.
  induction s as [ | entries IH ] using spec_rect'; intros batch Hr; [discriminate|].
  destruct batch as [ | t | bs items | sd tds ]; try discriminate.
  destruct (spec_ready_entries entries bs items Hr) as (Hnd & _ & Hsubs).
  rewrite Forall_forall in IH. cbn [any_spec]. split.
  - intros H. apply existsb_exists in H. destruct H as ([k s] & Hin & H). cbn [fst snd] in H.
    pose proof (In_spec_assoc k s entries Hnd Hin) as Hsa.
    destruct s as [ | es ].
    + unfold entry_true in H. destruct (assoc k items) as [x|] eqn:Ha; [| discriminate].
      destruct x as [ | t | | ]; try discriminate.
      exists [], k, t. cbn. rewrite Hsa, Ha. auto.
    + destruct (assoc k items) as [x|] eqn:Ha; [| discriminate].
      destruct (Hsubs k (CompositeSpec es) Hin eq_refl) as (x' & Hx' & _ & Hrx).
      rewrite Ha in Hx'. inversion Hx'; subst x'.
      apply (IH (k, CompositeSpec es) Hin x Hrx) in H.
      destruct H as (p & name & t & Hs & Hl & Ht).
      exists (k :: p), name, t. cbn. rewrite Hsa, Ha. auto.
  - intros (p & name & t & Hs & Hl & Ht). apply existsb_exists.
    destruct p as [ | k p ].
    + cbn in Hs, Hl. destruct (spec_assoc name entries) as [s|] eqn:Hsa; [| discriminate].
      inversion Hs; subst.
      destruct (assoc name items) as [x|] eqn:Ha; [| discriminate].
      destruct x; try discriminate. inversion Hl; subst.
      exists (name, LeafSpec). split; [apply spec_assoc_In; exact Hsa|].
      cbn [fst snd]. unfold entry_true. rewrite Ha. exact Ht.
    + cbn in Hs, Hl. destruct (spec_assoc k entries) as [s|] eqn:Hsa; [| discriminate].
      destruct (assoc k items) as [x|] eqn:Ha; [| discriminate].
      pose proof (spec_assoc_In _ _ _ Hsa) as Hin.
      destruct s as [ | es ]; [destruct p; cbn in Hs; discriminate|].
      destruct (Hsubs k (CompositeSpec es) Hin eq_refl) as (x' & Hx' & _ & Hrx).
      rewrite Ha in Hx'. inversion Hx'; subst x'.
      exists (k, CompositeSpec es). split; [exact Hin|]. cbn [fst snd]. rewrite Ha.
      apply (IH (k, CompositeSpec es) Hin x Hrx). exists p, name, t. auto.
Qed.

(** X23: along a done spec, on a batch that conforms to it (the composite
    entries of the spec name nested [TensorDict]s, the leaves it names at
    one node are boolean tensors of one shape, a missing one counting as
    false), the public [terminated_or_truncated] returns, and it returns
    true if and only if some leaf the spec names, at any depth, is true in
    the batch. *)
Theorem public_walk_reports_every_leaf_of_the_spec :
  forall (batch : value) (full_done_spec : spec) (key : option string)
         (write_full_false : bool),
    spec_ready full_done_spec batch = true ->
    exists b batch',
      terminated_or_truncated batch (Some full_done_spec) key write_full_false
        = Ok (b, batch')
      /\ (b = true <-> true_spec_leaf full_done_spec batch).
Proof.
  intros batch s key wff Hr.
  destruct (public_walk_schema key (S (depth batch)) s batch [] [] Hr (Nat.lt_succ_diag_r _))
    as (batch' & ks' & Hw).
  unfold terminated_or_truncated. rewrite Hw. cbn [bind eot walked written].
  exists (any_spec s batch).
  destruct (negb (any_spec s batch) && negb wff); eexists;
    (split; [reflexivity | apply any_spec_true_leaf; exact Hr]).
Qed.

Lemma public_walk_spec_witness :
  exists b batch',
    terminated_or_truncated shadowed_batch (Some shadowed_spec) (Some "_reset") false
      = Ok (b, batch')
    /\ (b = true <-> true_spec_leaf shadowed_spec shadowed_batch).
Proof.
  apply (public_walk_reports_every_leaf_of_the_spec shadowed_batch shadowed_spec
           (Some "_reset") false).
  reflexivity.
Defined.

(* ====================================================================== *)
(** ** What [_terminated_or_truncated] writes *)
(* ====================================================================== *)

(** Element [j] of a leaf, read as a truth value. *)
Definition elem (j : nat) (v : value) : bool :=
  match v with Tensor t => nth j (truths (data t)) false | _ => false end.

(** Whether some done / terminated / truncated entry of a node is true at
    element [j]. *)
Definition done_row (items : list (string * value)) (j : nat) : bool :=
  existsb (fun kv => done_named kv && elem j (snd kv)) items.

(** The aggregate after some entries: [f j] tells whether one of them is
    true at element [j]. *)
Definition agg_rows (s0 : list nat) (o : option tensor) (f : nat -> bool) : Prop :=
  match o with
  | None => forall j, f j = false
  | Some a =>
      shape a = s0
      /\ exists la, data a = Bools la /\ length la = prod s0
                    /\ forall j, j < prod s0 -> nth j la false = f j
  end.

Lemma aggregate_or_rows bs s0 agg f v :
  agg_rows s0 agg f -> done_leaf_ok bs s0 v = true ->
  exists a, aggregate_or agg v = Ok (Some a)
            /\ agg_rows s0 (Some a) (fun j => f j || elem j v).
Proof.
  intros Hagg Hv. destruct v as [ | t | | ]; cbn in Hv; try discriminate.
  destruct (data t) as [l|] eqn:Hd; [| discriminate].
  rewrite !andb_true_iff in Hv. destruct Hv as [[Hlen Hs] Hpre].
  apply Nat.eqb_eq in Hlen. apply shape_eqb_true in Hs.
  assert (Hel : forall j, elem j (Tensor t) = nth j l false).
  { intros j. cbn. rewrite Hd. reflexivity. }
  destruct agg as [a|]; cbn [aggregate_or].
  - destruct Hagg as (Hsa & la & Hda & Hla & Hf).
    unfold tensor_or. rewrite Hda, Hd, Hsa, Hs, shape_eqb_refl. cbn [bind].
    eexists. split; [reflexivity|]. cbn. split; [reflexivity|].
    exists (zip_with orb la l). repeat split.
    + rewrite length_zip_with; congruence.
    + intros j Hj. rewrite nth_zip_with_orb by congruence.
      rewrite (Hf j Hj), Hd. reflexivity.
  - unfold or_False. rewrite Hd. cbn [bind]. exists t. split; [reflexivity|].
    cbn. split; [exact Hs|]. exists l. repeat split; try congruence.
    intros j Hj. rewrite (Hagg j), Hd. reflexivity.
Qed.

Lemma done_row_cons k v l j :
  done_row ((k, v) :: l) j = is_done_name k && elem j v || done_row l j.
Proof. reflexivity. Qed.

Lemma agg_rows_ext s0 o f g :
  (forall j, f j = g j) -> agg_rows s0 o f -> agg_rows s0 o g.
Proof.
  intros E. destruct o as [a|]; cbn.
  - intros (Hs & la & Hd & Hl & Hf). split; [exact Hs|].
    exists la. repeat split; try assumption.
    intros j Hj. rewrite <- E. apply Hf. exact Hj.
  - intros H j. rewrite <- E. apply H.
Qed.

Lemma first_loop_rows bs s0 : forall l agg n tds f,
  agg_rows s0 agg f ->
  forallb (fun kv => if done_named kv then done_leaf_ok bs s0 (snd kv) else true) l = true ->
  exists agg',
    foldM first_loop_step l (agg, n, tds)
      = Ok (agg', n + length (filter done_named l), tds ++ sub_batches l)
    /\ agg_rows s0 agg' (fun j => f j || done_row l j)
    /\ is_Some agg' = is_Some agg || existsb done_named l.
Proof.
  induction l as [ | [k v] l IH ]; intros agg n tds f Hagg Hall.
  - exists agg. cbn [foldM filter length sub_batches existsb].
    rewrite Nat.add_0_r, app_nil_r, orb_false_r.
    split; [reflexivity|]. split; [| reflexivity].
    apply (agg_rows_ext s0 agg f); [| exact Hagg].
    intros j. cbn. rewrite orb_false_r. reflexivity.
  - cbn [forallb] in Hall. rewrite andb_true_iff in Hall. destruct Hall as [Hv Hall].
    unfold done_named at 1 in Hv. cbn [fst snd] in Hv.
    assert (E1 : filter done_named ((k, v) :: l)
                 = if is_done_name k then (k, v) :: filter done_named l
                   else filter done_named l) by reflexivity.
    assert (E2 : sub_batches ((k, v) :: l)
                 = if negb (is_done_name k) && is_tensor_collection v
                   then (k, v) :: sub_batches l else sub_batches l) by reflexivity.
    assert (E3 : existsb done_named ((k, v) :: l)
                 = is_done_name k || existsb done_named l) by reflexivity.
    rewrite E1, E2, E3. clear E1 E2 E3. cbn [foldM first_loop_step].
    destruct (is_done_name k) eqn:Ek; cbn [negb andb orb length].
    + destruct (aggregate_or_rows bs s0 agg f v Hagg Hv) as (a & Ha & Hrows).
      rewrite Ha. cbn [bind].
      destruct (IH (Some a) (n + 1) tds (fun j => f j || elem j v) Hrows Hall)
        as (agg' & Hf & Hrows' & Hsome').
      exists agg'. rewrite Hf.
      replace (n + 1 + length (filter done_named l))
        with (n + S (length (filter done_named l))) by lia.
      split; [reflexivity|].
      split; [| rewrite Hsome'; cbn; rewrite orb_true_r; reflexivity].
      apply (agg_rows_ext s0 agg' (fun j => f j || elem j v || done_row l j));
        [| exact Hrows'].
      intros j. rewrite done_row_cons, Ek. cbn [andb]. rewrite orb_assoc. reflexivity.
    + assert (Hsame : forall o : option tensor,
                agg_rows s0 o (fun j => f j || done_row l j) ->
                agg_rows s0 o (fun j => f j || done_row ((k, v) :: l) j)).
      { intros o. apply agg_rows_ext. intros j. rewrite done_row_cons, Ek. reflexivity. }
      destruct (is_tensor_collection v) eqn:Ev; cbn [bind].
      * destruct (IH agg n (tds ++ [(k, v)]) f Hagg Hall) as (agg' & Hf & Hrows' & Hsome').
        exists agg'. rewrite Hf. split; [rewrite <- app_assoc; reflexivity|].
        split; [apply Hsame; exact Hrows' | exact Hsome'].
      * destruct (IH agg n tds f Hagg Hall) as (agg' & Hf & Hrows' & Hsome').
        exists agg'. rewrite Hf. split; [reflexivity|].
        split; [apply Hsame; exact Hrows' | exact Hsome'].
Qed.

(** The destination key is new to the batch: no node has an entry of that
    name. *)
Definition fresh_key (kk : string) (v : value) : Prop :=
  forall p, node_at v (p ++ [kk]) = None.

(** What the walk stores under the destination key of a node: nothing when
    the node has no done entry, otherwise the element-wise or of its done
    entries, its trailing dimension of size one dropped when it has more
    dimensions than the node. *)
Definition written_at (bs : list nat) (items : list (string * value))
    (o : option tensor) : Prop :=
  if existsb done_named items
  then exists a l,
         o = Some (stored_aggregate bs a)
         /\ shape a = done_shape items /\ data a = Bools l
         /\ length l = prod (done_shape items)
         /\ forall j, j < prod (done_shape items) -> nth j l false = done_row items j
  else o = None.

(** What a walk with destination key [kk] leaves: every leaf under another
    name is as it was, and every node carries what [written_at] says. *)
Definition walk_writes (kk : string) (v v' : value) : Prop :=
  plain v' = true /\ is_TensorDict v' = true
  /\ (forall q name, name <> kk -> leaf_at v' (q ++ [name]) = leaf_at v (q ++ [name]))
  /\ (forall p bs items, node_at v p = Some (TensorDict bs items) ->
        written_at bs items (leaf_at v' (p ++ [kk]))).

Section WalkWrites.
Variable fuel : nat.
Variable kk : string.
Hypothesis IH : forall data curr ks,
  done_ready data = true -> plain data = true -> is_TensorDict data = true ->
  depth data < fuel -> fresh_key kk data ->
  exists w,
    inner_terminated_or_truncated fuel data None (Some kk) curr ks = Ok w
    /\ walk_writes kk data (walked w).

Lemma children_loop_writes curr found_leaf bs : forall tds any items ks,
  NoDup (map fst tds) ->
  plain (TensorDict bs items) = true ->
  (forall k x, In (k, x) tds ->
     done_ready x = true /\ plain x = true /\ is_TensorDict x = true
     /\ depth x < fuel /\ fresh_key kk x) ->
  exists any' items' ks',
    foldM (children_step fuel (Some kk) curr found_leaf) tds (any, TensorDict bs items, ks)
      = Ok (any', TensorDict bs items', ks')
    /\ plain (TensorDict bs items') = true
    /\ (forall k, ~ In k (map fst tds) -> assoc k items' = assoc k items)
    /\ (forall k x, In (k, x) tds ->
          exists x', assoc k items' = Some x' /\ walk_writes kk x x').
Proof.
  induction tds as [ | [k x] tds IHl ]; intros any items ks Hnd Hp Hall.
  - exists any, items, ks. split; [reflexivity|]. split; [exact Hp|].
    split; [reflexivity | intros ? ? []].
  - inversion Hnd as [ | ? ? Hnotin Hnd' ]; subst.
    destruct (Hall k x (or_introl eq_refl)) as (Hr & Hpx & Htd & Hd & Hfr).
    destruct (IH x (curr ++ [k]) ks Hr Hpx Htd Hd Hfr) as (w & Hw & Hww).
    pose proof Hww as (Hpw & _).
    cbn [foldM children_step]. rewrite Hw. cbn [bind _set_str].
    destruct (IHl (if Nat.eqb found_leaf 0 then any || eot w else any)
                (assoc_set k (walked w) items) (written w) Hnd')
      as (any' & items' & ks' & Hf & Hp' & Hother & Hsub).
    { apply plain_assoc_set; assumption. }
    { intros k0 x0 Hin. apply (Hall k0 x0). right. exact Hin. }
    exists any', items', ks'. split; [exact Hf|]. split; [exact Hp'|]. split.
    + intros k0 Hk0. cbn [map fst In] in Hk0.
      rewrite Hother by tauto. apply assoc_set_other. intros ->. tauto.
    + intros k0 x0 [E | Hin].
      * inversion E; subst k0 x0. exists (walked w). split; [| exact Hww].
        rewrite (Hother k Hnotin). apply assoc_set_same.
      * apply Hsub. exact Hin.
Qed.
End WalkWrites.

Lemma node_at_TensorDict_entry : forall p x bs items,
  node_at x p = Some (TensorDict bs items) -> is_TensorDict x = true.
Proof.
  intros [ | k p ] x bs items H.
  - cbn in H. inversion H. reflexivity.
  - destruct x; try discriminate H. reflexivity.
Qed.

Lemma walk_writes_main (kk : string) : forall fuel data curr ks,
  done_ready data = true -> plain data = true -> is_TensorDict data = true ->
  depth data < fuel -> fresh_key kk data ->
  exists w,
    inner_terminated_or_truncated fuel data None (Some kk) curr ks = Ok w
    /\ walk_writes kk data (walked w).
Proof.
  induction fuel as [ | fuel IH ]; intros data curr ks Hr Hp Htd Hd Hfresh; [lia|].
  destruct data as [ | t | bs items | sd tds ]; try discriminate.
  rewrite inner_no_schema_unfold. cbn [items_of bind].
  destruct (done_ready_entries bs items Hr) as [Hleaves Hsubs].
  pose proof Hp as Hp'. cbn in Hp'. rewrite andb_true_iff in Hp'.
  destruct Hp' as [Hnd Hall]. apply nodupb_NoDup in Hnd. rewrite forallb_forall in Hall.
  (* the first loop *)
  destruct (first_loop_spec bs (done_shape items) items None 0 [] I Hleaves)
    as (agg & Hf & Hok & _ & _).
  destruct (first_loop_rows bs (done_shape items) items None 0 [] (fun _ => false)
              (fun _ => eq_refl) Hleaves) as (agg2 & Hf2 & Hrows & Hsome).
  rewrite Hf in Hf2. inversion Hf2; subst agg2; clear Hf2.
  rewrite Hf. cbn [bind app].
  assert (Hkk : assoc kk items = None).
  { specialize (Hfresh []). cbn in Hfresh.
    destruct (assoc kk items); [discriminate | reflexivity]. }
  (* the sub-batches *)
  assert (Hsub_in : forall k x, In (k, x) (sub_batches items) ->
            assoc k items = Some x /\ k <> kk).
  { intros k x Hin. destruct (Hsubs k x Hin) as (_ & _ & Hin').
    pose proof (In_assoc_nodup k x items Hnd Hin') as Ha. split; [exact Ha|].
    intros ->. congruence. }
  destruct (children_loop_writes fuel kk IH curr (0 + length (filter done_named items)) bs
              (sub_batches items) false items ks (NoDup_sub_batches items Hnd) Hp)
    as (any' & items' & ks' & Hc & Hp1 & Hother & Hsub).
  { intros k x Hin. destruct (Hsubs k x Hin) as (H1 & H2 & H3).
    destruct (Hsub_in k x Hin) as [Ha _].
    repeat split; try assumption.
    - exact (Hall (k, x) H3).
    - pose proof (depth_entry bs items k x H3). lia.
    - intros p. specialize (Hfresh (k :: p)). cbn in Hfresh. rewrite Ha in Hfresh.
      exact Hfresh. }
  rewrite Hc. cbn [bind].
  rewrite (write_aggregate_spec bs (done_shape items) items' agg any' (Some kk) curr ks' Hok).
  (* the entries of the batch the walk leaves *)
  assert (Hentry : forall k,
            k <> kk ->
            (exists x x', In (k, x) (sub_batches items) /\ assoc k items = Some x
                          /\ assoc k items' = Some x' /\ walk_writes kk x x')
            \/ (assoc k items' = assoc k items
                /\ forall x, assoc k items = Some x ->
                     forall p bs0 items0, node_at x p <> Some (TensorDict bs0 items0))).
  { intros k Hk.
    destruct (in_dec string_dec k (map fst (sub_batches items))) as [Hin | Hnin].
    - left. apply in_map_iff in Hin. destruct Hin as ([k0 x] & E & Hin). cbn in E. subst k0.
      destruct (Hsub k x Hin) as (x' & Hx' & Hww).
      exists x, x'. destruct (Hsub_in k x Hin) as [Ha _]. auto.
    - right. split; [apply Hother; exact Hnin|].
      intros x Ha p bs0 items0 Hnode. apply Hnin.
      pose proof (node_at_TensorDict_entry p x bs0 items0 Hnode) as Htx.
      pose proof (assoc_In _ _ _ Ha) as Hin.
      assert (Hsb : In (k, x) (sub_batches items)).
      { unfold sub_batches. apply filter_In. split; [exact Hin|].
        rewrite forallb_forall in Hleaves. specialize (Hleaves (k, x) Hin).
        destruct (done_named (k, x)) eqn:Edn; cbn [negb andb snd].
        - cbn [snd] in Hleaves. destruct x; cbn in Hleaves, Htx; discriminate.
        - destruct x; cbn in Htx |- *; try discriminate; reflexivity. }
      apply (in_map fst) in Hsb. exact Hsb. }
  assert (Hkk' : assoc kk items' = None).
  { rewrite Hother; [exact Hkk|]. intros Hin. apply in_map_iff in Hin.
    destruct Hin as ([k0 x] & E & Hin). cbn in E. subst k0.
    destruct (Hsub_in kk x Hin) as [_ Hne]. congruence. }
  (* the batch the walk leaves *)
  set (final := match agg with
                | Some a => assoc_set kk (Tensor (stored_aggregate bs a)) items'
                | None => items'
                end).
  assert (Hfinal_other : forall k, k <> kk -> assoc k final = assoc k items').
  { intros k Hk. unfold final. destruct agg; [apply assoc_set_other; exact Hk | reflexivity]. }
  assert (Hfinal_kk : assoc kk final
                      = match agg with
                        | Some a => Some (Tensor (stored_aggregate bs a))
                        | None => None
                        end).
  { unfold final. destruct agg; [apply assoc_set_same | exact Hkk']. }
  exists (mkWalk (match agg with Some a => any' || tensor_any a | None => any' end)
            (TensorDict bs final)
            (match agg with Some _ => ks' ++ [curr ++ [kk]] | None => ks' end)).
  split; [unfold final; destruct agg; reflexivity|].
  cbn [walked]. unfold walk_writes. split; [| split; [reflexivity | split]].
  - unfold final. destruct agg; [apply plain_assoc_set; [exact Hp1 | reflexivity] | exact Hp1].
  - intros q name Hname. destruct q as [ | k q ]; cbn [app leaf_at].
    + rewrite (Hfinal_other name Hname).
      destruct (Hentry name Hname) as [(x & x' & Hin & Ha & Ha' & Hww) | [Hsame _]].
      * rewrite Ha, Ha'. destruct (Hsubs name x Hin) as (_ & Htx & _).
        destruct Hww as (_ & Htx' & _).
        destruct x, x'; try discriminate; reflexivity.
      * rewrite Hsame. reflexivity.
    + destruct (String.eqb_spec k kk) as [-> | Hk].
      * rewrite Hfinal_kk, Hkk. destruct agg; [| reflexivity].
        destruct q; reflexivity.
      * rewrite (Hfinal_other k Hk).
        destruct (Hentry k Hk) as [(x & x' & Hin & Ha & Ha' & Hww) | [Hsame _]].
        -- rewrite Ha, Ha'. destruct Hww as (_ & _ & Hframe & _). apply Hframe. exact Hname.
        -- rewrite Hsame. reflexivity.
  - intros p bs0 items0 Hnode. destruct p as [ | k p ]; cbn [app leaf_at].
    + cbn in Hnode. inversion Hnode; subst bs0 items0. rewrite Hfinal_kk.
      unfold written_at. cbn [is_Some orb] in Hsome. rewrite <- Hsome.
      destruct agg as [a|]; cbn [is_Some]; [| reflexivity].
      destruct Hrows as (Hs & l & Hdl & Hl & Hrow).
      exists a, l. repeat split; try assumption.
    + cbn [node_at] in Hnode. destruct (assoc k items) as [x|] eqn:Ha; [| discriminate].
      assert (Hk : k <> kk) by (intros ->; congruence).
      rewrite (Hfinal_other k Hk).
      destruct (Hentry k Hk) as [(x0 & x' & Hin & Ha0 & Ha' & Hww) | [_ Hno]].
      * rewrite Ha in Ha0. inversion Ha0; subst x0. rewrite Ha'.
        destruct Hww as (_ & _ & _ & Hwrites). apply Hwrites. exact Hnode.
      * exfalso. exact (Hno x Ha p bs0 items0 Hnode).
Qed.

(** A decidable form of [fresh_key]. *)
Fixpoint fresh_keyb (kk : string) (v : value) : bool :=
  match v with
  | TensorDict _ items =>
      negb (existsb (String.eqb kk) (map fst items))
      && forallb (fun kv => fresh_keyb kk (snd kv)) items
  | _ => true
  end.

Lemma fresh_keyb_spec kk : forall p v, fresh_keyb kk v = true -> node_at v (p ++ [kk]) = None.
Proof.
  induction p as [ | k p IH ]; intros v H.
  - destruct v as [ | | bs items | ]; try reflexivity.
    cbn in H. apply andb_true_iff in H. destruct H as [H _].
    apply negb_true_iff in H. cbn.
    destruct (assoc kk items) as [x|] eqn:Ha; [| reflexivity].
    apply assoc_In in Ha. apply (in_map fst) in Ha. apply existsb_eqb_In in Ha.
    cbn in Ha. congruence.
  - destruct v as [ | | bs items | ]; try reflexivity.
    cbn in H. apply andb_true_iff in H. destruct H as [_ H].
    cbn [app node_at]. destruct (assoc k items) as [x|] eqn:Ha; [| reflexivity].
    apply IH. rewrite forallb_forall in H. exact (H (k, x) (assoc_In _ _ _ Ha)).
Qed.

(** X24: without a spec, on a batch of nested [TensorDict]s with
    well-shaped done entries that has no entry named like the destination
    key, a call of [_terminated_or_truncated] that reports true, or that is
    made with [write_full_false], leaves every leaf under another name as
    it was and stores under the destination key of every node that has
    done / terminated / truncated entries their element-wise or (its
    trailing dimension of size one dropped when it has more dimensions than
    the node); a node without such entries gets nothing. *)
Theorem walk_writes_the_aggregate_of_every_node :
  forall (batch : value) (key : string) (write_full_false : bool),
    plain batch = true -> done_ready batch = true -> is_TensorDict batch = true ->
    fresh_key key batch ->
    exists b batch',
      _terminated_or_truncated batch None (Some key) write_full_false = Ok (b, batch')
      /\ (b = true \/ write_full_false = true ->
          (forall q name, name <> key ->
             leaf_at batch' (q ++ [name]) = leaf_at batch (q ++ [name]))
          /\ forall p bs items,
               node_at batch p = Some (TensorDict bs items) ->
               written_at bs items (leaf_at batch' (p ++ [key]))).
Proof.
  intros batch kk wff Hp Hr Htd Hfresh.
  destruct (walk_writes_main kk (S (depth batch)) batch [] [] Hr Hp Htd
              (Nat.lt_succ_diag_r _) Hfresh) as (w & Hw & Hww).
  unfold _terminated_or_truncated. rewrite Hw. cbn [bind].
  destruct Hww as (_ & _ & Hframe & Hwrites).
  destruct (eot w) eqn:Ee; cbn [negb andb].
  - exists true, (walked w). split; [reflexivity|]. intros _. split; assumption.
  - destruct wff; cbn [negb].
    + exists false, (walked w). split; [reflexivity|]. intros _. split; assumption.
    + exists false, (exclude (walked w) (written w)). split; [reflexivity|].
      intros [H | H]; discriminate H.
Qed.

Lemma walk_writes_witness :
  exists b batch',
    _terminated_or_truncated docstring_batch None (Some "_reset") false = Ok (b, batch')
    /\ (b = true \/ false = true ->
        (forall q name, name <> "_reset" ->
           leaf_at batch' (q ++ [name]) = leaf_at docstring_batch (q ++ [name]))
        /\ forall p bs items,
             node_at docstring_batch p = Some (TensorDict bs items) ->
             written_at bs items (leaf_at batch' (p ++ ["_reset"]))).
Proof.
  apply (walk_writes_the_aggregate_of_every_node docstring_batch "_reset" false).
  - reflexivity.
  - reflexivity.
  - reflexivity.
  - intros p. apply fresh_keyb_spec. reflexivity.
Defined.

(* ====================================================================== *)
(** ** What [terminated_or_truncated] writes *)
(* ====================================================================== *)

Lemma aggregate_or_tensor_rows bs s0 agg f v :
  agg_rows s0 agg f -> done_leaf_ok bs s0 v = true ->
  exists a, aggregate_or_tensor agg v = Ok (Some a)
            /\ agg_rows s0 (Some a) (fun j => f j || elem j v).
Proof.
  intros Hagg Hv. destruct v as [ | t | | ]; cbn in Hv; try discriminate.
  destruct (data t) as [l|] eqn:Hd; [| discriminate].
  rewrite !andb_true_iff in Hv. destruct Hv as [[Hlen Hs] Hpre].
  apply Nat.eqb_eq in Hlen. apply shape_eqb_true in Hs.
  destruct agg as [a|]; cbn [aggregate_or_tensor].
  - destruct Hagg as (Hsa & la & Hda & Hla & Hf).
    unfold tensor_or. rewrite Hda, Hd, Hsa, Hs, shape_eqb_refl. cbn [bind].
    eexists. split; [reflexivity|]. cbn. split; [reflexivity|].
    exists (zip_with orb la l). repeat split.
    + rewrite length_zip_with; congruence.
    + intros j Hj. rewrite nth_zip_with_orb by congruence.
      rewrite (Hf j Hj), Hd. reflexivity.
  - assert (Hsame : tensor_or tensor_False t = Ok (bool_tensor (shape t) l)).
    { unfold tensor_or, tensor_False. cbn [data bool_tensor shape]. rewrite Hd.
      destruct (shape_eqb [] (shape t)) eqn:Es.
      - apply shape_eqb_true in Es. rewrite <- Es in Hlen |- *. cbn in Hlen.
        destruct l as [ | y [ | z l ] ]; try discriminate Hlen. reflexivity.
      - cbn. rewrite map_orb_false. reflexivity. }
    rewrite Hsame. cbn [bind]. eexists. split; [reflexivity|].
    cbn. split; [exact Hs|]. exists l. repeat split; try congruence.
    intros j Hj. rewrite (Hagg j), Hd. reflexivity.
Qed.

Lemma store_aggregate_eq bs s0 items agg any kk curr ks :
  agg_ok bs s0 agg ->
  store_aggregate agg any (TensorDict bs items) (Some kk) curr ks
    = Ok match agg with
         | Some a => mkWalk (any || tensor_any a)
                       (TensorDict bs (assoc_set kk (Tensor a) items))
                       (ks ++ [curr ++ [kk]])
         | None => mkWalk any (TensorDict bs items) ks
         end.
Proof.
  intros Hagg. unfold store_aggregate. destruct agg as [a|]; [| reflexivity].
  destruct Hagg as (l & Hd & Hl & Hs & Hp). unfold set_tensor.
  cbn [batch_size_of bind]. rewrite Hs, Hp. reflexivity.
Qed.

(** What the public walk stores under the destination key of a node:
    nothing when the node has no done entry, otherwise the element-wise or
    of its done entries, in their shape. *)
Definition stored_whole_at (items : list (string * value)) (o : option tensor) : Prop :=
  if existsb done_named items
  then exists a l,
         o = Some a
         /\ shape a = done_shape items /\ data a = Bools l
         /\ length l = prod (done_shape items)
         /\ forall j, j < prod (done_shape items) -> nth j l false = done_row items j
  else o = None.

Definition public_walk_writes (kk : string) (v v' : value) : Prop :=
  plain v' = true /\ is_TensorDict v' = true
  /\ (forall q name, name <> kk -> leaf_at v' (q ++ [name]) = leaf_at v (q ++ [name]))
  /\ (forall p bs items, node_at v p = Some (TensorDict bs items) ->
        stored_whole_at items (leaf_at v' (p ++ [kk]))).

Lemma sub_batches_keys l k : In k (map fst (sub_batches l)) -> In k (map fst l).
Proof.
  intros H. apply in_map_iff in H. destruct H as (kv & E & Hin).
  apply filter_In in Hin. apply in_map_iff. exists kv. tauto.
Qed.

Section PublicWalkWrites.
Variable fuel : nat.
Variable kk : string.
Hypothesis IH : forall data curr ks,
  done_ready data = true -> plain data = true -> is_TensorDict data = true ->
  depth data < fuel -> fresh_key kk data ->
  exists w,
    terminated_or_truncated_inner fuel data None (Some kk) curr ks = Ok w
    /\ public_walk_writes kk data (walked w).

Lemma public_loop_writes curr bs s0 : forall l agg any items ks f,
  NoDup (map fst l) ->
  plain (TensorDict bs items) = true ->
  agg_rows s0 agg f ->
  (forall k v, In (k, v) l ->
     if is_done_name k
     then assoc k items = Some v /\ done_leaf_ok bs s0 v = true
     else is_tensor_collection v = true ->
          done_ready v = true /\ plain v = true /\ is_TensorDict v = true
          /\ depth v < fuel /\ fresh_key kk v) ->
  exists agg' any' items' ks',
    foldM (public_step fuel (Some kk) curr) l (agg, any, TensorDict bs items, ks)
      = Ok (agg', any', TensorDict bs items', ks')
    /\ plain (TensorDict bs items') = true
    /\ agg_rows s0 agg' (fun j => f j || done_row l j)
    /\ is_Some agg' = is_Some agg || existsb done_named l
    /\ (forall k, ~ In k (map fst (sub_batches l)) -> assoc k items' = assoc k items)
    /\ (forall k x, In (k, x) (sub_batches l) ->
          exists x', assoc k items' = Some x' /\ public_walk_writes kk x x').
Proof.
  induction l as [ | [k v] l IHl ]; intros agg any items ks f Hnd Hp Hagg Hall.
  - exists agg, any, items, ks. cbn [foldM existsb sub_batches filter map].
    rewrite orb_false_r. split; [reflexivity|]. split; [exact Hp|].
    split; [| split; [reflexivity | split; [reflexivity | intros ? ? []]]].
    apply (agg_rows_ext s0 agg f); [| exact Hagg].
    intros j. cbn. rewrite orb_false_r. reflexivity.
  - inversion Hnd as [ | ? ? Hnotin Hnd' ]; subst.
    pose proof (Hall k v (or_introl eq_refl)) as Hkv.
    assert (Hrest : forall items',
              (forall k', is_done_name k' = true -> assoc k' items' = assoc k' items) ->
              forall k' v', In (k', v') l ->
                if is_done_name k'
                then assoc k' items' = Some v' /\ done_leaf_ok bs s0 v' = true
                else is_tensor_collection v' = true ->
                     done_ready v' = true /\ plain v' = true /\ is_TensorDict v' = true
                     /\ depth v' < fuel /\ fresh_key kk v').
    { intros items' Hsame k' v' Hin. specialize (Hall k' v' (or_intror Hin)).
      destruct (is_done_name k') eqn:E; [| exact Hall].
      rewrite (Hsame k' E). exact Hall. }
    assert (E2 : sub_batches ((k, v) :: l)
                 = if negb (is_done_name k) && is_tensor_collection v
                   then (k, v) :: sub_batches l else sub_batches l) by reflexivity.
    assert (E3 : existsb done_named ((k, v) :: l)
                 = is_done_name k || existsb done_named l) by reflexivity.
    rewrite E2, E3. clear E2 E3. cbn [foldM].
    destruct (is_done_name k) eqn:Ek; cbn [negb andb orb].
    + destruct Hkv as [Ha Hv].
      destruct (aggregate_or_tensor_rows bs s0 agg f v Hagg Hv) as (a & Hor & Hrows).
      assert (Hget : get_or_zeros (TensorDict bs items) k = Ok v).
      { unfold get_or_zeros, get_or_None. cbn [get_from _get_str]. rewrite Ha.
        destruct v; cbn in Hv; try discriminate. reflexivity. }
      assert (Hstep : public_step fuel (Some kk) curr (agg, any, TensorDict bs items, ks) (k, v)
                      = Ok (Some a, any, TensorDict bs items, ks)).
      { unfold public_step. rewrite is_done_name_cases in Ek.
        destruct (String.eqb k "done"); [rewrite Hget; cbn [bind]; rewrite Hor; reflexivity|].
        cbn [orb] in Ek. rewrite Ek, Hget. cbn [bind]. rewrite Hor. reflexivity. }
      rewrite Hstep. cbn [bind].
      destruct (IHl (Some a) any items ks (fun j => f j || elem j v) Hnd' Hp Hrows
                  (Hrest items (fun _ _ => eq_refl)))
        as (agg' & any' & items' & ks' & Hf & Hp' & Hrows' & Hsome' & Hother & Hsub).
      exists agg', any', items', ks'. rewrite Hf.
      split; [reflexivity|]. split; [exact Hp'|]. split; [| split; [| split; assumption]].
      * apply (agg_rows_ext s0 agg' (fun j => f j || elem j v || done_row l j));
          [| exact Hrows'].
        intros j. rewrite done_row_cons, Ek. cbn [andb]. rewrite orb_assoc. reflexivity.
      * rewrite Hsome'. cbn. rewrite orb_true_r. reflexivity.
    + assert (Hnot : String.eqb k "done" = false
                     /\ (String.eqb k "terminated" || String.eqb k "truncated") = false).
      { rewrite is_done_name_cases in Ek. apply orb_false_iff in Ek. exact Ek. }
      destruct Hnot as [Hn1 Hn2].
      assert (Hsame : forall o : option tensor,
                agg_rows s0 o (fun j => f j || done_row l j) ->
                agg_rows s0 o (fun j => f j || done_row ((k, v) :: l) j)).
      { intros o. apply agg_rows_ext. intros j. rewrite done_row_cons, Ek. reflexivity. }
      destruct (is_tensor_collection v) eqn:Ev.
      * destruct (Hkv eq_refl) as (Hr & Hpl & Htd & Hd & Hfr).
        destruct (IH v (curr ++ [k]) ks Hr Hpl Htd Hd Hfr) as (w & Hw & Hww).
        pose proof Hww as (Hpw & _).
        assert (Hstep : public_step fuel (Some kk) curr
                          (agg, any, TensorDict bs items, ks) (k, v)
                        = Ok (agg, any || eot w,
                              TensorDict bs (assoc_set k (walked w) items), written w)).
        { unfold public_step. rewrite Hn1, Hn2, Ev, Hw. reflexivity. }
        rewrite Hstep. cbn [bind].
        destruct (IHl agg (any || eot w) (assoc_set k (walked w) items) (written w) f Hnd')
          as (agg' & any' & items' & ks' & Hf & Hp' & Hrows' & Hsome' & Hother & Hsub).
        { apply plain_assoc_set; assumption. }
        { exact Hagg. }
        { apply Hrest. intros k' Hk'. apply assoc_set_other. congruence. }
        exists agg', any', items', ks'. rewrite Hf.
        split; [reflexivity|]. split; [exact Hp'|].
        split; [apply Hsame; exact Hrows' |]. split; [exact Hsome'|]. split.
        -- intros k0 Hk0. cbn [map fst In] in Hk0.
           rewrite Hother by tauto. apply assoc_set_other. intros ->. tauto.
        -- intros k0 x0 [E | Hin].
           ++ inversion E; subst k0 x0. exists (walked w). split; [| exact Hww].
              rewrite Hother; [apply assoc_set_same|].
              intros Hin. apply Hnotin. apply sub_batches_keys. exact Hin.
           ++ apply Hsub. exact Hin.
      * assert (Hstep : public_step fuel (Some kk) curr
                          (agg, any, TensorDict bs items, ks) (k, v)
                        = Ok (agg, any, TensorDict bs items, ks)).
        { unfold public_step. rewrite Hn1, Hn2, Ev. reflexivity. }
        rewrite Hstep. cbn [bind].
        destruct (IHl agg any items ks f Hnd' Hp Hagg (Hrest items (fun _ _ => eq_refl)))
          as (agg' & any' & items' & ks' & Hf & Hp' & Hrows' & Hsome' & Hother & Hsub).
        exists agg', any', items', ks'. rewrite Hf.
        split; [reflexivity|]. split; [exact Hp'|].
        split; [apply Hsame; exact Hrows' |]. split; [exact Hsome'|]. split; assumption.
Qed.
End PublicWalkWrites.

Lemma public_walk_writes_main (kk : string) : forall fuel data curr ks,
  done_ready data = true -> plain data = true -> is_TensorDict data = true ->
  depth data < fuel -> fresh_key kk data ->
  exists w,
    terminated_or_truncated_inner fuel data None (Some kk) curr ks = Ok w
    /\ public_walk_writes kk data (walked w).
Proof.
  induction fuel as [ | fuel IH ]; intros data curr ks Hr Hp Htd Hd Hfresh; [lia|].
  destruct data as [ | t | bs items | sd tds ]; try discriminate.
  rewrite public_inner_unfold. cbn [items_of bind].
  destruct (done_ready_entries bs items Hr) as [Hleaves Hsubs].
  pose proof Hp as Hp'. cbn in Hp'. rewrite andb_true_iff in Hp'.
  destruct Hp' as [Hnd Hall]. apply nodupb_NoDup in Hnd. rewrite forallb_forall in Hall.
  assert (Hkk : assoc kk items = None).
  { specialize (Hfresh []). cbn in Hfresh.
    destruct (assoc kk items); [discriminate | reflexivity]. }
  assert (Hsub_in : forall k x, In (k, x) (sub_batches items) ->
            assoc k items = Some x /\ k <> kk).
  { intros k x Hin. destruct (Hsubs k x Hin) as (_ & _ & Hin').
    pose proof (In_assoc_nodup k x items Hnd Hin') as Ha. split; [exact Ha|].
    intros ->. congruence. }
  (* the entries as the loop meets them *)
  assert (Hentries : forall k v, In (k, v) items ->
            if is_done_name k
            then assoc k items = Some v /\ done_leaf_ok bs (done_shape items) v = true
            else is_tensor_collection v = true ->
                 done_ready v = true /\ plain v = true /\ is_TensorDict v = true
                 /\ depth v < fuel /\ fresh_key kk v).
  { intros k v Hin. destruct (is_done_name k) eqn:Ek.
    - split; [exact (In_assoc_nodup k v items Hnd Hin)|].
      rewrite forallb_forall in Hleaves. specialize (Hleaves (k, v) Hin).
      unfold done_named in Hleaves. cbn [fst snd] in Hleaves. rewrite Ek in Hleaves.
      exact Hleaves.
    - intros Ev.
      assert (Hsub : In (k, v) (sub_batches items)).
      { unfold sub_batches. apply filter_In. split; [exact Hin|].
        unfold done_named. cbn [fst snd]. rewrite Ek, Ev. reflexivity. }
      destruct (Hsubs k v Hsub) as (H1 & H2 & H3).
      destruct (Hsub_in k v Hsub) as [Ha _].
      repeat split; try assumption.
      + exact (Hall (k, v) Hin).
      + pose proof (depth_entry bs items k v H3). lia.
      + intros p. specialize (Hfresh (k :: p)). cbn in Hfresh. rewrite Ha in Hfresh.
        exact Hfresh. }
  (* the loop *)
  destruct (public_loop_writes fuel kk IH curr bs (done_shape items) items None false items ks
              (fun _ => false) Hnd Hp (fun _ => eq_refl) Hentries)
    as (agg & any' & items' & ks' & Hf & Hp1 & Hrows & Hsome & Hother & Hsub).
  destruct (public_loop_spec fuel (Some kk)) with
    (curr := curr) (bs := bs) (s0 := done_shape items) (l := items)
    (agg := @None tensor) (any := false) (items := items) (ks := ks)
    as (agg2 & items2 & ks2 & Hf2 & Hok & _).
  { intros d c k0 Hr0 Hp0 Htd0 Hd0. apply public_walk; assumption. }
  { exact I. }
  { intros k v Hin. specialize (Hentries k v Hin).
    destruct (is_done_name k); [exact Hentries|].
    intros Ev. destruct (Hentries Ev) as (H1 & H2 & H3 & H4 & _). auto. }
  rewrite Hf in Hf2. inversion Hf2; subst agg2 items2 ks2. clear Hf2.
  rewrite Hf. cbn [bind].
  rewrite (store_aggregate_eq bs (done_shape items) items' agg any' kk curr ks' Hok).
  (* the entries of the batch the walk leaves *)
  assert (Hentry : forall k,
            k <> kk ->
            (exists x x', In (k, x) (sub_batches items) /\ assoc k items = Some x
                          /\ assoc k items' = Some x' /\ public_walk_writes kk x x')
            \/ (assoc k items' = assoc k items
                /\ forall x, assoc k items = Some x ->
                     forall p bs0 items0, node_at x p <> Some (TensorDict bs0 items0))).
  { intros k Hk.
    destruct (in_dec string_dec k (map fst (sub_batches items))) as [Hin | Hnin].
    - left. apply in_map_iff in Hin. destruct Hin as ([k0 x] & E & Hin). cbn in E. subst k0.
      destruct (Hsub k x Hin) as (x' & Hx' & Hww).
      exists x, x'. destruct (Hsub_in k x Hin) as [Ha _]. auto.
    - right. split; [apply Hother; exact Hnin|].
      intros x Ha p bs0 items0 Hnode. apply Hnin.
      pose proof (node_at_TensorDict_entry p x bs0 items0 Hnode) as Htx.
      pose proof (assoc_In _ _ _ Ha) as Hin.
      assert (Hsb : In (k, x) (sub_batches items)).
      { unfold sub_batches. apply filter_In. split; [exact Hin|].
        rewrite forallb_forall in Hleaves. specialize (Hleaves (k, x) Hin).
        destruct (done_named (k, x)) eqn:Edn; cbn [negb andb snd].
        - cbn [snd] in Hleaves. destruct x; cbn in Hleaves, Htx; discriminate.
        - destruct x; cbn in Htx |- *; try discriminate; reflexivity. }
      apply (in_map fst) in Hsb. exact Hsb. }
  assert (Hkk' : assoc kk items' = None).
  { rewrite Hother; [exact Hkk|]. intros Hin. apply in_map_iff in Hin.
    destruct Hin as ([k0 x] & E & Hin). cbn in E. subst k0.
    destruct (Hsub_in kk x Hin) as [_ Hne]. congruence. }
  (* the batch the walk leaves *)
  set (final := match agg with
                | Some a => assoc_set kk (Tensor a) items'
                | None => items'
                end).
  assert (Hfinal_other : forall k, k <> kk -> assoc k final = assoc k items').
  { intros k Hk. unfold final. destruct agg; [apply assoc_set_other; exact Hk | reflexivity]. }
  assert (Hfinal_kk : assoc kk final
                      = match agg with Some a => Some (Tensor a) | None => None end).
  { unfold final. destruct agg; [apply assoc_set_same | exact Hkk']. }
  exists (mkWalk (match agg with Some a => any' || tensor_any a | None => any' end)
            (TensorDict bs final)
            (match agg with Some _ => ks' ++ [curr ++ [kk]] | None => ks' end)).
  split; [unfold final; destruct agg; reflexivity|].
  cbn [walked]. unfold public_walk_writes. split; [| split; [reflexivity | split]].
  - unfold final. destruct agg; [apply plain_assoc_set; [exact Hp1 | reflexivity] | exact Hp1].
  - intros q name Hname. destruct q as [ | k q ]; cbn [app leaf_at].
    + rewrite (Hfinal_other name Hname).
      destruct (Hentry name Hname) as [(x & x' & Hin & Ha & Ha' & Hww) | [Hsame _]].
      * rewrite Ha, Ha'. destruct (Hsubs name x Hin) as (_ & Htx & _).
        destruct Hww as (_ & Htx' & _).
        destruct x, x'; try discriminate; reflexivity.
      * rewrite Hsame. reflexivity.
    + destruct (String.eqb_spec k kk) as [-> | Hk].
      * rewrite Hfinal_kk, Hkk. destruct agg; [| reflexivity].
        destruct q; reflexivity.
      * rewrite (Hfinal_other k Hk).
        destruct (Hentry k Hk) as [(x & x' & Hin & Ha & Ha' & Hww) | [Hsame _]].
        -- rewrite Ha, Ha'. destruct Hww as (_ & _ & Hframe & _). apply Hframe. exact Hname.
        -- rewrite Hsame. reflexivity.
  - intros p bs0 items0 Hnode. destruct p as [ | k p ]; cbn [app leaf_at].
    + cbn in Hnode. inversion Hnode; subst bs0 items0. rewrite Hfinal_kk.
      unfold stored_whole_at. cbn [is_Some orb] in Hsome. rewrite <- Hsome.
      destruct agg as [a|]; cbn [is_Some]; [| reflexivity].
      destruct Hrows as (Hs & l & Hdl & Hl & Hrow).
      exists a, l. repeat split; try assumption.
    + cbn [node_at] in Hnode. destruct (assoc k items) as [x|] eqn:Ha; [| discriminate].
      assert (Hk : k <> kk) by (intros ->; congruence).
      rewrite (Hfinal_other k Hk).
      destruct (Hentry k Hk) as [(x0 & x' & Hin & Ha0 & Ha' & Hww) | [_ Hno]].
      * rewrite Ha in Ha0. inversion Ha0; subst x0. rewrite Ha'.
        destruct Hww as (_ & _ & _ & Hwrites). exact (Hwrites p bs0 items0 Hnode).
      * exfalso. exact (Hno x Ha p bs0 items0 Hnode).
Qed.

(** X26: without a spec, on a batch of nested [TensorDict]s with
    well-shaped done entries that has no entry named like the destination
    key, a call of the public [terminated_or_truncated] that reports true,
    or that is made with [write_full_false], leaves every leaf under
    another name as it was and stores under the destination key of every
    node that has done / terminated / truncated entries their element-wise
    or, in the shape of those entries (no dimension is dropped); a node
    without such entries gets nothing. *)
Theorem public_walk_writes_the_aggregate_of_every_node :
  forall (batch : value) (key : string) (write_full_false : bool),
    plain batch = true -> done_ready batch = true -> is_TensorDict batch = true ->
    fresh_key key batch ->
    exists b batch',
      terminated_or_truncated batch None (Some key) write_full_false = Ok (b, batch')
      /\ (b = true \/ write_full_false = true ->
          (forall q name, name <> key ->
             leaf_at batch' (q ++ [name]) = leaf_at batch (q ++ [name]))
          /\ forall p bs items,
               node_at batch p = Some (TensorDict bs items) ->
               stored_whole_at items (leaf_at batch' (p ++ [key]))).
Proof.
  intros batch kk wff Hp Hr Htd Hfresh.
  destruct (public_walk_writes_main kk (S (depth batch)) batch [] [] Hr Hp Htd
              (Nat.lt_succ_diag_r _) Hfresh) as (w & Hw & Hww).
  unfold terminated_or_truncated. rewrite Hw. cbn [bind].
  destruct Hww as (_ & _ & Hframe & Hwrites).
  destruct (eot w) eqn:Ee; cbn [negb andb].
  - exists true, (walked w). split; [reflexivity|]. intros _. split; assumption.
  - destruct wff; cbn [negb].
    + exists false, (walked w). split; [reflexivity|]. intros _. split; assumption.
    + exists false, (exclude (walked w) (written w)). split; [reflexivity|].
      intros [H | H]; discriminate H.
Qed.

Lemma public_walk_writes_witness :
  exists b batch',
    terminated_or_truncated shadowed_batch None (Some "_reset") true = Ok (b, batch')
    /\ (b = true \/ true = true ->
        (forall q name, name <> "_reset" ->
           leaf_at batch' (q ++ [name]) = leaf_at shadowed_batch (q ++ [name]))
        /\ forall p bs items,
             node_at shadowed_batch p = Some (TensorDict bs items) ->
             stored_whole_at items (leaf_at batch' (p ++ ["_reset"]))).
Proof.
  apply (public_walk_writes_the_aggregate_of_every_node shadowed_batch "_reset" true).
  - reflexivity.
  - reflexivity.
  - reflexivity.
  - intros p. apply fresh_keyb_spec. reflexivity.
Defined.

(* ====================================================================== *)
(** ** A walk that reports false leaves the batch as it was *)
(* ====================================================================== *)

Lemma leaf_at_exclude_key : forall k v path,
  k <> [] ->
  leaf_at (exclude_key k v) path = if prefixb k path then None else leaf_at v path.
Proof.
  induction k as [ | a rest IH ]; intros v path Hne; [congruence|].
  destruct v as [ | t | bs items | sd tds ].
  - destruct path; cbn; [reflexivity | destruct (_ && _); reflexivity].
  - destruct path; cbn; [reflexivity | destruct (_ && _); reflexivity].
  - destruct rest as [ | r rest ].
    + destruct path as [ | b q ]; [reflexivity|].
      cbn. destruct (String.eqb_spec a b) as [<- | Hab]; cbn.
      * rewrite assoc_del_same. reflexivity.
      * rewrite assoc_del_other by congruence. reflexivity.
    + change (exclude_key (a :: r :: rest) (TensorDict bs items))
        with (match assoc a items with
              | Some child => TensorDict bs (assoc_set a (exclude_key (r :: rest) child) items)
              | None => TensorDict bs items
              end).
      destruct path as [ | b q ]; [destruct (assoc a items); reflexivity|].
      cbn [prefixb]. destruct (String.eqb_spec a b) as [<- | Hab]; cbn [andb].
      * destruct (assoc a items) as [child|] eqn:Ha.
        -- cbn [leaf_at]. rewrite assoc_set_same, Ha. apply IH. discriminate.
        -- cbn [leaf_at]. rewrite Ha.
           destruct q as [ | k' q' ]; [reflexivity | destruct (_ && _); reflexivity].
      * destruct (assoc a items) as [child|] eqn:Ha; [| reflexivity].
        cbn [leaf_at]. rewrite assoc_set_other by congruence. reflexivity.
  - destruct path; cbn; [reflexivity | destruct (_ && _); reflexivity].
Qed.

Lemma leaf_at_exclude : forall ks v path,
  (forall k, In k ks -> k <> []) ->
  leaf_at (exclude v ks) path
    = if existsb (fun k => prefixb k path) ks then None else leaf_at v path.
Proof.
  unfold exclude. induction ks as [ | k ks IH ]; intros v path Hne; [reflexivity|].
  cbn [fold_left existsb]. rewrite IH by (intros k0 Hk0; apply Hne; right; exact Hk0).
  rewrite leaf_at_exclude_key by (apply Hne; left; reflexivity).
  destruct (prefixb k path), (existsb (fun k0 => prefixb k0 path) ks); reflexivity.
Qed.

Lemma exists_last_or_nil (path : NestedKey) :
  path = [] \/ exists q name, path = q ++ [name].
Proof.
  destruct path as [ | k path ]; [left; reflexivity | right].
  destruct (exists_last (l := k :: path)) as (q & name & E); [discriminate|].
  exists q, name. exact E.
Qed.

Lemma leaf_at_beyond : forall p v r, node_at v p = None -> leaf_at v (p ++ r) = None.
Proof.
  induction p as [ | k p IH ]; intros v r H; [discriminate|].
  destruct v as [ | t | bs items | sd tds ]; try reflexivity.
  cbn in H |- *. destruct (assoc k items) as [x|]; [apply IH; exact H | reflexivity].
Qed.

Lemma leaf_at_is_node : forall p v t, leaf_at v p = Some t -> node_at v p = Some (Tensor t).
Proof.
  induction p as [ | k p IH ]; intros v t H.
  - destruct v; try discriminate. cbn in H. inversion H. reflexivity.
  - destruct v as [ | | bs items | ]; try discriminate.
    cbn in H |- *. destruct (assoc k items) as [x|]; [apply IH; exact H | discriminate].
Qed.

(** Taking the recorded keys out of the walked batch gives back the leaves
    of a batch that had no entry named like the destination key. *)
Lemma exclusion_restores kk batch w :
  is_TensorDict batch = true -> is_TensorDict (walked w) = true ->
  fresh_key kk batch ->
  (forall q name, name <> kk ->
     leaf_at (walked w) (q ++ [name]) = leaf_at batch (q ++ [name])) ->
  walk_post (Some kk) batch [] [] w ->
  forall path, leaf_at (exclude (walked w) (written w)) path = leaf_at batch path.
Proof.
  intros Htd Htd' Hfresh Hframe (P & W & N & I) path.
  assert (Hform : forall k, In k (written w) -> exists p, k = p ++ [kk]).
  { intros k Hk. destruct (W k Hk) as [[] | (p & kk' & E & ->)].
    inversion E; subst kk'. exists p. reflexivity. }
  rewrite leaf_at_exclude.
  2:{ intros k Hk. destruct (Hform k Hk) as [p ->]. destruct p; discriminate. }
  destruct (existsb (fun k => prefixb k path) (written w)) eqn:Ex.
  - apply existsb_exists in Ex. destruct Ex as (k & Hk & Hpre).
    destruct (Hform k Hk) as [p ->]. apply prefixb_app in Hpre. destruct Hpre as [r ->].
    symmetry. apply leaf_at_beyond. apply Hfresh.
  - destruct (exists_last_or_nil path) as [-> | (q & name & ->)].
    + destruct batch, (walked w); try discriminate; reflexivity.
    + destruct (String.eqb_spec name kk) as [-> | Hname]; [| apply Hframe; exact Hname].
      rewrite <- (app_nil_r (q ++ [kk])) at 2.
      rewrite (leaf_at_beyond (q ++ [kk]) batch [] (Hfresh q)).
      destruct (leaf_at (walked w) (q ++ [kk])) as [t|] eqn:El; [| reflexivity].
      exfalso. apply leaf_at_is_node in El.
      destruct (N _ _ El) as [[y Hy] | Hin].
      * rewrite Hfresh in Hy. discriminate.
      * cbn [app] in Hin.
        assert (Ht : existsb (fun k => prefixb k (q ++ [kk])) (written w) = true).
        { apply existsb_exists. exists (q ++ [kk]). split; [exact Hin | apply prefixb_refl]. }
        congruence.
Qed.

Lemma store_aggregate_post key bs items agg any curr ks w :
  plain (TensorDict bs items) = true ->
  store_aggregate agg any (TensorDict bs items) key curr ks = Ok w ->
  walk_post key (TensorDict bs items) curr ks w.
Proof.
  intros Hp H. unfold store_aggregate in H.
  destruct agg as [a|]; [| inversion H; apply walk_post_refl; exact Hp].
  destruct key as [kk|]; [| inversion H; apply walk_post_refl; exact Hp].
  unfold set_tensor in H. cbn [batch_size_of bind] in H.
  destruct (is_prefix bs _); [| discriminate]. cbn in H. inversion H; subst w; clear H.
  unfold walk_post. cbn [walked written]. repeat split.
  - apply plain_assoc_set; [exact Hp | reflexivity].
  - intros k' Hk. apply in_app_or in Hk. destruct Hk as [Hk | [<- | []]]; [left; exact Hk|].
    right. exists [], kk. split; reflexivity.
  - intros q y Hq. destruct q as [ | k' q ]; [left; eexists; reflexivity|].
    rewrite node_at_assoc_set in Hq. destruct (String.eqb_spec k' kk) as [-> | Hne].
    + destruct q; [| discriminate]. right. apply in_or_app. right. left. reflexivity.
    + left. exists y. exact Hq.
  - apply incl_appl. apply incl_refl.
Qed.

Section PublicWalkInvariant.
Variable fuel : nat.
Variable key : option string.
Hypothesis IH : forall batch curr ks w,
  plain batch = true ->
  terminated_or_truncated_inner fuel batch None key curr ks = Ok w ->
  walk_post key batch curr ks w.

Lemma public_loop_post curr bs : forall l agg any items ks st,
  plain (TensorDict bs items) = true ->
  NoDup (map fst l) ->
  (forall k x, In (k, x) l -> assoc k items = Some x) ->
  foldM (public_step fuel key curr) l (agg, any, TensorDict bs items, ks) = Ok st ->
  exists agg' any' items' ks',
    st = (agg', any', TensorDict bs items', ks')
    /\ walk_post key (TensorDict bs items) curr ks
         (mkWalk any' (TensorDict bs items') ks').
Proof.
  induction l as [ | [k x] l IHl ]; intros agg any items ks st Hp Hnd Hin H.
  - inversion H; subst. exists agg, any, items, ks. split; [reflexivity|].
    apply walk_post_refl. exact Hp.
  - inversion Hnd as [ | ? ? Hnotin Hnd' ]; subst.
    assert (Hin' : forall k0 x0, In (k0, x0) l -> assoc k0 items = Some x0).
    { intros k0 x0 H0. apply Hin. right. exact H0. }
    cbn [foldM] in H. apply bind_Ok in H. destruct H as ([[[agg1 any1] d1] ks1] & H1 & H).
    assert (Hleaf : (done <- get_or_zeros (TensorDict bs items) k ;;
                     aggregate <- aggregate_or_tensor agg done ;;
                     Ok (aggregate, any, TensorDict bs items, ks))
                    = Ok (agg1, any1, d1, ks1) ->
                    any1 = any /\ d1 = TensorDict bs items /\ ks1 = ks).
    { intros E. apply bind_Ok in E. destruct E as (dn & _ & E).
      apply bind_Ok in E. destruct E as (a1 & _ & E). inversion E. auto. }
    unfold public_step in H1.
    destruct (String.eqb k "done").
    { destruct (Hleaf H1) as (-> & -> & ->).
      exact (IHl _ _ _ _ st Hp Hnd' Hin' H). }
    destruct (String.eqb k "terminated" || String.eqb k "truncated").
    { destruct (Hleaf H1) as (-> & -> & ->).
      exact (IHl _ _ _ _ st Hp Hnd' Hin' H). }
    destruct (is_tensor_collection x).
    + apply bind_Ok in H1. destruct H1 as (wc & Hw & H1).
      cbn [_set_str bind] in H1. inversion H1; subst agg1 any1 d1 ks1; clear H1.
      pose proof (Hin k x (or_introl eq_refl)) as Ha.
      pose proof (IH x (curr ++ [k]) ks wc (plain_assoc _ _ _ _ Hp Ha) Hw) as Hpost.
      pose proof (walk_post_child key bs items curr ks k x wc (any || eot wc) Hp Ha Hpost)
        as Hstep.
      assert (P : plain (TensorDict bs (assoc_set k (walked wc) items)) = true).
      { destruct Hstep as (P & _). exact P. }
      destruct (IHl agg (any || eot wc) (assoc_set k (walked wc) items) (written wc) st
                  P Hnd') as (agg' & any' & items' & ks' & E & Hrest); [| exact H |].
      { intros k0 x0 H0. rewrite assoc_set_other; [apply Hin'; exact H0|].
        intros ->. apply Hnotin. apply (in_map fst) in H0. exact H0. }
      exists agg', any', items', ks'. split; [exact E|].
      eapply walk_post_trans; [exact Hstep | exact Hrest].
    + inversion H1; subst agg1 any1 d1 ks1.
      exact (IHl _ _ _ _ st Hp Hnd' Hin' H).
Qed.
End PublicWalkInvariant.

Lemma public_walk_invariant key : forall fuel batch curr ks w,
  plain batch = true ->
  terminated_or_truncated_inner fuel batch None key curr ks = Ok w ->
  walk_post key batch curr ks w.
Proof.
  induction fuel as [ | fuel IH ]; intros batch curr ks w Hp H; [discriminate|].
  rewrite public_inner_unfold in H.
  destruct batch as [ | t | bs items | sd tds ]; try discriminate.
  pose proof Hp as Hp'. cbn in Hp'. rewrite andb_true_iff in Hp'.
  destruct Hp' as [Hnd _]. apply nodupb_NoDup in Hnd.
  cbn [items_of bind] in H.
  apply bind_Ok in H. destruct H as ([[[agg any] d] ks'] & Hl & H).
  destruct (public_loop_post fuel key IH curr bs items None false items ks
              (agg, any, d, ks') Hp Hnd (fun k x Hin => In_assoc_nodup k x items Hnd Hin) Hl)
    as (agg' & any' & items' & ks2 & E & Hpost).
  inversion E; subst agg any d ks'.
  eapply walk_post_trans; [exact Hpost|]. cbn [walked written].
  eapply store_aggregate_post; [| exact H]. destruct Hpost as (P & _). exact P.
Qed.

(** X27: without a spec, on a batch of nested [TensorDict]s with
    well-shaped done entries that has no entry named like the destination
    key, a call of [_terminated_or_truncated] without [write_full_false]
    that reports false gives the batch back as it was: every leaf is the
    one it was, and none is added. *)
Theorem a_false_walk_leaves_the_batch_as_it_was :
  forall (batch : value) (key : string),
    plain batch = true -> done_ready batch = true -> is_TensorDict batch = true ->
    fresh_key key batch ->
    exists b batch',
      _terminated_or_truncated batch None (Some key) false = Ok (b, batch')
      /\ (b = false -> forall path, leaf_at batch' path = leaf_at batch path).
Proof.
  intros batch kk Hp Hr Htd Hfresh.
  destruct (walk_writes_main kk (S (depth batch)) batch [] [] Hr Hp Htd
              (Nat.lt_succ_diag_r _) Hfresh) as (w & Hw & Hww).
  pose proof (walk_invariant (Some kk) _ _ _ _ _ _ Hp Hw) as Hpost.
  unfold _terminated_or_truncated. rewrite Hw. cbn [bind].
  destruct Hww as (_ & Htd' & Hframe & _).
  destruct (eot w) eqn:Ee; cbn [negb andb].
  - exists true, (walked w). split; [reflexivity | discriminate].
  - exists false, (exclude (walked w) (written w)). split; [reflexivity|].
    intros _. apply (exclusion_restores kk); assumption.
Qed.

Lemma a_false_walk_witness :
  exists b batch',
    _terminated_or_truncated shadowed_batch None (Some "_reset") false = Ok (b, batch')
    /\ (b = false -> forall path, leaf_at batch' path = leaf_at shadowed_batch path).
Proof.
  apply (a_false_walk_leaves_the_batch_as_it_was shadowed_batch "_reset").
  - reflexivity.
  - reflexivity.
  - reflexivity.
  - intros p. apply fresh_keyb_spec. reflexivity.
Defined.

(** A batch none of whose done entries is true. *)
Definition quiet_batch : value :=
  TensorDict []
    [("done", Tensor (mkTensor [1] (Bools [false])));
     ("observation", Tensor f0);
     ("nested", TensorDict [] [("done", Tensor (mkTensor [1] (Bools [false])))])].

(** X28: the same holds of the public [terminated_or_truncated]: on such a
    batch a call without [write_full_false] that reports false gives the
    batch back as it was, every leaf the one it was and none added. *)
Theorem a_false_public_walk_leaves_the_batch_as_it_was :
  forall (batch : value) (key : string),
    plain batch = true -> done_ready batch = true -> is_TensorDict batch = true ->
    fresh_key key batch ->
    exists b batch',
      terminated_or_truncated batch None (Some key) false = Ok (b, batch')
      /\ (b = false -> forall path, leaf_at batch' path = leaf_at batch path).
Proof.
  intros batch kk Hp Hr Htd Hfresh.
  destruct (public_walk_writes_main kk (S (depth batch)) batch [] [] Hr Hp Htd
              (Nat.lt_succ_diag_r _) Hfresh) as (w & Hw & Hww).
  pose proof (public_walk_invariant (Some kk) _ _ _ _ _ Hp Hw) as Hpost.
  unfold terminated_or_truncated. rewrite Hw. cbn [bind].
  destruct Hww as (_ & Htd' & Hframe & _).
  destruct (eot w) eqn:Ee; cbn [negb andb].
  - exists true, (walked w). split; [reflexivity | discriminate].
  - exists false, (exclude (walked w) (written w)). split; [reflexivity|].
    intros _. apply (exclusion_restores kk); assumption.
Qed.

Lemma a_false_public_walk_witness :
  exists b batch',
    terminated_or_truncated quiet_batch None (Some "_reset") false = Ok (b, batch')
    /\ (b = false -> forall path, leaf_at batch' path = leaf_at quiet_batch path).
Proof.
  apply (a_false_public_walk_leaves_the_batch_as_it_was quiet_batch "_reset").
  - reflexivity.
  - reflexivity.
  - reflexivity.
  - intros p. apply fresh_keyb_spec. reflexivity.
Defined.
